(** * A red-black tree with parent pointers: model and verification

    The Go package [rbtree] keeps its nodes on the heap and links them by
    pointers.  The model keeps the nodes in a list of cells addressed by their
    index; a pointer is an optional address.  Dereferencing nil aborts the
    run ([Panic]); recursion and loops run on fuel. *)

From Stdlib Require Import ZArith Lia List String Ascii Sorted Permutation.
From stdpp Require Import base list sets sorting pretty.
Local Open Scope Z_scope.

(** * A shallow embedding of the generic red-black tree package [rbtree]

    The Go package keeps its nodes in the garbage-collected heap and links
    them with [left], [right] and [parent] pointers; every operation works by
    pointer surgery.  The embedding keeps that shape: a heap is a list of
    node records, a pointer is an optional index into it, and each Go
    function is a function over heaps written statement by statement.
    Dereferencing [nil] (or calling a nil func value) is the outcome [Panic];
    recursion and loops are bounded by a fuel argument, and running out of it
    is the separate outcome [OutOfFuel], which the theorems show unreachable. *)



(** ** Outcomes of a call *)

Inductive result (A : Type) : Type :=
| Ok (a : A)
| Panic
| OutOfFuel.
Arguments Ok {A} a.
Arguments Panic {A}.
Arguments OutOfFuel {A}.

Definition bind {A B : Type} (m : result A) (k : A -> result B) : result B :=
  match m with
  | Ok a => k a
  | Panic => Panic
  | OutOfFuel => OutOfFuel
  end.

Notation "'let*' x ':=' m 'in' k" := (bind m (fun x => k))
  (at level 10, x name, m at level 100, k at level 200).
Notation "'let*' ' p ':=' m 'in' k" := (bind m (fun x => match x with p => k end))
  (at level 10, p pattern, m at level 100, k at level 200).

(** Go's [int] on a 64-bit platform: [++] and [--] wrap around. *)
Definition wrap (z : Z) : Z := (z + 2 ^ 63) mod 2 ^ 64 - 2 ^ 63.

(** ** Pointers, nodes and the heap *)

(** An address is an index into the heap; a pointer is an address or nil. *)
Abbreviation addr := nat.
Abbreviation ptr := (option addr).

Definition ptr_eqb (p q : ptr) : bool :=
  match p, q with
  | None, None => true
  | Some a, Some b => Nat.eqb a b
  | _, _ => false
  end.

Definition is_nil (p : ptr) : bool :=
  match p with None => true | Some _ => false end.

Section RBTree.

Context {T : Type}.

(** [RBNode]: the struct of the source, field for field. *)
Record RBNode : Type := mkNode {
  Val : T;
  left : ptr;
  right : ptr;
  parent : ptr;
  isBlack : bool
}.

(** The heap: cell [a] is the node at address [a]. *)
Local Abbreviation heap := (list RBNode).

Definition set_Val (v : T) (n : RBNode) := mkNode v (left n) (right n) (parent n) (isBlack n).
Definition set_left (p : ptr) (n : RBNode) := mkNode (Val n) p (right n) (parent n) (isBlack n).
Definition set_right (p : ptr) (n : RBNode) := mkNode (Val n) (left n) p (parent n) (isBlack n).
Definition set_parent (p : ptr) (n : RBNode) := mkNode (Val n) (left n) (right n) p (isBlack n).
Definition set_isBlack (b : bool) (n : RBNode) := mkNode (Val n) (left n) (right n) (parent n) b.

(** [load h p] reads [*p]; [store h p f] performs a field assignment
    through [p].  Both panic on nil. *)
Definition load (h : heap) (p : ptr) : result RBNode :=
  match p with
  | None => Panic
  | Some a => match h !! a with Some n => Ok n | None => Panic end
  end.

Definition store (h : heap) (p : ptr) (f : RBNode -> RBNode) : result heap :=
  match p with
  | None => Panic
  | Some a => match h !! a with Some n => Ok (<[a := f n]> h) | None => Panic end
  end.

(** [&RBNode[T]{...}]: a fresh cell at the end of the heap. *)
Definition alloc (h : heap) (n : RBNode) : ptr * heap := (Some (length h), h ++ [n]).

(** A call through a func value of type [func(T, T) int]. *)
Definition comparator := option (T -> T -> Z).

Definition call (cmp : comparator) (a b : T) : result Z :=
  match cmp with
  | None => Panic
  | Some f => Ok (f a b)
  end.

(** The recursion depth and loop counts of every operation are bounded by
    the number of cells, so this much fuel is always enough. *)
Definition fuel_of (h : heap) : nat := S (S (length h)).

(** ** Node methods *)

(** [leftmost] *)
Fixpoint leftmost (fuel : nat) (h : heap) (rbn : ptr) : result ptr :=
  match fuel with
  | O => OutOfFuel
  | S fuel =>
      let* n := load h rbn in
      if negb (is_nil (left n)) then leftmost fuel h (left n)
      else Ok rbn
  end.

(** [rightmost] *)
Fixpoint rightmost (fuel : nat) (h : heap) (rbn : ptr) : result ptr :=
  match fuel with
  | O => OutOfFuel
  | S fuel =>
      let* n := load h rbn in
      if negb (is_nil (right n)) then rightmost fuel h (right n)
      else Ok rbn
  end.

(** The [for] loop of [Next]: climb while the node is a right child. *)
Fixpoint Next_loop (fuel : nat) (h : heap) (rbn : ptr) : result ptr :=
  match fuel with
  | O => OutOfFuel
  | S fuel =>
      let* n := load h rbn in
      if is_nil (parent n) then Ok rbn
      else
        let* p := load h (parent n) in
        if ptr_eqb (right p) rbn then Next_loop fuel h (parent n)
        else Ok rbn
  end.

(** [Next] *)
Definition Next (h : heap) (rbn : ptr) : result (ptr * bool) :=
  let* n := load h rbn in
  if negb (is_nil (right n)) then
    let* l := leftmost (fuel_of h) h (right n) in
    Ok (l, true)
  else
    let* rbn := Next_loop (fuel_of h) h rbn in
    let* n := load h rbn in
    Ok (parent n, negb (is_nil (parent n))).

(** The [for] loop of [Prev]: climb while the node is a left child. *)
Fixpoint Prev_loop (fuel : nat) (h : heap) (rbn : ptr) : result ptr :=
  match fuel with
  | O => OutOfFuel
  | S fuel =>
      let* n := load h rbn in
      if is_nil (parent n) then Ok rbn
      else
        let* p := load h (parent n) in
        if ptr_eqb (left p) rbn then Prev_loop fuel h (parent n)
        else Ok rbn
  end.

(** [Prev] *)
Definition Prev (h : heap) (rbn : ptr) : result (ptr * bool) :=
  let* n := load h rbn in
  if negb (is_nil (left n)) then
    let* l := rightmost (fuel_of h) h (left n) in
    Ok (l, true)
  else
    let* rbn := Prev_loop (fuel_of h) h rbn in
    let* n := load h rbn in
    Ok (parent n, negb (is_nil (parent n))).

(** [clone] *)
Fixpoint clone (fuel : nat) (h : heap) (rbn : ptr) : result (ptr * heap) :=
  match fuel with
  | O => OutOfFuel
  | S fuel =>
      let* n := load h rbn in
      let '(newNode, h) := alloc h (mkNode (Val n) None None None (isBlack n)) in
      let* n := load h rbn in
      let* h := (if negb (is_nil (left n)) then
                   let* '(c, h) := clone fuel h (left n) in
                   let* h := store h newNode (set_left c) in
                   let* nn := load h newNode in
                   store h (left nn) (set_parent newNode)
                 else Ok h) in
      let* n := load h rbn in
      let* h := (if negb (is_nil (right n)) then
                   let* '(c, h) := clone fuel h (right n) in
                   let* h := store h newNode (set_right c) in
                   let* nn := load h newNode in
                   store h (right nn) (set_parent newNode)
                 else Ok h) in
      Ok (newNode, h)
  end.

(** [leftSubtreeIsValid]; [isValid] is passed as [rec], and the cell behind
    [*initialBlackHeight] is threaded through as the first component. *)
Definition leftSubtreeIsValid (rec : ptr -> Z -> Z -> result (Z * (Z * bool)))
    (h : heap) (rbn : ptr) (initialBlackHeight currentBlackHeight : Z)
    (cmp : comparator) : result (Z * (Z * bool)) :=
  let* n := load h rbn in
  if is_nil (left n) then Ok (initialBlackHeight, (currentBlackHeight, true))
  else
    let* l := load h (left n) in
    if negb (ptr_eqb (parent l) rbn) then Ok (initialBlackHeight, (0, false))
    else
      let* c := call cmp (Val n) (Val l) in
      if c <=? 0 then Ok (initialBlackHeight, (0, false))
      else rec (left n) initialBlackHeight currentBlackHeight.

(** [rightSubtreeIsValid] *)
Definition rightSubtreeIsValid (rec : ptr -> Z -> Z -> result (Z * (Z * bool)))
    (h : heap) (rbn : ptr) (initialBlackHeight currentBlackHeight : Z)
    (cmp : comparator) : result (Z * (Z * bool)) :=
  let* n := load h rbn in
  if is_nil (right n) then Ok (initialBlackHeight, (currentBlackHeight, true))
  else
    let* r := load h (right n) in
    if negb (ptr_eqb (parent r) rbn) then Ok (initialBlackHeight, (0, false))
    else
      let* c := call cmp (Val n) (Val r) in
      if c >=? 0 then Ok (initialBlackHeight, (0, false))
      else rec (right n) initialBlackHeight currentBlackHeight.

(** [isValid]: returns the updated [*initialBlackHeight], the black height
    and the verdict. *)
Fixpoint isValid (fuel : nat) (h : heap) (cmp : comparator) (rbn : ptr)
    (initialBlackHeight currentBlackHeight : Z) : result (Z * (Z * bool)) :=
  match fuel with
  | O => OutOfFuel
  | S fuel =>
      let* n := load h rbn in
      let* colour := (if isBlack n then Ok (Some (wrap (currentBlackHeight + 1)))
                 else
                   let* p := load h (parent n) in
                   if negb (isBlack p) then Ok None else Ok (Some currentBlackHeight)) in
      match colour with
      | None => Ok (initialBlackHeight, (0, false))
      | Some currentBlackHeight =>
          let rest (initialBlackHeight : Z) :=
            let* '(initialBlackHeight, (leftBlackHeight, ok)) :=
              leftSubtreeIsValid (isValid fuel h cmp) h rbn initialBlackHeight currentBlackHeight cmp in
            if negb ok then Ok (initialBlackHeight, (0, false))
            else
              let* '(initialBlackHeight, (rightBlackHeight, ok)) :=
                rightSubtreeIsValid (isValid fuel h cmp) h rbn initialBlackHeight currentBlackHeight cmp in
              if negb ok || negb (leftBlackHeight =? rightBlackHeight)
              then Ok (initialBlackHeight, (0, false))
              else Ok (initialBlackHeight, (Z.max leftBlackHeight currentBlackHeight, true)) in
          if is_nil (left n) && is_nil (right n) then
            if initialBlackHeight =? 0 then Ok (currentBlackHeight, (currentBlackHeight, true))
            else if negb (initialBlackHeight =? currentBlackHeight)
                 then Ok (initialBlackHeight, (0, false))
                 else rest initialBlackHeight
          else rest initialBlackHeight
      end
  end.

(** [equalTo] *)
Fixpoint equalTo (fuel : nat) (h : heap) (cmp : comparator)
    (rbn anotherRBN : ptr) : result bool :=
  match fuel with
  | O => OutOfFuel
  | S fuel =>
      if is_nil anotherRBN then Ok false
      else
        let* n := load h rbn in
        let* m := load h anotherRBN in
        let* c := call cmp (Val n) (Val m) in
        if negb (c =? 0) || negb (Bool.eqb (isBlack n) (isBlack m)) then Ok false
        else
          let* l := (if negb (is_nil (left n)) then
                  let* e := equalTo fuel h cmp (left n) (left m) in Ok (negb e)
                else Ok false) in
          if l then Ok false
          else if is_nil (left n) && negb (is_nil (left m)) then Ok false
          else
            let* r := (if negb (is_nil (right n)) then
                    let* e := equalTo fuel h cmp (right n) (right m) in Ok (negb e)
                  else Ok false) in
            if r then Ok false
            else if is_nil (right n) && negb (is_nil (right m)) then Ok false
            else Ok true
  end.

(** [insert]: the node, the flag and the heap after the call. *)
Fixpoint insert (fuel : nat) (h : heap) (cmp : comparator) (rbn : ptr) (val : T)
  : result (ptr * bool * heap) :=
  match fuel with
  | O => OutOfFuel
  | S fuel =>
      let* n := load h rbn in
      let* res := call cmp val (Val n) in
      if res <? 0 then
        if is_nil (left n) then
          let '(new, h) := alloc h (mkNode val None None rbn false) in
          let* h := store h rbn (set_left new) in
          let* n := load h rbn in
          Ok (left n, true, h)
        else insert fuel h cmp (left n) val
      else if res >? 0 then
        if is_nil (right n) then
          let '(new, h) := alloc h (mkNode val None None rbn false) in
          let* h := store h rbn (set_right new) in
          let* n := load h rbn in
          Ok (right n, true, h)
        else insert fuel h cmp (right n) val
      else Ok (rbn, false, h)
  end.

(** [find] *)
Fixpoint find (fuel : nat) (h : heap) (cmp : comparator) (rbn : ptr) (val : T)
  : result (ptr * bool) :=
  match fuel with
  | O => OutOfFuel
  | S fuel =>
      let* n := load h rbn in
      let* res := call cmp val (Val n) in
      if res <? 0 then
        if is_nil (left n) then Ok (None, false)
        else find fuel h cmp (left n) val
      else if res >? 0 then
        if is_nil (right n) then Ok (None, false)
        else find fuel h cmp (right n) val
      else Ok (rbn, true)
  end.

(** [isBlack(rbn)], the free function: true for nil and for black nodes. *)
Definition isBlackOrNil (h : heap) (rbn : ptr) : result bool :=
  if is_nil rbn then Ok true
  else let* n := load h rbn in Ok (isBlack n).

(** [recString]: [fmt.Sprintln(a, b)] writes [a], a space, [b] and a newline;
    [strings.Repeat] panics on a negative count.  [show] is the [%v]
    formatting of a value of type [T]. *)
Definition newline : string := String (ascii_of_nat 10) EmptyString.

Fixpoint repeat_string (s : string) (n : nat) : string :=
  match n with
  | O => EmptyString
  | S n => (s ++ repeat_string s n)%string
  end.

Fixpoint recString (fuel : nat) (show : T -> string) (h : heap) (rbn : ptr)
    (res : string) (counter : Z) : result string :=
  match fuel with
  | O => OutOfFuel
  | S fuel =>
      let* n := load h rbn in
      let* res := (if negb (is_nil (right n))
                   then recString fuel show h (right n) res (wrap (counter + 1))
                   else Ok res) in
      let* n := load h rbn in
      let* res := (if counter <? 0 then Panic
                   else Ok (res ++ repeat_string " " (Z.to_nat counter) ++ " "
                                ++ show (Val n) ++ newline)%string) in
      let* n := load h rbn in
      if negb (is_nil (left n))
      then recString fuel show h (left n) res (wrap (counter + 1))
      else Ok res
  end.

(** ** The tree handle *)

Record RBTree : Type := mkTree {
  root : ptr;
  cmp : comparator;
  Min : ptr;
  Max : ptr;
  Count : Z
}.

Definition set_root (p : ptr) (t : RBTree) := mkTree p (cmp t) (Min t) (Max t) (Count t).
Definition set_Min (p : ptr) (t : RBTree) := mkTree (root t) (cmp t) p (Max t) (Count t).
Definition set_Max (p : ptr) (t : RBTree) := mkTree (root t) (cmp t) (Min t) p (Count t).
Definition set_Count (c : Z) (t : RBTree) := mkTree (root t) (cmp t) (Min t) (Max t) c.

(** [New] *)
Definition New (cmp : comparator) : RBTree := mkTree None cmp None None 0.

(** [Clone] *)
Definition Clone (rbt : RBTree) (h : heap) : result (RBTree * heap) :=
  if is_nil (root rbt) then Ok (New (cmp rbt), h)
  else
    let* '(r, h) := clone (fuel_of h) h (root rbt) in
    let tree := mkTree r (cmp rbt) None None (Count rbt) in
    let* mn := leftmost (fuel_of h) h (root tree) in
    let tree := set_Min mn tree in
    let* mx := rightmost (fuel_of h) h (root tree) in
    let tree := set_Max mx tree in
    Ok (tree, h).

(** The counting loop of [IsValid]: [for i, ok := rbt.Min, true; ok; i, ok = i.Next()]. *)
Fixpoint IsValid_loop (fuel : nat) (h : heap) (i : ptr) (count : Z) : result Z :=
  match fuel with
  | O => OutOfFuel
  | S fuel =>
      let count := wrap (count + 1) in
      let* '(i, ok) := Next h i in
      if ok then IsValid_loop fuel h i count else Ok count
  end.

(** [IsValid] *)
Definition IsValid (rbt : RBTree) (h : heap) : result bool :=
  if match cmp rbt with None => true | Some _ => false end then Ok false
  else if is_nil (root rbt) then
    Ok (is_nil (Min rbt) && is_nil (Max rbt) && (Count rbt =? 0))
  else
    let* r := load h (root rbt) in
    if negb (is_nil (parent r)) || negb (isBlack r) then Ok false
    else
      let* '(_, (_, isValid)) := isValid (fuel_of h) h (cmp rbt) (root rbt) 0 0 in
      let* bad := (if negb isValid then Ok true
                   else
                     let* l := leftmost (fuel_of h) h (root rbt) in
                     if negb (ptr_eqb (Min rbt) l) then Ok true
                     else
                       let* m := rightmost (fuel_of h) h (root rbt) in
                       Ok (negb (ptr_eqb (Max rbt) m))) in
      if bad then Ok false
      else
        let* count := IsValid_loop (fuel_of h) h (Min rbt) 0 in
        Ok (count =? Count rbt).

(** [EqualTo]; [anotherRBT] is a pointer and may be nil. *)
Definition EqualTo (rbt : RBTree) (anotherRBT : option RBTree) (h : heap) : result bool :=
  match anotherRBT with
  | None => Ok false
  | Some anotherRBT =>
      if is_nil (root rbt) && is_nil (root anotherRBT) then Ok true
      else if is_nil (root rbt) || is_nil (root anotherRBT) then Ok false
      else if negb (Count rbt =? Count anotherRBT) then Ok false
      else equalTo (fuel_of h) h (cmp rbt) (root rbt) (root anotherRBT)
  end.

(** [rotateRight] *)
Definition rotateRight (rbt : RBTree) (h : heap) (rbn : ptr) : result (RBTree * heap) :=
  let* rbt := (if ptr_eqb (root rbt) rbn
               then let* n := load h rbn in Ok (set_root (left n) rbt)
               else Ok rbt) in
  let* n := load h rbn in
  let* h := store h (left n) (set_parent (parent n)) in
  let* n := load h rbn in
  let* h := store h rbn (set_parent (left n)) in
  let* n := load h rbn in
  let* p := load h (parent n) in
  let* h := store h rbn (set_left (right p)) in
  let* n := load h rbn in
  let* h := (if negb (is_nil (left n)) then store h (left n) (set_parent rbn) else Ok h) in
  let* n := load h rbn in
  let* h := store h (parent n) (set_right rbn) in
  let* n := load h rbn in
  let* p := load h (parent n) in
  let* h := (if negb (is_nil (parent p)) then
               let* pp := load h (parent p) in
               if ptr_eqb (left pp) rbn
               then store h (parent p) (set_left (parent n))
               else store h (parent p) (set_right (parent n))
             else Ok h) in
  Ok (rbt, h).

(** [rotateLeft] *)
Definition rotateLeft (rbt : RBTree) (h : heap) (rbn : ptr) : result (RBTree * heap) :=
  let* rbt := (if ptr_eqb (root rbt) rbn
               then let* n := load h rbn in Ok (set_root (right n) rbt)
               else Ok rbt) in
  let* n := load h rbn in
  let* h := store h (right n) (set_parent (parent n)) in
  let* n := load h rbn in
  let* h := store h rbn (set_parent (right n)) in
  let* n := load h rbn in
  let* p := load h (parent n) in
  let* h := store h rbn (set_right (left p)) in
  let* n := load h rbn in
  let* h := (if negb (is_nil (right n)) then store h (right n) (set_parent rbn) else Ok h) in
  let* n := load h rbn in
  let* h := store h (parent n) (set_left rbn) in
  let* n := load h rbn in
  let* p := load h (parent n) in
  let* h := (if negb (is_nil (parent p)) then
               let* pp := load h (parent p) in
               if ptr_eqb (left pp) rbn
               then store h (parent p) (set_left (parent n))
               else store h (parent p) (set_right (parent n))
             else Ok h) in
  Ok (rbt, h).

(** [solveDoubleRed] *)
Fixpoint solveDoubleRed (fuel : nat) (rbt : RBTree) (h : heap) (rbn : ptr)
  : result (RBTree * heap) :=
  match fuel with
  | O => OutOfFuel
  | S fuel =>
      let* n := load h rbn in
      let* p := load h (parent n) in
      let* siblingLeftBlack := isBlackOrNil h (left p) in
      if siblingLeftBlack then
        let* n := load h rbn in
        let* b := isBlackOrNil h (left n) in
        let* '(rbt, h, rbn) :=
          (if negb b then
             let* '(rbt, h) := rotateRight rbt h rbn in
             let* n := load h rbn in
             Ok (rbt, h, parent n)
           else Ok (rbt, h, rbn)) in
        let* n := load h rbn in
        let* h := store h (parent n) (set_isBlack false) in
        let* h := store h rbn (set_isBlack true) in
        let* n := load h rbn in
        rotateLeft rbt h (parent n)
      else
        let* n := load h rbn in
        let* p := load h (parent n) in
        let* siblingRightBlack := isBlackOrNil h (right p) in
        if siblingRightBlack then
          let* n := load h rbn in
          let* b := isBlackOrNil h (right n) in
          let* '(rbt, h, rbn) :=
            (if negb b then
               let* '(rbt, h) := rotateLeft rbt h rbn in
               let* n := load h rbn in
               Ok (rbt, h, parent n)
             else Ok (rbt, h, rbn)) in
          let* n := load h rbn in
          let* h := store h (parent n) (set_isBlack false) in
          let* h := store h rbn (set_isBlack true) in
          let* n := load h rbn in
          rotateRight rbt h (parent n)
        else
          let* n := load h rbn in
          let* p := load h (parent n) in
          let* h := store h (left p) (set_isBlack true) in
          let* n := load h rbn in
          let* p := load h (parent n) in
          let* h := store h (right p) (set_isBlack true) in
          let* n := load h rbn in
          let* p := load h (parent n) in
          if negb (is_nil (parent p)) then
            let* h := store h (parent n) (set_isBlack false) in
            let* n := load h rbn in
            let* p := load h (parent n) in
            let* pp := load h (parent p) in
            if negb (isBlack pp) then solveDoubleRed fuel rbt h (parent p)
            else Ok (rbt, h)
          else Ok (rbt, h)
  end.

(** [doubleBlackBlackSiblingRedChild] *)
Definition doubleBlackBlackSiblingRedChild (rbt : RBTree) (h : heap)
    (parent sibling : ptr) (siblingIsRight : bool) : result (RBTree * heap) :=
  let* s := load h sibling in
  let* rightIsBlack := isBlackOrNil h (right s) in
  let* s := load h sibling in
  let* leftIsBlack := isBlackOrNil h (left s) in
  let* '(rbt, h, sibling, rightIsBlack, leftIsBlack) :=
    (if Bool.eqb rightIsBlack siblingIsRight && negb (Bool.eqb leftIsBlack siblingIsRight) then
       let* h := store h sibling (set_isBlack false) in
       let* '(rbt, h, sibling) :=
         (if siblingIsRight then
            let* s := load h sibling in
            let* h := store h (left s) (set_isBlack true) in
            let* '(rbt, h) := rotateRight rbt h sibling in
            let* p := load h parent in
            Ok (rbt, h, right p)
          else
            let* s := load h sibling in
            let* h := store h (right s) (set_isBlack true) in
            let* '(rbt, h) := rotateLeft rbt h sibling in
            let* p := load h parent in
            Ok (rbt, h, left p)) in
       let* s := load h sibling in
       let* rightIsBlack := isBlackOrNil h (right s) in
       let* s := load h sibling in
       let* leftIsBlack := isBlackOrNil h (left s) in
       Ok (rbt, h, sibling, rightIsBlack, leftIsBlack)
     else Ok (rbt, h, sibling, rightIsBlack, leftIsBlack)) in
  let* p := load h parent in
  let* h := store h sibling (set_isBlack (isBlack p)) in
  let* h := store h parent (set_isBlack true) in
  if siblingIsRight && negb rightIsBlack then
    let* s := load h sibling in
    let* h := store h (right s) (set_isBlack true) in
    rotateLeft rbt h parent
  else if negb siblingIsRight && negb leftIsBlack then
    let* s := load h sibling in
    let* h := store h (left s) (set_isBlack true) in
    rotateRight rbt h parent
  else Ok (rbt, h).

(** [solveDoubleBlack] *)
Fixpoint solveDoubleBlack (fuel : nat) (rbt : RBTree) (h : heap) (rbn : ptr)
  : result (RBTree * heap) :=
  match fuel with
  | O => OutOfFuel
  | S fuel =>
      if ptr_eqb (root rbt) rbn then Ok (rbt, h)
      else
        let* n := load h rbn in
        let parent := parent n in
        let* p := load h parent in
        let* rightSibling :=
          (if ptr_eqb (left p) rbn then Ok true
           else
             let* p := load h parent in
             if negb (is_nil (right p)) then
               let* p := load h parent in Ok (negb (ptr_eqb (right p) rbn))
             else Ok false) in
        let* p := load h parent in
        let '(siblingIsRight, sibling) :=
          if rightSibling then (true, right p) else (false, left p) in
        let* redSibling :=
          (if negb (is_nil sibling)
           then let* s := load h sibling in Ok (negb (isBlack s))
           else Ok false) in
        let* '(rbt, h, sibling) :=
          (if redSibling then
             let* h := store h parent (set_isBlack false) in
             let* h := store h sibling (set_isBlack true) in
             if siblingIsRight then
               let* '(rbt, h) := rotateLeft rbt h parent in
               let* p := load h parent in
               Ok (rbt, h, right p)
             else
               let* '(rbt, h) := rotateRight rbt h parent in
               let* p := load h parent in
               Ok (rbt, h, left p)
           else Ok (rbt, h, sibling)) in
        let* s := load h sibling in
        let* blackFamily :=
          (if isBlack s then
             let* bl := isBlackOrNil h (left s) in
             if bl then
               let* s := load h sibling in isBlackOrNil h (right s)
             else Ok false
           else Ok false) in
        if blackFamily then
          let* h := store h sibling (set_isBlack false) in
          let* p := load h parent in
          if isBlack p then solveDoubleBlack fuel rbt h parent
          else
            let* h := store h parent (set_isBlack true) in
            Ok (rbt, h)
        else doubleBlackBlackSiblingRedChild rbt h parent sibling siblingIsRight
  end.

(** [deleteNoChildren] *)
Definition deleteNoChildren (rbt : RBTree) (h : heap) (rbn : ptr) : result (RBTree * heap) :=
  let* n := load h rbn in
  let* p := load h (parent n) in
  let* h := (if ptr_eqb (left p) rbn
             then store h (parent n) (set_left None)
             else store h (parent n) (set_right None)) in
  let* n := load h rbn in
  if isBlack n then solveDoubleBlack (fuel_of h) rbt h rbn
  else Ok (rbt, h).

(** [findAndDeleteLeftmost] *)
Fixpoint findAndDeleteLeftmost (fuel : nat) (rbt : RBTree) (h : heap) (rbn : ptr)
  : result (T * RBTree * heap) :=
  match fuel with
  | O => OutOfFuel
  | S fuel =>
      let* n := load h rbn in
      if negb (is_nil (left n)) then findAndDeleteLeftmost fuel rbt h (left n)
      else
        let* n := load h rbn in
        if negb (is_nil (right n)) then
          let* h := store h (right n) (set_parent (parent n)) in
          let* n := load h rbn in
          let* h := store h (right n) (set_isBlack true) in
          let* n := load h rbn in
          let* p := load h (parent n) in
          let* h := (if ptr_eqb (left p) rbn
                     then store h (parent n) (set_left (right n))
                     else store h (parent n) (set_right (right n))) in
          let* n := load h rbn in
          Ok (Val n, rbt, h)
        else
          let* '(rbt, h) := deleteNoChildren rbt h rbn in
          let* n := load h rbn in
          Ok (Val n, rbt, h)
  end.

(** [deleteCheckChildren] *)
Definition deleteCheckChildren (rbt : RBTree) (h : heap) (rbnDelete : ptr)
  : result (RBTree * heap) :=
  let* d := load h rbnDelete in
  let* '(rbt, h) :=
    (if is_nil (left d) && is_nil (right d) then deleteNoChildren rbt h rbnDelete
     else if is_nil (left d) then
       let* r := load h (right d) in
       let* h := store h rbnDelete (set_Val (Val r)) in
       let* h := store h rbnDelete (set_right None) in
       Ok (rbt, h)
     else if is_nil (right d) then
       let* l := load h (left d) in
       let* h := store h rbnDelete (set_Val (Val l)) in
       let* h := store h rbnDelete (set_left None) in
       Ok (rbt, h)
     else
       let* '(v, rbt, h) := findAndDeleteLeftmost (fuel_of h) rbt h (right d) in
       let* h := store h rbnDelete (set_Val v) in
       Ok (rbt, h)) in
  let* d := load h rbnDelete in
  let* mn := load h (Min rbt) in
  let* c := call (cmp rbt) (Val d) (Val mn) in
  let rbt := if c =? 0 then set_Min rbnDelete rbt else rbt in
  let* d := load h rbnDelete in
  let* mx := load h (Max rbt) in
  let* c := call (cmp rbt) (Val d) (Val mx) in
  let rbt := if c =? 0 then set_Max rbnDelete rbt else rbt in
  Ok (rbt, h).

(** [Insert] *)
Definition Insert (rbt : RBTree) (h : heap) (val : T)
  : result (ptr * bool * RBTree * heap) :=
  if is_nil (root rbt) then
    let '(r, h) := alloc h (mkNode val None None None true) in
    let rbt := set_root r rbt in
    let rbt := set_Min (root rbt) rbt in
    let rbt := set_Max (root rbt) rbt in
    let rbt := set_Count (wrap (Count rbt + 1)) rbt in
    Ok (root rbt, true, rbt, h)
  else
    let* '(insertedNode, ok, h) := insert (fuel_of h) h (cmp rbt) (root rbt) val in
    if negb ok then Ok (insertedNode, false, rbt, h)
    else
      let* mn := load h (Min rbt) in
      let* c := call (cmp rbt) val (Val mn) in
      let* rbt :=
        (if c <? 0 then Ok (set_Min insertedNode rbt)
         else
           let* mx := load h (Max rbt) in
           let* c := call (cmp rbt) val (Val mx) in
           if c >? 0 then Ok (set_Max insertedNode rbt) else Ok rbt) in
      let* n := load h insertedNode in
      let* p := load h (parent n) in
      let* '(rbt, h) :=
        (if negb (isBlack p) then solveDoubleRed (fuel_of h) rbt h (parent n)
         else Ok (rbt, h)) in
      let rbt := set_Count (wrap (Count rbt + 1)) rbt in
      Ok (insertedNode, true, rbt, h).

(** [String] *)
Definition String_ (show : T -> string) (rbt : RBTree) (h : heap) : result string :=
  if is_nil (root rbt) then Ok EmptyString
  else recString (fuel_of h) show h (root rbt) EmptyString 0.

(** [Find] *)
Definition Find (rbt : RBTree) (h : heap) (val : T) : result (ptr * bool) :=
  if is_nil (root rbt) then Ok (None, false)
  else find (fuel_of h) h (cmp rbt) (root rbt) val.

(** [Delete]; [zero] is the zero value of [T] ([var del T]). *)
Definition Delete (zero : T) (rbt : RBTree) (h : heap) (val : T)
  : result (T * bool * RBTree * heap) :=
  let del := zero in
  if is_nil (root rbt) then Ok (del, false, rbt, h)
  else
    let* '(rbnDelete, ok) := find (fuel_of h) h (cmp rbt) (root rbt) val in
    if negb ok then Ok (del, false, rbt, h)
    else
      let* d := load h rbnDelete in
      let val := Val d in
      let rbt := set_Count (wrap (Count rbt - 1)) rbt in
      if Count rbt =? 0 then
        let rbt := set_root None rbt in
        let rbt := set_Min None rbt in
        let rbt := set_Max None rbt in
        Ok (val, true, rbt, h)
      else
        let* mn := load h (Min rbt) in
        let* c := call (cmp rbt) val (Val mn) in
        let* rbt := (if c =? 0
                     then let* '(nx, _) := Next h (Min rbt) in Ok (set_Min nx rbt)
                     else Ok rbt) in
        let* mx := load h (Max rbt) in
        let* c := call (cmp rbt) val (Val mx) in
        let* rbt := (if c =? 0
                     then let* '(pv, _) := Prev h (Max rbt) in Ok (set_Max pv rbt)
                     else Ok rbt) in
        let* '(rbt, h) := deleteCheckChildren rbt h rbnDelete in
        Ok (val, true, rbt, h).

End RBTree.

Arguments RBNode : clear implicits.
Arguments RBTree : clear implicits.
Arguments comparator : clear implicits.
Arguments fuel_of {T} h : simpl never.

Abbreviation heap T := (list (RBNode T)).

(** ** The ordered instance: [NewOrdered[int]] with [cmp.Compare] *)

Definition Compare (x y : Z) : Z :=
  if x <? y then -1 else if x >? y then 1 else 0.

Definition NewOrdered : RBTree Z := New (Some Compare).

Definition show_int (z : Z) : string := pretty z.

(** * The abstraction: trees with addresses

    A heap region that forms a tree is described by an inductive tree whose
    nodes carry the address of their cell.  [Repr h par t] says that the
    cells of [t] are in [h] with exactly the links of [t], the root's
    [parent] field being [par].  A zipper ([ctx]) names a position inside
    the tree, which is what the repair procedures walk along through the
    [parent] pointers. *)

Section Abstraction.

Context {T : Type}.

Local Abbreviation node := (RBNode T).
Local Abbreviation heap := (list (RBNode T)).

Inductive tree : Type :=
| Leaf
| Node (a : addr) (c : bool) (l : tree) (v : T) (r : tree).

Definition rootptr (t : tree) : ptr :=
  match t with Leaf => None | Node a _ _ _ _ => Some a end.

Fixpoint addrs (t : tree) : list addr :=
  match t with
  | Leaf => []
  | Node a _ l _ r => a :: addrs l ++ addrs r
  end.

Fixpoint inorder (t : tree) : list (addr * T) :=
  match t with
  | Leaf => []
  | Node a _ l v r => inorder l ++ (a, v) :: inorder r
  end.

Fixpoint size (t : tree) : nat :=
  match t with
  | Leaf => O
  | Node _ _ l _ r => S (size l + size r)
  end.

Fixpoint height (t : tree) : nat :=
  match t with
  | Leaf => O
  | Node _ _ l _ r => S (Nat.max (height l) (height r))
  end.

(** Colour of the root; absent children count as black. *)
Definition isB (t : tree) : bool :=
  match t with Leaf => true | Node _ c _ _ _ => c end.

Fixpoint Repr (h : heap) (par : ptr) (t : tree) : Prop :=
  match t with
  | Leaf => True
  | Node a c l v r =>
      h !! a = Some (mkNode v (rootptr l) (rootptr r) par c)
      /\ Repr h (Some a) l /\ Repr h (Some a) r
  end.

Inductive ctx : Type :=
| Top
| CL (a : addr) (c : bool) (v : T) (up : ctx) (r : tree)
| CR (a : addr) (c : bool) (l : tree) (v : T) (up : ctx).

Fixpoint plug (k : ctx) (t : tree) : tree :=
  match k with
  | Top => t
  | CL a c v up r => plug up (Node a c t v r)
  | CR a c l v up => plug up (Node a c l v t)
  end.

Definition hole_par (k : ctx) : ptr :=
  match k with
  | Top => None
  | CL a _ _ _ _ => Some a
  | CR a _ _ _ _ => Some a
  end.

Fixpoint ctx_addrs (k : ctx) : list addr :=
  match k with
  | Top => []
  | CL a _ _ up r => a :: addrs r ++ ctx_addrs up
  | CR a _ l _ up => a :: addrs l ++ ctx_addrs up
  end.

Fixpoint ctx_before (k : ctx) : list (addr * T) :=
  match k with
  | Top => []
  | CL _ _ _ up _ => ctx_before up
  | CR a _ l v up => ctx_before up ++ inorder l ++ [(a, v)]
  end.

Fixpoint ctx_after (k : ctx) : list (addr * T) :=
  match k with
  | Top => []
  | CL a _ v up r => (a, v) :: inorder r ++ ctx_after up
  | CR _ _ _ _ up => ctx_after up
  end.

Fixpoint depth (k : ctx) : nat :=
  match k with
  | Top => O
  | CL _ _ _ up _ => S (depth up)
  | CR _ _ _ _ up => S (depth up)
  end.

(** The heap holds the tree [t], and no cell is used twice. *)
Definition Rep (h : heap) (t : tree) : Prop := Repr h None t /\ NoDup (addrs t).

Lemma inorder_plug k t : inorder (plug k t) = ctx_before k ++ inorder t ++ ctx_after k.
Proof.
  revert t; induction k as [|a c v up IH r|a c l v up IH]; intros t; simpl.
  - by rewrite app_nil_r.
  - rewrite IH. simpl. by rewrite <- !app_assoc.
  - rewrite IH. simpl. by rewrite <- !app_assoc.
Qed.

Lemma addrs_plug k t : addrs (plug k t) ≡ₚ addrs t ++ ctx_addrs k.
Proof.
  revert t; induction k as [|a c v up IH r|a c l v up IH]; intros t; simpl.
  - by rewrite app_nil_r.
  - rewrite IH. simpl. rewrite <- !app_assoc. apply Permutation_middle.
  - rewrite IH. simpl. rewrite <- !app_assoc.
    rewrite (Permutation_app_comm (addrs l) (addrs t ++ ctx_addrs up)).
    rewrite <- !app_assoc.
    rewrite <- Permutation_middle. constructor.
    apply Permutation_app_head, Permutation_app_comm.
Qed.

Lemma size_addrs t : length (addrs t) = size t.
Proof. induction t; simpl; [done|]. rewrite length_app. lia. Qed.

Lemma size_inorder t : length (inorder t) = size t.
Proof. induction t; simpl; [done|]. rewrite length_app. simpl. lia. Qed.

Lemma inorder_addrs t : map fst (inorder t) ≡ₚ addrs t.
Proof.
  induction t as [|a c l IHl v r IHr]; simpl; [done|].
  rewrite map_app. simpl. rewrite <- Permutation_middle, IHl, IHr. done.
Qed.

Lemma rootptr_plug k t t' : k <> Top -> rootptr (plug k t) = rootptr (plug k t').
Proof.
  revert t t'; induction k as [|a c v up IH r|a c l v up IH]; intros t t' Hk; simpl.
  - done.
  - destruct up; [done| apply IH; done ..].
  - destruct up; [done| apply IH; done ..].
Qed.

Lemma rootptr_plug_in k t a : k <> Top -> rootptr (plug k t) = Some a -> a ∈ ctx_addrs k.
Proof.
  revert t; induction k as [|b c v up IH r|b c l v up IH]; intros t Hk; simpl.
  - done.
  - destruct up as [| |]; [simpl; intros [= ->]; left | |];
      intros H; apply IH in H; try done; set_solver.
  - destruct up as [| |]; [simpl; intros [= ->]; left | |];
      intros H; apply IH in H; try done; set_solver.
Qed.

(** *** Frame and focus *)

Lemma Repr_frame h h' par t :
  Repr h par t -> (forall a, a ∈ addrs t -> h' !! a = h !! a) -> Repr h' par t.
Proof.
  revert par; induction t as [|a c l IHl v r IHr]; intros par; simpl; [done|].
  intros (Ha & Hl & Hr) Hfr. split_and!.
  - rewrite Hfr; [done | left].
  - apply IHl; [done|]. intros x Hx. apply Hfr. set_solver.
  - apply IHr; [done|]. intros x Hx. apply Hfr. set_solver.
Qed.

Lemma Repr_inner h k t : Repr h None (plug k t) -> Repr h (hole_par k) t.
Proof.
  revert t; induction k as [|a c v up IH r|a c l v up IH]; intros t; simpl.
  - done.
  - intros H. apply IH in H. simpl in H. tauto.
  - intros H. apply IH in H. simpl in H. tauto.
Qed.

Lemma Repr_lt h par t a : Repr h par t -> a ∈ addrs t -> (a < length h)%nat.
Proof.
  revert par; induction t as [|b c l IHl v r IHr]; intros par; simpl.
  - intros _ H. by apply elem_of_nil in H.
  - intros (Hb & Hl & Hr) Ha.
    apply elem_of_cons in Ha as [->|Ha]; [by eapply lookup_lt_Some|].
    apply elem_of_app in Ha as [Ha|Ha]; eauto.
Qed.

Lemma Repr_replace_same h h' k t t' :
  Repr h None (plug k t) ->
  Repr h' (hole_par k) t' ->
  rootptr t' = rootptr t ->
  (forall x, x ∈ ctx_addrs k -> h' !! x = h !! x) ->
  Repr h' None (plug k t').
Proof.
  revert t t'; induction k as [|a c v up IH r|a c l v up IH]; intros t t' H Ht' Hroot Hfr; simpl.
  - done.
  - simpl in H. pose proof (Repr_inner _ _ _ H) as (Ha & _ & Hr).
    apply (IH (Node a c t v r)); [done | | done |].
    + simpl. split_and!; [|done|].
      * rewrite Hfr, Ha, Hroot; [done| left].
      * eapply Repr_frame; [exact Hr|]. intros x Hx. apply Hfr. simpl. set_solver.
    + intros x Hx. apply Hfr. simpl. set_solver.
  - simpl in H. pose proof (Repr_inner _ _ _ H) as (Ha & Hl & _).
    apply (IH (Node a c l v t)); [done | | done |].
    + simpl. split_and!; [| |done].
      * rewrite Hfr, Ha, Hroot; [done| left].
      * eapply Repr_frame; [exact Hl|]. intros x Hx. apply Hfr. simpl. set_solver.
    + intros x Hx. apply Hfr. simpl. set_solver.
Qed.

(** What the parent cell of the hole must become when the subtree in the
    hole gets a new root. *)
Definition relink (k : ctx) (q : ptr) : node -> node :=
  match k with
  | Top => fun n => n
  | CL _ _ _ _ _ => set_left q
  | CR _ _ _ _ _ => set_right q
  end.

Lemma NoDup_plug k t : NoDup (addrs (plug k t)) <-> NoDup (addrs t ++ ctx_addrs k).
Proof. by rewrite addrs_plug. Qed.

Lemma Repr_replace h h' k t t' :
  Repr h None (plug k t) ->
  NoDup (ctx_addrs k) ->
  Repr h' (hole_par k) t' ->
  (forall x, x ∈ ctx_addrs k -> Some x <> hole_par k -> h' !! x = h !! x) ->
  (forall a n, hole_par k = Some a -> h !! a = Some n ->
               h' !! a = Some (relink k (rootptr t') n)) ->
  Repr h' None (plug k t').
Proof.
  intros H Hnd Ht' Hfr Hlink.
  destruct k as [|a c v up r|a c l v up]; simpl in *.
  - done.
  - pose proof (Repr_inner _ _ _ H) as (Ha & _ & Hr).
    apply NoDup_cons in Hnd as [Hna Hnd].
    apply (Repr_replace_same h h' up (Node a c t v r)); [done | | done |].
    + simpl. split_and!; [|done|].
      * by rewrite (Hlink a _ eq_refl Ha).
      * eapply Repr_frame; [exact Hr|]. intros x Hx. apply Hfr; [set_solver|].
        intros [= ->]. set_solver.
    + intros x Hx. apply Hfr; [set_solver|]. intros [= ->]. set_solver.
  - pose proof (Repr_inner _ _ _ H) as (Ha & Hl & _).
    apply NoDup_cons in Hnd as [Hna Hnd].
    apply (Repr_replace_same h h' up (Node a c l v t)); [done | | done |].
    + simpl. split_and!; [| |done].
      * by rewrite (Hlink a _ eq_refl Ha).
      * eapply Repr_frame; [exact Hl|]. intros x Hx. apply Hfr; [set_solver|].
        intros [= ->]. set_solver.
    + intros x Hx. apply Hfr; [set_solver|]. intros [= ->]. set_solver.
Qed.

End Abstraction.

(** * Heap-level steps: reads, recolouring and rotations *)

Section Primitives.

Context {T : Type}.

Local Abbreviation node := (RBNode T).
Local Abbreviation heap := (list (RBNode T)).
Local Abbreviation tree := (@tree T).
Local Abbreviation ctx := (@ctx T).

Lemma load_Some (h : heap) a n : h !! a = Some n -> load h (Some a) = Ok n.
Proof. intros H. simpl. by rewrite H. Qed.

Lemma store_Some (h : heap) a n f :
  h !! a = Some n -> store h (Some a) f = Ok (<[a := f n]> h).
Proof. intros H. simpl. by rewrite H. Qed.

Lemma ptr_eqb_refl p : ptr_eqb p p = true.
Proof. destruct p; simpl; [apply Nat.eqb_refl | done]. Qed.

Lemma ptr_eqb_eq p q : ptr_eqb p q = true <-> p = q.
Proof.
  destruct p, q; simpl; try (split; congruence).
  rewrite Nat.eqb_eq. split; congruence.
Qed.

Lemma ptr_eqb_neq p q : p <> q -> ptr_eqb p q = false.
Proof.
  intros H. destruct (ptr_eqb p q) eqn:E; [|done].
  apply ptr_eqb_eq in E. done.
Qed.

Lemma is_nil_rootptr (t : tree) : is_nil (rootptr t) = match t with Leaf => true | _ => false end.
Proof. by destruct t. Qed.

Lemma rootptr_notin (t : tree) a : a ∉ addrs t -> rootptr t <> Some a.
Proof. destruct t; simpl; [done|]. intros H [= ->]. apply H. left. Qed.

Lemma Rep_focus (h : heap) k a c l v r :
  Rep h (plug k (Node a c l v r)) ->
  h !! a = Some (mkNode v (rootptr l) (rootptr r) (hole_par k) c).
Proof. intros [H _]. apply Repr_inner in H. simpl in H. tauto. Qed.

Lemma Rep_size (h : heap) t : Rep h t -> (size t <= length h)%nat.
Proof.
  intros [Hr Hnd]. rewrite <- size_addrs.
  assert (Hsub : addrs t ⊆+ seq 0 (length h)).
  { apply NoDup_submseteq; [done|]. intros x Hx. apply elem_of_seq.
    split; [lia|]. simpl. eapply Repr_lt; eauto. }
  apply submseteq_length in Hsub. by rewrite length_seq in Hsub.
Qed.

Lemma set_root_id (rbt : RBTree T) p : root rbt = p -> set_root p rbt = rbt.
Proof. intros <-. by destruct rbt. Qed.

Lemma Rep_replace (h h' : heap) k t t' :
  Rep h (plug k t) ->
  addrs t' ≡ₚ addrs t ->
  Repr h' (hole_par k) t' ->
  (forall x, x ∈ ctx_addrs k -> Some x <> hole_par k -> h' !! x = h !! x) ->
  (forall a n, hole_par k = Some a -> h !! a = Some n ->
               h' !! a = Some (relink k (rootptr t') n)) ->
  Rep h' (plug k t').
Proof.
  intros [Hr Hnd] Hperm Ht' Hfr Hlink. split.
  - eapply Repr_replace; eauto.
    apply NoDup_plug, NoDup_app in Hnd. tauto.
  - apply NoDup_plug. rewrite Hperm. by apply NoDup_plug.
Qed.

Lemma root_not_focus (rbt : RBTree T) k (t : tree) a :
  root rbt = rootptr (plug k t) -> NoDup (addrs (plug k t)) -> a ∈ addrs t ->
  k <> Top -> root rbt <> Some a.
Proof.
  intros Hroot Hnd Ha Hk E. rewrite Hroot in E.
  apply rootptr_plug_in in E; [|done].
  apply NoDup_plug, NoDup_app in Hnd as (_ & Hd & _). by apply (Hd a).
Qed.

End Primitives.

(** Separation facts: after [nd] has split the [NoDup] hypotheses, [dneq]
    proves that two addresses differ by finding both in disjoint lists. *)
Ltac nd :=
  repeat match goal with
  | H : NoDup (_ :: _) |- _ => apply NoDup_cons in H as [? ?]
  | H : NoDup (_ ++ _) |- _ => apply NoDup_app in H as (? & ? & ?)
  | H : NoDup [] |- _ => clear H
  end.

Ltac mem :=
  match goal with
  | |- ?x ∈ ?x :: _ => apply list_elem_of_here
  | |- _ ∈ _ :: _ => apply list_elem_of_further; mem
  | |- _ ∈ _ ++ _ => apply elem_of_app; left; mem
  | |- _ ∈ _ ++ _ => apply elem_of_app; right; mem
  | |- _ ∈ _ => assumption
  end.

Ltac mem_upto E := first [ mem | rewrite E; mem | rewrite <- E; mem ].

Ltac dneq :=
  let E := fresh "E" in
  intros E;
  match goal with
  | H : _ ∉ _ |- _ => apply H; mem_upto E
  | H : forall w, w ∈ _ -> w ∉ _ |- _ =>
      match type of E with
      | ?x = _ => apply (H x); mem_upto E
      end
  end.

Ltac dnotin :=
  let Hin := fresh "Hin" in
  intros Hin;
  match goal with
  | H : _ ∉ _ |- _ => apply H; mem
  | H : forall w, w ∈ _ -> w ∉ _ |- _ =>
      match type of Hin with
      | ?x ∈ _ => apply (H x); mem
      end
  end.

(** Symbolic evaluation of heap reads and writes over chains of updates. *)
Ltac hside :=
  solve [ assumption | congruence | lia | dneq
        | rewrite ?length_insert; eauto using lookup_lt_Some ].

Ltac hstep :=
  first
    [ rewrite list_lookup_insert_eq by hside
    | rewrite list_lookup_insert_ne by hside
    | rewrite Nat.eqb_refl
    | match goal with
      | |- context [Nat.eqb ?a ?b] =>
          rewrite (proj2 (Nat.eqb_neq a b)) by hside
      | |- context [ptr_eqb (rootptr ?t) (Some ?a)] =>
          rewrite (ptr_eqb_neq (rootptr t) (Some a))
            by (apply rootptr_notin; dnotin)
      | H : ?h !! ?a = Some _ |- context [?h !! ?a] => rewrite H
      end ].

Ltac touch :=
  match goal with
  | |- _ ∉ ?l => subst l
  | |- _ => idtac
  end;
  simpl; rewrite ?not_elem_of_cons; split_and?;
  first [ apply not_elem_of_nil | congruence | dneq ].

Ltac hcbn :=
  cbn [load store bind Val left right parent isBlack set_parent set_left
       set_right set_isBlack set_Val is_nil negb ptr_eqb rootptr hole_par
       root cmp Min Max Count set_root set_Min set_Max set_Count andb orb].

Ltac hunf :=
  unfold set_parent, set_left, set_right, set_isBlack, set_Val.

Ltac hsimpl := repeat (hunf; hcbn; try hstep).

(** The common end of a heap-level step: the final heap is a chain of
    updates of [h] at the addresses in [touched]; the updated region is
    compared cell by cell and everything else is framed. *)
Ltac finish_replace HR Hperm t touched :=
  let hh := fresh "hh" in
  let Hlk := fresh "Hlk" in
  (eexists; split; [reflexivity|]);
  match goal with |- Rep ?H _ /\ _ => set (hh := H) end;
  match type of HR with Rep ?h0 _ =>
    assert (Hlk : forall x, x ∉ touched -> hh !! x = h0 !! x) end;
  [ intros x Hx; subst hh touched; simpl in Hx;
     rewrite ?not_elem_of_cons in Hx; destruct_and?; by hsimpl |];
  (split_and!;
   [ eapply Rep_replace with (t := t); [exact HR | exact Hperm | | |];
     [ simpl; split_and!;
       try (subst hh; by hsimpl);
       try (eapply Repr_frame; [eassumption|]; intros x Hx; apply Hlk; touch)
     | simpl; intros x Hx Hne; apply Hlk; touch
     | simpl; intros ? n Hp Hn; try done; injection Hp as <-;
       match goal with Hg : _ !! _ = Some _ |- _ =>
         rewrite Hg in Hn; injection Hn as <-; subst hh; by hsimpl end ]
   | subst hh; by rewrite !length_insert
   | intros x Hx; rewrite addrs_plug in Hx; simpl in Hx; apply Hlk; touch ]).

Section Rotations.

Context {T : Type}.

Local Abbreviation node := (RBNode T).
Local Abbreviation heap := (list (RBNode T)).
Local Abbreviation tree := (@tree T).
Local Abbreviation ctx := (@ctx T).

Lemma rotateLeft_focus (rbt : RBTree T) (h : heap) k a ca l va b cb rl vb rr :
  let t := Node a ca l va (Node b cb rl vb rr) in
  let t' := Node b cb (Node a ca l va rl) vb rr in
  Rep h (plug k t) ->
  root rbt = rootptr (plug k t) ->
  exists h',
    rotateLeft rbt h (Some a) = Ok (set_root (rootptr (plug k t')) rbt, h')
    /\ Rep h' (plug k t')
    /\ length h' = length h
    /\ (forall x, x ∉ addrs (plug k t) -> h' !! x = h !! x).
Proof.
  intros t t' HR Hroot. pose proof HR as [Hr Hnd].
  pose proof (Repr_inner _ _ _ Hr) as (Ha & Hl & Hb & Hrl & Hrr).
  pose proof Hnd as Hnd0.
  apply NoDup_plug in Hnd. simpl in Hnd.
  assert (Hperm : addrs t' ≡ₚ addrs t).
  { simpl. rewrite <- Permutation_middle, <- !app_assoc. apply perm_swap. }
  simpl in Ha.
  assert (Hab : a <> b) by (nd; set_solver).
  assert (Hrt : ptr_eqb (root rbt) (Some a)
                = match k with Top => true | _ => false end).
  { destruct k; [rewrite Hroot; simpl; apply Nat.eqb_refl | |];
      (apply ptr_eqb_neq; eapply root_not_focus; [exact Hroot|exact Hnd0|left|done]). }
  assert (Hrt' : set_root (rootptr (plug k t')) rbt
                 = match k with Top => set_root (Some b) rbt | _ => rbt end).
  { destruct k; [done | |]; apply set_root_id; rewrite Hroot;
      by apply rootptr_plug. }
  rewrite Hrt'. clear Hrt'.
  unfold rotateLeft. rewrite Hrt. clear Hrt.
  pose (touched := a :: b :: option_list (rootptr rl) ++ option_list (hole_par k)).
  destruct k as [|g cg gv up gr|g cg gl gv up]; destruct rl as [|c cc cl cv cr];
    try (pose proof (Repr_inner _ up _ Hr) as [Hg _]);
    simpl in Hb, Hrl, Hnd; try (simpl in Hg); destruct_and?; nd; hsimpl;
    finish_replace HR Hperm t touched.
Qed.

Lemma rotateRight_focus (rbt : RBTree T) (h : heap) k a ca ll vb b cb lr va r :
  let t := Node a ca (Node b cb ll vb lr) va r in
  let t' := Node b cb ll vb (Node a ca lr va r) in
  Rep h (plug k t) ->
  root rbt = rootptr (plug k t) ->
  exists h',
    rotateRight rbt h (Some a) = Ok (set_root (rootptr (plug k t')) rbt, h')
    /\ Rep h' (plug k t')
    /\ length h' = length h
    /\ (forall x, x ∉ addrs (plug k t) -> h' !! x = h !! x).
Proof.
  intros t t' HR Hroot. pose proof HR as [Hr Hnd].
  pose proof (Repr_inner _ _ _ Hr) as (Ha & (Hb & Hll & Hlr) & Hrr).
  pose proof Hnd as Hnd0.
  apply NoDup_plug in Hnd. simpl in Hnd.
  assert (Hperm : addrs t' ≡ₚ addrs t).
  { simpl. rewrite <- !app_assoc. rewrite <- Permutation_middle. apply perm_swap. }
  simpl in Ha.
  assert (Hab : a <> b) by (nd; dneq).
  assert (Hrt : ptr_eqb (root rbt) (Some a)
                = match k with Top => true | _ => false end).
  { destruct k; [rewrite Hroot; simpl; apply Nat.eqb_refl | |];
      (apply ptr_eqb_neq; eapply root_not_focus; [exact Hroot|exact Hnd0|left|done]). }
  assert (Hrt' : set_root (rootptr (plug k t')) rbt
                 = match k with Top => set_root (Some b) rbt | _ => rbt end).
  { destruct k; [done | |]; apply set_root_id; rewrite Hroot;
      by apply rootptr_plug. }
  rewrite Hrt'. clear Hrt'.
  unfold rotateRight. rewrite Hrt. clear Hrt.
  pose (touched := a :: b :: option_list (rootptr lr) ++ option_list (hole_par k)).
  destruct k as [|g cg gv up gr|g cg gl gv up]; destruct lr as [|c cc cl cv cr];
    try (pose proof (Repr_inner _ up _ Hr) as [Hg _]);
    simpl in Hb, Hlr, Hnd; try (simpl in Hg); destruct_and?; nd; hsimpl;
    finish_replace HR Hperm t touched.
Qed.

(** A field assignment that leaves the links alone changes the colour and
    the value of the node in focus and nothing else. *)
Lemma store_focus (h : heap) k a c l v r (f : node -> node) :
  (forall n, left (f n) = left n /\ right (f n) = right n /\ parent (f n) = parent n) ->
  Rep h (plug k (Node a c l v r)) ->
  let n := mkNode v (rootptr l) (rootptr r) (hole_par k) c in
  exists h',
    store h (Some a) f = Ok h'
    /\ Rep h' (plug k (Node a (isBlack (f n)) l (Val (f n)) r))
    /\ length h' = length h
    /\ (forall x, x <> a -> h' !! x = h !! x).
Proof.
  intros Hf HR n. pose proof HR as [Hr Hnd].
  pose proof (Repr_inner _ _ _ Hr) as (Ha & Hl & Hrr).
  pose proof Hnd as Hnd0.
  apply NoDup_plug in Hnd. simpl in Hnd. fold n in Ha.
  rewrite (store_Some _ _ _ _ Ha). eexists; split; [reflexivity|].
  assert (Hlk : forall x, x <> a -> <[a:=f n]> h !! x = h !! x).
  { intros. by rewrite list_lookup_insert_ne. }
  nd. split_and!; [|by rewrite length_insert|done].
  split; [|apply NoDup_plug; apply NoDup_plug in Hnd0; exact Hnd0].
  eapply Repr_replace_same; [exact Hr | | done |].
  - simpl. split_and!.
    + rewrite list_lookup_insert_eq by (by eapply lookup_lt_Some).
      destruct (Hf n) as (E1 & E2 & E3). destruct (f n); simpl in *. by subst.
    + eapply Repr_frame; [eassumption|]. intros x Hx. apply Hlk. dneq.
    + eapply Repr_frame; [eassumption|]. intros x Hx. apply Hlk. dneq.
  - intros x Hx. apply Hlk. dneq.
Qed.

End Rotations.

(** * Tree-level steps

    The repair procedures are sequences of reads, recolourings and
    rotations.  [St rbt0 h0 t0 rbt h t] records that the state [(rbt, h)]
    was reached from [(rbt0, h0)], which held the tree [t0], by such steps:
    the heap now holds [t], the traversal order is unchanged, and no cell
    outside the tree was written. *)

(** [Post m P]: the call [m] returns (no panic, fuel left) a result
    satisfying [P]. *)
Definition Post {A : Type} (m : result A) (P : A -> Prop) : Prop :=
  exists a, m = Ok a /\ P a.

Lemma Post_Ok {A : Type} (a : A) (P : A -> Prop) : P a -> Post (Ok a) P.
Proof. intros H. by exists a. Qed.

Lemma Post_bind {A B : Type} (m : result A) (k : A -> result B) (P : B -> Prop) :
  Post m (fun a => Post (k a) P) -> Post (bind m k) P.
Proof. intros (a & -> & H). exact H. Qed.

Lemma Post_mono {A : Type} (m : result A) (P Q : A -> Prop) :
  Post m P -> (forall a, P a -> Q a) -> Post m Q.
Proof. intros (a & E & H) HPQ. exists a. auto. Qed.

Section Steps.

Context {T : Type}.

Local Abbreviation node := (RBNode T).
Local Abbreviation heap := (list (RBNode T)).
Local Abbreviation tree := (@tree T).
Local Abbreviation ctx := (@ctx T).

Inductive dir : Type := L | R.

Fixpoint focus (p : list dir) (k : ctx) (t : tree) : option (ctx * tree) :=
  match p with
  | [] => Some (k, t)
  | d :: p =>
      match t with
      | Leaf => None
      | Node a c l v r =>
          match d with
          | L => focus p (CL a c v k r) l
          | R => focus p (CR a c l v k) r
          end
      end
  end.

Lemma focus_plug p k t k' t' : focus p k t = Some (k', t') -> plug k' t' = plug k t.
Proof.
  revert k t; induction p as [|d p IH]; intros k t; simpl.
  - by intros [= -> ->].
  - destruct t as [|a c l v r]; [done|]. destruct d; intros H; by apply IH in H.
Qed.

Record St (rbt0 : RBTree T) (h0 : heap) (t0 : tree)
          (rbt : RBTree T) (h : heap) (t : tree) : Prop := mkSt {
  st_rbt : rbt = set_root (rootptr t) rbt0;
  st_rep : Rep h t;
  st_inorder : inorder t = inorder t0;
  st_len : length h = length h0;
  st_frame : forall x, x ∉ addrs t0 -> h !! x = h0 !! x
}.

Lemma St_init (rbt : RBTree T) (h : heap) t :
  Rep h t -> root rbt = rootptr t -> St rbt h t rbt h t.
Proof. intros HR Hroot. split; try done. symmetry. by apply set_root_id. Qed.

Lemma addrs_inorder_eq (t t' : tree) x :
  inorder t = inorder t' -> x ∉ addrs t' -> x ∉ addrs t.
Proof.
  intros E Hx. rewrite <- inorder_addrs in Hx |- *. by rewrite E.
Qed.

Lemma rootptr_plug_same k (t t' : tree) :
  rootptr t = rootptr t' -> rootptr (plug k t) = rootptr (plug k t').
Proof. destruct k; [done | |]; intros _; by apply rootptr_plug. Qed.

Section WithState.

Context {rbt0 : RBTree T} {h0 : heap} {t0 : tree}.
Context {rbt : RBTree T} {h : heap} {k : ctx} {t : tree}.
Context (Hs : St rbt0 h0 t0 rbt h (plug k t)).

Lemma St_load p k' a c l v r :
  focus p k t = Some (k', Node a c l v r) ->
  load h (Some a) = Ok (mkNode v (rootptr l) (rootptr r) (hole_par k') c).
Proof.
  intros Hf. apply focus_plug in Hf. destruct Hs as [_ HR _ _ _].
  rewrite <- Hf in HR. apply load_Some. by eapply Rep_focus.
Qed.

Lemma St_isBlackOrNil p k' t' :
  focus p k t = Some (k', t') ->
  isBlackOrNil h (rootptr t') = Ok (isB t').
Proof.
  intros Hf. destruct t' as [|a c l v r]; [done|].
  unfold isBlackOrNil. cbn [rootptr is_nil].
  by rewrite (St_load _ _ _ _ _ _ _ Hf).
Qed.

Lemma St_store p k' a c l v r (f : node -> node) :
  (forall n, left (f n) = left n /\ right (f n) = right n /\ parent (f n) = parent n) ->
  (forall n, Val (f n) = Val n) ->
  focus p k t = Some (k', Node a c l v r) ->
  let n := mkNode v (rootptr l) (rootptr r) (hole_par k') c in
  exists h',
    store h (Some a) f = Ok h'
    /\ St rbt0 h0 t0 rbt h' (plug k' (Node a (isBlack (f n)) l v r)).
Proof.
  intros Hlinks Hval Hf n. apply focus_plug in Hf.
  destruct Hs as [Hrbt HR Hin Hlen Hfr]. rewrite <- Hf in *.
  destruct (store_focus _ _ _ _ _ _ _ f Hlinks HR) as (h' & E & HR' & Hlen' & Hfr').
  exists h'. split; [done|]. fold n in HR'. rewrite (Hval n) in HR'. simpl in HR'.
  split.
  - rewrite Hrbt. f_equal. by apply rootptr_plug_same.
  - done.
  - rewrite <- Hin, !inorder_plug. done.
  - congruence.
  - intros x Hx. rewrite <- Hfr by done. apply Hfr'.
    intros ->. eapply addrs_inorder_eq in Hx; [|exact Hin].
    apply Hx. rewrite addrs_plug. simpl. left.
Qed.

Lemma St_color p c' k' a c l v r :
  focus p k t = Some (k', Node a c l v r) ->
  exists h',
    store h (Some a) (set_isBlack c') = Ok h'
    /\ St rbt0 h0 t0 rbt h' (plug k' (Node a c' l v r)).
Proof. intros Hf. by eapply (St_store _ _ _ _ _ _ _ (set_isBlack c')) in Hf. Qed.

Lemma St_rotl p k' a ca l va b cb rl vb rr :
  focus p k t = Some (k', Node a ca l va (Node b cb rl vb rr)) ->
  exists rbt' h',
    rotateLeft rbt h (Some a) = Ok (rbt', h')
    /\ St rbt0 h0 t0 rbt' h' (plug k' (Node b cb (Node a ca l va rl) vb rr)).
Proof.
  intros Hf. apply focus_plug in Hf.
  destruct Hs as [Hrbt HR Hin Hlen Hfr]. rewrite <- Hf in *.
  destruct (rotateLeft_focus rbt _ _ _ _ _ _ _ _ _ _ _ HR) as (h' & E & HR' & Hlen' & Hfr').
  { by rewrite Hrbt. }
  eexists _, h'. split; [exact E|]. split.
  - by rewrite Hrbt.
  - done.
  - rewrite <- Hin, !inorder_plug. simpl.
    repeat (rewrite <- app_assoc || rewrite <- app_comm_cons). done.
  - congruence.
  - intros x Hx. rewrite <- Hfr by done. apply Hfr'.
    eapply addrs_inorder_eq; [exact Hin|done].
Qed.

Lemma St_rotr p k' a ca ll vb b cb lr va r :
  focus p k t = Some (k', Node a ca (Node b cb ll vb lr) va r) ->
  exists rbt' h',
    rotateRight rbt h (Some a) = Ok (rbt', h')
    /\ St rbt0 h0 t0 rbt' h' (plug k' (Node b cb ll vb (Node a ca lr va r))).
Proof.
  intros Hf. apply focus_plug in Hf.
  destruct Hs as [Hrbt HR Hin Hlen Hfr]. rewrite <- Hf in *.
  destruct (rotateRight_focus rbt _ _ _ _ _ _ _ _ _ _ _ HR) as (h' & E & HR' & Hlen' & Hfr').
  { by rewrite Hrbt. }
  eexists _, h'. split; [exact E|]. split.
  - by rewrite Hrbt.
  - done.
  - rewrite <- Hin, !inorder_plug. simpl.
    repeat (rewrite <- app_assoc || rewrite <- app_comm_cons). done.
  - congruence.
  - intros x Hx. rewrite <- Hfr by done. apply Hfr'.
    eapply addrs_inorder_eq; [exact Hin|done].
Qed.

End WithState.

End Steps.

(** * The red-black invariants and the double-red repair *)

Ltac scbn :=
  cbn [bind Val left right parent isBlack is_nil negb rootptr hole_par isB
       andb orb Bool.eqb root cmp Min Max Count set_root set_Min set_Max
       set_Count fst snd].

Ltac st_kt Hs :=
  lazymatch type of Hs with
  | St _ _ _ _ _ (plug ?k ?t) => constr:((k, t))
  | @St ?T _ _ _ _ _ ?t => constr:((@Top T, t))
  end.

(** [ld p]: the read of the node at path [p] below the focus. *)
Ltac ld p :=
  match goal with
  | Hs : St _ _ _ _ _ _ |- _ =>
      lazymatch st_kt Hs with
      | (?k, ?t) =>
          rewrite (St_load (k:=k) (t:=t) Hs p _ _ _ _ _ _ eq_refl); scbn
      end
  end.

(** [blk p]: the colour test [isBlack(x)] of the subtree at path [p]. *)
Ltac blk p :=
  match goal with
  | Hs : St _ _ _ _ _ _ |- _ =>
      lazymatch st_kt Hs with
      | (?k, ?t) =>
          let E := fresh "E" in
          pose proof (St_isBlackOrNil (k:=k) (t:=t) Hs p _ _ eq_refl) as E;
          cbn [rootptr isB] in E; rewrite E; clear E; scbn
      end
  end.

(** [col p c]: the assignment [x.isBlack = c] at path [p]. *)
Ltac col p c :=
  match goal with
  | Hs : St _ _ _ _ _ _ |- _ =>
      lazymatch st_kt Hs with
      | (?k, ?t) =>
          let h' := fresh "h" in
          let E := fresh "E" in
          let Hs' := fresh "Hs" in
          destruct (St_color (k:=k) (t:=t) Hs p c _ _ _ _ _ _ eq_refl)
            as (h' & E & Hs');
          rewrite E; clear E Hs; cbn [plug] in Hs'; scbn
      end
  end.

Ltac rotl p :=
  match goal with
  | Hs : St _ _ _ _ _ _ |- _ =>
      lazymatch st_kt Hs with
      | (?k, ?t) =>
          let rbt' := fresh "rbt" in
          let h' := fresh "h" in
          let E := fresh "E" in
          let Hs' := fresh "Hs" in
          destruct (St_rotl (k:=k) (t:=t) Hs p _ _ _ _ _ _ _ _ _ _ eq_refl)
            as (rbt' & h' & E & Hs');
          rewrite E; clear E Hs; cbn [plug] in Hs'; scbn
      end
  end.

Ltac rotr p :=
  match goal with
  | Hs : St _ _ _ _ _ _ |- _ =>
      lazymatch st_kt Hs with
      | (?k, ?t) =>
          let rbt' := fresh "rbt" in
          let h' := fresh "h" in
          let E := fresh "E" in
          let Hs' := fresh "Hs" in
          destruct (St_rotr (k:=k) (t:=t) Hs p _ _ _ _ _ _ _ _ _ _ eq_refl)
            as (rbt' & h' & E & Hs');
          rewrite E; clear E Hs; cbn [plug] in Hs'; scbn
      end
  end.

Ltac try_paths tac :=
  first [ tac (@nil dir) | tac [L] | tac [R]
        | tac [L; L] | tac [L; R] | tac [R; L] | tac [R; R]
        | tac [L; L; L] | tac [L; L; R] | tac [L; R; L] | tac [L; R; R]
        | tac [R; L; L] | tac [R; L; R] | tac [R; R; L] | tac [R; R; R] ].

Ltac head_op m :=
  lazymatch m with
  | bind ?m' _ => head_op m'
  | _ => m
  end.

(** One statement of the program at the head of the goal. *)
Ltac step :=
  lazymatch goal with
  | |- Post ?m _ =>
      let op := head_op m in
      lazymatch op with
      | load _ (Some _) => try_paths ld
      | isBlackOrNil _ _ => try_paths blk
      | store _ (Some _) (set_isBlack ?c) => try_paths ltac:(fun p => col p c)
      | rotateLeft _ _ (Some _) => try_paths rotl
      | rotateRight _ _ (Some _) => try_paths rotr
      end
  end.

Section Invariants.

Context {T : Type}.

Local Abbreviation node := (RBNode T).
Local Abbreviation heap := (list (RBNode T)).
Local Abbreviation tree := (@tree T).
Local Abbreviation ctx := (@ctx T).

(** [RB n t]: no red node of [t] has a red child, and every path from the
    root of [t] to an absent child passes [n] black nodes. *)
Fixpoint RB (n : nat) (t : tree) : Prop :=
  match t with
  | Leaf => n = O
  | Node _ c l _ r =>
      if c then match n with
                | O => False
                | S m => RB m l /\ RB m r
                end
      else RB n l /\ RB n r /\ isB l = true /\ isB r = true
  end.

(** The hole of the context sits below a black node. *)
Definition pblack (k : ctx) : Prop :=
  match k with
  | Top => False
  | CL _ c _ _ _ => c = true
  | CR _ c _ _ _ => c = true
  end.

(** [CtxOK n k]: whatever red-black subtree of black height [n] is put in
    the hole of [k], the tree is red-black everywhere outside the edge
    between the hole and its parent. *)
Fixpoint CtxOK (n : nat) (k : ctx) : Prop :=
  match k with
  | Top => True
  | CL _ c _ up r =>
      RB n r /\ if c then CtxOK (S n) up
                else isB r = true /\ pblack up /\ CtxOK n up
  | CR _ c l _ up =>
      RB n l /\ if c then CtxOK (S n) up
                else isB l = true /\ pblack up /\ CtxOK n up
  end.

(** Invariants 1 to 3 of the specification. *)
Definition RBtree (t : tree) : Prop := isB t = true /\ exists n, RB n t.

Lemma plug_RB k : forall n t,
  RB n t -> CtxOK n k -> (isB t = true \/ pblack k) -> RBtree (plug k t).
Proof.
  induction k as [|a c v up IH r|a c l v up IH]; intros n t Ht Hk Hc; simpl in *.
  - destruct Hc as [Hc|[]]. split; eauto.
  - destruct Hk as [Hr Hk]. destruct c.
    + apply (IH (S n)); simpl; auto.
    + destruct Hk as (Hbr & Hp & Hk). destruct Hc as [Hc|Hc]; [|done].
      apply (IH n); simpl; auto.
  - destruct Hk as [Hl Hk]. destruct c.
    + apply (IH (S n)); simpl; auto.
    + destruct Hk as (Hbl & Hp & Hk). destruct Hc as [Hc|Hc]; [|done].
      apply (IH n); simpl; auto.
Qed.

Lemma RB_plug_inv k : forall t,
  RBtree (plug k t) ->
  exists n, RB n t /\ CtxOK n k /\ (isB t = true \/ pblack k).
Proof.
  induction k as [|a c v up IH r|a c l v up IH]; intros t H; simpl in *.
  - destruct H as [Hb [n Hn]]. eauto.
  - apply IH in H as (n & Hn & Hk & Hc). simpl in *. destruct c.
    + destruct n as [|m]; [done|]. destruct Hn. exists m. auto.
    + destruct Hn as (? & ? & ? & ?). destruct Hc as [|]; [done|].
      exists n. auto 10.
  - apply IH in H as (n & Hn & Hk & Hc). simpl in *. destruct c.
    + destruct n as [|m]; [done|]. destruct Hn. exists m. auto.
    + destruct Hn as (? & ? & ? & ?). destruct Hc as [|]; [done|].
      exists n. auto 10.
Qed.

Lemma RB_black a (l : tree) v r m : RB m l -> RB m r -> RB (S m) (Node a true l v r).
Proof. simpl. auto. Qed.

Lemma RB_red a (l : tree) v r m :
  RB m l -> RB m r -> isB l = true -> isB r = true -> RB m (Node a false l v r).
Proof. simpl. auto. Qed.

Lemma RB_unique (t : tree) : forall n m, RB n t -> RB m t -> n = m.
Proof.
  induction t as [|a c l IHl v r IHr]; intros n m; simpl.
  - congruence.
  - destruct c.
    + destruct n, m; try done. intros [H1 _] [H2 _]. f_equal. eauto.
    + intros (H1 & _) (H2 & _). eauto.
Qed.

End Invariants.

(** The end of a repair: the state reached holds a red-black tree. *)
Ltac solve_rb := eauto 10 using RB_black, RB_red.

Ltac rb_tree :=
  simpl in * |-; destruct_and?;
  first
    [ eapply plug_RB;
      [ solve_rb | eassumption
      | first [ left; reflexivity | right; simpl; first [done | assumption] ] ]
    | split; [reflexivity | eexists; solve_rb ] ].

Ltac rb_done :=
  apply Post_Ok; eexists; split; [eassumption|]; rb_tree.

Section DoubleRed.

Context {T : Type}.

Local Abbreviation node := (RBNode T).
Local Abbreviation heap := (list (RBNode T)).
Local Abbreviation tree := (@tree T).
Local Abbreviation ctx := (@ctx T).

Context {rbt0 : RBTree T} {h0 : heap} {t0 : tree}.

Definition fixed (rbt : RBTree T * heap) : Prop :=
  exists t', St rbt0 h0 t0 rbt.1 rbt.2 t' /\ RBtree t'.

Lemma solveDoubleRed_ok fuel : forall rbt h k p pl pv pr n,
  St rbt0 h0 t0 rbt h (plug k (Node p false pl pv pr)) ->
  RB n pl -> RB n pr ->
  (isB pl = false /\ isB pr = true) \/ (isB pl = true /\ isB pr = false) ->
  CtxOK n k -> pblack k ->
  (depth k < fuel)%nat ->
  Post (solveDoubleRed fuel rbt h (Some p)) fixed.
Proof.
  induction fuel as [|fuel IH]; intros rbt h k p pl pv pr n Hs Hpl Hpr Hred Hk Hpb Hfuel;
    [lia|].
  destruct k as [|g cg gv up gr|g cg gl gv up]; [done| |]; simpl in Hpb; subst cg;
    cbn [plug] in Hs; cbn [solveDoubleRed]; simpl in Hk; destruct Hk as [Hu Hk].
  - (* p is the left child of g *)
    repeat step.
    destruct (isB gr) eqn:Hgr.
    + (* black uncle *)
      repeat step.
      destruct Hred as [[Hl Hr]|[Hl Hr]]; rewrite Hr; scbn.
      * destruct pl as [|x [] xl xv xr]; try done. simpl in Hpl.
        repeat step. rb_done.
      * destruct pr as [|x [] xl xv xr]; try done. simpl in Hpr.
        repeat step. rb_done.
    + (* red uncle *)
      destruct gr as [|u [] ul uv ur]; try done. simpl in Hu.
      repeat step.
      destruct up as [|gp cgp gpv up gpr|gp cgp gpl gpv up]; scbn.
      * rb_done.
      * repeat step. destruct cgp; scbn; [rb_done|].
        simpl in Hk. destruct Hk as (? & ? & ? & ?).
        eapply (IH _ _ up gp _ _ _ (S n)); eauto; simpl in *; try tauto; lia.
      * repeat step. destruct cgp; scbn; [rb_done|].
        simpl in Hk. destruct Hk as (? & ? & ? & ?).
        eapply (IH _ _ up gp _ _ _ (S n)); eauto; simpl in *; try tauto; lia.
  - (* p is the right child of g *)
    repeat step.
    destruct (isB gl) eqn:Hgl.
    + repeat step.
      destruct Hred as [[Hl Hr]|[Hl Hr]]; rewrite Hl; scbn.
      * destruct pl as [|x [] xl xv xr]; try done. simpl in Hpl.
        repeat step. rb_done.
      * destruct pr as [|x [] xl xv xr]; try done. simpl in Hpr.
        repeat step. rb_done.
    + destruct gl as [|u [] ul uv ur]; try done. simpl in Hu.
      repeat step.
      destruct up as [|gp cgp gpv up gpr|gp cgp gpl gpv up]; scbn.
      * rb_done.
      * repeat step. destruct cgp; scbn; [rb_done|].
        simpl in Hk. destruct Hk as (? & ? & ? & ?).
        eapply (IH _ _ up gp _ _ _ (S n)); eauto; simpl in *; try tauto; lia.
      * repeat step. destruct cgp; scbn; [rb_done|].
        simpl in Hk. destruct Hk as (? & ? & ? & ?).
        eapply (IH _ _ up gp _ _ _ (S n)); eauto; simpl in *; try tauto; lia.
Qed.

End DoubleRed.

(** * The comparator contract and the read-only operations *)

(** A three-way comparison [f] that orders the values: the sign of
    [f b a] is the opposite of the sign of [f a b], and "not greater" is
    transitive.  Values that compare equal need not be identical. *)
Record Comparator {T : Type} (f : T -> T -> Z) : Prop := mkComparator {
  cmp_flip : forall a b, f a b < 0 <-> f b a > 0;
  cmp_trans : forall a b c, f a b <= 0 -> f b c <= 0 -> f a c <= 0
}.

Section Order.

Context {T : Type} (f : T -> T -> Z) (Hf : Comparator f).

Lemma cmp_refl a : f a a = 0.
Proof. pose proof (cmp_flip f Hf a a). lia. Qed.

Lemma cmp_eq_sym a b : f a b = 0 -> f b a = 0.
Proof. pose proof (cmp_flip f Hf a b). pose proof (cmp_flip f Hf b a). lia. Qed.

Lemma cmp_lt_trans a b c : f a b < 0 -> f b c < 0 -> f a c < 0.
Proof.
  intros H1 H2.
  pose proof (cmp_trans f Hf a b c). pose proof (cmp_trans f Hf c a b).
  pose proof (cmp_flip f Hf b c). pose proof (cmp_flip f Hf c b).
  pose proof (cmp_flip f Hf a c). pose proof (cmp_flip f Hf c a). lia.
Qed.

Lemma cmp_le_lt_trans a b c : f a b <= 0 -> f b c < 0 -> f a c < 0.
Proof.
  intros H1 H2.
  pose proof (cmp_trans f Hf a b c). pose proof (cmp_trans f Hf c a b).
  pose proof (cmp_flip f Hf b c). pose proof (cmp_flip f Hf c b).
  pose proof (cmp_flip f Hf a c). pose proof (cmp_flip f Hf c a). lia.
Qed.

Lemma cmp_lt_le_trans a b c : f a b < 0 -> f b c <= 0 -> f a c < 0.
Proof.
  intros H1 H2.
  pose proof (cmp_trans f Hf a b c). pose proof (cmp_trans f Hf b c a).
  pose proof (cmp_flip f Hf a b). pose proof (cmp_flip f Hf b a).
  pose proof (cmp_flip f Hf a c). pose proof (cmp_flip f Hf c a). lia.
Qed.

Lemma cmp_gt_lt a b : f a b > 0 <-> f b a < 0.
Proof. pose proof (cmp_flip f Hf b a). lia. Qed.

(** "Strictly increasing under the comparator", on pairs of an address and
    a value. *)
Definition lt_val (p q : addr * T) : Prop := f p.2 q.2 < 0.

Definition Sorted_tree (t : @tree T) : Prop := StronglySorted lt_val (inorder t).

End Order.

Section Reads.

Context {T : Type}.

Local Abbreviation node := (RBNode T).
Local Abbreviation heap := (list (RBNode T)).
Local Abbreviation tree := (@tree T).
Local Abbreviation ctx := (@ctx T).

Definition first_addr (l : list (addr * T)) : ptr := fst <$> head l.
Definition last_addr (l : list (addr * T)) : ptr := fst <$> last l.

Lemma size_plug k (t : tree) : (depth k + size t <= size (plug k t))%nat.
Proof.
  revert t; induction k as [|a c v up IH r|a c l v up IH]; intros t; simpl.
  - lia.
  - specialize (IH (Node a c t v r)). simpl in IH. lia.
  - specialize (IH (Node a c l v t)). simpl in IH. lia.
Qed.

Lemma height_size (t : tree) : (height t <= size t)%nat.
Proof. induction t; simpl; lia. Qed.

Lemma Rep_fuel (h : heap) k (t : tree) :
  Rep h (plug k t) -> (depth k + size t < fuel_of h)%nat.
Proof.
  intros HR. apply Rep_size in HR. pose proof (size_plug k t).
  unfold fuel_of. lia.
Qed.

Lemma Rep_inner (h : heap) k (t : tree) : Rep h (plug k t) -> Repr h (hole_par k) t /\ NoDup (addrs t).
Proof.
  intros [Hr Hnd]. split; [by apply Repr_inner|].
  apply NoDup_plug, NoDup_app in Hnd. tauto.
Qed.

Lemma inorder_nil (t : tree) : inorder t = [] -> t = Leaf.
Proof. destruct t; [done|]. simpl. intros H. by apply app_nil in H as [_ ?]. Qed.

Lemma head_app_ne {A} (l1 l2 : list A) : l1 <> [] -> head (l1 ++ l2) = head l1.
Proof. by destruct l1. Qed.

Lemma last_app_ne {A} (l1 l2 : list A) : l2 <> [] -> last (l1 ++ l2) = last l2.
Proof.
  intros H. rewrite last_app. destruct (last l2) eqn:E; [done|].
  by apply last_None in E.
Qed.

Lemma inorder_ne a c (l : tree) v r : inorder (Node a c l v r) <> [].
Proof. simpl. intros H. by apply app_nil in H as [_ ?]. Qed.

Lemma leftmost_spec (h : heap) fuel : forall par (t : tree),
  Repr h par t -> t <> Leaf -> (height t <= fuel)%nat ->
  leftmost fuel h (rootptr t) = Ok (first_addr (inorder t)).
Proof.
  induction fuel as [|fuel IH]; intros par t Hr Ht Hfuel.
  - destruct t; [done|simpl in Hfuel; lia].
  - destruct t as [|a c l v r]; [done|]. simpl in Hr, Hfuel. destruct Hr as (Ha & Hl & _).
    cbn [leftmost rootptr]. rewrite (load_Some _ _ _ Ha). hcbn.
    destruct l as [|b cb bl bv br]; [done|].
    hcbn. pose proof (IH (Some a) (Node b cb bl bv br) Hl) as E.
    cbn [rootptr] in E. rewrite E; [|done|lia].
    unfold first_addr. f_equal.
    change (inorder (Node a c (Node b cb bl bv br) v r))
      with (inorder (Node b cb bl bv br) ++ (a, v) :: inorder r).
    rewrite head_app_ne; [done|apply inorder_ne].
Qed.

Lemma rightmost_spec (h : heap) fuel : forall par (t : tree),
  Repr h par t -> t <> Leaf -> (height t <= fuel)%nat ->
  rightmost fuel h (rootptr t) = Ok (last_addr (inorder t)).
Proof.
  induction fuel as [|fuel IH]; intros par t Hr Ht Hfuel.
  - destruct t; [done|simpl in Hfuel; lia].
  - destruct t as [|a c l v r]; [done|]. simpl in Hr, Hfuel. destruct Hr as (Ha & _ & Hrr).
    cbn [rightmost rootptr]. rewrite (load_Some _ _ _ Ha). hcbn.
    destruct r as [|b cb bl bv br].
    + hcbn. unfold last_addr. simpl. by rewrite last_snoc.
    + hcbn. pose proof (IH (Some a) (Node b cb bl bv br) Hrr) as E.
      cbn [rootptr] in E. rewrite E; [|done|lia].
      unfold last_addr. f_equal. symmetry.
      change (inorder (Node a c l v (Node b cb bl bv br)))
        with (inorder l ++ (a, v) :: inorder (Node b cb bl bv br)).
      rewrite (last_app_ne (inorder l)) by done.
      rewrite last_cons.
      destruct (last (inorder (Node b cb bl bv br))) eqn:E'; [done|].
      apply last_None in E'. by apply inorder_nil in E'.
Qed.

(** *** [Next] and [Prev] *)

Lemma Next_climb (h : heap) fuel : forall k a c (l : tree) v r,
  Rep h (plug k (Node a c l v r)) -> (depth k < fuel)%nat ->
  (let* rbn := Next_loop fuel h (Some a) in
   let* n := load h rbn in
   Ok (parent n, negb (is_nil (parent n))))
  = Ok (first_addr (ctx_after k), negb (is_nil (first_addr (ctx_after k)))).
Proof.
  induction fuel as [|fuel IH]; intros k a c l v r HR Hfuel; [lia|].
  pose proof (Rep_focus _ _ _ _ _ _ _ HR) as Ha.
  cbn [Next_loop]. rewrite (load_Some _ _ _ Ha). hcbn.
  destruct k as [|g cg gv up gr|g cg gl gv up]; hcbn.
  - by rewrite Ha.
  - pose proof (Rep_focus _ up _ _ _ _ _ HR) as Hg. rewrite Hg. hcbn.
    destruct HR as [_ Hnd]. apply NoDup_plug in Hnd. simpl in Hnd. nd.
    hstep. hcbn. by rewrite Ha.
  - pose proof (Rep_focus _ up _ _ _ _ _ HR) as Hg. rewrite Hg. hcbn.
    rewrite Nat.eqb_refl. apply (IH up g cg gl gv _ HR). simpl in Hfuel. lia.
Qed.

Lemma Next_focus (h : heap) k a c (l : tree) v r :
  Rep h (plug k (Node a c l v r)) ->
  let p := first_addr (inorder r ++ ctx_after k) in
  Next h (Some a) = Ok (p, negb (is_nil p)).
Proof.
  intros HR p. pose proof (Rep_focus _ _ _ _ _ _ _ HR) as Ha.
  unfold Next. rewrite (load_Some _ _ _ Ha). scbn.
  destruct r as [|b cb bl bv br].
  - scbn. subst p. cbn [inorder app]. eapply Next_climb; [exact HR|].
    pose proof (Rep_fuel _ _ _ HR). lia.
  - scbn. pose proof (Rep_inner _ _ _ HR) as [(_ & _ & Hr) _].
    pose proof (leftmost_spec h (fuel_of h) _ _ Hr) as E. cbn [rootptr] in E.
    rewrite E; [|done|].
    + scbn. subst p. unfold first_addr.
      rewrite head_app_ne by apply inorder_ne.
      by destruct (head (inorder (Node b cb bl bv br))) eqn:E';
        [|apply head_None, inorder_nil in E'].
    + pose proof (Rep_fuel _ _ _ HR). pose proof (height_size (Node b cb bl bv br)).
      simpl in *. lia.
Qed.

Lemma Prev_climb (h : heap) fuel : forall k a c (l : tree) v r,
  Rep h (plug k (Node a c l v r)) -> (depth k < fuel)%nat ->
  (let* rbn := Prev_loop fuel h (Some a) in
   let* n := load h rbn in
   Ok (parent n, negb (is_nil (parent n))))
  = Ok (last_addr (ctx_before k), negb (is_nil (last_addr (ctx_before k)))).
Proof.
  induction fuel as [|fuel IH]; intros k a c l v r HR Hfuel; [lia|].
  pose proof (Rep_focus _ _ _ _ _ _ _ HR) as Ha.
  cbn [Prev_loop]. rewrite (load_Some _ _ _ Ha). hcbn.
  destruct k as [|g cg gv up gr|g cg gl gv up]; hcbn.
  - by rewrite Ha.
  - pose proof (Rep_focus _ up _ _ _ _ _ HR) as Hg. rewrite Hg. hcbn.
    rewrite Nat.eqb_refl. apply (IH up g cg _ gv gr HR). simpl in Hfuel. lia.
  - pose proof (Rep_focus _ up _ _ _ _ _ HR) as Hg. rewrite Hg. hcbn.
    destruct HR as [_ Hnd]. apply NoDup_plug in Hnd. simpl in Hnd. nd.
    hstep. hcbn. rewrite Ha. hcbn. unfold last_addr. cbn [ctx_before].
    rewrite app_assoc, last_snoc. done.
Qed.

Lemma Prev_focus (h : heap) k a c (l : tree) v r :
  Rep h (plug k (Node a c l v r)) ->
  let p := last_addr (ctx_before k ++ inorder l) in
  Prev h (Some a) = Ok (p, negb (is_nil p)).
Proof.
  intros HR p. pose proof (Rep_focus _ _ _ _ _ _ _ HR) as Ha.
  unfold Prev. rewrite (load_Some _ _ _ Ha). scbn.
  destruct l as [|b cb bl bv br].
  - scbn. subst p. cbn [inorder]. rewrite app_nil_r. eapply Prev_climb; [exact HR|].
    pose proof (Rep_fuel _ _ _ HR). lia.
  - scbn. pose proof (Rep_inner _ _ _ HR) as [(_ & Hl & _) _].
    pose proof (rightmost_spec h (fuel_of h) _ _ Hl) as E. cbn [rootptr] in E.
    rewrite E; [|done|].
    + scbn. subst p. unfold last_addr.
      rewrite last_app_ne by apply inorder_ne.
      by destruct (last (inorder (Node b cb bl bv br))) eqn:E';
        [|apply last_None, inorder_nil in E'].
    + pose proof (Rep_fuel _ _ _ HR). pose proof (height_size (Node b cb bl bv br)).
      simpl in *. lia.
Qed.

(** *** Finding the focus of an address *)

Lemma in_focus (t : tree) a : forall k0,
  a ∈ addrs t -> exists k c l v r, plug k0 t = plug k (Node a c l v r).
Proof.
  induction t as [|b cb tl IHl bv tr IHr]; intros k0 Ha; simpl in Ha.
  - by apply elem_of_nil in Ha.
  - apply elem_of_cons in Ha as [->|Ha]; [by exists k0, cb, tl, bv, tr|].
    apply elem_of_app in Ha as [Ha|Ha].
    + apply (IHl (CL b cb bv k0 tr)) in Ha. exact Ha.
    + apply (IHr (CR b cb tl bv k0)) in Ha. exact Ha.
Qed.

Lemma split_unique (l1 l2 l1' l2' : list (addr * T)) a v v' :
  l1 ++ (a, v) :: l2 = l1' ++ (a, v') :: l2' ->
  NoDup (map fst (l1 ++ (a, v) :: l2)) ->
  l1 = l1' /\ v = v' /\ l2 = l2'.
Proof.
  revert l1'; induction l1 as [|x l1 IH]; intros l1' E Hnd.
  - destruct l1' as [|y l1']; simpl in *.
    + by injection E as -> ->.
    + injection E as <- ->. apply NoDup_cons in Hnd as [Hn _]. exfalso. apply Hn.
      rewrite map_app. simpl. apply elem_of_app. right. left.
  - destruct l1' as [|y l1']; simpl in *.
    + injection E as -> <-. apply NoDup_cons in Hnd as [Hn _]. exfalso. apply Hn.
      rewrite map_app. simpl. apply elem_of_app. right. left.
    + injection E as -> E. apply NoDup_cons in Hnd as [_ Hnd].
      destruct (IH _ E Hnd) as (-> & -> & ->). done.
Qed.

Lemma NoDup_inorder (t : tree) : NoDup (addrs t) -> NoDup (map fst (inorder t)).
Proof. intros H. by rewrite inorder_addrs. Qed.

Lemma focus_of_inorder (t : tree) l1 a v l2 :
  inorder t = l1 ++ (a, v) :: l2 -> NoDup (addrs t) ->
  exists k c l r,
    t = plug k (Node a c l v r)
    /\ l1 = ctx_before k ++ inorder l /\ l2 = inorder r ++ ctx_after k.
Proof.
  intros E Hnd.
  assert (Ha : a ∈ addrs t).
  { rewrite <- inorder_addrs, E, map_app. apply elem_of_app. right. left. }
  destruct (in_focus t a Top Ha) as (k & c & l & v' & r & Ht). simpl in Ht.
  exists k, c, l, r. subst t.
  assert (E' : l1 ++ (a, v) :: l2
               = (ctx_before k ++ inorder l) ++ (a, v') :: (inorder r ++ ctx_after k)).
  { rewrite <- E, inorder_plug. simpl.
    repeat (rewrite <- app_assoc || rewrite <- app_comm_cons). done. }
  apply split_unique in E' as (-> & -> & ->); [done|].
  rewrite <- E. by apply NoDup_inorder.
Qed.

Lemma Next_inorder (h : heap) (t : tree) l1 a v l2 :
  Rep h t -> inorder t = l1 ++ (a, v) :: l2 ->
  Next h (Some a) = Ok (first_addr l2, negb (is_nil (first_addr l2))).
Proof.
  intros HR E. destruct (focus_of_inorder t l1 a v l2 E) as (k & c & l & r & -> & -> & ->);
    [by destruct HR|].
  by eapply Next_focus.
Qed.

Lemma Prev_inorder (h : heap) (t : tree) l1 a v l2 :
  Rep h t -> inorder t = l1 ++ (a, v) :: l2 ->
  Prev h (Some a) = Ok (last_addr l1, negb (is_nil (last_addr l1))).
Proof.
  intros HR E. destruct (focus_of_inorder t l1 a v l2 E) as (k & c & l & r & -> & -> & ->);
    [by destruct HR|].
  by eapply Prev_focus.
Qed.

Lemma Rep_inorder_lookup (h : heap) (t : tree) a v :
  Rep h t -> (a, v) ∈ inorder t -> exists n, h !! a = Some n /\ Val n = v.
Proof.
  intros HR Hin. apply list_elem_of_split in Hin as (l1 & l2 & E).
  destruct (focus_of_inorder t l1 a v l2 E) as (k & c & l & r & -> & _);
    [by destruct HR|].
  eexists. split; [by eapply Rep_focus|done].
Qed.

End Reads.

(** * Valid trees and the validator *)

Section Valid.

Context {T : Type} (f : T -> T -> Z) (Hf : Comparator f).

Local Abbreviation node := (RBNode T).
Local Abbreviation heap := (list (RBNode T)).
Local Abbreviation tree := (@tree T).
Local Abbreviation ctx := (@ctx T).

(** The six global invariants of the specification, for the handle [rbt]
    over the heap [h], with [t] the tree the heap holds:
    - 1: the root is black and has no parent ([Repr h None t] gives the nil
      parent of the root and the consistency of all links);
    - 2, 3: [RB n t] for some black height [n];
    - 4: the in-order traversal is strictly increasing;
    - 5: [Count] is the number of nodes;
    - 6: [Min] and [Max] are the first and last node in order, nil iff the
      tree is empty.
    [v_fits] records that the node count fits an [int]. *)
Record Valid (rbt : RBTree T) (h : heap) (t : tree) : Prop := mkValid {
  v_rep : Rep h t;
  v_root : root rbt = rootptr t;
  v_cmp : cmp rbt = Some f;
  v_rb : RBtree t;
  v_sorted : Sorted_tree f t;
  v_count : Count rbt = Z.of_nat (size t);
  v_min : Min rbt = first_addr (inorder t);
  v_max : Max rbt = last_addr (inorder t);
  v_fits : Z.of_nat (size t) < 2 ^ 63
}.

Lemma wrap_small z : - 2 ^ 63 <= z < 2 ^ 63 -> wrap z = z.
Proof. intros H. unfold wrap. rewrite Z.mod_small; lia. Qed.

Lemma RB_height (t : tree) : forall n, RB n t -> (n <= height t)%nat.
Proof.
  induction t as [|a c l IHl v r IHr]; intros n; simpl.
  - lia.
  - destruct c.
    + destruct n; [done|]. intros [H1 H2]. apply IHl in H1. lia.
    + intros (H1 & _). apply IHl in H1. lia.
Qed.

Lemma Sorted_node a c (l : tree) v r :
  Sorted_tree f (Node a c l v r) ->
  Sorted_tree f l /\ Sorted_tree f r
  /\ (forall b x, (b, x) ∈ inorder l -> f x v < 0)
  /\ (forall b x, (b, x) ∈ inorder r -> f v x < 0).
Proof.
  unfold Sorted_tree. simpl. intros H.
  apply StronglySorted_app in H as (H1 & H2 & H3).
  apply StronglySorted_cons in H3 as [H3 H4].
  split_and!; try done.
  - intros b x Hin. apply (H1 (b, x) (a, v)); [done|left].
  - intros b x Hin. rewrite Forall_forall in H3. by apply (H3 (b, x)).
Qed.

Lemma root_in_inorder a c (l : tree) v r : (a, v) ∈ inorder (Node a c l v r).
Proof. simpl. apply elem_of_app. right. left. Qed.

(** *** [find] *)

Fixpoint find_abs (val : T) (t : tree) : ptr * bool :=
  match t with
  | Leaf => (None, false)
  | Node a _ l x r =>
      if f val x <? 0 then find_abs val l
      else if f val x >? 0 then find_abs val r
      else (Some a, true)
  end.

Lemma find_spec (h : heap) val fuel : forall par (t : tree),
  Repr h par t -> t <> Leaf -> (height t <= fuel)%nat ->
  find fuel h (Some f) (rootptr t) val = Ok (find_abs val t).
Proof.
  induction fuel as [|fuel IH]; intros par t Hr Ht Hfuel.
  - destruct t; [done|simpl in Hfuel; lia].
  - destruct t as [|a c l x r]; [done|]. simpl in Hr, Hfuel. destruct Hr as (Ha & Hl & Hrr).
    cbn [find rootptr find_abs]. rewrite (load_Some _ _ _ Ha). scbn. cbn [call bind].
    destruct (f val x <? 0).
    + destruct l as [|b cb bl bv br]; [done|]. scbn.
      apply (IH _ _ Hl); [done|lia].
    + destruct (f val x >? 0); [|done].
      destruct r as [|b cb bl bv br]; [done|]. scbn.
      apply (IH _ _ Hrr); [done|lia].
Qed.

Lemma find_abs_found val (t : tree) p b :
  find_abs val t = (p, b) ->
  (p = None /\ b = false)
  \/ (b = true /\ exists a x, p = Some a /\ (a, x) ∈ inorder t /\ f val x = 0).
Proof.
  induction t as [|a c l IHl x r IHr]; simpl.
  - intros [= <- <-]. by left.
  - destruct (f val x <? 0) eqn:E1.
    + intros H. apply IHl in H as [?|(? & a' & x' & ? & ? & ?)]; [by left|right].
      split; [done|]. exists a', x'. split_and!; try done. set_solver.
    + destruct (f val x >? 0) eqn:E2.
      * intros H. apply IHr in H as [?|(? & a' & x' & ? & ? & ?)]; [by left|right].
        split; [done|]. exists a', x'. split_and!; try done. set_solver.
      * intros [= <- <-]. right. split; [done|]. exists a, x.
        split_and!; try done; [set_solver|lia].
Qed.

Lemma find_abs_absent val (t : tree) :
  Sorted_tree f t -> find_abs val t = (None, false) ->
  forall a x, (a, x) ∈ inorder t -> f val x <> 0.
Proof.
  induction t as [|a c l IHl x r IHr]; simpl; intros Hs Hfind b y Hin.
  - by apply elem_of_nil in Hin.
  - apply Sorted_node in Hs as (Hsl & Hsr & Hlt & Hgt).
    apply elem_of_app in Hin as [Hin|Hin]; [|apply elem_of_cons in Hin as [[= -> ->]|Hin]].
    + destruct (f val x <? 0) eqn:E1; [by eapply IHl|].
      specialize (Hlt _ _ Hin).
      assert (f x val <= 0).
      { destruct (f val x >? 0) eqn:E2; [|done].
        pose proof (cmp_gt_lt f Hf val x). lia. }
      pose proof (cmp_lt_le_trans f Hf y x val Hlt ltac:(done)).
      pose proof (cmp_flip f Hf y val). lia.
    + destruct (f val x <? 0) eqn:E1; [lia|].
      destruct (f val x >? 0) eqn:E2; [lia|done].
    + specialize (Hgt _ _ Hin).
      destruct (f val x <? 0) eqn:E1.
      { assert (f val y < 0) by (eapply cmp_lt_trans; [done| |done]; lia). lia. }
      destruct (f val x >? 0) eqn:E2; [by eapply IHr|done].
Qed.

Lemma find_abs_present val (t : tree) a x :
  Sorted_tree f t -> (a, x) ∈ inorder t -> f val x = 0 ->
  exists a' x', find_abs val t = (Some a', true) /\ (a', x') ∈ inorder t /\ f val x' = 0.
Proof.
  intros Hs Hin E. destruct (find_abs val t) as [p b] eqn:Hfind.
  destruct (find_abs_found _ _ _ _ Hfind) as [[-> ->]|(-> & a' & x' & -> & ? & ?)].
  - exfalso. by eapply find_abs_absent.
  - eauto.
Qed.

(** *** The validator accepts valid trees *)

Lemma isValid_complete (h : heap) fuel : forall par a c (l : tree) v r n cur ibh H,
  Repr h par (Node a c l v r) -> RB n (Node a c l v r) ->
  Sorted_tree f (Node a c l v r) ->
  (c = false -> exists pn, load h par = Ok pn /\ isBlack pn = true) ->
  cur + Z.of_nat n = H -> 0 <= cur -> 0 < H < 2 ^ 63 -> (ibh = 0 \/ ibh = H) ->
  (height (Node a c l v r) <= fuel)%nat ->
  isValid fuel h (Some f) (Some a) ibh cur = Ok (H, (H, true)).
Proof.
  induction fuel as [|fuel IH]; intros par a c l v r n cur ibh H Hr Hrb Hso Hpar Hcur Hc0 HH Hibh Hfuel;
    [simpl in Hfuel; lia|].
  pose proof Hr as (Ha & Hl & Hrr). simpl in Hfuel.
  apply Sorted_node in Hso as (Hsl & Hsr & Hlt & Hgt).
  cbn [isValid]. rewrite (load_Some _ _ _ Ha). scbn.
  (* the colour and the running black height *)
  assert (exists cur' m,
    (if c then Ok (Some (wrap (cur + 1)))
     else let* p := load h par in
          if negb (isBlack p) then Ok None else Ok (Some cur)) = Ok (Some cur')
    /\ cur' + Z.of_nat m = H /\ 0 <= cur' /\ RB m l /\ RB m r
    /\ (forall b cb bl bv br, l = Node b cb bl bv br \/ r = Node b cb bl bv br ->
          cb = false -> c = true)) as (cur' & m & -> & Hcur' & Hc0' & Hml & Hmr & Hchild).
  { destruct c; simpl in Hrb.
    - destruct n as [|m]; [done|]. destruct Hrb as [Hml Hmr].
      exists (cur + 1), m. rewrite wrap_small by lia. split_and!; try done; lia.
    - destruct Hrb as (Hml & Hmr & Hbl & Hbr).
      destruct (Hpar eq_refl) as (pn & -> & Hpn). scbn. rewrite Hpn. scbn.
      exists cur, n. split_and!; try done.
      intros b cb bl bv br [->| ->] ->; simpl in *; congruence. }
  scbn.
  (* the two subtrees *)
  assert (Hleft : forall ibh0, ibh0 = 0 \/ ibh0 = H ->
    exists ibh1, (ibh1 = ibh0 \/ ibh1 = H) /\
    leftSubtreeIsValid (isValid fuel h (Some f)) h (Some a) ibh0 cur' (Some f)
    = Ok (ibh1, (H, true)) /\ (l <> Leaf -> ibh1 = H)).
  { intros ibh0 Hibh0. unfold leftSubtreeIsValid. rewrite (load_Some _ _ _ Ha). scbn.
    destruct l as [|b cb bl bv br]; scbn.
    - simpl in Hml. subst m. exists ibh0. split_and!; [by left| |done].
      do 3 f_equal. lia.
    - pose proof Hl as (Hb & _). rewrite (load_Some _ _ _ Hb). scbn.
      rewrite ptr_eqb_refl. scbn. cbn [call bind].
      pose proof (Hlt b bv (root_in_inorder _ _ _ _ _)) as Hlt'.
      apply (cmp_flip f Hf) in Hlt'.
      destruct (f v bv <=? 0) eqn:E; [lia|].
      exists H. split_and!; [by right| |done].
      eapply (IH (Some a) b cb bl bv br m cur' ibh0 H); try done.
      + intros ->. assert (c = true) as -> by (eapply Hchild; eauto).
        rewrite (load_Some _ _ _ Ha). eauto.
      + lia. }
  assert (Hright : forall ibh0, ibh0 = 0 \/ ibh0 = H ->
    exists ibh1, (ibh1 = ibh0 \/ ibh1 = H) /\
    rightSubtreeIsValid (isValid fuel h (Some f)) h (Some a) ibh0 cur' (Some f)
    = Ok (ibh1, (H, true)) /\ (r <> Leaf -> ibh1 = H)).
  { intros ibh0 Hibh0. unfold rightSubtreeIsValid. rewrite (load_Some _ _ _ Ha). scbn.
    destruct r as [|b cb bl bv br]; scbn.
    - simpl in Hmr. subst m. exists ibh0. split_and!; [by left| |done].
      do 3 f_equal. lia.
    - pose proof Hrr as (Hb & _). rewrite (load_Some _ _ _ Hb). scbn.
      rewrite ptr_eqb_refl. scbn. cbn [call bind].
      pose proof (Hgt b bv (root_in_inorder _ _ _ _ _)) as Hgt'.
      destruct (f v bv >=? 0) eqn:E; [lia|].
      exists H. split_and!; [by right| |done].
      eapply (IH (Some a) b cb bl bv br m cur' ibh0 H); try done.
      + intros ->. assert (c = true) as -> by (eapply Hchild; eauto).
        rewrite (load_Some _ _ _ Ha). eauto.
      + lia. }
  assert (Hrest : forall ibh0, ibh0 = 0 \/ ibh0 = H ->
    (ibh0 = H \/ l <> Leaf \/ r <> Leaf) ->
    (let* '(ibh1, (lbh, ok)) :=
       leftSubtreeIsValid (isValid fuel h (Some f)) h (Some a) ibh0 cur' (Some f) in
     if negb ok then Ok (ibh1, (0, false))
     else
       let* '(ibh2, (rbh, ok)) :=
         rightSubtreeIsValid (isValid fuel h (Some f)) h (Some a) ibh1 cur' (Some f) in
       if negb ok || negb (lbh =? rbh) then Ok (ibh2, (0, false))
       else Ok (ibh2, (Z.max lbh cur', true))) = Ok (H, (H, true))).
  { intros ibh0 Hibh0 Hne.
    destruct (Hleft ibh0 Hibh0) as (ibh1 & Hi1 & -> & Hl1). scbn.
    destruct (Hright ibh1) as (ibh2 & Hi2 & -> & Hr2); [intuition congruence|]. scbn.
    rewrite Z.eqb_refl. scbn. do 2 f_equal; [|f_equal; lia].
    destruct Hne as [->|[Hne|Hne]].
    - intuition congruence.
    - specialize (Hl1 Hne). intuition congruence.
    - by apply Hr2. }
  destruct (is_nil (rootptr l) && is_nil (rootptr r)) eqn:Eleaf.
  - apply andb_true_iff in Eleaf as [El Er].
    destruct l; [|done]. destruct r; [|done]. simpl in Hml. subst m.
    assert (cur' = H) by lia. subst cur'.
    destruct Hibh as [->| ->].
    + done.
    + destruct (H =? 0) eqn:E0; [lia|]. rewrite Z.eqb_refl. scbn.
      apply Hrest; auto.
  - apply Hrest; [done|]. right.
    destruct l; [|by left]. destruct r; [done|by right].
Qed.

Lemma IsValid_loop_spec (h : heap) (t : tree) fuel : forall l1 a v l2 cnt,
  Rep h t -> inorder t = l1 ++ (a, v) :: l2 ->
  (length l2 < fuel)%nat -> 0 <= cnt -> cnt + 1 + Z.of_nat (length l2) < 2 ^ 63 ->
  IsValid_loop fuel h (Some a) cnt = Ok (cnt + 1 + Z.of_nat (length l2)).
Proof.
  induction fuel as [|fuel IH]; intros l1 a v l2 cnt HR E Hfuel Hc Hsmall; [lia|].
  cbn [IsValid_loop]. rewrite (Next_inorder _ _ _ _ _ _ HR E). scbn.
  rewrite wrap_small by lia.
  destruct l2 as [|[b bv] l2]; simpl.
  - f_equal. lia.
  - rewrite (IH (l1 ++ [(a, v)]) b bv l2).
    + f_equal. simpl length. lia.
    + done.
    + by rewrite <- app_assoc.
    + simpl in Hfuel. lia.
    + lia.
    + simpl length in Hsmall. lia.
Qed.

Lemma IsValid_complete (rbt : RBTree T) (h : heap) (t : tree) :
  Valid rbt h t -> IsValid rbt h = Ok true.
Proof.
  intros [HR Hroot Hcmp [Hblack [n Hrb]] Hso Hcount Hmin Hmax Hfits].
  unfold IsValid. rewrite Hcmp, Hroot, Hmin, Hmax, Hcount.
  destruct t as [|a c l v r]; [done|]. simpl in Hblack. subst c.
  pose proof (Rep_focus h Top _ _ _ _ _ HR) as Ha. cbn [rootptr is_nil].
  rewrite (load_Some _ _ _ Ha). scbn.
  pose proof (Rep_fuel h Top _ HR) as Hfuel. simpl depth in Hfuel.
  pose proof (height_size (Node a true l v r)) as Hhs.
  pose proof (RB_height _ _ Hrb) as Hnh.
  rewrite (isValid_complete h (fuel_of h) None a true l v r n 0 0 (Z.of_nat n));
    try done; try lia; [|by destruct HR|destruct n; [done|lia]].
  scbn. destruct HR as [Hr Hnd].
  pose proof (leftmost_spec h (fuel_of h) None _ Hr) as El. cbn [rootptr] in El.
  rewrite El; [|done|lia]. scbn. rewrite ptr_eqb_refl. scbn.
  pose proof (rightmost_spec h (fuel_of h) None _ Hr) as Er. cbn [rootptr] in Er.
  rewrite Er; [|done|lia]. scbn. rewrite ptr_eqb_refl. scbn.
  destruct (inorder (Node a true l v r)) as [|[b bv] rest] eqn:E;
    [by apply inorder_nil in E|].
  pose proof (size_inorder (Node a true l v r)) as Hlen. rewrite E in Hlen.
  simpl length in Hlen. unfold first_addr. simpl head. simpl fmap.
  rewrite (IsValid_loop_spec h (Node a true l v r) (fuel_of h) [] b bv rest 0);
    try done; try lia.
  scbn. f_equal. apply Z.eqb_eq. lia.
Qed.

End Valid.

(** * Insertion *)

Section Insert.

Context {T : Type} (f : T -> T -> Z) (Hf : Comparator f).

Local Abbreviation node := (RBNode T).
Local Abbreviation heap := (list (RBNode T)).
Local Abbreviation tree := (@tree T).
Local Abbreviation ctx := (@ctx T).

(** The descent of [insert]: either the address of a node holding an equal
    value, or the position of the absent child where the value belongs. *)
Fixpoint ins_path (val : T) (k : ctx) (t : tree) : addr + ctx :=
  match t with
  | Leaf => inr k
  | Node a c l x r =>
      if f val x <? 0 then ins_path val (CL a c x k r) l
      else if f val x >? 0 then ins_path val (CR a c l x k) r
      else inl a
  end.

(** Everything before the hole is smaller than [val], everything after it
    is greater. *)
Definition between (val : T) (k : ctx) : Prop :=
  (forall b x, (b, x) ∈ ctx_before k -> f x val < 0)
  /\ (forall b x, (b, x) ∈ ctx_after k -> f val x < 0).

Lemma Sorted_plug_inner k (t : tree) : Sorted_tree f (plug k t) -> Sorted_tree f t.
Proof.
  unfold Sorted_tree. rewrite inorder_plug. intros H.
  apply StronglySorted_app in H as (_ & _ & H).
  by apply StronglySorted_app in H as (_ & H & _).
Qed.

Lemma ins_path_inr val (t : tree) : forall k k',
  ins_path val k t = inr k' ->
  plug k' Leaf = plug k t /\ (t <> Leaf -> k' <> Top)
  /\ (Sorted_tree f t -> between val k -> between val k').
Proof.
  induction t as [|a c l IHl x r IHr]; intros k k'; simpl.
  - intros [= ->]. done.
  - destruct (f val x <? 0) eqn:E1; [|destruct (f val x >? 0) eqn:E2; [|done]].
    + intros H. pose proof H as H0. apply IHl in H as (Hp & Hne & Hb).
      split_and!; [done| |].
      * intros _. destruct l; [|by apply Hne]. simpl in H0. by injection H0 as <-.
      * intros Hs [Hb1 Hb2]. apply Sorted_node in Hs as (Hsl & Hsr & Hlt & Hgt).
        apply Hb; [done|]. split; [done|]. simpl. intros b y Hin.
        apply elem_of_cons in Hin as [[= -> ->]|Hin]; [lia|].
        apply elem_of_app in Hin as [Hin|Hin]; [|by eapply Hb2].
        eapply (cmp_lt_trans f Hf); [|by eapply Hgt]. lia.
    + intros H. pose proof H as H0. apply IHr in H as (Hp & Hne & Hb).
      split_and!; [done| |].
      * intros _. destruct r; [|by apply Hne]. simpl in H0. by injection H0 as <-.
      * intros Hs [Hb1 Hb2]. apply Sorted_node in Hs as (Hsl & Hsr & Hlt & Hgt).
        apply Hb; [done|]. split; [|done]. simpl. intros b y Hin.
        apply elem_of_app in Hin as [Hin|Hin]; [by eapply Hb1|].
        apply elem_of_app in Hin as [Hin|Hin].
        -- eapply (cmp_lt_trans f Hf); [by eapply Hlt|].
           apply (cmp_gt_lt f Hf). lia.
        -- apply list_elem_of_singleton in Hin as [= -> ->].
           apply (cmp_gt_lt f Hf). lia.
Qed.

Lemma ins_path_find val (t : tree) : forall k,
  match find_abs f val t with
  | (Some a, _) => ins_path val k t = inl a
  | (None, _) => exists k', ins_path val k t = inr k'
  end.
Proof.
  induction t as [|a c l IHl x r IHr]; intros k; simpl.
  - eauto.
  - destruct (f val x <? 0); [apply IHl|].
    destruct (f val x >? 0); [apply IHr|done].
Qed.

(** The heap-level step of [insert]: a fresh red cell is linked below the
    parent of the hole. *)
Lemma attach_spec (h : heap) k val :
  Rep h (plug k Leaf) -> k <> Top ->
  let new := length h in
  let h1 := h ++ [mkNode val None None (hole_par k) false] in
  exists h',
    store h1 (hole_par k) (relink k (Some new)) = Ok h'
    /\ (exists n, load h' (hole_par k) = Ok n
                  /\ match k with
                     | CL _ _ _ _ _ => left n = Some new
                     | CR _ _ _ _ _ => right n = Some new
                     | Top => False
                     end)
    /\ Rep h' (plug k (Node new false Leaf val Leaf))
    /\ length h' = S (length h)
    /\ (forall x, Some x <> hole_par k -> (x < length h)%nat -> h' !! x = h !! x).
Proof.
  intros HR Hk new h1. pose proof HR as [Hr Hnd].
  assert (Hlt : forall x, x ∈ addrs (plug k Leaf) -> (x < length h)%nat).
  { intros x Hx. eapply Repr_lt; eauto. }
  assert (Hg : exists g n, hole_par k = Some g /\ h !! g = Some n
               /\ g ∈ addrs (plug k Leaf)).
  { destruct k as [|g cg gv up gr|g cg gl gv up]; [done| |];
      exists g; eexists; (split; [done|split; [exact (Rep_focus h up _ _ _ _ _ HR)|]]);
      rewrite addrs_plug; simpl; set_solver. }
  destruct Hg as (g & n & Hpar & Hg & Hgin). rewrite Hpar.
  assert (Hg1 : h1 !! g = Some n).
  { subst h1. rewrite lookup_app_l; [done|by eapply lookup_lt_Some]. }
  rewrite (store_Some _ _ _ _ Hg1). eexists. split; [reflexivity|].
  assert (Hlk : forall x, x <> g -> (x < length h)%nat ->
                  <[g:=relink k (Some new) n]> h1 !! x = h !! x).
  { intros x Hx Hl. rewrite list_lookup_insert_ne by done. subst h1.
    by rewrite lookup_app_l. }
  assert (Hnew : <[g:=relink k (Some new) n]> h1 !! new
                 = Some (mkNode val None None (Some g) false)).
  { rewrite list_lookup_insert_ne.
    - subst h1 new. rewrite list_lookup_middle by done. by rewrite Hpar.
    - apply Hlt in Hgin. subst new. lia. }
  assert (Hgl : (g < length h1)%nat) by (by eapply lookup_lt_Some).
  split_and!.
  - exists (relink k (Some new) n). split.
    + apply load_Some. by rewrite list_lookup_insert_eq.
    + by destruct k.
  - split.
    + eapply Repr_replace; [exact Hr | | | | ].
      * apply NoDup_plug in Hnd. by apply NoDup_app in Hnd as (_ & _ & ?).
      * simpl. rewrite Hpar. split; [exact Hnew|done].
      * intros x Hx Hne. apply Hlk; [congruence|]. apply Hlt.
        rewrite addrs_plug. set_solver.
      * intros a n' E Ha. rewrite Hpar in E. injection E as <-.
        rewrite Hg in Ha. injection Ha as <-.
        by rewrite list_lookup_insert_eq.
    + apply NoDup_plug. simpl. apply NoDup_cons. split.
      * intros Hin. assert (new ∈ addrs (plug k Leaf)) as Hin'.
        { rewrite addrs_plug. done. }
        apply Hlt in Hin'. subst new. lia.
      * by apply NoDup_plug in Hnd.
  - rewrite length_insert. subst h1. rewrite length_app. simpl. lia.
  - intros x Hx Hl. apply Hlk; [congruence|done].
Qed.

Definition insert_post (h : heap) (val : T) (k : ctx) (t : tree)
    (res : ptr * bool * heap) : Prop :=
  let '(p, ok, h') := res in
  match ins_path val k t with
  | inl a' => p = Some a' /\ ok = false /\ h' = h
  | inr k' =>
      p = Some (length h) /\ ok = true
      /\ Rep h' (plug k' (Node (length h) false Leaf val Leaf))
      /\ length h' = S (length h)
      /\ (forall y, Some y <> hole_par k' -> (y < length h)%nat -> h' !! y = h !! y)
  end.

Lemma insert_spec (h : heap) val fuel : forall k a c l x r,
  Rep h (plug k (Node a c l x r)) ->
  (height (Node a c l x r) <= fuel)%nat ->
  Post (insert fuel h (Some f) (Some a) val) (insert_post h val k (Node a c l x r)).
Proof.
  induction fuel as [|fuel IH]; intros k a c l x r HR Hfuel; [simpl in Hfuel; lia|].
  pose proof (Rep_focus _ _ _ _ _ _ _ HR) as Ha.
  cbn [insert]. rewrite (load_Some _ _ _ Ha). scbn. cbn [call bind].
  unfold insert_post. cbn [ins_path]. simpl in Hfuel.
  destruct (f val x <? 0); [|destruct (f val x >? 0)].
  - destruct l as [|b cb bl bv br]; scbn.
    + destruct (attach_spec h (CL a c x k r) val HR) as (h' & E & (n & En & Hn) & HR' & Hlen & Hfr);
        [done|].
      cbn [alloc]. cbn [hole_par relink] in E, En. rewrite E. scbn. rewrite En. scbn.
      apply Post_Ok. cbn [ins_path]. rewrite Hn. done.
    + apply (IH (CL a c x k r) b cb bl bv br HR). lia.
  - destruct r as [|b cb bl bv br]; scbn.
    + destruct (attach_spec h (CR a c l x k) val HR) as (h' & E & (n & En & Hn) & HR' & Hlen & Hfr);
        [done|].
      cbn [alloc]. cbn [hole_par relink] in E, En. rewrite E. scbn. rewrite En. scbn.
      apply Post_Ok. cbn [ins_path]. rewrite Hn. done.
    + apply (IH (CR a c l x k) b cb bl bv br HR). lia.
  - by apply Post_Ok.
Qed.

Lemma Sorted_insert (B A : list (addr * T)) new val :
  StronglySorted (lt_val f) (B ++ A) ->
  (forall b x, (b, x) ∈ B -> f x val < 0) ->
  (forall b x, (b, x) ∈ A -> f val x < 0) ->
  StronglySorted (lt_val f) (B ++ (new, val) :: A).
Proof.
  intros Hs HB HA. apply StronglySorted_app in Hs as (H1 & H2 & H3).
  apply StronglySorted_app. split_and!; [|done|].
  - intros [b x] [b' y] Hx Hy. apply elem_of_cons in Hy as [[= -> ->]|Hy].
    + by eapply HB.
    + by apply H1.
  - apply StronglySorted_cons. split; [|done].
    apply Forall_forall. intros [b x] Hx. by eapply HA.
Qed.

(** The new red leaf hangs below [g]; if [g] is red the repair runs. *)
Lemma fix_insert (rbt : RBTree T) (h : heap) k val new :
  Rep h (plug k (Node new false Leaf val Leaf)) ->
  root rbt = rootptr (plug k (Node new false Leaf val Leaf)) ->
  RBtree (plug k Leaf) -> k <> Top ->
  exists g pn, hole_par k = Some g /\ load h (Some g) = Ok pn /\
  Post (if negb (isBlack pn) then solveDoubleRed (fuel_of h) rbt h (Some g)
        else Ok (rbt, h))
       (fixed (rbt0:=rbt) (h0:=h) (t0:=plug k (Node new false Leaf val Leaf))).
Proof.
  intros HR Hroot Hrb Hk.
  apply RB_plug_inv in Hrb as (n & Hn & Hctx & _). simpl in Hn. subst n.
  pose proof (St_init rbt h _ HR Hroot) as Hs.
  pose proof (Rep_fuel _ _ _ HR) as Hfuel.
  destruct k as [|g cg gv up gr|g cg gl gv up]; [done| |]; exists g; eexists;
    (split; [done|]); (split; [apply load_Some; exact (Rep_focus h up _ _ _ _ _ HR)|]);
    scbn; simpl in Hctx; destruct Hctx as [Hsib Hctx]; destruct cg; scbn.
  - apply Post_Ok. exists (plug (CL g true gv up gr) (Node new false Leaf val Leaf)).
    split; [done|]. eapply (plug_RB (CL g true gv up gr) 0); simpl; auto.
  - destruct Hctx as (Hb & Hp & Hctx). cbn [plug] in Hs.
    eapply (solveDoubleRed_ok _ _ _ up g _ _ _ 0%nat); eauto; simpl; auto.
    simpl in Hfuel. lia.
  - apply Post_Ok. exists (plug (CR g true gl gv up) (Node new false Leaf val Leaf)).
    split; [done|]. eapply (plug_RB (CR g true gl gv up) 0); simpl; auto.
  - destruct Hctx as (Hb & Hp & Hctx). cbn [plug] in Hs.
    eapply (solveDoubleRed_ok _ _ _ up g _ _ _ 0%nat); eauto; simpl; auto.
    simpl in Hfuel. lia.
Qed.

Lemma first_last_insert (B A : list (addr * T)) new val :
  B ++ A <> [] ->
  first_addr (B ++ (new, val) :: A)
    = (if decide (B = []) then Some new else first_addr (B ++ A))
  /\ last_addr (B ++ (new, val) :: A)
    = (if decide (A = []) then Some new else last_addr (B ++ A)).
Proof.
  intros Hne. unfold first_addr, last_addr. split.
  - destruct B; simpl; done.
  - destruct (decide (A = [])) as [->|HA].
    + by rewrite last_snoc.
    + rewrite !last_app_ne; try done. destruct A; [done|]. by rewrite last_cons_cons.
Qed.

Lemma minmax_insert (rbt : RBTree T) (h : heap) (B A : list (addr * T)) new val :
  cmp rbt = Some f -> B ++ A <> [] ->
  Min rbt = first_addr (B ++ A) -> Max rbt = last_addr (B ++ A) ->
  (forall b x, (b, x) ∈ B ++ A -> exists n, h !! b = Some n /\ Val n = x) ->
  (forall b x, (b, x) ∈ B -> f x val < 0) ->
  (forall b x, (b, x) ∈ A -> f val x < 0) ->
  exists mn, load h (Min rbt) = Ok mn /\
  Post (if f val (Val mn) <? 0 then Ok (set_Min (Some new) rbt)
        else
          let* mx := load h (Max rbt) in
          let* c := call (cmp rbt) val (Val mx) in
          if c >? 0 then Ok (set_Max (Some new) rbt) else Ok rbt)
       (fun rbt1 => root rbt1 = root rbt /\ cmp rbt1 = cmp rbt
                    /\ Count rbt1 = Count rbt
                    /\ Min rbt1 = first_addr (B ++ (new, val) :: A)
                    /\ Max rbt1 = last_addr (B ++ (new, val) :: A)).
Proof.
  intros Hcmp Hne Hmin Hmax Hcells HB HA.
  destruct (first_last_insert B A new val Hne) as [-> ->].
  destruct (head (B ++ A)) as [[m mv]|] eqn:Ehd;
    [|by apply head_None in Ehd].
  destruct (last (B ++ A)) as [[M Mv]|] eqn:Elast;
    [|by apply last_None in Elast].
  assert (Hm : (m, mv) ∈ B ++ A) by (by apply head_Some_elem_of).
  assert (HM : (M, Mv) ∈ B ++ A) by (by apply last_Some_elem_of).
  destruct (Hcells _ _ Hm) as (mn & Hmn & Hmv).
  destruct (Hcells _ _ HM) as (mx & Hmx & HMv).
  assert (Hmin' : Min rbt = Some m) by (rewrite Hmin; unfold first_addr; by rewrite Ehd).
  assert (Hmax' : Max rbt = Some M) by (rewrite Hmax; unfold last_addr; by rewrite Elast).
  assert (Hfa : first_addr (B ++ A) = Some m) by (unfold first_addr; by rewrite Ehd).
  assert (Hla : last_addr (B ++ A) = Some M) by (unfold last_addr; by rewrite Elast).
  rewrite Hfa, Hla.
  exists mn. rewrite Hmin', Hmax'. simpl. rewrite Hmn, Hmx. split; [done|].
  rewrite Hmv. scbn. rewrite Hcmp. cbn [call bind]. rewrite HMv.
  destruct (decide (B = [])) as [->|HBne].
  - simpl in Ehd. assert (HmA : (m, mv) ∈ A) by (by apply head_Some_elem_of).
    pose proof (HA _ _ HmA) as Hlt.
    destruct (f val mv <? 0) eqn:E; [|lia]. apply Post_Ok.
    destruct (decide (A = [])) as [->|_]; [done|]. done.
  - assert (HmB : (m, mv) ∈ B).
    { destruct B; [done|]. simpl in Ehd. injection Ehd as <-. left. }
    pose proof (HB _ _ HmB) as Hlt. apply (cmp_flip f Hf) in Hlt.
    destruct (f val mv <? 0) eqn:E; [lia|].
    destruct (decide (A = [])) as [->|HAne].
    + rewrite app_nil_r in Elast.
      assert (HMB : (M, Mv) ∈ B) by (by apply last_Some_elem_of).
      pose proof (HB _ _ HMB) as Hlt'. apply (cmp_flip f Hf) in Hlt'.
      destruct (f val Mv >? 0) eqn:E'; [|lia]. by apply Post_Ok.
    + rewrite last_app_ne in Elast by done.
      assert (HMA : (M, Mv) ∈ A) by (by apply last_Some_elem_of).
      pose proof (HA _ _ HMA) as Hlt'.
      destruct (f val Mv >? 0) eqn:E'; [lia|]. by apply Post_Ok.
Qed.

Definition Insert_post (rbt : RBTree T) (h : heap) (t : tree) (val : T)
    (res : ptr * bool * RBTree T * heap) : Prop :=
  let '(p, ok, rbt', h') := res in
  match find_abs f val t with
  | (Some a, _) => p = Some a /\ ok = false /\ rbt' = rbt /\ h' = h
  | (None, _) =>
      p = Some (length h) /\ ok = true /\ length h' = S (length h)
      /\ exists t' l1 l2,
           Valid f rbt' h' t' /\ inorder t = l1 ++ l2
           /\ inorder t' = l1 ++ (length h, val) :: l2
  end.

Lemma Insert_spec (rbt : RBTree T) (h : heap) (t : tree) val :
  Valid f rbt h t -> Z.of_nat (size t) + 1 < 2 ^ 63 ->
  Post (Insert rbt h val) (Insert_post rbt h t val).
Proof.
  intros [HR Hroot Hcmp Hrb Hso Hcount Hmin Hmax Hfits] Hfits'.
  unfold Insert. rewrite Hroot.
  destruct t as [|a c l x r].
  - (* the first node *)
    cbn [rootptr is_nil alloc]. apply Post_Ok. unfold Insert_post. cbn [find_abs].
    split_and!; try done; [by rewrite length_app; simpl; lia|].
    exists (Node (length h) true Leaf val Leaf), [], []. split_and!; try done.
    split; simpl; try done.
    + split; [|apply NoDup_singleton]. simpl. by rewrite list_lookup_middle.
    + split; [done|]. by exists 1%nat.
    + apply StronglySorted_cons. split; [apply Forall_nil_2|constructor].
    + rewrite Hcount. simpl. by rewrite wrap_small.
  - cbn [rootptr is_nil negb].
    pose proof (Rep_fuel h Top _ HR) as Hfuel.
    pose proof (height_size (Node a c l x r)) as Hhs.
    pose proof (insert_spec h val (fuel_of h) Top a c l x r HR) as Hins.
    rewrite <- Hcmp in Hins.
    apply Post_bind. eapply Post_mono; [apply Hins; simpl in *; lia|]. clear Hins.
    intros [[p ok] h1] Hpost. unfold insert_post in Hpost. unfold Insert_post.
    pose proof (ins_path_find val (Node a c l x r) Top) as Hpath.
    destruct (find_abs f val (Node a c l x r)) as [[a'|] b].
    { rewrite Hpath in Hpost. destruct Hpost as (-> & -> & ->). scbn. by apply Post_Ok. }
    destruct Hpath as [k Hk]. rewrite Hk in Hpost.
    destruct Hpost as (-> & -> & HR1 & Hlen & Hfr). scbn.
    apply ins_path_inr in Hk as (Hplug & Hne & Hbet). simpl in Hplug.
    specialize (Hne ltac:(done)).
    assert (Hb0 : between val Top)
      by (split; intros ? ? Hin; by apply elem_of_nil in Hin).
    destruct (Hbet Hso Hb0) as [HB HA].
    set (new := length h) in *. set (t1 := plug k (Node new false Leaf val Leaf)) in *.
    assert (Eold : inorder (Node a c l x r) = ctx_before k ++ ctx_after k).
    { by rewrite <- Hplug, inorder_plug. }
    assert (Enew : inorder t1 = ctx_before k ++ (new, val) :: ctx_after k).
    { subst t1. by rewrite inorder_plug. }
    rewrite Eold in Hmin, Hmax.
    destruct (minmax_insert rbt h1 (ctx_before k) (ctx_after k) new val)
      as (mn & Emn & Hmm); try done.
    { rewrite <- Eold. apply inorder_ne. }
    { intros b' y Hin. eapply (Rep_inorder_lookup h1 t1); [done|].
      rewrite Enew. set_solver. }
    rewrite Emn. scbn. rewrite Hcmp at 1. cbn [call bind].
    apply Post_bind. eapply Post_mono; [exact Hmm|]. clear Hmm.
    intros rbt1 (Hroot1 & Hcmp1 & Hcount1 & Hmin1 & Hmax1).
    assert (Hr1 : root rbt1 = rootptr t1).
    { rewrite Hroot1, Hroot, <- Hplug. subst t1. by apply rootptr_plug. }
    destruct (fix_insert rbt1 h1 k val new HR1 Hr1) as (g & pn & Hg & Epn & Hfix);
      [by rewrite Hplug|done|].
    rewrite (load_Some _ _ _ (Rep_focus _ _ _ _ _ _ _ HR1)). scbn.
    rewrite Hg, Epn. scbn.
    apply Post_bind. eapply Post_mono; [exact Hfix|]. clear Hfix.
    intros [rbt2 h2] (t2 & [Hrbt2 HR2 Hin2 Hlen2 Hfr2] & Hrb2). cbn [fst snd] in *.
    change (inorder t2 = inorder t1) in Hin2.
    apply Post_Ok. split_and!; try done; [congruence|].
    exists t2, (ctx_before k), (ctx_after k).
    split; [|split; [exact Eold|by rewrite Hin2]].
    assert (Hsz : size t2 = S (size (Node a c l x r))).
    { rewrite <- !size_inorder, Hin2, Enew, Eold, !length_app. simpl. lia. }
    subst rbt2. split; simpl; try done.
    + congruence.
    + unfold Sorted_tree. rewrite Hin2, Enew. apply Sorted_insert; try done.
      by rewrite <- Eold.
    + rewrite Hcount1, Hcount, Hsz. rewrite wrap_small; simpl in *; lia.
    + by rewrite Hin2, Enew.
    + by rewrite Hin2, Enew.
    + rewrite Hsz. simpl in *. lia.
Qed.

End Insert.

(** * The double-black repair *)

Section DoubleBlack.

Context {T : Type}.

Local Abbreviation node := (RBNode T).
Local Abbreviation heap := (list (RBNode T)).
Local Abbreviation tree := (@tree T).
Local Abbreviation ctx := (@ctx T).

Context {rbt0 : RBTree T} {h0 : heap} {t0 : tree}.

Lemma St_focus_notin (rbt : RBTree T) (h : heap) k a c l v r :
  St rbt0 h0 t0 rbt h (plug k (Node a c l v r)) -> a ∉ ctx_addrs k.
Proof.
  intros [_ [_ Hnd] _ _ _]. apply NoDup_plug in Hnd. simpl in Hnd.
  apply NoDup_cons in Hnd as [Hnd _]. set_solver.
Qed.

Lemma rootptr_in (t : tree) a : rootptr t = Some a -> a ∈ addrs t.
Proof. destruct t; simpl; [done|]. intros [= ->]. left. Qed.

Lemma RB_S_node n (t : tree) : RB (S n) t -> exists a c l v r, t = Node a c l v r.
Proof. destruct t; simpl; [done|]. eauto 10. Qed.

(** [x] is the node whose subtree [X] lost one black node: on the first
    call [x] has just been unlinked and [X] is the empty tree; on the
    recursive calls [x] is the root of [X]. *)
Lemma solveDoubleBlack_ok fuel : forall rbt h k x nx (X : tree) n,
  St rbt0 h0 t0 rbt h (plug k X) ->
  load h (Some x) = Ok nx -> parent nx = hole_par k ->
  (X = Leaf \/ rootptr X = Some x) ->
  x ∉ ctx_addrs k -> (k = Top -> rootptr X = Some x) ->
  RB n X -> isB X = true -> CtxOK (S n) k ->
  (depth k < fuel)%nat ->
  Post (solveDoubleBlack fuel rbt h (Some x)) (fixed (rbt0:=rbt0) (h0:=h0) (t0:=t0)).
Proof.
  induction fuel as [|fuel IH];
    intros rbt h k x nx X n Hs Hx Hpar HxX Hxk Htop HX HbX Hk Hfuel; [lia|].
  cbn [solveDoubleBlack].
  assert (Hroot : ptr_eqb (root rbt) (Some x) = match k with Top => true | _ => false end).
  { destruct Hs as [-> _ _ _ _]. cbn [root set_root].
    destruct k; [cbn [plug]; rewrite Htop by done; apply ptr_eqb_refl| |];
      (apply ptr_eqb_neq; intros E; apply rootptr_plug_in in E; done). }
  rewrite Hroot. clear Hroot.
  destruct k as [|p cp pv up S|p cp S pv up].
  - apply Post_Ok. exists X. split; [done|]. split; eauto.
  - (* the sibling is on the right *)
    rewrite Hx. scbn. rewrite Hpar. scbn. simpl in Hk. destruct Hk as [HS Hk].
    destruct (RB_S_node _ _ HS) as (s & cs & sl & sv & sr & ->).
    cbn [plug] in Hs. step.
    assert (Hsx : s <> x) by (intros ->; apply Hxk; simpl; set_solver).
    replace (if ptr_eqb (rootptr X) (Some x) then Ok true
             else Ok (negb (ptr_eqb (Some s) (Some x)))) with (@Ok bool true).
    2:{ destruct (ptr_eqb (rootptr X) (Some x)); [done|]. simpl.
        by rewrite (proj2 (Nat.eqb_neq s x)). }
    scbn. unfold doubleBlackBlackSiblingRedChild. repeat step.
    destruct cs; scbn.
    + (* black sibling *)
      simpl in HS. destruct HS as [Hsl Hsr].
      destruct sl as [|y [] yl yv yr]; destruct sr as [|z [] zl zv zr];
        simpl in Hsl, Hsr; scbn; repeat step; destruct cp; simpl in Hk; scbn;
        repeat step; try rb_done;
        (eapply (IH _ _ up p _ (Node p true X pv _) (S n));
         [ eassumption
         | match goal with Hs' : St _ _ _ _ _ _ |- _ =>
             eapply (St_load Hs' (@nil dir)); reflexivity end
         | reflexivity | right; reflexivity
         | eapply St_focus_notin; eassumption
         | intros _; reflexivity
         | simpl in *; destruct_and?; solve_rb
         | reflexivity | assumption | simpl in Hfuel; lia ]).
    + (* red sibling *)
      simpl in HS. destruct HS as (Hsl & Hsr & Hbl & Hbr).
      destruct (RB_S_node _ _ Hsl) as (y & cy & yl & yv & yr & ->).
      simpl in Hbl. subst cy. simpl in Hsl. destruct Hsl as [Hyl Hyr].
      destruct cp; simpl in Hk; [|destruct Hk as (? & ? & ?); done].
      repeat step.
      destruct yl as [|u [] ul uv ur]; destruct yr as [|z [] zl zv zr];
        simpl in Hyl, Hyr; scbn; repeat step; try rb_done.
  - (* the sibling is on the left *)
    rewrite Hx. scbn. rewrite Hpar. scbn. simpl in Hk. destruct Hk as [HS Hk].
    destruct (RB_S_node _ _ HS) as (s & cs & sl & sv & sr & ->).
    cbn [plug] in Hs. step.
    assert (Hsx : s <> x) by (intros ->; apply Hxk; simpl; set_solver).
    rewrite (ptr_eqb_neq (Some s) (Some x)) by congruence.
    replace (if negb (is_nil (rootptr X))
             then Ok (negb (ptr_eqb (rootptr X) (Some x)))
             else Ok false) with (@Ok bool false).
    2:{ destruct HxX as [->|E]; [done|]. rewrite E. simpl.
        by rewrite Nat.eqb_refl. }
    scbn. unfold doubleBlackBlackSiblingRedChild. repeat step.
    destruct cs; scbn.
    + simpl in HS. destruct HS as [Hsl Hsr].
      destruct sl as [|y [] yl yv yr]; destruct sr as [|z [] zl zv zr];
        simpl in Hsl, Hsr; scbn; repeat step; destruct cp; simpl in Hk; scbn;
        repeat step; try rb_done;
        (eapply (IH _ _ up p _ (Node p true _ pv X) (S n));
         [ eassumption
         | match goal with Hs' : St _ _ _ _ _ _ |- _ =>
             eapply (St_load Hs' (@nil dir)); reflexivity end
         | reflexivity | right; reflexivity
         | eapply St_focus_notin; eassumption
         | intros _; reflexivity
         | simpl in *; destruct_and?; solve_rb
         | reflexivity | assumption | simpl in Hfuel; lia ]).
    + simpl in HS. destruct HS as (Hsl & Hsr & Hbl & Hbr).
      destruct (RB_S_node _ _ Hsr) as (y & cy & yl & yv & yr & ->).
      simpl in Hbr. subst cy. simpl in Hsr. destruct Hsr as [Hyl Hyr].
      destruct cp; simpl in Hk; [|destruct Hk as (? & ? & ?); done].
      repeat step.
      destruct yl as [|u [] ul uv ur]; destruct yr as [|z [] zl zv zr];
        simpl in Hyl, Hyr; scbn; repeat step; try rb_done.
Qed.

End DoubleBlack.

(** * Deletion *)

Section DeleteSteps.

Context {T : Type}.

Local Abbreviation node := (RBNode T).
Local Abbreviation heap := (list (RBNode T)).
Local Abbreviation tree := (@tree T).
Local Abbreviation ctx := (@ctx T).

(** Unlinking a leaf from its parent. *)
Lemma detach_spec (h : heap) k d c v :
  Rep h (plug k (Node d c Leaf v Leaf)) -> k <> Top ->
  exists g pn h',
    hole_par k = Some g /\ load h (Some g) = Ok pn
    /\ (if ptr_eqb (left pn) (Some d) then store h (Some g) (set_left None)
        else store h (Some g) (set_right None)) = Ok h'
    /\ Rep h' (plug k Leaf)
    /\ length h' = length h
    /\ (forall x, x <> g -> h' !! x = h !! x).
Proof.
  intros HR Hk. pose proof HR as [Hr Hnd].
  apply NoDup_plug in Hnd. simpl in Hnd. apply NoDup_cons in Hnd as [Hd Hndk].
  destruct k as [|g cg gv up gr|g cg gl gv up]; [done| |];
    pose proof (Rep_focus h up _ _ _ _ _ HR) as Hg; cbn [rootptr] in Hg;
    simpl in Hd; exists g; eexists; eexists; (split; [done|]);
    (split; [apply load_Some; exact Hg|]); hsimpl;
    (split; [reflexivity|]);
    match goal with |- Rep ?H _ /\ _ =>
      assert (Hlk : forall x, x <> g -> H !! x = h !! x)
        by (intros; by rewrite list_lookup_insert_ne) end;
    (split_and!; [|by rewrite length_insert|exact Hlk]);
    (split;
     [ eapply Repr_replace; [exact Hr| exact Hndk | done | |];
       [ intros x Hx Hne; apply Hlk; simpl in Hne; congruence
       | simpl; intros ? n [= <-] Hn; rewrite Hg in Hn; injection Hn as <-;
         by rewrite list_lookup_insert_eq by (by eapply lookup_lt_Some) ]
     | apply NoDup_plug; simpl; exact Hndk ]).
Qed.

(** A node with a single (leaf) child takes the child's value and drops
    the child. *)
Lemma onechild_right_spec (rbt : RBTree T) (h : heap) k d c v r0 cr rv :
  Rep h (plug k (Node d c Leaf v (Node r0 cr Leaf rv Leaf))) ->
  Post (let* r := load h (Some r0) in
        let* h1 := store h (Some d) (set_Val (Val r)) in
        let* h2 := store h1 (Some d) (set_right None) in
        Ok (rbt, h2))
       (fun '(rbt', h') =>
          rbt' = rbt /\ Rep h' (plug k (Node d c Leaf rv Leaf))
          /\ length h' = length h /\ (forall x, x <> d -> h' !! x = h !! x)).
Proof.
  intros HR. pose proof HR as [Hr Hnd].
  pose proof (Repr_inner _ _ _ Hr) as (Hd & _ & Hr0 & _).
  apply NoDup_plug in Hnd. simpl in Hnd. cbn [rootptr] in Hd, Hr0.
  apply NoDup_cons in Hnd as [Hdn Hnd]. apply NoDup_cons in Hnd as [Hrn Hndk].
  simpl in Hdn, Hrn. hsimpl. apply Post_Ok.
  match goal with |- _ /\ Rep ?H _ /\ _ =>
    assert (Hlk : forall x, x <> d -> H !! x = h !! x)
      by (intros; by hsimpl) end.
  split_and!; [done| |by rewrite !length_insert|exact Hlk].
  split.
  - eapply Repr_replace_same; [exact Hr| |done|].
    + simpl. split_and!; try done. by hsimpl.
    + intros x Hx. apply Hlk. intros ->. apply Hdn. set_solver.
  - apply NoDup_plug. simpl. apply NoDup_cons. split; [set_solver|done].
Qed.

Lemma onechild_left_spec (rbt : RBTree T) (h : heap) k d c v l0 cl lv :
  Rep h (plug k (Node d c (Node l0 cl Leaf lv Leaf) v Leaf)) ->
  Post (let* l := load h (Some l0) in
        let* h1 := store h (Some d) (set_Val (Val l)) in
        let* h2 := store h1 (Some d) (set_left None) in
        Ok (rbt, h2))
       (fun '(rbt', h') =>
          rbt' = rbt /\ Rep h' (plug k (Node d c Leaf lv Leaf))
          /\ length h' = length h /\ (forall x, x <> d -> h' !! x = h !! x)).
Proof.
  intros HR. pose proof HR as [Hr Hnd].
  pose proof (Repr_inner _ _ _ Hr) as (Hd & (Hl0 & _) & _).
  apply NoDup_plug in Hnd. simpl in Hnd. cbn [rootptr] in Hd, Hl0.
  apply NoDup_cons in Hnd as [Hdn Hnd]. apply NoDup_cons in Hnd as [Hrn Hndk].
  simpl in Hdn, Hrn. hsimpl. apply Post_Ok.
  match goal with |- _ /\ Rep ?H _ /\ _ =>
    assert (Hlk : forall x, x <> d -> H !! x = h !! x)
      by (intros; by hsimpl) end.
  split_and!; [done| |by rewrite !length_insert|exact Hlk].
  split.
  - eapply Repr_replace_same; [exact Hr| |done|].
    + simpl. split_and!; try done. by hsimpl.
    + intros x Hx. apply Hlk. intros ->. apply Hdn. set_solver.
  - apply NoDup_plug. simpl. apply NoDup_cons. split; [set_solver|done].
Qed.

(** The outcome of physically removing the node [x] (holding [w]) from the
    tree [t0]: the heap holds a red-black tree with the same traversal
    less [(x, w)], and the cell of [x] still holds [w]. *)
Definition removed (rbt : RBTree T) (h : heap) (t0 : tree) (x : addr) (w : T)
    (B A : list (addr * T)) (res : RBTree T * heap) : Prop :=
  let '(rbt', h') := res in
  exists t',
    Rep h' t' /\ rbt' = set_root (rootptr t') rbt /\ RBtree t'
    /\ length h' = length h
    /\ inorder t0 = B ++ (x, w) :: A /\ inorder t' = B ++ A
    /\ (exists nx, h' !! x = Some nx /\ Val nx = w)
    /\ (forall y, y ∉ addrs t0 -> h' !! y = h !! y).

Lemma addrs_plug_Leaf_sub k (t : tree) x : x ∈ addrs (plug k Leaf) -> x ∈ addrs (plug k t).
Proof. rewrite !addrs_plug. set_solver. Qed.

Lemma deleteNoChildren_ok (rbt : RBTree T) (h : heap) k d c v :
  Rep h (plug k (Node d c Leaf v Leaf)) ->
  root rbt = rootptr (plug k (Node d c Leaf v Leaf)) ->
  RBtree (plug k (Node d c Leaf v Leaf)) -> k <> Top ->
  Post (deleteNoChildren rbt h (Some d))
       (removed rbt h (plug k (Node d c Leaf v Leaf)) d v (ctx_before k) (ctx_after k)).
Proof.
  intros HR Hroot Hrb Hk.
  pose proof (Rep_focus _ _ _ _ _ _ _ HR) as Hd.
  destruct (detach_spec h k d c v HR Hk) as (g & pn & h1 & Hg & Epn & E & HR1 & Hlen & Hfr).
  unfold deleteNoChildren. rewrite (load_Some _ _ _ Hd). scbn.
  rewrite Hg, Epn. scbn. rewrite E. scbn.
  assert (Hdk : d ∉ ctx_addrs k).
  { destruct HR as [_ Hnd]. apply NoDup_plug in Hnd. simpl in Hnd.
    by apply NoDup_cons in Hnd as [? _]. }
  assert (Hdg : d <> g).
  { intros ->. apply Hdk. destruct k; simplify_eq/=; left. }
  assert (Hd1 : h1 !! d = h !! d) by (by apply Hfr).
  rewrite (load_Some h1 d _ ltac:(by rewrite Hd1)). scbn.
  assert (Hroot1 : root rbt = rootptr (plug k Leaf)).
  { rewrite Hroot. by apply rootptr_plug. }
  assert (Hin0 : inorder (plug k (Node d c Leaf v Leaf))
                 = ctx_before k ++ (d, v) :: ctx_after k).
  { by rewrite inorder_plug. }
  assert (Hin1 : inorder (plug k Leaf) = ctx_before k ++ ctx_after k).
  { by rewrite inorder_plug. }
  assert (Hdt : d ∉ addrs (plug k Leaf)).
  { rewrite addrs_plug. simpl. done. }
  apply RB_plug_inv in Hrb as (n & Hn & Hctx & _).
  destruct c; simpl in Hn.
  - destruct n as [|n]; [done|]. destruct Hn as [-> _].
    pose proof (St_init rbt h1 _ HR1 Hroot1) as Hs.
    eapply Post_mono.
    + eapply (solveDoubleBlack_ok (fuel_of h1) rbt h1 k d _ Leaf 0%nat Hs);
        try done.
      * apply load_Some. rewrite Hd1. exact Hd.
      * done.
      * by left.
      * pose proof (Rep_fuel _ _ _ HR1). lia.
    + intros [rbt' h'] (t' & [Hrbt HR' Hin Hlen' Hfr'] & Hrb'). simpl in *.
      exists t'. split_and!; try done; try congruence.
      * exists (mkNode v None None (hole_par k) true).
        split; [|done]. rewrite Hfr' by done. by rewrite Hd1.
      * intros y Hy. rewrite Hfr'.
        -- apply Hfr. intros ->. apply Hy. rewrite addrs_plug.
           destruct k; simplify_eq/=; set_solver.
        -- intros Hin'. apply Hy. by apply addrs_plug_Leaf_sub.
  - destruct Hn as (-> & _). apply Post_Ok. exists (plug k Leaf).
    split_and!; try done.
    + symmetry. by apply set_root_id.
    + eapply (plug_RB k 0); simpl; auto.
    + exists (mkNode v None None (hole_par k) false). split; [|done]. by rewrite Hd1.
    + intros y Hy. apply Hfr. intros ->. apply Hy. rewrite addrs_plug.
      destruct k; simplify_eq/=; set_solver.
Qed.

(** [findAndDeleteLeftmost] at a node without a left child but with a
    right child: the child takes the node's place and turns black. *)
Lemma splice_spec (rbt : RBTree T) (h : heap) fuel k s cs sv r0 cr rl rv rr :
  Rep h (plug k (Node s cs Leaf sv (Node r0 cr rl rv rr))) -> k <> Top ->
  Post (findAndDeleteLeftmost (S fuel) rbt h (Some s))
       (fun '(w, rbt', h') =>
          w = sv /\ rbt' = rbt /\ Rep h' (plug k (Node r0 true rl rv rr))
          /\ length h' = length h
          /\ (forall x, x <> r0 -> Some x <> hole_par k -> h' !! x = h !! x)).
Proof.
  intros HR Hk. pose proof HR as [Hr Hnd].
  pose proof (Repr_inner _ _ _ Hr) as (Hs & _ & Hr0 & Hrl & Hrr).
  apply NoDup_plug in Hnd.
  assert (Hndk : NoDup (ctx_addrs k)) by (by apply NoDup_app in Hnd as (_ & _ & ?)).
  simpl in Hnd. cbn [rootptr] in Hs, Hr0.
  cbn [findAndDeleteLeftmost].
  pose (touched := r0 :: option_list (hole_par k)).
  destruct k as [|g cg gv up gr|g cg gl gv up]; [done| |];
    pose proof (Rep_focus h up _ _ _ _ _ HR) as Hg; cbn [rootptr] in Hg;
    simpl in Hnd; nd; hsimpl; apply Post_Ok;
    match goal with |- _ /\ _ /\ Rep ?H _ /\ _ => set (hh := H) end;
    (assert (Hlk : forall x, x ∉ touched -> hh !! x = h !! x);
     [ intros x Hx; subst hh touched; simpl in Hx;
       rewrite ?not_elem_of_cons in Hx; destruct_and?; by hsimpl |]);
    (split_and!; try done;
     [ split;
       [ eapply Repr_replace; [exact Hr | | | |];
         [ exact Hndk
         | simpl; split_and!;
           try (subst hh; by hsimpl);
           try (eapply Repr_frame; [eassumption|]; intros x Hx; apply Hlk; touch)
         | simpl; intros x Hx Hne; apply Hlk; touch
         | simpl; intros ? n Hp Hn; injection Hp as <-;
           rewrite Hg in Hn; injection Hn as <-; subst hh; by hsimpl ]
       | apply NoDup_plug; simpl;
         repeat (apply NoDup_cons; split; [try dnotin|]); repeat (apply NoDup_app; split_and!; try done) ]
     | subst hh; by rewrite !length_insert
     | intros x Hx1 Hx2; apply Hlk; subst touched; simpl;
       rewrite ?not_elem_of_cons; split_and!; try congruence; apply not_elem_of_nil ]).
Qed.

Lemma RB_zero_black (t : tree) : RB 0 t -> isB t = true -> t = Leaf.
Proof. destruct t as [|a [] l v r]; simpl; try done. Qed.

(** In a red-black tree, a node with exactly one child is black and the
    child is a red leaf. *)
Lemma RB_single_child n a c v b cb (bl : tree) bv br :
  RB n (Node a c Leaf v (Node b cb bl bv br))
  \/ RB n (Node a c (Node b cb bl bv br) v Leaf) ->
  c = true /\ cb = false /\ bl = Leaf /\ br = Leaf /\ n = 1%nat.
Proof.
  intros [H|H]; destruct c; simpl in H.
  - destruct n as [|n]; [done|]. destruct H as [-> H]. simpl in H.
    destruct cb; [done|]. destruct H as (Hl & Hr & Hbl & Hbr).
    split_and!; try done; by apply RB_zero_black.
  - destruct H as (-> & H & _ & Hb). simpl in *. subst cb. done.
  - destruct n as [|n]; [done|]. destruct H as [H ->]. simpl in H.
    destruct cb; [done|]. destruct H as (Hl & Hr & Hbl & Hbr).
    split_and!; try done; by apply RB_zero_black.
  - destruct H as (H & -> & Hb & _). simpl in *. subst cb. done.
Qed.

Lemma fdl_ok (rbt : RBTree T) (h : heap) fuel : forall ks a ca al av ar,
  Rep h (plug ks (Node a ca al av ar)) ->
  root rbt = rootptr (plug ks (Node a ca al av ar)) ->
  RBtree (plug ks (Node a ca al av ar)) -> ks <> Top ->
  (height (Node a ca al av ar) <= fuel)%nat ->
  Post (findAndDeleteLeftmost fuel rbt h (Some a))
       (fun '(w, rbt', h') =>
          exists s A,
            inorder (Node a ca al av ar) = (s, w) :: A
            /\ removed rbt h (plug ks (Node a ca al av ar)) s w
                 (ctx_before ks) (A ++ ctx_after ks) (rbt', h')).
Proof.
  induction fuel as [|fuel IH]; intros ks a ca al av ar HR Hroot Hrb Hks Hfuel;
    [simpl in Hfuel; lia|].
  pose proof (Rep_focus _ _ _ _ _ _ _ HR) as Ha.
  destruct al as [|b cb bl bv br].
  - destruct ar as [|r0 cr rl rv rr].
    + (* a leaf *)
      cbn [findAndDeleteLeftmost]. rewrite (load_Some _ _ _ Ha). scbn.
      apply Post_bind. eapply Post_mono; [by apply (deleteNoChildren_ok rbt h ks)|].
      intros [rbt' h'] (t' & HR' & Hrbt & Hrb' & Hlen & Hin0 & Hin' & (nx & Hnx & Hval) & Hfr).
      rewrite (load_Some _ _ _ Hnx). scbn. apply Post_Ok. rewrite Hval.
      exists a, []. split; [done|]. exists t'. split_and!; try done. eauto.
    + (* a single right child *)
      eapply Post_mono; [exact (splice_spec rbt h fuel ks a ca av r0 cr rl rv rr HR Hks)|].
      intros [[w rbt'] h'] (-> & -> & HR' & Hlen & Hfr).
      exists a, (inorder (Node r0 cr rl rv rr)). split; [done|].
      apply RB_plug_inv in Hrb as (n & Hn & Hctx & Hc).
      destruct (RB_single_child n a ca av r0 cr rl rv rr) as (-> & -> & -> & -> & ->);
        [by left|].
      assert (Hak : a ∉ ctx_addrs ks /\ a <> r0).
      { destruct HR as [_ Hnd]. apply NoDup_plug in Hnd. simpl in Hnd.
        apply NoDup_cons in Hnd as [Hnd _]. set_solver. }
      exists (plug ks (Node r0 true Leaf rv Leaf)). split_and!; try done.
      * symmetry. apply set_root_id. rewrite Hroot. by apply rootptr_plug.
      * eapply (plug_RB ks 1); simpl; auto.
      * rewrite inorder_plug. simpl. done.
      * rewrite inorder_plug. simpl. done.
      * exists (mkNode av None (Some r0) (hole_par ks) true).
        split; [|done]. rewrite Hfr; [exact Ha|tauto|].
        intros E. destruct Hak as [Hak _]. apply Hak.
        destruct ks; simplify_eq/=; left.
      * intros y Hy. apply Hfr.
        -- intros ->. apply Hy. rewrite addrs_plug. simpl. set_solver.
        -- intros E. apply Hy. rewrite addrs_plug.
           destruct ks; simplify_eq/=; set_solver.
  - cbn [findAndDeleteLeftmost]. rewrite (load_Some _ _ _ Ha). scbn.
    eapply Post_mono.
    + apply (IH (CL a ca av ks ar) b cb bl bv br); try done. simpl in *. lia.
    + intros [[w rbt'] h'] (s & A & Hin & Hrem). cbn [plug ctx_before ctx_after] in Hrem.
      exists s, (A ++ (a, av) :: inorder ar). split.
      * change (inorder (Node a ca (Node b cb bl bv br) av ar))
          with (inorder (Node b cb bl bv br) ++ (a, av) :: inorder ar).
        by rewrite Hin.
      * by rewrite <- app_assoc.
Qed.

End DeleteSteps.

Section Delete.

Context {T : Type} (f : T -> T -> Z) (Hf : Comparator f) (zero : T).

Local Abbreviation node := (RBNode T).
Local Abbreviation heap := (list (RBNode T)).
Local Abbreviation tree := (@tree T).
Local Abbreviation ctx := (@ctx T).

Definition cellval (h : heap) (a : addr) (w : T) : Prop :=
  exists n, h !! a = Some n /\ Val n = w.

(** What the structural part of [deleteCheckChildren] leaves behind, for
    the node [d] holding [v] between the traversal prefix [B] and suffix
    [A]: either [d] is gone, or [d] stays and takes the value of its
    successor or predecessor [x], which is gone. *)
Definition struct_post (rbt : RBTree T) (h : heap) (d : addr) (v : T)
    (B A : list (addr * T)) (res : RBTree T * heap) : Prop :=
  let '(rbt', h') := res in
  exists t',
    Rep h' t' /\ rbt' = set_root (rootptr t') rbt /\ RBtree t'
    /\ length h' = length h
    /\ ((inorder t' = B ++ A /\ cellval h' d v)
        \/ (exists x w A', A = (x, w) :: A' /\ inorder t' = B ++ (d, w) :: A'
                          /\ cellval h' x w)
        \/ (exists x w B', B = B' ++ [(x, w)] /\ inorder t' = B' ++ (d, w) :: A
                          /\ cellval h' x w)).

Lemma RBtree_setval k a c (l : tree) v w r :
  RBtree (plug k (Node a c l v r)) -> RBtree (plug k (Node a c l w r)).
Proof.
  intros H. apply RB_plug_inv in H as (n & Hn & Hk & Hc).
  eapply plug_RB; eauto.
Qed.

Lemma delete_struct (rbt : RBTree T) (h : heap) k d c l v r :
  let t := plug k (Node d c l v r) in
  Rep h t -> root rbt = rootptr t -> RBtree t ->
  (k <> Top \/ l <> Leaf \/ r <> Leaf) ->
  Post (if is_nil (rootptr l) && is_nil (rootptr r) then deleteNoChildren rbt h (Some d)
        else if is_nil (rootptr l) then
          let* rn := load h (rootptr r) in
          let* h1 := store h (Some d) (set_Val (Val rn)) in
          let* h2 := store h1 (Some d) (set_right None) in
          Ok (rbt, h2)
        else if is_nil (rootptr r) then
          let* ln := load h (rootptr l) in
          let* h1 := store h (Some d) (set_Val (Val ln)) in
          let* h2 := store h1 (Some d) (set_left None) in
          Ok (rbt, h2)
        else
          let* '(w, rbt, h) := findAndDeleteLeftmost (fuel_of h) rbt h (rootptr r) in
          let* h := store h (Some d) (set_Val w) in
          Ok (rbt, h))
       (struct_post rbt h d v (ctx_before k ++ inorder l) (inorder r ++ ctx_after k)).
Proof.
  intros t HR Hroot Hrb Hsize. subst t.
  pose proof Hrb as Hrb0. apply RB_plug_inv in Hrb0 as (n & Hn & Hctx & Hc).
  destruct l as [|l0 cl ll lv lr]; destruct r as [|r0 cr rl rv rr]; scbn.
  - (* no children *)
    assert (Hk : k <> Top) by (destruct Hsize as [?|[?|?]]; done).
    eapply Post_mono; [by apply deleteNoChildren_ok|].
    intros [rbt' h'] (t' & HR' & Hrbt & Hrb' & Hlen & Hin0 & Hin' & Hcell & Hfr).
    exists t'. split_and!; try done. left. simpl. by rewrite app_nil_r.
  - (* a right child only *)
    destruct (RB_single_child n d c v r0 cr rl rv rr) as (-> & -> & -> & -> & ->);
      [by left|].
    eapply Post_mono; [by apply (onechild_right_spec rbt h k d true v r0 false rv)|].
    intros [rbt' h'] (-> & HR' & Hlen & Hfr).
    exists (plug k (Node d true Leaf rv Leaf)). split_and!; try done.
    + symmetry. apply set_root_id. rewrite Hroot. by apply rootptr_plug_same.
    + eapply (plug_RB k 1); simpl; auto.
    + right. left. exists r0, rv, (ctx_after k). split_and!; try done.
      * rewrite inorder_plug. simpl. by rewrite app_nil_r.
      * destruct HR as [Hr Hnd]. apply Repr_inner in Hr as (_ & _ & Hr0 & _).
        assert (Hne : r0 <> d).
        { apply NoDup_plug in Hnd. simpl in Hnd. apply NoDup_cons in Hnd as [Hnd _].
          set_solver. }
        eexists. split; [rewrite (Hfr _ Hne); exact Hr0|reflexivity].
  - (* a left child only *)
    destruct (RB_single_child n d c v l0 cl ll lv lr) as (-> & -> & -> & -> & ->);
      [by right|].
    eapply Post_mono; [by apply (onechild_left_spec rbt h k d true v l0 false lv)|].
    intros [rbt' h'] (-> & HR' & Hlen & Hfr).
    exists (plug k (Node d true Leaf lv Leaf)). split_and!; try done.
    + symmetry. apply set_root_id. rewrite Hroot. by apply rootptr_plug_same.
    + eapply (plug_RB k 1); simpl; auto.
    + right. right. exists l0, lv, (ctx_before k). split_and!; try done.
      * rewrite inorder_plug. simpl. done.
      * destruct HR as [Hr Hnd]. apply Repr_inner in Hr as (_ & (Hl0 & _) & _).
        assert (Hne : l0 <> d).
        { apply NoDup_plug in Hnd. simpl in Hnd. apply NoDup_cons in Hnd as [Hnd _].
          set_solver. }
        eexists. split; [rewrite (Hfr _ Hne); exact Hl0|reflexivity].
  - (* two children *)
    apply Post_bind.
    pose proof (Rep_fuel h (CR d c (Node l0 cl ll lv lr) v k) _ HR) as Hfuel.
    pose proof (height_size (Node r0 cr rl rv rr)) as Hhs.
    eapply Post_mono;
      [apply (fdl_ok rbt h (fuel_of h) (CR d c (Node l0 cl ll lv lr) v k) r0 cr rl rv rr);
       try done; lia|].
    intros [[w rbt'] h'] (s & A0 & Hin & t1 & HR1 & Hrbt & Hrb1 & Hlen & Hin0 & Hin1 & Hcell & Hfr).
    cbn [ctx_before ctx_after plug] in Hin0, Hin1.
    rewrite <- !app_assoc in Hin1. simpl in Hin1.
    rewrite (app_assoc (ctx_before k)) in Hin1.
    destruct (focus_of_inorder t1 _ d v _ Hin1) as (k1 & c1 & l1 & r1 & -> & HB1 & HA1);
      [by destruct HR1|].
    destruct (store_focus h' k1 d c1 l1 v r1 (set_Val w)) as (h2 & E & HR2 & Hlen2 & Hfr2);
      [done|done|].
    rewrite E. scbn. apply Post_Ok. simpl in HR2.
    exists (plug k1 (Node d c1 l1 w r1)). split_and!; try done.
    + rewrite Hrbt. f_equal. by apply rootptr_plug_same.
    + by eapply RBtree_setval.
    + congruence.
    + right. left. exists s, w, (A0 ++ ctx_after k). rewrite Hin. split_and!.
      * reflexivity.
      * rewrite inorder_plug. simpl. rewrite HB1, HA1.
        by repeat (rewrite <- app_assoc || rewrite <- app_comm_cons).
      * destruct Hcell as (nx & Hnx & Hval). exists nx. split; [|done].
        rewrite Hfr2; [done|]. intros ->.
        destruct HR as [_ Hnd]. apply NoDup_inorder in Hnd.
        rewrite Hin0 in Hnd. rewrite <- !app_assoc in Hnd.
        rewrite !map_app in Hnd.
        apply NoDup_app in Hnd as (_ & _ & Hnd).
        apply NoDup_app in Hnd as (_ & _ & Hnd). simpl in Hnd.
        apply NoDup_cons in Hnd as [Hnd _]. apply Hnd. left.
Qed.

(** ** Order facts for removal *)

Lemma Sorted_remove (B A : list (addr * T)) y :
  StronglySorted (lt_val f) (B ++ y :: A) -> StronglySorted (lt_val f) (B ++ A).
Proof.
  intros Hs. apply StronglySorted_app in Hs as (H1 & H2 & H3).
  apply StronglySorted_cons in H3 as [H3 H4].
  apply StronglySorted_app. split_and!; try done.
  intros x z Hx Hz. apply H1; [done|]. by right.
Qed.

Lemma Sorted_snd (L : list (addr * T)) : forall L',
  map snd L = map snd L' ->
  StronglySorted (lt_val f) L -> StronglySorted (lt_val f) L'.
Proof.
  induction L as [|[a x] L IH]; intros [|[a' x'] L'] E Hs; try done.
  simpl in E. injection E as <- E.
    apply StronglySorted_cons in Hs as [H1 H2].
    apply StronglySorted_cons. split; [|by apply IH].
    apply Forall_forall. intros [b y] Hin.
    assert (Hy : y ∈ map snd L).
    { rewrite E. change y with (snd (b, y)). by apply list_elem_of_fmap_2. }
    apply list_elem_of_fmap in Hy as ([b' y'] & -> & Hin').
    rewrite Forall_forall in H1. exact (H1 _ Hin').
Qed.

Lemma Sorted_split (B A : list (addr * T)) d v :
  StronglySorted (lt_val f) (B ++ (d, v) :: A) ->
  (forall b x, (b, x) ∈ B -> f x v < 0) /\ (forall a x, (a, x) ∈ A -> f v x < 0).
Proof.
  intros Hs. apply StronglySorted_app in Hs as (H1 & H2 & H3).
  apply StronglySorted_cons in H3 as [H3 H4]. split.
  - intros b x Hin. apply (H1 (b, x) (d, v)); [done|left].
  - intros a x Hin. rewrite Forall_forall in H3. exact (H3 _ Hin).
Qed.

(** ** The Min and Max updates before the structural step *)

Lemma min_pre (rbt : RBTree T) (h : heap) (t : tree) B d v A :
  Rep h t -> inorder t = B ++ (d, v) :: A -> Sorted_tree f t ->
  Min rbt = first_addr (inorder t) ->
  exists mn, load h (Min rbt) = Ok mn /\
  Post (if f v (Val mn) =? 0
        then let* '(nx, _) := Next h (Min rbt) in Ok (set_Min nx rbt)
        else Ok rbt)
       (fun rbt1 => root rbt1 = root rbt /\ cmp rbt1 = cmp rbt
                    /\ Count rbt1 = Count rbt /\ Max rbt1 = Max rbt
                    /\ Min rbt1 = first_addr (B ++ A)).
Proof.
  intros HR E Hs Hmin. unfold Sorted_tree in Hs. rewrite E in Hs, Hmin.
  destruct (Sorted_split _ _ _ _ Hs) as [HB HA].
  destruct B as [|[b bv] B'].
  - change (Min rbt = Some d) in Hmin.
    destruct (Rep_inorder_lookup h t d v HR) as (mn & Hmn & Hv);
      [rewrite E; left|].
    exists mn. rewrite Hmin. split; [by apply load_Some|].
    rewrite Hv, (cmp_refl f Hf). cbn [Z.eqb].
    rewrite (Next_inorder h t [] d v A HR E). scbn. by apply Post_Ok.
  - change (Min rbt = Some b) in Hmin.
    destruct (Rep_inorder_lookup h t b bv HR) as (mn & Hmn & Hv);
      [rewrite E; left|].
    exists mn. rewrite Hmin. split; [by apply load_Some|].
    rewrite Hv. pose proof (HB b bv ltac:(left)) as Hlt.
    apply (cmp_flip f Hf) in Hlt.
    destruct (f v bv =? 0) eqn:E0; [lia|]. by apply Post_Ok.
Qed.

Lemma max_pre (rbt : RBTree T) (h : heap) (t : tree) B d v A :
  Rep h t -> inorder t = B ++ (d, v) :: A -> Sorted_tree f t ->
  Max rbt = last_addr (inorder t) ->
  exists mx, load h (Max rbt) = Ok mx /\
  Post (if f v (Val mx) =? 0
        then let* '(pv, _) := Prev h (Max rbt) in Ok (set_Max pv rbt)
        else Ok rbt)
       (fun rbt1 => root rbt1 = root rbt /\ cmp rbt1 = cmp rbt
                    /\ Count rbt1 = Count rbt /\ Min rbt1 = Min rbt
                    /\ Max rbt1 = last_addr (B ++ A)).
Proof.
  intros HR E Hs Hmax. unfold Sorted_tree in Hs. rewrite E in Hs, Hmax.
  destruct (Sorted_split _ _ _ _ Hs) as [HB HA].
  destruct (decide (A = [])) as [->|HAne].
  - unfold last_addr in Hmax. rewrite last_snoc in Hmax.
    change (Max rbt = Some d) in Hmax.
    destruct (Rep_inorder_lookup h t d v HR) as (mx & Hmx & Hv);
      [rewrite E; apply elem_of_app; right; left|].
    exists mx. rewrite Hmax. split; [by apply load_Some|].
    rewrite Hv, (cmp_refl f Hf). cbn [Z.eqb].
    rewrite (Prev_inorder h t B d v [] HR E). scbn. apply Post_Ok.
    by rewrite app_nil_r.
  - unfold last_addr in Hmax. rewrite last_app_ne in Hmax by done.
    destruct A as [|a0 A0]; [done|]. rewrite last_cons_cons in Hmax.
    destruct (last (a0 :: A0)) as [[M Mv]|] eqn:El; [|by apply last_None in El].
    assert (HM : (M, Mv) ∈ a0 :: A0) by (by apply last_Some_elem_of).
    destruct (Rep_inorder_lookup h t M Mv HR) as (mx & Hmx & Hv).
    { rewrite E. apply elem_of_app. right. by right. }
    exists mx. change (Max rbt = Some M) in Hmax.
    rewrite Hmax. split; [by apply load_Some|].
    rewrite Hv. pose proof (HA M Mv HM) as Hlt.
    destruct (f v Mv =? 0) eqn:E0; [lia|]. apply Post_Ok.
    split_and!; try done. unfold last_addr.
    rewrite last_app_ne by done. by rewrite El.
Qed.

(** ** The Min and Max re-pointing at the end of [deleteCheckChildren] *)

(** [N] is [O] as it is, with [dv] not among its values, or [O] with the
    node holding [dv] replaced by [d]. *)
Definition renamed (O N : list (addr * T)) (d : addr) (dv : T) : Prop :=
  (N = O /\ forall a y, (a, y) ∈ O -> f dv y <> 0)
  \/ (exists P x Q, O = P ++ (x, dv) :: Q /\ N = P ++ (d, dv) :: Q).

Lemma renamed_snd O N d dv : renamed O N d dv -> map snd N = map snd O.
Proof.
  intros [[-> _]|(P & x & Q & -> & ->)]; [done|]. by rewrite !map_app.
Qed.

Lemma repoint_spec (rbt : RBTree T) (h : heap) O N d dv :
  cmp rbt = Some f -> StronglySorted (lt_val f) O -> O <> [] ->
  Min rbt = first_addr O -> Max rbt = last_addr O ->
  (forall a y, (a, y) ∈ O -> cellval h a y) -> cellval h d dv ->
  renamed O N d dv ->
  Post (let* dn := load h (Some d) in
        let* mn := load h (Min rbt) in
        let* c := call (cmp rbt) (Val dn) (Val mn) in
        let rbt := if c =? 0 then set_Min (Some d) rbt else rbt in
        let* dn := load h (Some d) in
        let* mx := load h (Max rbt) in
        let* c := call (cmp rbt) (Val dn) (Val mx) in
        let rbt := if c =? 0 then set_Max (Some d) rbt else rbt in
        Ok (rbt, h))
       (fun '(rbt', h') =>
          h' = h /\ root rbt' = root rbt /\ cmp rbt' = cmp rbt
          /\ Count rbt' = Count rbt
          /\ Min rbt' = first_addr N /\ Max rbt' = last_addr N).
Proof.
  intros Hcmp Hs Hne Hmin Hmax Hcells (dn & Hdn & Hdv) Hren.
  destruct (head O) as [[m mv]|] eqn:Ehd; [|by apply head_None in Ehd].
  destruct (last O) as [[M Mv]|] eqn:Elast; [|by apply last_None in Elast].
  assert (Hm : (m, mv) ∈ O) by (by apply head_Some_elem_of).
  assert (HM : (M, Mv) ∈ O) by (by apply last_Some_elem_of).
  destruct (Hcells _ _ Hm) as (mn & Hmn & Hmv).
  destruct (Hcells _ _ HM) as (mx & Hmx & HMv).
  assert (Hmin' : Min rbt = Some m) by (rewrite Hmin; unfold first_addr; by rewrite Ehd).
  assert (Hmax' : Max rbt = Some M) by (rewrite Hmax; unfold last_addr; by rewrite Elast).
  rewrite (load_Some _ _ _ Hdn). scbn. rewrite Hmin', (load_Some _ _ _ Hmn). scbn.
  rewrite Hcmp. cbn [call bind]. rewrite Hdv, Hmv.
  assert (Hmax1 : forall b : bool,
             Max (if b then set_Min (Some d) rbt else rbt) = Some M)
    by (by intros []).
  assert (Hcmp1 : forall b : bool,
             cmp (if b then set_Min (Some d) rbt else rbt) = Some f)
    by (by intros []).
  rewrite Hmax1, Hcmp1, (load_Some _ _ _ Hmx). cbn [call bind]. rewrite HMv.
  apply Post_Ok.
  assert (Hfields : forall b1 b2 : bool,
    let r1 := if b1 then set_Min (Some d) rbt else rbt in
    let r2 := if b2 then set_Max (Some d) r1 else r1 in
    root r2 = root rbt /\ cmp r2 = cmp rbt /\ Count r2 = Count rbt
    /\ Min r2 = (if b1 then Some d else Some m)
    /\ Max r2 = (if b2 then Some d else Some M)).
  { by intros [] []. }
  destruct (Hfields (f dv mv =? 0) (f dv Mv =? 0)) as (H1 & H2 & H3 & H4 & H5).
  cbv beta iota zeta. split_and!; try done; try congruence.
  - (* Min *)
    rewrite H4. destruct Hren as [[-> Hno]|(P & x & Q & -> & ->)].
    + specialize (Hno _ _ Hm). destruct (f dv mv =? 0) eqn:E0; [lia|].
      unfold first_addr. by rewrite Ehd.
    + destruct P as [|[p pv] P'].
      * simpl in Ehd. injection Ehd as <- <-. rewrite (cmp_refl f Hf). done.
      * simpl in Ehd. injection Ehd as <- <-.
        destruct (Sorted_split _ _ _ _ Hs) as [HB _].
        pose proof (HB p pv ltac:(left)) as Hlt. apply (cmp_flip f Hf) in Hlt.
        destruct (f dv pv =? 0) eqn:E0; [lia|]. done.
  - (* Max *)
    rewrite H5. destruct Hren as [[-> Hno]|(P & x & Q & -> & ->)].
    + specialize (Hno _ _ HM). destruct (f dv Mv =? 0) eqn:E0; [lia|].
      unfold last_addr. by rewrite Elast.
    + destruct (decide (Q = [])) as [->|HQ].
      * rewrite last_snoc in Elast. injection Elast as <- <-.
        rewrite (cmp_refl f Hf). unfold last_addr. by rewrite last_snoc.
      * rewrite last_app_ne in Elast by done.
        destruct Q as [|q0 Q0]; [done|]. rewrite last_cons_cons in Elast.
        destruct (Sorted_split _ _ _ _ Hs) as [_ HA].
        pose proof (HA M Mv ltac:(by apply last_Some_elem_of)) as Hlt.
        destruct (f dv Mv =? 0) eqn:E0; [lia|].
        unfold last_addr. rewrite last_app_ne by done.
        by rewrite last_cons_cons, Elast.
Qed.

Lemma struct_renamed (h' : heap) (t' : tree) B A d v :
  Rep h' t' -> StronglySorted (lt_val f) (B ++ (d, v) :: A) ->
  ((inorder t' = B ++ A /\ cellval h' d v)
   \/ (exists x w A', A = (x, w) :: A' /\ inorder t' = B ++ (d, w) :: A'
                     /\ cellval h' x w)
   \/ (exists x w B', B = B' ++ [(x, w)] /\ inorder t' = B' ++ (d, w) :: A
                     /\ cellval h' x w)) ->
  exists dv, cellval h' d dv /\ renamed (B ++ A) (inorder t') d dv
             /\ (forall a y, (a, y) ∈ B ++ A -> cellval h' a y).
Proof.
  intros HR Hs [[EN Hc]|[(x & w & A' & -> & EN & Hc)|(x & w & B' & -> & EN & Hc)]].
  - exists v. split; [done|]. destruct (Sorted_split _ _ _ _ Hs) as [HB HA]. split.
    + left. split; [done|]. intros a y Hin. apply elem_of_app in Hin as [Hin|Hin].
      * pose proof (HB _ _ Hin) as Hlt. apply (cmp_flip f Hf) in Hlt. lia.
      * pose proof (HA _ _ Hin). lia.
    + intros a y Hin. apply (Rep_inorder_lookup h' t' a y HR). by rewrite EN.
  - exists w. split_and!.
    + apply (Rep_inorder_lookup h' t' d w HR). rewrite EN.
      apply elem_of_app. right. left.
    + right. by exists B, x, A'.
    + intros a y Hin. apply elem_of_app in Hin as [Hin|Hin];
        [|apply elem_of_cons in Hin as [[= -> ->]|Hin]]; [|done|];
        apply (Rep_inorder_lookup h' t' a y HR); rewrite EN;
        apply elem_of_app; [by left|right; by right].
  - exists w. split_and!.
    + apply (Rep_inorder_lookup h' t' d w HR). rewrite EN.
      apply elem_of_app. right. left.
    + right. exists B', x, A. by rewrite <- app_assoc.
    + intros a y Hin. rewrite <- app_assoc in Hin.
      apply elem_of_app in Hin as [Hin|Hin];
        [|apply elem_of_cons in Hin as [[= -> ->]|Hin]]; [|done|];
        apply (Rep_inorder_lookup h' t' a y HR); rewrite EN;
        apply elem_of_app; [by left|right; by right].
Qed.

(** ** [Delete] *)

Definition Delete_post (rbt : RBTree T) (h : heap) (t : tree) (val : T)
    (res : T * bool * RBTree T * heap) : Prop :=
  let '(del, ok, rbt', h') := res in
  match find_abs f val t with
  | (Some d, _) =>
      ok = true /\ length h' = length h
      /\ exists B v A t',
           inorder t = B ++ (d, v) :: A /\ f val v = 0 /\ del = v
           /\ Valid f rbt' h' t' /\ map snd (inorder t') = map snd (B ++ A)
  | (None, _) => del = zero /\ ok = false /\ rbt' = rbt /\ h' = h
  end.

Lemma Valid_empty (rbt : RBTree T) (h : heap) :
  cmp rbt = Some f -> root rbt = None -> Min rbt = None -> Max rbt = None ->
  Count rbt = 0 -> Valid f rbt h Leaf.
Proof.
  intros. split; try done.
  - split; [done|apply NoDup_nil_2].
  - split; [done|]. by exists 0%nat.
  - constructor.
Qed.

Lemma Delete_spec (rbt : RBTree T) (h : heap) (t : tree) val :
  Valid f rbt h t -> Post (Delete zero rbt h val) (Delete_post rbt h t val).
Proof.
  intros [HR Hroot Hcmp Hrb Hso Hcount Hmin Hmax Hfits].
  unfold Delete, Delete_post. rewrite Hroot.
  assert (Hdec : t = Leaf \/ t <> Leaf) by (destruct t; [by left|by right]).
  destruct Hdec as [->|Hne].
  { cbn [rootptr is_nil find_abs]. by apply Post_Ok. }
  assert (Hnil : is_nil (rootptr t) = false) by (by destruct t).
  rewrite Hnil, Hcmp.
  pose proof (Rep_fuel h Top _ HR) as Hfuel. pose proof (height_size t) as Hhs.
  rewrite (find_spec f h val (fuel_of h) None t);
    [|by destruct HR|done|simpl in Hfuel; lia].
  destruct (find_abs f val t) as [p b] eqn:Hfind.
  destruct (find_abs_found f Hf val t p b Hfind) as [[-> ->]|(-> & d & v & -> & Hin & Hfv)].
  { scbn. by apply Post_Ok. }
  apply list_elem_of_split in Hin as (B & A & E).
  destruct (focus_of_inorder t B d v A E) as (k & cd & dl & dr & Ht & HB & HA);
    [by destruct HR|].
  pose proof HR as HR0. rewrite Ht in HR0.
  pose proof (Rep_focus _ _ _ _ _ _ _ HR0) as Hd.
  scbn. rewrite (load_Some _ _ _ Hd). scbn.
  assert (Hsize : size t = S (length (B ++ A))).
  { rewrite <- size_inorder, E, !length_app. simpl. lia. }
  rewrite Hcount, wrap_small by lia.
  destruct (decide (B ++ A = [])) as [Hemp|Hnemp].
  - (* the last node *)
    rewrite Hemp in Hsize. simpl in Hsize. rewrite Hsize. cbn [Z.of_nat Z.sub Z.eqb].
    apply Post_Ok. split_and!; try done.
    exists B, v, A, Leaf. split_and!; try done; [|by rewrite Hemp].
    by apply Valid_empty.
  - assert (Hsz2 : (2 <= size t)%nat).
    { rewrite Hsize. destruct (B ++ A); [done|simpl; lia]. }
    destruct (Z.of_nat (size t) - 1 =? 0) eqn:E0; [lia|]. clear E0.
    set (rbt0 := set_Count (Z.of_nat (size t) - 1) rbt).
    destruct (min_pre rbt0 h t B d v A HR E Hso Hmin) as (mn & Emn & Hpmin).
    change (Min rbt0) with (Min rbt) in Emn. rewrite Emn. scbn.
    rewrite Hcmp. cbn [call bind]. apply Post_bind.
    eapply Post_mono; [exact Hpmin|]. clear Hpmin.
    intros rbt1 (Hr1 & Hc1 & Hn1 & HM1 & Hm1).
    destruct (max_pre rbt1 h t B d v A HR E Hso (eq_trans HM1 Hmax)) as (mx & Emx & Hpmax).
    rewrite Emx. scbn. rewrite Hc1. change (cmp rbt0) with (cmp rbt). rewrite Hcmp.
    cbn [call bind]. apply Post_bind.
    eapply Post_mono; [exact Hpmax|]. clear Hpmax.
    intros rbt2 (Hr2 & Hc2 & Hn2 & Hm2 & HM2).
    apply Post_bind. unfold deleteCheckChildren.
    rewrite (load_Some _ _ _ Hd). scbn. apply Post_bind.
    assert (Hroot2 : root rbt2 = rootptr (plug k (Node d cd dl v dr))).
    { rewrite Hr2, Hr1, <- Ht. exact Hroot. }
    assert (Hk : k <> Top \/ dl <> Leaf \/ dr <> Leaf).
    { destruct k; [|by left..]. destruct dl; [|by right; left].
      destruct dr; [|by right; right]. subst t. simpl in Hsz2. lia. }
    rewrite Ht in Hrb.
    eapply Post_mono; [exact (delete_struct rbt2 h k d cd dl v dr HR0 Hroot2 Hrb Hk)|].
    rewrite <- HB, <- HA.
    intros [rbt3 h3] (t' & HR3 & Hrbt3 & Hrb3 & Hlen3 & Hshape).
    unfold Sorted_tree in Hso. rewrite E in Hso.
    destruct (struct_renamed h3 t' B A d v HR3 Hso Hshape) as (dv & Hdv & Hren & Hcells).
    assert (Hcmp3 : cmp rbt3 = Some f).
    { rewrite Hrbt3. cbn. rewrite Hc2, Hc1. exact Hcmp. }
    assert (Hmin3 : Min rbt3 = first_addr (B ++ A)) by (rewrite Hrbt3; cbn; congruence).
    assert (Hmax3 : Max rbt3 = last_addr (B ++ A)) by (rewrite Hrbt3; cbn; congruence).
    pose proof (Sorted_remove _ _ _ Hso) as Hso'.
    eapply Post_mono;
      [exact (repoint_spec rbt3 h3 (B ++ A) (inorder t') d dv Hcmp3 Hso' Hnemp
                Hmin3 Hmax3 Hcells Hdv Hren)|].
    intros [rbt4 h4] (-> & Hr4 & Hc4 & Hn4 & Hm4 & HM4).
    apply Post_Ok. split_and!; try done.
    pose proof (renamed_snd _ _ _ _ Hren) as Hsnd.
    exists B, v, A, t'. split_and!; try done.
    split; try done.
    + rewrite Hr4, Hrbt3. done.
    + congruence.
    + unfold Sorted_tree. eapply Sorted_snd; [|exact Hso']. done.
    + rewrite Hn4, Hrbt3. cbn. rewrite Hn2, Hn1. cbn.
      rewrite <- (size_inorder t'), <- (length_map snd), Hsnd, length_map. lia.
    + rewrite <- (size_inorder t'), <- (length_map snd), Hsnd, length_map. lia.
Qed.

End Delete.

(** * Sequences of operations *)

(** A call of [Insert] or of [Delete]. *)
Inductive op (T : Type) : Type :=
  | OpInsert (val : T)
  | OpDelete (val : T).

Arguments OpInsert {T} val.
Arguments OpDelete {T} val.

Definition apply_op {T : Type} (zero : T) (s : RBTree T * heap T) (o : op T)
  : result (RBTree T * heap T) :=
  let '(rbt, h) := s in
  match o with
  | OpInsert val => let* '(_, _, rbt, h) := Insert rbt h val in Ok (rbt, h)
  | OpDelete val => let* '(_, _, rbt, h) := Delete zero rbt h val in Ok (rbt, h)
  end.

Fixpoint run {T : Type} (zero : T) (ops : list (op T)) (s : RBTree T * heap T)
  : result (RBTree T * heap T) :=
  match ops with
  | [] => Ok s
  | o :: ops => let* s := apply_op zero s o in run zero ops s
  end.

(** [cmp.Compare] on integers is a comparator. *)
Lemma Comparator_Compare : Comparator Compare.
Proof.
  split.
  - intros a b. unfold Compare.
    destruct (Z.ltb_spec a b), (Z.gtb_spec a b), (Z.ltb_spec b a), (Z.gtb_spec b a); lia.
  - intros a b c. unfold Compare.
    destruct (Z.ltb_spec a b), (Z.gtb_spec a b), (Z.ltb_spec b c), (Z.gtb_spec b c),
      (Z.ltb_spec a c), (Z.gtb_spec a c); lia.
Qed.

Section Sequences.

Context {T : Type} (f : T -> T -> Z) (Hf : Comparator f) (zero : T).

Lemma Valid_New : Valid f (New (Some f)) [] Leaf.
Proof. by apply Valid_empty. Qed.

Lemma apply_op_valid (rbt : RBTree T) (h : heap T) (t : tree) (o : op T) :
  Valid f rbt h t -> Z.of_nat (size t) + 1 < 2 ^ 63 ->
  Post (apply_op zero (rbt, h) o)
       (fun '(rbt', h') => exists t', Valid f rbt' h' t' /\ (size t' <= S (size t))%nat).
Proof.
  intros HV Hfits. destruct o as [val|val]; cbn [apply_op]; apply Post_bind.
  - eapply Post_mono; [by apply (Insert_spec f Hf)|].
    intros [[[p ok] rbt'] h'] Hpost. apply Post_Ok. unfold Insert_post in Hpost.
    destruct (find_abs f val t) as [[a|] b].
    + destruct Hpost as (_ & _ & -> & ->). exists t. split; [done|lia].
    + destruct Hpost as (_ & _ & _ & t' & l1 & l2 & HV' & E & E').
      exists t'. split; [done|].
      rewrite <- (size_inorder t'), <- (size_inorder t), E, E', !length_app. simpl. lia.
  - eapply Post_mono; [by apply (Delete_spec f Hf)|].
    intros [[[del ok] rbt'] h'] Hpost. apply Post_Ok. unfold Delete_post in Hpost.
    destruct (find_abs f val t) as [[a|] b].
    + destruct Hpost as (_ & _ & B & v & A & t' & E & _ & _ & HV' & E').
      exists t'. split; [done|].
      rewrite <- (size_inorder t'), <- (size_inorder t), E.
      rewrite <- (length_map snd (inorder t')), E', length_map, !length_app. simpl. lia.
    + destruct Hpost as (_ & _ & -> & ->). exists t. split; [done|lia].
Qed.

Lemma run_valid (ops : list (op T)) : forall (rbt : RBTree T) (h : heap T) (t : tree),
  Valid f rbt h t -> Z.of_nat (size t) + Z.of_nat (length ops) < 2 ^ 63 ->
  Post (run zero ops (rbt, h)) (fun '(rbt', h') => exists t', Valid f rbt' h' t').
Proof.
  induction ops as [|o ops IH]; intros rbt h t HV Hfits.
  - apply Post_Ok. by exists t.
  - cbn [run]. apply Post_bind. simpl length in Hfits.
    eapply Post_mono; [apply (apply_op_valid rbt h t o HV); lia|].
    intros [rbt' h'] (t' & HV' & Hsz). apply (IH rbt' h' t' HV'). lia.
Qed.

End Sequences.

(** C1.  From the empty tree made by [New] with a comparator [f] (for
    [NewOrdered], [f] is [Compare]), every sequence of [Insert] and [Delete]
    calls runs without a panic and, after each call of the sequence, the
    handle and the heap hold a tree that satisfies the six global invariants
    collected in [Valid]: black root without parent and consistent links
    ([v_rep], [v_rb]), no red node below a red node and equal black heights
    ([v_rb]), strictly increasing in-order traversal ([v_sorted]), [Count]
    equal to the number of nodes ([v_count]), [Min] and [Max] at the first
    and the last node, nil iff the tree is empty ([v_min], [v_max]);
    and [IsValid] answers true.  The bound on the number of calls keeps
    [Count], a 64-bit [int], from wrapping; a process cannot hold that many
    nodes. *)
Theorem C1_invariants_after_every_operation
    {T : Type} (f : T -> T -> Z) (zero : T) (ops : list (op T)) (k : nat) :
  Comparator f -> Z.of_nat (length ops) < 2 ^ 63 ->
  exists rbt h t,
    run zero (take k ops) (New (Some f), []) = Ok (rbt, h)
    /\ Valid f rbt h t /\ IsValid rbt h = Ok true.
Proof.
  intros Hf Hlen.
  destruct (run_valid f Hf zero (take k ops) (New (Some f)) [] Leaf) as ([rbt h] & E & t & HV).
  - apply Valid_New.
  - rewrite length_take. simpl. lia.
  - exists rbt, h, t. split_and!; try done. by eapply IsValid_complete.
Qed.

Lemma C1_invariants_after_every_operation_witness :
  Comparator Compare /\ Z.of_nat (length [OpInsert 5; OpInsert 3; OpDelete 5; OpInsert 8]) < 2 ^ 63
  /\ exists rbt h t,
       run 0 (take 3 [OpInsert 5; OpInsert 3; OpDelete 5; OpInsert 8]) (NewOrdered, [])
         = Ok (rbt, h)
       /\ Valid Compare rbt h t /\ IsValid rbt h = Ok true.
Proof.
  split; [exact Comparator_Compare|]. split; [simpl; lia|].
  apply (C1_invariants_after_every_operation Compare 0
           [OpInsert 5; OpInsert 3; OpDelete 5; OpInsert 8] 3).
  - exact Comparator_Compare.
  - simpl; lia.
Defined.

(** * Calls that change nothing, and the last node *)

Section Calls.

Context {T : Type} (f : T -> T -> Z) (Hf : Comparator f) (zero : T).

Lemma Sorted_cases (l : list (addr * T)) p q :
  StronglySorted (lt_val f) l -> p ∈ l -> q ∈ l ->
  p = q \/ lt_val f p q \/ lt_val f q p.
Proof.
  induction l as [|y l IH]; intros Hs Hp Hq; [by apply elem_of_nil in Hp|].
  apply StronglySorted_cons in Hs as [Hall Hs]. rewrite Forall_forall in Hall.
  apply elem_of_cons in Hp as [->|Hp]; apply elem_of_cons in Hq as [->|Hq]; auto.
Qed.

(** A sorted traversal holds at most one value equal to [val]. *)
Lemma equal_unique (t : tree) val a x a' x' :
  Sorted_tree f t -> (a, x) ∈ inorder t -> (a', x') ∈ inorder t ->
  f val x = 0 -> f val x' = 0 -> (a, x) = (a', x').
Proof.
  intros Hs Hin Hin' E E'.
  pose proof (cmp_eq_sym f Hf _ _ E) as Es. pose proof (cmp_eq_sym f Hf _ _ E') as Es'.
  destruct (Sorted_cases _ _ _ Hs Hin Hin') as [?|[Hlt|Hlt]]; [done| |];
    unfold lt_val in Hlt; simpl in Hlt; exfalso.
  - pose proof (cmp_trans f Hf x' val x ltac:(lia) ltac:(lia)).
    apply (cmp_flip f Hf) in Hlt. lia.
  - pose proof (cmp_trans f Hf x val x' ltac:(lia) ltac:(lia)).
    apply (cmp_flip f Hf) in Hlt. lia.
Qed.

Lemma Insert_found (rbt : RBTree T) (h : heap T) (t : tree) val a b :
  Valid f rbt h t -> find_abs f val t = (Some a, b) ->
  Insert rbt h val = Ok (Some a, false, rbt, h).
Proof.
  intros [HR Hroot Hcmp Hrb Hso Hcount Hmin Hmax Hfits] Hfind.
  unfold Insert. rewrite Hroot.
  destruct t as [|r c l x rr]; [done|]. cbn [rootptr is_nil negb].
  pose proof (Rep_fuel h Top _ HR) as Hfuel.
  pose proof (height_size (Node r c l x rr)) as Hhs.
  destruct (insert_spec f Hf h val (fuel_of h) Top r c l x rr HR) as ([[p ok] h1] & E & Hpost);
    [simpl in *; lia|].
  rewrite Hcmp, E. unfold insert_post in Hpost.
  pose proof (ins_path_find f val (Node r c l x rr) Top) as Hpath.
  rewrite Hfind in Hpath. rewrite Hpath in Hpost.
  destruct Hpost as (-> & -> & ->). done.
Qed.

Lemma find_abs_at (t : tree) val a x :
  Sorted_tree f t -> (a, x) ∈ inorder t -> f val x = 0 ->
  find_abs f val t = (Some a, true).
Proof.
  intros Hs Hin E.
  destruct (find_abs_present f Hf val t a x Hs Hin E) as (a' & x' & Hfind & Hin' & E').
  pose proof (equal_unique t val a x a' x' Hs Hin Hin' E E') as Heq.
  injection Heq as <- <-. done.
Qed.

Lemma find_abs_none (t : tree) val :
  (forall a x, (a, x) ∈ inorder t -> f val x <> 0) ->
  find_abs f val t = (None, false).
Proof.
  intros Habs. destruct (find_abs f val t) as [p b] eqn:Hfind.
  destruct (find_abs_found f Hf val t p b Hfind) as [[-> ->]|(-> & a & x & -> & Hin & E)];
    [done|]. by destruct (Habs a x Hin).
Qed.

End Calls.

(** * Two concrete trees *)

(** The tree of the README example, after inserting 70, 50, 80, 20, 60, 75
    and 100 into an empty ordered tree. *)
Definition demo_heap : heap Z :=
  [ mkNode 70 (Some 1%nat) (Some 2%nat) None true;
    mkNode 50 (Some 3%nat) (Some 4%nat) (Some 0%nat) true;
    mkNode 80 (Some 5%nat) (Some 6%nat) (Some 0%nat) true;
    mkNode 20 None None (Some 1%nat) false;
    mkNode 60 None None (Some 1%nat) false;
    mkNode 75 None None (Some 2%nat) false;
    mkNode 100 None None (Some 2%nat) false ].

Definition demo_rbt : RBTree Z :=
  mkTree (Some 0%nat) (Some Compare) (Some 3%nat) (Some 6%nat) 7.

Definition demo_tree : @tree Z :=
  Node 0 true
    (Node 1 true (Node 3 false Leaf 20 Leaf) 50 (Node 4 false Leaf 60 Leaf))
    70
    (Node 2 true (Node 5 false Leaf 75 Leaf) 80 (Node 6 false Leaf 100 Leaf)).

(** A tree with the single value 5. *)
Definition single_heap : heap Z := [ mkNode 5 None None None true ].

Definition single_rbt : RBTree Z :=
  mkTree (Some 0%nat) (Some Compare) (Some 0%nat) (Some 0%nat) 1.

Definition single_tree : @tree Z := Node 0 true Leaf 5 Leaf.

Ltac valid_by_computation n :=
  split;
  [ split; [simpl; repeat split; reflexivity|];
    apply (bool_decide_unpack _); vm_compute; exact I
  | reflexivity
  | reflexivity
  | split; [reflexivity|]; exists n; simpl; repeat split; reflexivity
  | unfold Sorted_tree; simpl;
    repeat (apply StronglySorted_cons; split;
            [repeat (apply Forall_cons; split; [by vm_compute|]); apply Forall_nil_2|]);
    constructor
  | reflexivity
  | reflexivity
  | reflexivity
  | simpl; lia ].

Lemma demo_valid : Valid Compare demo_rbt demo_heap demo_tree.
Proof. valid_by_computation 2%nat. Qed.

Lemma single_valid : Valid Compare single_rbt single_heap single_tree.
Proof. valid_by_computation 1%nat. Qed.

(** * Claims about single calls *)

(** C7.  In a valid tree that holds, at node [a], a value [x] equal to [val]
    under the comparator, [Insert val] returns the node [a] with
    [inserted = false]; the handle (root, [Min], [Max], [Count]) and the
    heap (every node's value, colour and links) are returned as they were. *)
Theorem C7_insert_existing_unchanged
    {T : Type} (f : T -> T -> Z) (rbt : RBTree T) (h : heap T) (t : tree)
    (val : T) (a : addr) (x : T) :
  Comparator f -> Valid f rbt h t -> (a, x) ∈ inorder t -> f val x = 0 ->
  Insert rbt h val = Ok (Some a, false, rbt, h).
Proof.
  intros Hf HV Hin E. eapply Insert_found; [done..|].
  apply (find_abs_at f Hf t val a x); [by destruct HV|done..].
Qed.

Lemma C7_insert_existing_unchanged_witness :
  Insert demo_rbt demo_heap 60 = Ok (Some 4%nat, false, demo_rbt, demo_heap).
Proof.
  apply (C7_insert_existing_unchanged Compare demo_rbt demo_heap demo_tree 60 4%nat 60).
  - exact Comparator_Compare.
  - exact demo_valid.
  - simpl. set_solver.
  - reflexivity.
Defined.

(** C8.  [Delete] on a handle without root returns the zero value and
    [deleted = false] whatever the heap holds, so the absent root is not
    read; on a valid tree that holds no value equal to [val] it returns the
    same, and in both cases the handle and the heap are returned as they
    were; the valid tree is still accepted by [IsValid]. *)
Theorem C8_delete_absent_unchanged
    {T : Type} (f : T -> T -> Z) (zero : T) (rbt : RBTree T) (h : heap T)
    (t : tree) (val : T) :
  (root rbt = None -> Delete zero rbt h val = Ok (zero, false, rbt, h))
  /\ (Comparator f -> Valid f rbt h t ->
      (forall a x, (a, x) ∈ inorder t -> f val x <> 0) ->
      Delete zero rbt h val = Ok (zero, false, rbt, h)
      /\ Valid f rbt h t /\ IsValid rbt h = Ok true).
Proof.
  split.
  - intros Hroot. unfold Delete. by rewrite Hroot.
  - intros Hf HV Habs. split_and!; [|done|by eapply IsValid_complete].
    destruct (Delete_spec f Hf zero rbt h t val HV) as ([[[del ok] rbt'] h'] & E & Hpost).
    unfold Delete_post in Hpost. rewrite (find_abs_none f Hf t val Habs) in Hpost.
    destruct Hpost as (-> & -> & -> & ->). exact E.
Qed.

Lemma C8_delete_absent_unchanged_witness :
  Delete 0 (New (Some Compare)) demo_heap 55
    = Ok (0, false, New (Some Compare), demo_heap)
  /\ Delete 0 demo_rbt demo_heap 55 = Ok (0, false, demo_rbt, demo_heap)
  /\ Valid Compare demo_rbt demo_heap demo_tree
  /\ IsValid demo_rbt demo_heap = Ok true.
Proof.
  split.
  - apply (proj1 (C8_delete_absent_unchanged Compare 0 (New (Some Compare)) demo_heap
                    Leaf 55)).
    reflexivity.
  - apply (proj2 (C8_delete_absent_unchanged Compare 0 demo_rbt demo_heap demo_tree 55)).
    + exact Comparator_Compare.
    + exact demo_valid.
    + intros a x Hin. simpl in Hin.
      repeat (apply elem_of_cons in Hin as [[= -> ->]|Hin]; [by vm_compute|]).
      by apply elem_of_nil in Hin.
Defined.

(** C9.  In a valid tree with exactly one node, holding [v], [Delete] of a
    value equal to [v] returns [v] and [deleted = true] and leaves the empty
    tree: root, [Min] and [Max] are nil, [Count] is zero, and [IsValid]
    accepts it. *)
Theorem C9_delete_last_node
    {T : Type} (f : T -> T -> Z) (zero : T) (rbt : RBTree T) (h : heap T)
    (a : addr) (c : bool) (v val : T) :
  Comparator f -> Valid f rbt h (Node a c Leaf v Leaf) -> f val v = 0 ->
  exists rbt' h',
    Delete zero rbt h val = Ok (v, true, rbt', h')
    /\ root rbt' = None /\ Min rbt' = None /\ Max rbt' = None /\ Count rbt' = 0
    /\ Valid f rbt' h' Leaf /\ IsValid rbt' h' = Ok true.
Proof.
  intros Hf HV E.
  destruct (Delete_spec f Hf zero rbt h _ val HV) as ([[[del ok] rbt'] h'] & Hrun & Hpost).
  unfold Delete_post in Hpost.
  rewrite (find_abs_at f Hf _ val a v) in Hpost; [|by destruct HV|simpl; set_solver|done].
  destruct Hpost as (-> & _ & B & v' & A & t' & Hin & _ & -> & HV' & Hsnd).
  simpl in Hin.
  assert (B = [] /\ A = [] /\ v' = v) as (-> & -> & ->).
  { destruct B as [|b B]; simpl in Hin.
    - injection Hin as <- <-. done.
    - injection Hin as _ Hin. by destruct B. }
  simpl in Hsnd. apply map_eq_nil in Hsnd. apply inorder_nil in Hsnd. subst t'.
  exists rbt', h'. destruct HV' as [? Hr ? ? ? Hc Hmn Hmx ?] eqn:EV.
  split_and!; try done. by eapply IsValid_complete.
Qed.

Lemma C9_delete_last_node_witness :
  exists rbt' h',
    Delete 0 single_rbt single_heap 5 = Ok (5, true, rbt', h')
    /\ root rbt' = None /\ Min rbt' = None /\ Max rbt' = None /\ Count rbt' = 0
    /\ Valid Compare rbt' h' Leaf /\ IsValid rbt' h' = Ok true.
Proof.
  apply (C9_delete_last_node Compare 0 single_rbt single_heap 0%nat true 5 5).
  - exact Comparator_Compare.
  - exact single_valid.
  - reflexivity.
Defined.

(** C10.  On a valid tree that holds, at node [a], a value [x] equal to
    [val], the run of [Delete] ends with a result: no step of it,
    [deleteNoChildren] and [solveDoubleBlack] with its recursive calls
    included, reads a field through a nil pointer (such a read is a [Panic]
    in the model, and the fuel is enough).  The value returned is [x], and
    the tree left behind is valid. *)
Theorem C10_delete_present_no_nil_dereference
    {T : Type} (f : T -> T -> Z) (zero : T) (rbt : RBTree T) (h : heap T)
    (t : tree) (val : T) (a : addr) (x : T) :
  Comparator f -> Valid f rbt h t -> (a, x) ∈ inorder t -> f val x = 0 ->
  exists rbt' h' t',
    Delete zero rbt h val = Ok (x, true, rbt', h') /\ Valid f rbt' h' t'.
Proof.
  intros Hf HV Hin E.
  destruct (Delete_spec f Hf zero rbt h t val HV) as ([[[del ok] rbt'] h'] & Hrun & Hpost).
  unfold Delete_post in Hpost.
  rewrite (find_abs_at f Hf t val a x) in Hpost; [|by destruct HV|done..].
  destruct Hpost as (-> & _ & B & v' & A & t' & Hin' & E' & -> & HV' & Hsnd).
  assert (Heq : (a, x) = (a, v')).
  { apply (equal_unique f Hf t val); try done; [by destruct HV|].
    rewrite Hin'. apply elem_of_app. right. left. }
  injection Heq as <-. by exists rbt', h', t'.
Qed.

Lemma C10_delete_present_no_nil_dereference_witness :
  exists rbt' h' t',
    Delete 0 demo_rbt demo_heap 50 = Ok (50, true, rbt', h')
    /\ Valid Compare rbt' h' t'.
Proof.
  apply (C10_delete_present_no_nil_dereference Compare 0 demo_rbt demo_heap demo_tree
           50 1%nat 50).
  - exact Comparator_Compare.
  - exact demo_valid.
  - simpl. set_solver.
  - reflexivity.
Defined.

(** * Successor and predecessor *)

Section Neighbours.

Context {T : Type}.

Local Abbreviation tree := (@tree T).
Local Abbreviation ctx := (@ctx T).

(** The leftmost and the rightmost descendant of a subtree. *)
Fixpoint leftmost_node (t : tree) : ptr :=
  match t with
  | Leaf => None
  | Node a _ Leaf _ _ => Some a
  | Node _ _ l _ _ => leftmost_node l
  end.

Fixpoint rightmost_node (t : tree) : ptr :=
  match t with
  | Leaf => None
  | Node a _ _ _ Leaf => Some a
  | Node _ _ _ _ r => rightmost_node r
  end.

(** Going up from the hole of [k]: the first ancestor that is entered from
    its left child, and the first that is entered from its right child. *)
Fixpoint ancestor_from_left (k : ctx) : ptr :=
  match k with
  | Top => None
  | CL p _ _ _ _ => Some p
  | CR _ _ _ _ up => ancestor_from_left up
  end.

Fixpoint ancestor_from_right (k : ctx) : ptr :=
  match k with
  | Top => None
  | CL _ _ _ up _ => ancestor_from_right up
  | CR p _ _ _ _ => Some p
  end.

(** What the specification says [Next] and [Prev] return at the node in
    the hole of [k] with children [l] and [r]. *)
Definition spec_next (k : ctx) (r : tree) : ptr :=
  match r with
  | Leaf => ancestor_from_left k
  | Node _ _ _ _ _ => leftmost_node r
  end.

Definition spec_prev (k : ctx) (l : tree) : ptr :=
  match l with
  | Leaf => ancestor_from_right k
  | Node _ _ _ _ _ => rightmost_node l
  end.

Lemma first_addr_leftmost (t : tree) : first_addr (inorder t) = leftmost_node t.
Proof.
  induction t as [|a c l IHl v r IHr]; [done|]. simpl.
  destruct l as [|b cb bl bv br]; [done|].
  unfold first_addr in *. rewrite head_app_ne by apply inorder_ne. exact IHl.
Qed.

Lemma last_addr_rightmost (t : tree) : last_addr (inorder t) = rightmost_node t.
Proof.
  induction t as [|a c l IHl v r IHr]; [done|]. simpl.
  destruct r as [|b cb bl bv br].
  - unfold last_addr. simpl. by rewrite last_snoc.
  - unfold last_addr in *. rewrite last_app_ne by done. rewrite last_cons.
    destruct (last (inorder (Node b cb bl bv br))) eqn:E; [exact IHr|].
    by apply last_None, inorder_nil in E.
Qed.

Lemma first_addr_after (k : ctx) : first_addr (ctx_after k) = ancestor_from_left k.
Proof. induction k; simpl; done. Qed.

Lemma last_addr_before (k : ctx) : last_addr (ctx_before k) = ancestor_from_right k.
Proof.
  induction k as [|a c v up IH r|a c l v up IH]; simpl; [done..|].
  unfold last_addr. by rewrite !app_assoc, last_snoc.
Qed.

Lemma spec_next_first (k : ctx) (r : tree) :
  first_addr (inorder r ++ ctx_after k) = spec_next k r.
Proof.
  destruct r as [|b cb bl bv br]; [apply first_addr_after|].
  unfold first_addr. rewrite head_app_ne by apply inorder_ne.
  apply first_addr_leftmost.
Qed.

Lemma spec_prev_last (k : ctx) (l : tree) :
  last_addr (ctx_before k ++ inorder l) = spec_prev k l.
Proof.
  destruct l as [|b cb bl bv br].
  - simpl. rewrite app_nil_r. apply last_addr_before.
  - unfold last_addr. rewrite last_app_ne by apply inorder_ne.
    apply last_addr_rightmost.
Qed.

Context (f : T -> T -> Z) (Hf : Comparator f).

(** [p] is the node of the traversal [L] with the smallest value greater
    than [v]; nil when no value of [L] is greater. *)
Definition successor_of (L : list (addr * T)) (v : T) (p : ptr) : Prop :=
  match p with
  | None => forall b w, (b, w) ∈ L -> f w v <= 0
  | Some s =>
      exists sv, (s, sv) ∈ L /\ f v sv < 0
                 /\ forall b w, (b, w) ∈ L -> f v w < 0 -> f sv w <= 0
  end.

Definition predecessor_of (L : list (addr * T)) (v : T) (p : ptr) : Prop :=
  match p with
  | None => forall b w, (b, w) ∈ L -> f v w <= 0
  | Some s =>
      exists sv, (s, sv) ∈ L /\ f sv v < 0
                 /\ forall b w, (b, w) ∈ L -> f w v < 0 -> f w sv <= 0
  end.

Lemma successor_sorted (B A : list (addr * T)) a v :
  StronglySorted (lt_val f) (B ++ (a, v) :: A) ->
  successor_of (B ++ (a, v) :: A) v (first_addr A).
Proof.
  intros Hs. destruct (Sorted_split f _ _ _ _ Hs) as [HB HA].
  destruct A as [|[s sv] A']; simpl.
  - intros b w Hin. apply elem_of_app in Hin as [Hin|Hin].
    + pose proof (HB _ _ Hin). lia.
    + apply list_elem_of_singleton in Hin. injection Hin as -> ->.
      rewrite (cmp_refl f Hf). lia.
  - exists sv. split_and!.
    + apply elem_of_app. right. right. left.
    + apply (HA s). left.
    + intros b w Hin Hlt. apply elem_of_app in Hin as [Hin|Hin].
      { pose proof (HB _ _ Hin) as Hlt'. apply (cmp_flip f Hf) in Hlt'. lia. }
      apply elem_of_cons in Hin as [[= -> ->]|Hin].
      { rewrite (cmp_refl f Hf) in Hlt. lia. }
      apply elem_of_cons in Hin as [[= -> ->]|Hin].
      { rewrite (cmp_refl f Hf). lia. }
      apply StronglySorted_app in Hs as (_ & _ & Hs).
      apply StronglySorted_cons in Hs as [_ Hs].
      apply StronglySorted_cons in Hs as [Hall _].
      rewrite Forall_forall in Hall. pose proof (Hall _ Hin) as Hlt'.
      unfold lt_val in Hlt'. simpl in Hlt'. lia.
Qed.

Lemma predecessor_sorted (B A : list (addr * T)) a v :
  StronglySorted (lt_val f) (B ++ (a, v) :: A) ->
  predecessor_of (B ++ (a, v) :: A) v (last_addr B).
Proof.
  intros Hs. destruct (Sorted_split f _ _ _ _ Hs) as [HB HA].
  destruct (decide (B = [])) as [->|HBne].
  - simpl. intros b w Hin. apply elem_of_cons in Hin as [[= -> ->]|Hin].
    + rewrite (cmp_refl f Hf). lia.
    + pose proof (HA _ _ Hin). lia.
  - destruct (last B) as [[s sv]|] eqn:El; [|by apply last_None in El].
    unfold last_addr. rewrite El. simpl.
    apply last_Some in El as [B' ->].
    exists sv. split_and!.
    + apply elem_of_app. left. apply elem_of_app. right. left.
    + apply (HB s). apply elem_of_app. right. left.
    + intros b w Hin Hlt. apply elem_of_app in Hin as [Hin|Hin].
      * apply elem_of_app in Hin as [Hin|Hin].
        -- apply StronglySorted_app in Hs as (_ & Hs & _).
           apply StronglySorted_app in Hs as (Hs & _ & _).
           pose proof (Hs (b, w) (s, sv) Hin ltac:(left)) as Hlt'.
           unfold lt_val in Hlt'. simpl in Hlt'. lia.
        -- apply list_elem_of_singleton in Hin. injection Hin as -> ->.
           rewrite (cmp_refl f Hf). lia.
      * apply elem_of_cons in Hin as [[= -> ->]|Hin].
        -- rewrite (cmp_refl f Hf) in Hlt. lia.
        -- pose proof (HA _ _ Hin) as Hlt'. apply (cmp_flip f Hf) in Hlt'. lia.
Qed.

End Neighbours.

(** C6.  At every node [a] of a valid tree, seen as the subtree
    [Node a c l v r] in the hole of the context [k]: [Next] returns the
    leftmost descendant of the right child if there is one, else the first
    ancestor entered from its left child, with the flag telling whether that
    node exists; the node returned holds the smallest value greater than
    [v], and none is returned exactly when no value is greater.  [Prev] is
    the mirror image. *)
Theorem C6_next_prev_neighbours
    {T : Type} (f : T -> T -> Z) (rbt : RBTree T) (h : heap T)
    (k : ctx) (a : addr) (c : bool) (l : tree) (v : T) (r : tree) :
  Comparator f -> Valid f rbt h (plug k (Node a c l v r)) ->
  Next h (Some a) = Ok (spec_next k r, negb (is_nil (spec_next k r)))
  /\ successor_of f (inorder (plug k (Node a c l v r))) v (spec_next k r)
  /\ Prev h (Some a) = Ok (spec_prev k l, negb (is_nil (spec_prev k l)))
  /\ predecessor_of f (inorder (plug k (Node a c l v r))) v (spec_prev k l).
Proof.
  intros Hf [HR _ _ _ Hso _ _ _ _]. unfold Sorted_tree in Hso.
  rewrite inorder_plug in *. simpl in *.
  rewrite <- (app_assoc (inorder l)), app_assoc in *. simpl in *.
  rewrite <- spec_next_first, <- spec_prev_last. split_and!.
  - apply (Next_focus h k a c l v r HR).
  - by apply successor_sorted.
  - apply (Prev_focus h k a c l v r HR).
  - by apply predecessor_sorted.
Qed.

Lemma C6_next_prev_neighbours_witness :
  Next demo_heap (Some 4%nat) = Ok (Some 0%nat, true)
  /\ successor_of Compare (inorder demo_tree) 60 (Some 0%nat)
  /\ Prev demo_heap (Some 4%nat) = Ok (Some 1%nat, true)
  /\ predecessor_of Compare (inorder demo_tree) 60 (Some 1%nat).
Proof.
  apply (C6_next_prev_neighbours Compare demo_rbt demo_heap
           (CR 1%nat true (Node 3%nat false Leaf 20 Leaf) 50
               (CL 0%nat true 70 Top
                   (Node 2%nat true (Node 5%nat false Leaf 75 Leaf) 80
                         (Node 6%nat false Leaf 100 Leaf))))
           4%nat false Leaf 60 Leaf).
  - exact Comparator_Compare.
  - exact demo_valid.
Defined.

(** * Structural equality *)

Section Equal.

Context {T : Type} (f : T -> T -> Z).

Local Abbreviation heap := (list (RBNode T)).
Local Abbreviation tree := (@tree T).

(** The specification's reading of equality: the same shape, and at each
    position equal colours and values that compare equal. *)
Fixpoint same_nodes (t1 t2 : tree) : bool :=
  match t1, t2 with
  | Leaf, Leaf => true
  | Node _ c1 l1 v1 r1, Node _ c2 l2 v2 r2 =>
      (f v1 v2 =? 0) && Bool.eqb c1 c2 && same_nodes l1 l2 && same_nodes r1 r2
  | _, _ => false
  end.

Definition is_empty (t : tree) : bool :=
  match t with Leaf => true | Node _ _ _ _ _ => false end.

(** Both empty, or both non-empty with equal counts and the same nodes. *)
Definition spec_EqualTo (count1 count2 : Z) (t1 t2 : tree) : bool :=
  (is_empty t1 && is_empty t2)
  || (negb (is_empty t1) && negb (is_empty t2)
      && (count1 =? count2) && same_nodes t1 t2).

Lemma equalTo_spec (h : heap) fuel : forall (t1 t2 : tree) par1 par2,
  Repr h par1 t1 -> Repr h par2 t2 -> t1 <> Leaf -> (height t1 <= fuel)%nat ->
  equalTo fuel h (Some f) (rootptr t1) (rootptr t2) = Ok (same_nodes t1 t2).
Proof.
  induction fuel as [|fuel IH]; intros t1 t2 par1 par2 H1 H2 Hne Hfuel.
  - destruct t1; [done|simpl in Hfuel; lia].
  - destruct t1 as [|a1 c1 l1 v1 r1]; [done|].
    destruct t2 as [|a2 c2 l2 v2 r2]; [done|].
    simpl in H1, H2, Hfuel. destruct H1 as (Ha1 & Hl1 & Hr1). destruct H2 as (Ha2 & Hl2 & Hr2).
    cbn [equalTo rootptr is_nil same_nodes].
    rewrite (load_Some _ _ _ Ha1), (load_Some _ _ _ Ha2). scbn. cbn [call bind].
    destruct (f v1 v2 =? 0); [|done]. destruct (Bool.eqb c1 c2); [|done]. scbn.
    assert (Erec : forall b d x w y (s2 : tree) par par',
              Repr h par (Node b d x w y) -> Repr h par' s2 ->
              (height (Node b d x w y) <= fuel)%nat ->
              equalTo fuel h (Some f) (Some b) (rootptr s2)
              = Ok (same_nodes (Node b d x w y) s2)).
    { intros b d x w y s2 par par' Hs1 Hs2 Hh.
      apply (IH (Node b d x w y) s2 par par' Hs1 Hs2); done. }
    destruct l1 as [|b1 d1 x1 w1 y1].
    + destruct l2 as [|b2 d2 x2 w2 y2]; [|done]. scbn.
      destruct r1 as [|e1 g1 p1 q1 s1].
      * by destruct r2.
      * cbn [rootptr is_nil negb].
        rewrite (Erec e1 g1 p1 q1 s1 r2 _ _ Hr1 Hr2) by lia.
        scbn. by destruct (same_nodes (Node e1 g1 p1 q1 s1) r2).
    + cbn [rootptr is_nil negb].
      rewrite (Erec b1 d1 x1 w1 y1 l2 _ _ Hl1 Hl2) by lia.
      scbn. destruct (same_nodes (Node b1 d1 x1 w1 y1) l2); [|done]. scbn.
      destruct r1 as [|e1 g1 p1 q1 s1].
      * by destruct r2.
      * cbn [rootptr is_nil negb].
        rewrite (Erec e1 g1 p1 q1 s1 r2 _ _ Hr1 Hr2) by lia.
        scbn. by destruct (same_nodes (Node e1 g1 p1 q1 s1) r2).
Qed.

Lemma EqualTo_spec (rbt1 rbt2 : RBTree T) (h : heap) (t1 t2 : tree) :
  cmp rbt1 = Some f ->
  Rep h t1 -> root rbt1 = rootptr t1 -> Rep h t2 -> root rbt2 = rootptr t2 ->
  EqualTo rbt1 (Some rbt2) h = Ok (spec_EqualTo (Count rbt1) (Count rbt2) t1 t2).
Proof.
  intros Hcmp HR1 Hroot1 HR2 Hroot2. unfold EqualTo, spec_EqualTo.
  rewrite Hroot1, Hroot2, Hcmp.
  destruct t1 as [|a1 c1 l1 v1 r1]; [by destruct t2|].
  destruct t2 as [|a2 c2 l2 v2 r2]; [done|].
  cbn [rootptr is_nil is_empty negb andb orb].
  destruct (Count rbt1 =? Count rbt2); [|done]. cbn [negb andb].
  pose proof (Rep_fuel h Top _ HR1) as Hfuel.
  pose proof (height_size (Node a1 c1 l1 v1 r1)) as Hhs.
  destruct HR1 as [H1 _], HR2 as [H2 _].
  apply (equalTo_spec h (fuel_of h) (Node a1 c1 l1 v1 r1) (Node a2 c2 l2 v2 r2) _ _ H1 H2);
    [done|simpl in *; lia].
Qed.

End Equal.

(** Two trees over one heap that hold 1 and 2: [0 -> 1] is the tree after
    inserting 1 then 2, [2 -> 3] the tree after inserting 2 then 1. *)
Definition pair_heap : heap Z :=
  [ mkNode 1 None (Some 1%nat) None true;
    mkNode 2 None None (Some 0%nat) false;
    mkNode 2 (Some 3%nat) None None true;
    mkNode 1 None None (Some 2%nat) false ].

Definition pair_rbt1 : RBTree Z :=
  mkTree (Some 0%nat) (Some Compare) (Some 0%nat) (Some 1%nat) 2.

Definition pair_rbt2 : RBTree Z :=
  mkTree (Some 2%nat) (Some Compare) (Some 3%nat) (Some 2%nat) 2.

Definition pair_tree1 : @tree Z := Node 0 true Leaf 1 (Node 1 false Leaf 2 Leaf).

Definition pair_tree2 : @tree Z := Node 2 true (Node 3 false Leaf 1 Leaf) 2 Leaf.

Lemma pair_valid1 : Valid Compare pair_rbt1 pair_heap pair_tree1.
Proof. valid_by_computation 1%nat. Qed.

Lemma pair_valid2 : Valid Compare pair_rbt2 pair_heap pair_tree2.
Proof. valid_by_computation 1%nat. Qed.

(** C5.  For two handles whose heaps hold the trees [t1] and [t2],
    [EqualTo] returns the specification's verdict [spec_EqualTo]: true
    when both trees are empty, or when both are non-empty, the counts are
    equal and the trees have the same shape with, at each position, equal
    colours and values that compare equal.  So it returns false when the
    counts (which are the sizes) differ, and when the shape, a colour or a
    value differs at some position, whatever the two traversals are. *)
Theorem C5_equalTo_is_structural
    {T : Type} (f : T -> T -> Z) (rbt1 rbt2 : RBTree T) (h : heap T)
    (t1 t2 : tree) :
  cmp rbt1 = Some f ->
  Rep h t1 -> root rbt1 = rootptr t1 -> Rep h t2 -> root rbt2 = rootptr t2 ->
  EqualTo rbt1 (Some rbt2) h = Ok (spec_EqualTo f (Count rbt1) (Count rbt2) t1 t2)
  /\ (Count rbt1 = Z.of_nat (size t1) -> Count rbt2 = Z.of_nat (size t2) ->
      Count rbt1 <> Count rbt2 -> EqualTo rbt1 (Some rbt2) h = Ok false)
  /\ (same_nodes f t1 t2 = false -> EqualTo rbt1 (Some rbt2) h = Ok false).
Proof.
  intros Hcmp HR1 Hroot1 HR2 Hroot2.
  rewrite (EqualTo_spec f rbt1 rbt2 h t1 t2) by done. split_and!; [done| |].
  - intros Hc1 Hc2 Hne. unfold spec_EqualTo.
    destruct (Count rbt1 =? Count rbt2) eqn:E; [lia|].
    destruct t1, t2; simpl in *; try done. lia.
  - intros Hdiff. unfold spec_EqualTo. rewrite Hdiff.
    destruct t1, t2; simpl in *; try done. by rewrite !andb_false_r.
Qed.

Lemma C5_equalTo_is_structural_witness :
  map snd (inorder pair_tree1) = map snd (inorder pair_tree2)
  /\ EqualTo pair_rbt1 (Some pair_rbt2) pair_heap = Ok false
  /\ EqualTo pair_rbt1 (Some NewOrdered) pair_heap = Ok false.
Proof.
  split; [reflexivity|]. split.
  - apply (proj2 (proj2 (C5_equalTo_is_structural Compare pair_rbt1 pair_rbt2 pair_heap
                           pair_tree1 pair_tree2 eq_refl (v_rep _ _ _ _ pair_valid1)
                           eq_refl (v_rep _ _ _ _ pair_valid2) eq_refl))).
    reflexivity.
  - apply (proj1 (proj2 (C5_equalTo_is_structural Compare pair_rbt1 NewOrdered pair_heap
                           pair_tree1 Leaf eq_refl (v_rep _ _ _ _ pair_valid1)
                           eq_refl (v_rep _ _ _ _ (Valid_New Compare)) eq_refl))).
    + reflexivity.
    + reflexivity.
    + simpl. lia.
Defined.

(** * Cloning *)

Section Clone.

Context {T : Type}.

Local Abbreviation node := (RBNode T).
Local Abbreviation heap := (list (RBNode T)).
Local Abbreviation tree := (@tree T).

(** The copy of [t] that [clone] builds when the next free address is
    [base]: a node is allocated before its left subtree, and the left
    subtree before the right one. *)
Fixpoint clone_tree (base : addr) (t : tree) : tree :=
  match t with
  | Leaf => Leaf
  | Node _ c l v r =>
      Node base c (clone_tree (S base) l) v (clone_tree (S base + size l) r)
  end.

Lemma leaf_or_not (t : tree) : t = Leaf \/ t <> Leaf.
Proof. destruct t; [by left|by right]. Qed.

Lemma clone_size base (t : tree) : size (clone_tree base t) = size t.
Proof.
  revert base; induction t as [|a c l IHl v r IHr]; intros base; simpl; [done|].
  by rewrite IHl, IHr.
Qed.

Lemma clone_addrs (t : tree) : forall base, addrs (clone_tree base t) = seq base (size t).
Proof.
  induction t as [|a c l IHl v r IHr]; intros base; simpl; [done|].
  rewrite IHl, IHr. f_equal. by rewrite seq_app.
Qed.

Lemma clone_inorder (t : tree) : forall base,
  map snd (inorder (clone_tree base t)) = map snd (inorder t).
Proof.
  induction t as [|a c l IHl v r IHr]; intros base; simpl; [done|].
  rewrite !map_app. simpl. by rewrite IHl, IHr.
Qed.

Lemma clone_isB base (t : tree) : isB (clone_tree base t) = isB t.
Proof. by destruct t. Qed.

Lemma clone_RB (t : tree) : forall n base, RB n t -> RB n (clone_tree base t).
Proof.
  induction t as [|a c l IHl v r IHr]; intros n base; simpl; [done|].
  destruct c.
  - destruct n; [done|]. intros [? ?]. split; auto.
  - intros (? & ? & ? & ?). rewrite !clone_isB. split_and!; auto.
Qed.

Lemma clone_empty base (t : tree) : t <> Leaf -> rootptr (clone_tree base t) = Some base.
Proof. by destruct t. Qed.

Lemma clone_same_nodes (f : T -> T -> Z) (Hf : Comparator f) (t : tree) : forall base,
  same_nodes f (clone_tree base t) t = true.
Proof.
  induction t as [|a c l IHl v r IHr]; intros base; simpl; [done|].
  rewrite (cmp_refl f Hf), IHl, IHr. by destruct c.
Qed.

(** Setting the parent field of the root of a copy. *)
Lemma clone_set_parent (g : heap) base (s : tree) par par' n :
  Repr g par (clone_tree base s) -> s <> Leaf -> g !! base = Some n ->
  Repr (<[base := set_parent par' n]> g) par' (clone_tree base s).
Proof.
  intros Hr Hne Hn. destruct s as [|a c l v r]; [done|]. simpl in *.
  destruct Hr as (Hb & Hl & Hrr). rewrite Hb in Hn. injection Hn as <-.
  split_and!.
  - rewrite list_lookup_insert_eq; [done|]. by eapply lookup_lt_Some.
  - eapply Repr_frame; [exact Hl|]. intros x Hx. rewrite clone_addrs in Hx.
    apply elem_of_seq in Hx. rewrite list_lookup_insert_ne; [done|lia].
  - eapply Repr_frame; [exact Hrr|]. intros x Hx. rewrite clone_addrs in Hx.
    apply elem_of_seq in Hx. rewrite list_lookup_insert_ne; [done|lia].
Qed.

(** What [clone] does on a subtree, as an induction hypothesis. *)
Definition clone_ok (fuel : nat) : Prop :=
  forall (h : heap) (t : tree) par,
    Repr h par t -> t <> Leaf -> (height t <= fuel)%nat ->
    exists h',
      clone fuel h (rootptr t) = Ok (Some (length h), h')
      /\ length h' = (length h + size t)%nat
      /\ Repr h' None (clone_tree (length h) t)
      /\ (forall x, (x < length h)%nat -> h' !! x = h !! x).

Lemma clone_left fuel (g : heap) n0 (cell0 : node) (s : tree) par :
  clone_ok fuel ->
  g !! n0 = Some cell0 -> left cell0 = None -> Repr g par s -> (height s <= fuel)%nat ->
  exists g',
    (if negb (is_nil (rootptr s)) then
       let* '(c, g) := clone fuel g (rootptr s) in
       let* g := store g (Some n0) (set_left c) in
       let* nn := load g (Some n0) in
       store g (left nn) (set_parent (Some n0))
     else Ok g) = Ok g'
    /\ length g' = (length g + size s)%nat
    /\ g' !! n0 = Some (set_left (rootptr (clone_tree (length g) s)) cell0)
    /\ Repr g' (Some n0) (clone_tree (length g) s)
    /\ (forall x, (x < length g)%nat -> x <> n0 -> g' !! x = g !! x).
Proof.
  intros IH Hn0 Hleft Hs Hfuel.
  pose proof (lookup_lt_Some _ _ _ Hn0) as Hlt.
  destruct (leaf_or_not s) as [->|Hne].
  { exists g. simpl. split_and!; try done; try lia.
    rewrite Hn0. f_equal. destruct cell0; simpl in *; by subst. }
  destruct (IH g s par Hs Hne Hfuel) as (g1 & E & Hlen & Hr1 & Hfr1).
  assert (Hnil : is_nil (rootptr s) = false) by (by destruct s).
  rewrite Hnil. cbn [negb]. rewrite E. scbn.
  assert (H1 : g1 !! n0 = Some cell0) by (by rewrite Hfr1).
  rewrite (store_Some _ _ _ _ H1). scbn.
  set (g2 := <[n0 := set_left (Some (length g)) cell0]> g1).
  assert (Hlen1 : (n0 < length g1)%nat) by lia.
  assert (H2 : g2 !! n0 = Some (set_left (Some (length g)) cell0))
    by (by apply list_lookup_insert_eq).
  rewrite (load_Some _ _ _ H2). scbn.
  assert (Hr2 : Repr g2 None (clone_tree (length g) s)).
  { eapply Repr_frame; [exact Hr1|]. intros x Hx. rewrite clone_addrs in Hx.
    apply elem_of_seq in Hx. unfold g2. rewrite list_lookup_insert_ne; [done|lia]. }
  assert (Hroot : exists rc, g2 !! length g = Some rc).
  { destruct s as [|a c l v r]; [done|]. simpl in Hr2. destruct Hr2 as (Hrc & _). eauto. }
  destruct Hroot as (rc & Hrc). rewrite (store_Some _ _ _ _ Hrc).
  eexists. split; [done|]. split_and!.
  - unfold g2. rewrite !length_insert. lia.
  - rewrite list_lookup_insert_ne by lia. rewrite H2. by rewrite clone_empty.
  - by apply (clone_set_parent g2 (length g) s None).
  - intros x Hx Hxn. rewrite list_lookup_insert_ne by lia.
    unfold g2. rewrite list_lookup_insert_ne by done. by apply Hfr1.
Qed.

Lemma clone_right fuel (g : heap) n0 (cell0 : node) (s : tree) par :
  clone_ok fuel ->
  g !! n0 = Some cell0 -> right cell0 = None -> Repr g par s -> (height s <= fuel)%nat ->
  exists g',
    (if negb (is_nil (rootptr s)) then
       let* '(c, g) := clone fuel g (rootptr s) in
       let* g := store g (Some n0) (set_right c) in
       let* nn := load g (Some n0) in
       store g (right nn) (set_parent (Some n0))
     else Ok g) = Ok g'
    /\ length g' = (length g + size s)%nat
    /\ g' !! n0 = Some (set_right (rootptr (clone_tree (length g) s)) cell0)
    /\ Repr g' (Some n0) (clone_tree (length g) s)
    /\ (forall x, (x < length g)%nat -> x <> n0 -> g' !! x = g !! x).
Proof.
  intros IH Hn0 Hright Hs Hfuel.
  pose proof (lookup_lt_Some _ _ _ Hn0) as Hlt.
  destruct (leaf_or_not s) as [->|Hne].
  { exists g. simpl. split_and!; try done; try lia.
    rewrite Hn0. f_equal. destruct cell0; simpl in *; by subst. }
  destruct (IH g s par Hs Hne Hfuel) as (g1 & E & Hlen & Hr1 & Hfr1).
  assert (Hnil : is_nil (rootptr s) = false) by (by destruct s).
  rewrite Hnil. cbn [negb]. rewrite E. scbn.
  assert (H1 : g1 !! n0 = Some cell0) by (by rewrite Hfr1).
  rewrite (store_Some _ _ _ _ H1). scbn.
  set (g2 := <[n0 := set_right (Some (length g)) cell0]> g1).
  assert (Hlen1 : (n0 < length g1)%nat) by lia.
  assert (H2 : g2 !! n0 = Some (set_right (Some (length g)) cell0))
    by (by apply list_lookup_insert_eq).
  rewrite (load_Some _ _ _ H2). scbn.
  assert (Hr2 : Repr g2 None (clone_tree (length g) s)).
  { eapply Repr_frame; [exact Hr1|]. intros x Hx. rewrite clone_addrs in Hx.
    apply elem_of_seq in Hx. unfold g2. rewrite list_lookup_insert_ne; [done|lia]. }
  assert (Hroot : exists rc, g2 !! length g = Some rc).
  { destruct s as [|a c l v r]; [done|]. simpl in Hr2. destruct Hr2 as (Hrc & _). eauto. }
  destruct Hroot as (rc & Hrc). rewrite (store_Some _ _ _ _ Hrc).
  eexists. split; [done|]. split_and!.
  - unfold g2. rewrite !length_insert. lia.
  - rewrite list_lookup_insert_ne by lia. rewrite H2. by rewrite clone_empty.
  - by apply (clone_set_parent g2 (length g) s None).
  - intros x Hx Hxn. rewrite list_lookup_insert_ne by lia.
    unfold g2. rewrite list_lookup_insert_ne by done. by apply Hfr1.
Qed.

Lemma clone_spec fuel : clone_ok fuel.
Proof.
  induction fuel as [|fuel IH]; intros h t par Hr Hne Hfuel.
  - destruct t; [done|simpl in Hfuel; lia].
  - destruct t as [|a c l v r]; [done|]. simpl in Hr, Hfuel. destruct Hr as (Ha & Hl & Hrr).
    pose proof (lookup_lt_Some _ _ _ Ha) as Hlt.
    cbn [clone rootptr alloc]. rewrite (load_Some _ _ _ Ha). scbn.
    set (cell0 := mkNode v None None None c).
    set (h1 := h ++ [cell0]).
    assert (Hlen1 : length h1 = S (length h)) by (unfold h1; rewrite length_app; simpl; lia).
    assert (Hfr1 : forall x, (x < length h)%nat -> h1 !! x = h !! x).
    { intros x Hx. unfold h1. by rewrite lookup_app_l. }
    assert (Ha1 : h1 !! a = Some (mkNode v (rootptr l) (rootptr r) par c)) by (by rewrite Hfr1).
    rewrite (load_Some _ _ _ Ha1). scbn.
    assert (Hn0 : h1 !! length h = Some cell0) by (unfold h1; by rewrite list_lookup_middle).
    assert (Hl1 : Repr h1 (Some a) l).
    { eapply Repr_frame; [exact Hl|]. intros x Hx. apply Hfr1. exact (Repr_lt _ _ _ _ Hl Hx). }
    destruct (clone_left fuel h1 (length h) cell0 l (Some a) IH Hn0 eq_refl Hl1 ltac:(lia))
      as (g1 & E1 & Hlg1 & Hc1 & Hrl & Hfrl).
    rewrite E1. scbn.
    assert (Hag1 : g1 !! a = Some (mkNode v (rootptr l) (rootptr r) par c)).
    { rewrite Hfrl; [done|lia|lia]. }
    rewrite (load_Some _ _ _ Hag1). scbn.
    assert (Hr1 : Repr g1 (Some a) r).
    { eapply Repr_frame; [exact Hrr|]. intros x Hx.
      pose proof (Repr_lt _ _ _ _ Hrr Hx). rewrite Hfrl, Hfr1; [done|lia..]. }
    destruct (clone_right fuel g1 (length h) _ r (Some a) IH Hc1 eq_refl Hr1 ltac:(lia))
      as (g2 & E2 & Hlg2 & Hc2 & Hrr2 & Hfrr).
    rewrite E2. scbn. exists g2. split; [done|]. split_and!.
    + simpl. lia.
    + simpl. rewrite Hlen1 in *. rewrite Hlg1 in *. split_and!.
      * rewrite Hc2. done.
      * eapply Repr_frame; [exact Hrl|]. intros x Hx. rewrite clone_addrs in Hx.
        apply elem_of_seq in Hx. apply Hfrr; lia.
      * exact Hrr2.
    + intros x Hx. rewrite Hfrr, Hfrl, Hfr1; [done|lia..].
Qed.

(** The value held by the node behind a pointer. *)
Definition val_at (h : heap) (p : ptr) : option T :=
  match p with
  | None => None
  | Some a => Val <$> h !! a
  end.

Lemma val_at_first (h : heap) (t : tree) :
  Rep h t -> val_at h (first_addr (inorder t)) = snd <$> head (inorder t).
Proof.
  intros HR. unfold first_addr. destruct (head (inorder t)) as [[a v]|] eqn:E; [|done].
  simpl. apply head_Some_elem_of in E.
  destruct (Rep_inorder_lookup h t a v HR E) as (n & -> & <-). done.
Qed.

Lemma val_at_last (h : heap) (t : tree) :
  Rep h t -> val_at h (last_addr (inorder t)) = snd <$> last (inorder t).
Proof.
  intros HR. unfold last_addr. destruct (last (inorder t)) as [[a v]|] eqn:E; [|done].
  simpl. apply last_Some_elem_of in E.
  destruct (Rep_inorder_lookup h t a v HR E) as (n & -> & <-). done.
Qed.

Lemma head_map_snd (L L' : list (addr * T)) :
  map snd L = map snd L' -> snd <$> head L = snd <$> head L'.
Proof. destruct L, L'; simpl; try done. by intros [= -> _]. Qed.

Lemma last_map_snd (L L' : list (addr * T)) :
  map snd L = map snd L' -> snd <$> last L = snd <$> last L'.
Proof.
  intros E. rewrite <- !fmap_last. unfold fmap, list_fmap in *.
  change (last (map snd L) = last (map snd L')). by rewrite E.
Qed.

End Clone.

Section CloneTree.

Context {T : Type} (f : T -> T -> Z) (Hf : Comparator f).

Lemma Valid_frame (rbt : RBTree T) (h h' : heap T) (t : tree) :
  Valid f rbt h t -> (forall x, (x < length h)%nat -> h' !! x = h !! x) ->
  Valid f rbt h' t.
Proof.
  intros [[Hr Hnd] Hroot Hcmp Hrb Hso Hcount Hmin Hmax Hfits] Hfr.
  split; try done. split; [|done].
  eapply Repr_frame; [exact Hr|]. intros x Hx. apply Hfr. exact (Repr_lt _ _ _ _ Hr Hx).
Qed.

Lemma Clone_spec (rbt : RBTree T) (h : heap T) (t : tree) :
  Valid f rbt h t ->
  exists c h',
    Clone rbt h = Ok (c, h')
    /\ Valid f c h' (clone_tree (length h) t)
    /\ (forall x, (x < length h)%nat -> h' !! x = h !! x).
Proof.
  intros HV. pose proof HV as [[Hr Hnd] Hroot Hcmp [Hblack [n Hrb]] Hso Hcount Hmin Hmax Hfits].
  unfold Clone. rewrite Hroot.
  destruct (leaf_or_not t) as [->|Hne].
  { cbn [rootptr is_nil]. exists (New (cmp rbt)), h. split_and!; try done.
    rewrite Hcmp. by apply Valid_empty. }
  assert (Hnil : is_nil (rootptr t) = false) by (by destruct t).
  rewrite Hnil.
  pose proof (Rep_fuel h Top t (conj Hr Hnd)) as Hfuel. pose proof (height_size t) as Hhs.
  destruct (clone_spec (fuel_of h) h t None Hr Hne ltac:(simpl in Hfuel; lia))
    as (h' & E & Hlen & Hr' & Hfr).
  rewrite E. scbn.
  set (t' := clone_tree (length h) t) in *.
  assert (Hne' : t' <> Leaf) by (unfold t'; by destruct t).
  assert (Hroot' : rootptr t' = Some (length h)) by (by apply clone_empty).
  assert (Hnd' : NoDup (addrs t')) by (unfold t'; rewrite clone_addrs; apply NoDup_seq).
  pose proof (Rep_fuel h' Top t' (conj Hr' Hnd')) as Hfuel'.
  pose proof (height_size t') as Hhs'.
  rewrite <- Hroot'.
  rewrite (leftmost_spec h' (fuel_of h') None t' Hr' Hne') by (simpl in Hfuel'; lia).
  scbn.
  rewrite (rightmost_spec h' (fuel_of h') None t' Hr' Hne') by (simpl in Hfuel'; lia).
  scbn. eexists _, h'. split; [done|]. split; [|done].
  split; try done.
  - split; [unfold t'; by rewrite clone_isB|]. exists n. by apply clone_RB.
  - unfold Sorted_tree. eapply Sorted_snd; [|exact Hso].
    unfold t'. by rewrite clone_inorder.
  - cbn. unfold t'. by rewrite clone_size.
  - unfold t'. by rewrite clone_size.
Qed.

End CloneTree.

(** C4.  The clone [c] of a valid tree is built in fresh cells, leaves the
    original as it was, and: [IsValid] accepts [c]; the counts are equal;
    the nodes [Min] and [Max] of [c] hold the values of the nodes [Min] and
    [Max] of the original; [EqualTo] finds [c] equal to the original; and
    [c] is the valid tree [t'] none of whose nodes, [Min] and [Max]
    included, is a node of the original. *)
Theorem C4_clone_round_trip
    {T : Type} (f : T -> T -> Z) (rbt : RBTree T) (h : heap T) (t : tree) :
  Comparator f -> Valid f rbt h t ->
  exists c h' t',
    Clone rbt h = Ok (c, h')
    /\ IsValid c h' = Ok true
    /\ Count c = Count rbt
    /\ val_at h' (Min c) = val_at h' (Min rbt)
    /\ val_at h' (Max c) = val_at h' (Max rbt)
    /\ EqualTo c (Some rbt) h' = Ok true
    /\ Valid f c h' t' /\ Valid f rbt h' t
    /\ (forall a, a ∈ addrs t' -> a ∉ addrs t)
    /\ (forall a, Min c = Some a \/ Max c = Some a -> a ∈ addrs t' /\ a ∉ addrs t).
Proof.
  intros Hf HV.
  destruct (Clone_spec f rbt h t HV) as (c & h' & E & HV' & Hfr).
  pose proof (Valid_frame f rbt h h' t HV Hfr) as HV0.
  exists c, h', (clone_tree (length h) t).
  assert (Hdisj : forall a, a ∈ addrs (clone_tree (length h) t) -> a ∉ addrs t).
  { intros a Ha Ha'. rewrite clone_addrs in Ha. apply elem_of_seq in Ha.
    pose proof (Repr_lt _ _ _ _ (proj1 (v_rep _ _ _ _ HV)) Ha'). lia. }
  split_and!; try done.
  - by eapply IsValid_complete.
  - rewrite (v_count _ _ _ _ HV'), (v_count _ _ _ _ HV). by rewrite clone_size.
  - rewrite (v_min _ _ _ _ HV'), (v_min _ _ _ _ HV0).
    rewrite (val_at_first h' _ (v_rep _ _ _ _ HV')), (val_at_first h' _ (v_rep _ _ _ _ HV0)).
    apply head_map_snd, clone_inorder.
  - rewrite (v_max _ _ _ _ HV'), (v_max _ _ _ _ HV0).
    rewrite (val_at_last h' _ (v_rep _ _ _ _ HV')), (val_at_last h' _ (v_rep _ _ _ _ HV0)).
    apply last_map_snd, clone_inorder.
  - rewrite (EqualTo_spec f c rbt h' (clone_tree (length h) t) t);
      [|exact (v_cmp _ _ _ _ HV')|exact (v_rep _ _ _ _ HV')|exact (v_root _ _ _ _ HV')
       |exact (v_rep _ _ _ _ HV0)|exact (v_root _ _ _ _ HV0)].
    f_equal. unfold spec_EqualTo.
    rewrite (v_count _ _ _ _ HV'), (v_count _ _ _ _ HV), clone_size, Z.eqb_refl.
    rewrite (clone_same_nodes f Hf). by destruct t.
  - intros a Ha.
    assert (Hin : a ∈ addrs (clone_tree (length h) t)).
    { rewrite <- inorder_addrs.
      rewrite (v_min _ _ _ _ HV'), (v_max _ _ _ _ HV') in Ha.
      unfold first_addr, last_addr in Ha.
      destruct Ha as [Ha|Ha].
      - destruct (head _) as [[a' v']|] eqn:E'; [|done]. injection Ha as ->.
        apply head_Some_elem_of in E'.
        change a with (fst (a, v')). by apply list_elem_of_fmap_2.
      - destruct (last _) as [[a' v']|] eqn:E'; [|done]. injection Ha as ->.
        apply last_Some_elem_of in E'.
        change a with (fst (a, v')). by apply list_elem_of_fmap_2. }
    split; [done|by apply Hdisj].
Qed.

Lemma C4_clone_round_trip_witness :
  exists c h' t',
    Clone demo_rbt demo_heap = Ok (c, h')
    /\ IsValid c h' = Ok true
    /\ Count c = Count demo_rbt
    /\ val_at h' (Min c) = val_at h' (Min demo_rbt)
    /\ val_at h' (Max c) = val_at h' (Max demo_rbt)
    /\ EqualTo c (Some demo_rbt) h' = Ok true
    /\ Valid Compare c h' t' /\ Valid Compare demo_rbt h' demo_tree
    /\ (forall a, a ∈ addrs t' -> a ∉ addrs demo_tree)
    /\ (forall a, Min c = Some a \/ Max c = Some a -> a ∈ addrs t' /\ a ∉ addrs demo_tree).
Proof.
  apply (C4_clone_round_trip Compare demo_rbt demo_heap demo_tree).
  - exact Comparator_Compare.
  - exact demo_valid.
Defined.

(** * The README example *)

(** A text given by its lines, each ended by a newline. *)
Fixpoint text_of_lines (lines : list string) : string :=
  match lines with
  | [] => EmptyString
  | l :: lines => (l ++ newline ++ text_of_lines lines)%string
  end.

(** C2.  Inserting 70, 50, 80, 20, 60, 75 and 100, in this order, into the
    empty ordered tree of integers gives the tree [demo_rbt] over
    [demo_heap]; [IsValid] accepts it, and [String] renders it right
    subtree first, one value per line, each line indented by one space
    more than the depth of its node. *)
Theorem C2_readme_example :
  run 0 (map OpInsert [70; 50; 80; 20; 60; 75; 100]) (NewOrdered, [])
    = Ok (demo_rbt, demo_heap)
  /\ IsValid demo_rbt demo_heap = Ok true
  /\ String_ show_int demo_rbt demo_heap
     = Ok (text_of_lines ["   100"; "  80"; "   75"; " 70"; "   60"; "  50"; "   20"]).
Proof. split_and!; vm_compute; reflexivity. Qed.

(** * The validator on arbitrary heaps *)

Section Levels.

Context {T : Type}.

Local Abbreviation node := (RBNode T).
Local Abbreviation heap := (list (RBNode T)).
Local Abbreviation tree := (@tree T).

(** A pointer of a Go program is nil or points to a node: every address
    stored in the handle or in a cell is the address of a cell. *)
Definition closed_ptr (h : heap) (p : ptr) : Prop :=
  match p with
  | None => True
  | Some a => (a < length h)%nat
  end.

Definition closed_heap (h : heap) : Prop :=
  forall a c, h !! a = Some c ->
    closed_ptr h (left c) /\ closed_ptr h (right c) /\ closed_ptr h (parent c).

Definition closed (rbt : RBTree T) (h : heap) : Prop :=
  closed_ptr h (root rbt) /\ closed_ptr h (Min rbt) /\ closed_ptr h (Max rbt)
  /\ closed_heap h.

Variable h : heap.

(** Following the parent pointers [n] times. *)
Definition par (p : ptr) : ptr :=
  match p with
  | None => None
  | Some a => match h !! a with Some c => parent c | None => None end
  end.

Fixpoint up (n : nat) (p : ptr) : ptr :=
  match n with
  | O => p
  | S n => up n (par p)
  end.

(** [a] has exactly [n] ancestors. *)
Definition level (a : addr) (n : nat) : Prop :=
  up n (Some a) <> None /\ up (S n) (Some a) = None.

Lemma up_None n : up n None = None.
Proof. induction n; simpl; done. Qed.

Lemma up_add i j p : up (i + j) p = up j (up i p).
Proof. revert p; induction i as [|i IH]; intros p; simpl; [done|apply IH]. Qed.

Lemma up_S n p : up (S n) p = par (up n p).
Proof. replace (S n) with (n + 1)%nat by lia. by rewrite up_add. Qed.

Lemma up_mono n m p : up n p = None -> (n <= m)%nat -> up m p = None.
Proof.
  intros E Hle. replace m with (n + (m - n))%nat by lia.
  by rewrite up_add, E, up_None.
Qed.

Lemma level_unique a n m : level a n -> level a m -> n = m.
Proof.
  intros [H1 H2] [H3 H4].
  destruct (Nat.lt_trichotomy n m) as [Hlt|[?|Hlt]]; [|done|].
  - destruct H3. apply (up_mono (S n)); [done|lia].
  - destruct H1. apply (up_mono (S m)); [done|lia].
Qed.

Lemma level_root a c : h !! a = Some c -> parent c = None -> level a 0.
Proof. intros Ha Hp. split; [done|]. simpl. by rewrite Ha. Qed.

Lemma level_child x c a n :
  h !! x = Some c -> parent c = Some a -> level a n -> level x (S n).
Proof.
  intros Hx Hp [H1 H2]. split.
  - change (up n (par (Some x)) <> None). simpl. by rewrite Hx, Hp.
  - change (up (S n) (par (Some x)) = None). simpl par. by rewrite Hx, Hp.
Qed.

(** A node with [n] ancestors sits in a heap of at least [n] cells. *)
Lemma level_bound a n : level a n -> (n <= length h)%nat.
Proof.
  intros [H1 H2].
  set (xs := (fun i => up i (Some a)) <$> seq 0 n).
  assert (Hsome : forall i, (i < n)%nat ->
            exists x, up i (Some a) = Some x /\ (x < length h)%nat /\ level x (n - i)).
  { intros i Hi.
    assert (Hn : up (S i) (Some a) <> None).
    { intros E. destruct H1. apply (up_mono (S i)); [done|lia]. }
    rewrite up_S in Hn. destruct (up i (Some a)) as [x|] eqn:Ex; [|done].
    exists x. split; [done|]. split.
    - simpl in Hn. destruct (h !! x) eqn:Hx; [|done]. by eapply lookup_lt_Some.
    - split.
      + rewrite <- Ex, <- up_add. replace (i + (n - i))%nat with n by lia. done.
      + rewrite <- Ex, <- up_add. replace (i + S (n - i))%nat with (S n) by lia. done. }
  assert (Hnd : NoDup xs).
  { unfold xs. apply NoDup_fmap_2_strong; [|apply NoDup_seq].
    intros i j Hi Hj E. apply elem_of_seq in Hi, Hj.
    destruct (Hsome i ltac:(lia)) as (x & Ex & _ & Lx).
    destruct (Hsome j ltac:(lia)) as (y & Ey & _ & Ly).
    simpl in E. rewrite Ex, Ey in E. injection E as ->.
    pose proof (level_unique _ _ _ Lx Ly). lia. }
  assert (Hsub : xs ⊆+ (Some <$> seq 0 (length h))).
  { apply NoDup_submseteq; [done|]. intros p Hp. unfold xs in Hp.
    apply list_elem_of_fmap in Hp as (i & -> & Hi). apply elem_of_seq in Hi.
    destruct (Hsome i ltac:(lia)) as (x & Ex & Hx & _). rewrite Ex.
    apply list_elem_of_fmap_2. apply elem_of_seq. lia. }
  apply submseteq_length in Hsub. unfold xs in Hsub.
  rewrite !length_fmap, !length_seq in Hsub. done.
Qed.

(** Children with different roots, at every node. *)
Fixpoint Dist (t : tree) : Prop :=
  match t with
  | Leaf => True
  | Node _ _ l _ r => (l = Leaf \/ rootptr l <> rootptr r) /\ Dist l /\ Dist r
  end.

Lemma Repr_level (t : tree) : forall p n,
  Repr h p t -> (forall a, rootptr t = Some a -> level a n) ->
  forall x, x ∈ addrs t ->
    exists i, level x (n + i) /\ up i (Some x) = rootptr t.
Proof.
  induction t as [|a c l IHl v r IHr]; intros p n Hr Hlv x Hx; [by apply elem_of_nil in Hx|].
  simpl in Hr, Hx. destruct Hr as (Ha & Hl & Hrr).
  pose proof (Hlv a eq_refl) as La.
  apply elem_of_cons in Hx as [->|Hx].
  { exists 0%nat. by rewrite Nat.add_0_r. }
  assert (Hsub : forall (s : tree), Repr h (Some a) s -> x ∈ addrs s ->
            (forall p n, Repr h p s -> (forall a, rootptr s = Some a -> level a n) ->
               forall x, x ∈ addrs s -> exists i, level x (n + i) /\ up i (Some x) = rootptr s) ->
            exists i, level x (n + i) /\ up i (Some x) = Some a).
  { intros s Hs Hxs IH. destruct s as [|b cb bl bv br]; [by apply elem_of_nil in Hxs|].
    pose proof Hs as (Hb & _).
    destruct (IH (Some a) (S n) Hs) with (x := x) as (i & Li & Ui); [|done|].
    { intros b' [= <-]. by eapply level_child. }
    exists (S i). split.
    - by replace (n + S i)%nat with (S n + i)%nat by lia.
    - rewrite up_S, Ui. simpl. by rewrite Hb. }
  apply elem_of_app in Hx as [Hx|Hx]; [apply (Hsub l)|apply (Hsub r)]; done.
Qed.

Lemma Repr_NoDup (t : tree) : forall p n,
  Repr h p t -> (forall a, rootptr t = Some a -> level a n) -> Dist t ->
  NoDup (addrs t).
Proof.
  induction t as [|a c l IHl v r IHr]; intros p n Hr Hlv Hd; [apply NoDup_nil_2|].
  pose proof Hr as (Ha & Hl & Hrr). destruct Hd as (Hdiff & Hdl & Hdr).
  pose proof (Hlv a eq_refl) as La.
  assert (Hchild : forall (s : tree), Repr h (Some a) s ->
            forall b, rootptr s = Some b -> level b (S n)).
  { intros s Hs b Hb. destruct s as [|b' cb bl bv br]; [done|].
    injection Hb as ->. destruct Hs as (Hb & _). by eapply level_child. }
  simpl. apply NoDup_cons. split.
  - intros Hin. apply elem_of_app in Hin as [Hin|Hin].
    + destruct (Repr_level l _ _ Hl (Hchild l Hl) a Hin) as (i & Li & _).
      pose proof (level_unique _ _ _ La Li). lia.
    + destruct (Repr_level r _ _ Hrr (Hchild r Hrr) a Hin) as (i & Li & _).
      pose proof (level_unique _ _ _ La Li). lia.
  - apply NoDup_app. split_and!.
    + by apply (IHl (Some a) (S n) Hl (Hchild l Hl)).
    + intros x Hxl Hxr.
      destruct (Repr_level l _ _ Hl (Hchild l Hl) x Hxl) as (i & Li & Ui).
      destruct (Repr_level r _ _ Hrr (Hchild r Hrr) x Hxr) as (j & Lj & Uj).
      assert (i = j) by (pose proof (level_unique _ _ _ Li Lj); lia). subst j.
      destruct Hdiff as [->|Hdiff]; [by apply elem_of_nil in Hxl|].
      apply Hdiff. by rewrite <- Ui, <- Uj.
    + by apply (IHr (Some a) (S n) Hrr (Hchild r Hrr)).
Qed.

End Levels.

Section Total.

Context {T : Type} (f : T -> T -> Z).

Local Abbreviation node := (RBNode T).
Local Abbreviation heap := (list (RBNode T)).
Local Abbreviation tree := (@tree T).

Variable h : heap.
Hypothesis Hclosed : closed_heap h.

Lemma closed_load (p : ptr) : closed_ptr h p -> p <> None -> exists a c, p = Some a /\ h !! a = Some c.
Proof.
  destruct p as [a|]; [|done]. intros Ha _. simpl in Ha.
  apply lookup_lt_is_Some in Ha as [c Hc]. eauto.
Qed.

(** The tree that an accepted subtree at [a] is. *)
Definition good (a : addr) (cell : node) (t : tree) : Prop :=
  rootptr t = Some a /\ Repr h (parent cell) t /\ Dist t.

Definition isValid_ok (fuel n : nat) : Prop :=
  forall a cell ibh cur,
    h !! a = Some cell -> level h a n ->
    (isBlack cell = true \/ parent cell <> None) ->
    exists ibh' bh ok,
      isValid fuel h (Some f) (Some a) ibh cur = Ok (ibh', (bh, ok))
      /\ (ok = true -> exists t, good a cell t).

Lemma left_total fuel n a cell ibh cur :
  isValid_ok fuel (S n) -> h !! a = Some cell -> level h a n ->
  exists ibh' bh ok,
    leftSubtreeIsValid (isValid fuel h (Some f)) h (Some a) ibh cur (Some f)
      = Ok (ibh', (bh, ok))
    /\ (ok = true ->
        exists tl, rootptr tl = left cell /\ Repr h (Some a) tl /\ Dist tl
                   /\ forall x, left cell = Some x ->
                        exists xc, h !! x = Some xc /\ f (Val cell) (Val xc) > 0).
Proof.
  intros IH Ha La. unfold leftSubtreeIsValid. rewrite (load_Some _ _ _ Ha). scbn.
  destruct (Hclosed a cell Ha) as (Hl & _ & _).
  destruct (left cell) as [l0|] eqn:El.
  - destruct (closed_load (Some l0) Hl ltac:(done)) as (? & lc & [= <-] & Hlc).
    cbn [is_nil]. rewrite (load_Some _ _ _ Hlc). scbn.
    destruct (ptr_eqb (parent lc) (Some a)) eqn:Ep; scbn; [|by exists ibh, 0, false].
    apply ptr_eqb_eq in Ep. cbn [call bind].
    destruct (f (Val cell) (Val lc) <=? 0) eqn:Ec; [by exists ibh, 0, false|].
    destruct (IH l0 lc ibh cur Hlc) as (ibh' & bh & ok & E & Hok).
    { by eapply level_child. }
    { right. by rewrite Ep. }
    exists ibh', bh, ok. split; [done|]. intros Hk.
    destruct (Hok Hk) as (tl & Hroot & Hr & Hd). rewrite Ep in Hr.
    exists tl. split_and!; try done.
    intros x [= <-]. exists lc. split; [done|lia].
  - cbn [is_nil]. exists ibh, cur, true. split; [done|]. intros _.
    exists Leaf. split_and!; try done.
Qed.

Lemma right_total fuel n a cell ibh cur :
  isValid_ok fuel (S n) -> h !! a = Some cell -> level h a n ->
  exists ibh' bh ok,
    rightSubtreeIsValid (isValid fuel h (Some f)) h (Some a) ibh cur (Some f)
      = Ok (ibh', (bh, ok))
    /\ (ok = true ->
        exists tr, rootptr tr = right cell /\ Repr h (Some a) tr /\ Dist tr
                   /\ forall x, right cell = Some x ->
                        exists xc, h !! x = Some xc /\ f (Val cell) (Val xc) < 0).
Proof.
  intros IH Ha La. unfold rightSubtreeIsValid. rewrite (load_Some _ _ _ Ha). scbn.
  destruct (Hclosed a cell Ha) as (_ & Hr & _).
  destruct (right cell) as [r0|] eqn:El.
  - destruct (closed_load (Some r0) Hr ltac:(done)) as (? & rc & [= <-] & Hrc).
    cbn [is_nil]. rewrite (load_Some _ _ _ Hrc). scbn.
    destruct (ptr_eqb (parent rc) (Some a)) eqn:Ep; scbn; [|by exists ibh, 0, false].
    apply ptr_eqb_eq in Ep. cbn [call bind].
    destruct (f (Val cell) (Val rc) >=? 0) eqn:Ec; [by exists ibh, 0, false|].
    destruct (IH r0 rc ibh cur Hrc) as (ibh' & bh & ok & E & Hok).
    { by eapply level_child. }
    { right. by rewrite Ep. }
    exists ibh', bh, ok. split; [done|]. intros Hk.
    destruct (Hok Hk) as (tr & Hroot & Hrr & Hd). rewrite Ep in Hrr.
    exists tr. split_and!; try done.
    intros x [= <-]. exists rc. split; [done|lia].
  - cbn [is_nil]. exists ibh, cur, true. split; [done|]. intros _.
    exists Leaf. split_and!; try done.
Qed.

Lemma node_eta (c : node) : mkNode (Val c) (left c) (right c) (parent c) (isBlack c) = c.
Proof. by destruct c. Qed.

Lemma rest_total fuel n a cell cur :
  isValid_ok fuel (S n) -> h !! a = Some cell -> level h a n ->
  forall ibh,
  exists ibh' bh ok,
    (let* '(initialBlackHeight, (leftBlackHeight, ok)) :=
       leftSubtreeIsValid (isValid fuel h (Some f)) h (Some a) ibh cur (Some f) in
     if negb ok then Ok (initialBlackHeight, (0, false))
     else
       let* '(initialBlackHeight, (rightBlackHeight, ok)) :=
         rightSubtreeIsValid (isValid fuel h (Some f)) h (Some a) initialBlackHeight
           cur (Some f) in
       if negb ok || negb (leftBlackHeight =? rightBlackHeight)
       then Ok (initialBlackHeight, (0, false))
       else Ok (initialBlackHeight, (Z.max leftBlackHeight cur, true)))
    = Ok (ibh', (bh, ok))
    /\ (ok = true -> exists t, good a cell t).
Proof.
  intros IH Ha La ibh.
  destruct (left_total fuel n a cell ibh cur IH Ha La) as (ibh1 & lbh & okl & El & Hl).
  rewrite El. scbn. destruct okl; scbn; [|by exists ibh1, 0, false].
  destruct (right_total fuel n a cell ibh1 cur IH Ha La) as (ibh2 & rbh & okr & Er & Hr).
  rewrite Er. scbn. destruct okr; scbn; [|by exists ibh2, 0, false].
  destruct (lbh =? rbh); scbn; [|by exists ibh2, 0, false].
  eexists _, _, true. split; [done|]. intros _.
  destruct (Hl eq_refl) as (tl & Hrl & Hreprl & Hdl & Hordl).
  destruct (Hr eq_refl) as (tr & Hrr & Hreprr & Hdr & Hordr).
  exists (Node a (isBlack cell) tl (Val cell) tr). split_and!; try done.
  - simpl. split_and!; try done. by rewrite Hrl, Hrr, node_eta.
  - simpl. split_and!; try done.
    destruct tl as [|b cb bl bv br]; [by left|right].
    intros E. rewrite Hrl, Hrr in E. simpl in Hrl.
    destruct (Hordl b (eq_sym Hrl)) as (xc & Hx & Hgt).
    destruct (Hordr b) as (xc' & Hx' & Hlt); [by rewrite <- E|].
    rewrite Hx in Hx'. injection Hx' as <-. lia.
Qed.

Lemma isValid_total fuel : forall n, (length h + 2 <= fuel + n)%nat -> isValid_ok fuel n.
Proof.
  induction fuel as [|fuel IH]; intros n Hfuel a cell ibh cur Ha La Hcol.
  { pose proof (level_bound h a n La). lia. }
  assert (IH' : isValid_ok fuel (S n)) by (apply IH; lia).
  cbn [isValid]. rewrite (load_Some _ _ _ Ha). scbn.
  assert (Hbody : forall cur',
    exists ibh' bh ok,
      (if is_nil (left cell) && is_nil (right cell) then
         if ibh =? 0 then Ok (cur', (cur', true))
         else if negb (ibh =? cur') then Ok (ibh, (0, false))
              else
                let* '(initialBlackHeight, (leftBlackHeight, ok)) :=
                  leftSubtreeIsValid (isValid fuel h (Some f)) h (Some a) ibh cur' (Some f) in
                if negb ok then Ok (initialBlackHeight, (0, false))
                else
                  let* '(initialBlackHeight, (rightBlackHeight, ok)) :=
                    rightSubtreeIsValid (isValid fuel h (Some f)) h (Some a)
                      initialBlackHeight cur' (Some f) in
                  if negb ok || negb (leftBlackHeight =? rightBlackHeight)
                  then Ok (initialBlackHeight, (0, false))
                  else Ok (initialBlackHeight, (Z.max leftBlackHeight cur', true))
       else
         let* '(initialBlackHeight, (leftBlackHeight, ok)) :=
           leftSubtreeIsValid (isValid fuel h (Some f)) h (Some a) ibh cur' (Some f) in
         if negb ok then Ok (initialBlackHeight, (0, false))
         else
           let* '(initialBlackHeight, (rightBlackHeight, ok)) :=
             rightSubtreeIsValid (isValid fuel h (Some f)) h (Some a)
               initialBlackHeight cur' (Some f) in
           if negb ok || negb (leftBlackHeight =? rightBlackHeight)
           then Ok (initialBlackHeight, (0, false))
           else Ok (initialBlackHeight, (Z.max leftBlackHeight cur', true)))
      = Ok (ibh', (bh, ok))
      /\ (ok = true -> exists t, good a cell t)).
  { intros cur'.
    destruct (is_nil (left cell) && is_nil (right cell)) eqn:Eleaf;
      [|apply (rest_total fuel n a cell cur' IH' Ha La ibh)].
    destruct (ibh =? 0).
    - exists cur', cur', true. split; [done|]. intros _.
      apply andb_true_iff in Eleaf as [E1 E2].
      exists (Node a (isBlack cell) Leaf (Val cell) Leaf). split_and!; try done.
      + simpl. split_and!; try done.
        destruct cell as [v [l|] [r|] p c]; try done.
      + simpl. split_and!; try done. by left.
    - destruct (ibh =? cur'); scbn; [|by exists ibh, 0, false].
      apply (rest_total fuel n a cell cur' IH' Ha La ibh). }
  destruct (isBlack cell) eqn:Eb; scbn.
  - apply Hbody.
  - destruct Hcol as [?|Hpar]; [done|].
    destruct (Hclosed a cell Ha) as (_ & _ & Hp).
    destruct (closed_load (parent cell) Hp Hpar) as (p & pc & Ep & Hpc).
    rewrite Ep, (load_Some _ _ _ Hpc). scbn.
    destruct (isBlack pc); scbn; [apply Hbody|by exists ibh, 0, false].
Qed.

End Total.

Section IsValidTotal.

Context {T : Type}.

Lemma IsValid_loop_total (h : heap T) (t : tree) fuel : forall l1 a v l2 cnt,
  Rep h t -> inorder t = l1 ++ (a, v) :: l2 -> (length l2 < fuel)%nat ->
  exists z, IsValid_loop fuel h (Some a) cnt = Ok z.
Proof.
  induction fuel as [|fuel IH]; intros l1 a v l2 cnt HR E Hfuel; [lia|].
  cbn [IsValid_loop]. rewrite (Next_inorder _ _ _ _ _ _ HR E). scbn.
  destruct l2 as [|[b bv] l2]; simpl; [by eauto|].
  apply (IH (l1 ++ [(a, v)]) b bv l2); [done|by rewrite <- app_assoc|simpl in Hfuel; lia].
Qed.

Lemma IsValid_total (rbt : RBTree T) (h : heap T) :
  closed rbt h -> exists b, IsValid rbt h = Ok b.
Proof.
  intros (Hroot & Hmin & Hmax & Hclosed). unfold IsValid.
  destruct (cmp rbt) as [f|]; [|by eauto].
  destruct (root rbt) as [r|] eqn:Er; [|by eauto]. cbn [is_nil].
  destruct (closed_load h (Some r) Hroot ltac:(done)) as (? & cell & [= <-] & Hcell).
  rewrite (load_Some _ _ _ Hcell). scbn.
  destruct (parent cell) as [p|] eqn:Ep; [by eauto|]. cbn [is_nil negb orb].
  destruct (isBlack cell) eqn:Eb; [|by eauto]. cbn [negb].
  assert (L0 : level h r 0) by (by eapply level_root).
  destruct (isValid_total f h Hclosed (fuel_of h) 0 ltac:(unfold fuel_of; lia)
              r cell 0 0 Hcell L0 ltac:(by left)) as (ibh' & bh & ok & E & Hok).
  rewrite E. scbn. destruct ok; scbn; [|by eauto].
  destruct (Hok eq_refl) as (t & Hrt & Hr & Hd). rewrite Ep in Hr.
  assert (Hnd : NoDup (addrs t)).
  { apply (Repr_NoDup h t None 0%nat Hr); [|done]. intros a Ha.
    rewrite Hrt in Ha. by injection Ha as <-. }
  assert (HR : Rep h t) by done.
  assert (Hne : t <> Leaf) by (by destruct t).
  pose proof (Rep_fuel h Top t HR) as Hfuel. pose proof (height_size t) as Hhs.
  rewrite <- Hrt.
  rewrite (leftmost_spec h (fuel_of h) None t Hr Hne) by (simpl in Hfuel; lia). scbn.
  destruct (ptr_eqb (Min rbt) (first_addr (inorder t))) eqn:Emin; scbn; [|by eauto].
  rewrite (rightmost_spec h (fuel_of h) None t Hr Hne) by (simpl in Hfuel; lia). scbn.
  destruct (ptr_eqb (Max rbt) (last_addr (inorder t))) eqn:Emax; scbn; [|by eauto].
  apply ptr_eqb_eq in Emin. rewrite Emin.
  destruct (inorder t) as [|[a v] l2] eqn:Ein; [by apply inorder_nil in Ein|].
  pose proof (size_inorder t) as Hsz. rewrite Ein in Hsz. simpl in Hsz.
  destruct (IsValid_loop_total h t (fuel_of h) [] a v l2 0 HR Ein) as (z & Ez).
  { simpl in Hfuel. lia. }
  change (first_addr ((a, v) :: l2)) with (Some a). rewrite Ez. scbn. eauto.
Qed.

End IsValidTotal.

(** C3.  [IsValid] returns false when the comparator is nil.  With a
    comparator: on a handle without root it returns true exactly when [Min]
    and [Max] are nil and [Count] is zero; on a handle with a root it
    returns false if the root has a parent or is red.  And whenever every
    pointer of the handle and of the cells is nil or the address of a cell,
    it returns a boolean: it does not panic, and its loops end. *)
Theorem C3_IsValid_early_exits_and_totality
    {T : Type} (rbt : RBTree T) (h : heap T) :
  (cmp rbt = None -> IsValid rbt h = Ok false)
  /\ (cmp rbt <> None -> root rbt = None ->
      exists b, IsValid rbt h = Ok b
                /\ (b = true <-> Min rbt = None /\ Max rbt = None /\ Count rbt = 0))
  /\ (forall r n, cmp rbt <> None -> root rbt = Some r -> h !! r = Some n ->
      parent n <> None \/ isBlack n = false -> IsValid rbt h = Ok false)
  /\ (closed rbt h -> exists b, IsValid rbt h = Ok b).
Proof.
  split_and!.
  - intros Hcmp. unfold IsValid. by rewrite Hcmp.
  - intros Hcmp Hroot. unfold IsValid. rewrite Hroot.
    destruct (cmp rbt); [|done]. cbn [is_nil]. eexists. split; [done|].
    rewrite !andb_true_iff, Z.eqb_eq.
    destruct (Min rbt), (Max rbt); simpl; intuition congruence.
  - intros r n Hcmp Hroot Hn Hbad. unfold IsValid. rewrite Hroot.
    destruct (cmp rbt); [|done]. cbn [is_nil]. rewrite (load_Some _ _ _ Hn). scbn.
    destruct Hbad as [Hp|Hb].
    + by destruct (parent n).
    + rewrite Hb. by rewrite orb_true_r.
  - apply IsValid_total.
Qed.

(** A corrupted state over [demo_heap]: the handle claims nine nodes and a
    wrong [Min]. *)
Definition corrupt_rbt : RBTree Z :=
  mkTree (Some 0%nat) (Some Compare) (Some 1%nat) (Some 6%nat) 9.

Lemma C3_IsValid_early_exits_and_totality_witness :
  IsValid (mkTree (Some 0%nat) None (Some 3%nat) (Some 6%nat) 7) demo_heap = Ok false
  /\ (exists b, IsValid (mkTree None (Some Compare) None (Some 6%nat) 0) demo_heap = Ok b
                /\ (b = true <-> Some 6%nat = None /\ (None : ptr) = None /\ 0 = 0))
  /\ IsValid (mkTree (Some 1%nat) (Some Compare) (Some 3%nat) (Some 4%nat) 3) demo_heap
     = Ok false
  /\ exists b, IsValid corrupt_rbt demo_heap = Ok b.
Proof.
  split_and!.
  - apply (proj1 (C3_IsValid_early_exits_and_totality
                    (mkTree (Some 0%nat) None (Some 3%nat) (Some 6%nat) 7) demo_heap)).
    reflexivity.
  - destruct (proj1 (proj2 (C3_IsValid_early_exits_and_totality
                    (mkTree None (Some Compare) None (Some 6%nat) 0) demo_heap)))
      as (b & E & Hb); [done|reflexivity|].
    exists b. split; [exact E|]. simpl in Hb. tauto.
  - apply (proj1 (proj2 (proj2 (C3_IsValid_early_exits_and_totality
                    (mkTree (Some 1%nat) (Some Compare) (Some 3%nat) (Some 4%nat) 3)
                    demo_heap))) 1%nat (mkNode 50 (Some 3%nat) (Some 4%nat) (Some 0%nat) true)).
    + done.
    + reflexivity.
    + reflexivity.
    + left. done.
  - apply (proj2 (proj2 (proj2 (C3_IsValid_early_exits_and_totality corrupt_rbt demo_heap)))).
    unfold closed, corrupt_rbt, closed_heap. simpl. split_and!; try lia.
    intros a c Hc.
    do 7 (destruct a as [|a]; [simpl in Hc; injection Hc as <-; simpl; split_and!; (done || lia)|]).
    done.
Defined.

(** * How the operations compose *)

Section Ops.

Context {T : Type} (f : T -> T -> Z) (Hf : Comparator f) (zero : T).

Lemma Find_abs (rbt : RBTree T) (h : heap T) (t : tree) val :
  Valid f rbt h t -> Find rbt h val = Ok (find_abs f val t).
Proof.
  intros [HR Hroot Hcmp _ _ _ _ _ _]. unfold Find. rewrite Hroot, Hcmp.
  destruct t as [|a c l v r]; [done|]. cbn [rootptr is_nil].
  pose proof (Rep_fuel h Top _ HR) as Hfuel.
  pose proof (height_size (Node a c l v r)) as Hhs.
  apply (find_spec f h val (fuel_of h) None (Node a c l v r));
    [by destruct HR|done|simpl in *; lia].
Qed.

(** A value that compares equal to [val] is not in a sorted list from
    which the one equal to [val] was taken out. *)
Lemma removed_absent (B A : list (addr * T)) d v val :
  StronglySorted (lt_val f) (B ++ (d, v) :: A) -> f val v = 0 ->
  forall y, y ∈ map snd (B ++ A) -> f val y <> 0.
Proof.
  intros Hs E y Hy Ey. destruct (Sorted_split f _ _ _ _ Hs) as [HB HA].
  pose proof (cmp_eq_sym f Hf _ _ E) as E'. pose proof (cmp_eq_sym f Hf _ _ Ey) as Ey'.
  apply list_elem_of_fmap in Hy as ([b y'] & -> & Hin). simpl in *.
  apply elem_of_app in Hin as [Hin|Hin].
  - pose proof (HB _ _ Hin) as Hlt. apply (cmp_flip f Hf) in Hlt.
    pose proof (cmp_trans f Hf v val y' ltac:(lia) ltac:(lia)). lia.
  - pose proof (HA _ _ Hin) as Hlt. apply (cmp_flip f Hf) in Hlt.
    pose proof (cmp_trans f Hf y' val v ltac:(lia) ltac:(lia)). lia.
Qed.

Lemma snd_absent (t : tree) val :
  (forall y, y ∈ map snd (inorder t) -> f val y <> 0) ->
  forall a x, (a, x) ∈ inorder t -> f val x <> 0.
Proof.
  intros Habs a x Hin. apply Habs. change x with (snd (a, x)).
  by apply list_elem_of_fmap_2.
Qed.

End Ops.

(** X1.  [Find] on a valid tree returns the node that holds a value equal
    to [val] together with true when there is one, and nil with false when
    there is none; on a handle without root it answers nil and false
    whatever the heap holds. *)
Theorem X1_find_present_absent
    {T : Type} (f : T -> T -> Z) (rbt : RBTree T) (h : heap T) (t : tree) (val : T) :
  (root rbt = None -> Find rbt h val = Ok (None, false))
  /\ (Comparator f -> Valid f rbt h t ->
      (forall a x, (a, x) ∈ inorder t -> f val x = 0 ->
         Find rbt h val = Ok (Some a, true))
      /\ ((forall a x, (a, x) ∈ inorder t -> f val x <> 0) ->
         Find rbt h val = Ok (None, false))).
Proof.
  split.
  - intros Hroot. unfold Find. by rewrite Hroot.
  - intros Hf HV. rewrite (Find_abs f rbt h t val HV). split.
    + intros a x Hin E. f_equal.
      apply (find_abs_at f Hf t val a x); [by destruct HV|done..].
    + intros Habs. f_equal. by apply find_abs_none.
Qed.

Lemma X1_find_present_absent_witness :
  Find (New (Some Compare)) demo_heap 60 = Ok (None, false)
  /\ Find demo_rbt demo_heap 60 = Ok (Some 4%nat, true)
  /\ Find demo_rbt demo_heap 65 = Ok (None, false).
Proof.
  split_and!.
  - apply (proj1 (X1_find_present_absent Compare (New (Some Compare)) demo_heap Leaf 60)).
    reflexivity.
  - apply (proj1 (proj2 (X1_find_present_absent Compare demo_rbt demo_heap demo_tree 60)
                    Comparator_Compare demo_valid) 4%nat 60).
    + simpl. set_solver.
    + reflexivity.
  - apply (proj2 (proj2 (X1_find_present_absent Compare demo_rbt demo_heap demo_tree 65)
                    Comparator_Compare demo_valid)).
    intros a x Hin. simpl in Hin.
    repeat (apply elem_of_cons in Hin as [[= -> ->]|Hin]; [by vm_compute|]).
    by apply elem_of_nil in Hin.
Defined.

(** X2.  [Insert] of a value that a valid tree does not hold returns a
    freshly allocated node and true.  The tree that results is valid,
    [Count] has grown by one, and its in-order traversal is the old one,
    with every node at its old address and with its old value, and the new
    node in between. *)
Theorem X2_insert_new_value
    {T : Type} (f : T -> T -> Z) (rbt : RBTree T) (h : heap T) (t : tree) (val : T) :
  Comparator f -> Valid f rbt h t -> Z.of_nat (size t) + 1 < 2 ^ 63 ->
  (forall a x, (a, x) ∈ inorder t -> f val x <> 0) ->
  exists rbt' h' t' l1 l2,
    Insert rbt h val = Ok (Some (length h), true, rbt', h')
    /\ Valid f rbt' h' t'
    /\ inorder t = l1 ++ l2 /\ inorder t' = l1 ++ (length h, val) :: l2
    /\ Count rbt' = Count rbt + 1 /\ length h' = S (length h).
Proof.
  intros Hf HV Hfits Habs.
  destruct (Insert_spec f Hf rbt h t val HV Hfits) as ([[[p ok] rbt'] h'] & E & Hpost).
  unfold Insert_post in Hpost. rewrite (find_abs_none f Hf t val Habs) in Hpost.
  destruct Hpost as (-> & -> & Hlen & t' & l1 & l2 & HV' & E1 & E2).
  exists rbt', h', t', l1, l2. split_and!; try done.
  rewrite (v_count _ _ _ _ HV'), (v_count _ _ _ _ HV).
  rewrite <- (size_inorder t'), <- (size_inorder t), E1, E2, !length_app. simpl. lia.
Qed.

Lemma X2_insert_new_value_witness :
  exists rbt' h' t' l1 l2,
    Insert demo_rbt demo_heap 65 = Ok (Some (length demo_heap), true, rbt', h')
    /\ Valid Compare rbt' h' t'
    /\ inorder demo_tree = l1 ++ l2 /\ inorder t' = l1 ++ (length demo_heap, 65) :: l2
    /\ Count rbt' = Count demo_rbt + 1 /\ length h' = S (length demo_heap).
Proof.
  apply (X2_insert_new_value Compare demo_rbt demo_heap demo_tree 65).
  - exact Comparator_Compare.
  - exact demo_valid.
  - simpl. lia.
  - intros a x Hin. simpl in Hin.
    repeat (apply elem_of_cons in Hin as [[= -> ->]|Hin]; [by vm_compute|]).
    by apply elem_of_nil in Hin.
Defined.

(** X3.  After [Insert val] on a valid tree, [Find val] returns, with
    true, the very node that [Insert] returned, whether the value was
    inserted or was there already. *)
Theorem X3_find_after_insert
    {T : Type} (f : T -> T -> Z) (rbt : RBTree T) (h : heap T) (t : tree) (val : T) :
  Comparator f -> Valid f rbt h t -> Z.of_nat (size t) + 1 < 2 ^ 63 ->
  exists p ok rbt' h',
    Insert rbt h val = Ok (p, ok, rbt', h') /\ Find rbt' h' val = Ok (p, true).
Proof.
  intros Hf HV Hfits.
  destruct (Insert_spec f Hf rbt h t val HV Hfits) as ([[[p ok] rbt'] h'] & E & Hpost).
  exists p, ok, rbt', h'. split; [done|]. unfold Insert_post in Hpost.
  destruct (find_abs f val t) as [[a|] b] eqn:Hfind.
  - destruct Hpost as (-> & -> & -> & ->). rewrite (Find_abs f rbt h t val HV), Hfind.
    destruct (find_abs_found f Hf val t _ _ Hfind) as [[? _]|(-> & _)]; done.
  - destruct Hpost as (-> & -> & Hlen & t' & l1 & l2 & HV' & E1 & E2).
    rewrite (Find_abs f rbt' h' t' val HV'). f_equal.
    apply (find_abs_at f Hf t' val (length h) val); [by destruct HV'| |by apply cmp_refl].
    rewrite E2. apply elem_of_app. right. left.
Qed.

Lemma X3_find_after_insert_witness :
  exists p ok rbt' h',
    Insert demo_rbt demo_heap 65 = Ok (p, ok, rbt', h') /\ Find rbt' h' 65 = Ok (p, true).
Proof.
  apply (X3_find_after_insert Compare demo_rbt demo_heap demo_tree 65).
  - exact Comparator_Compare.
  - exact demo_valid.
  - simpl. lia.
Defined.

(** X4.  [Delete] of a value held by a valid tree returns the stored value
    and true.  The tree that results is valid, its values in order are the
    old ones without the deleted one, [Count] has dropped by one, and no
    cell was allocated. *)
Theorem X4_delete_present_value
    {T : Type} (f : T -> T -> Z) (zero : T) (rbt : RBTree T) (h : heap T)
    (t : tree) (val : T) (a : addr) (x : T) :
  Comparator f -> Valid f rbt h t -> (a, x) ∈ inorder t -> f val x = 0 ->
  exists rbt' h' t' B A,
    Delete zero rbt h val = Ok (x, true, rbt', h')
    /\ Valid f rbt' h' t'
    /\ inorder t = B ++ (a, x) :: A
    /\ map snd (inorder t') = map snd (B ++ A)
    /\ Count rbt' = Count rbt - 1 /\ length h' = length h.
Proof.
  intros Hf HV Hin E.
  destruct (Delete_spec f Hf zero rbt h t val HV) as ([[[del ok] rbt'] h'] & Hrun & Hpost).
  unfold Delete_post in Hpost.
  rewrite (find_abs_at f Hf t val a x) in Hpost; [|by destruct HV|done..].
  destruct Hpost as (-> & Hlen & B & v' & A & t' & Hin' & E' & -> & HV' & Hsnd).
  assert (Heq : (a, x) = (a, v')).
  { apply (equal_unique f Hf t val); try done; [by destruct HV|].
    rewrite Hin'. apply elem_of_app. right. left. }
  injection Heq as <-. exists rbt', h', t', B, A. split_and!; try done.
  rewrite (v_count _ _ _ _ HV'), (v_count _ _ _ _ HV).
  rewrite <- (size_inorder t'), <- (size_inorder t), Hin'.
  rewrite <- (length_map snd (inorder t')), Hsnd, length_map, !length_app. simpl. lia.
Qed.

Lemma X4_delete_present_value_witness :
  exists rbt' h' t' B A,
    Delete 0 demo_rbt demo_heap 50 = Ok (50, true, rbt', h')
    /\ Valid Compare rbt' h' t'
    /\ inorder demo_tree = B ++ (1%nat, 50) :: A
    /\ map snd (inorder t') = map snd (B ++ A)
    /\ Count rbt' = Count demo_rbt - 1 /\ length h' = length demo_heap.
Proof.
  apply (X4_delete_present_value Compare 0 demo_rbt demo_heap demo_tree 50 1%nat 50).
  - exact Comparator_Compare.
  - exact demo_valid.
  - simpl. set_solver.
  - reflexivity.
Defined.

Section Gone.

Context {T : Type} (f : T -> T -> Z) (Hf : Comparator f) (zero : T).

Lemma Delete_gone (rbt : RBTree T) (h : heap T) (t : tree) val a x :
  Valid f rbt h t -> (a, x) ∈ inorder t -> f val x = 0 ->
  exists rbt' h' t',
    Delete zero rbt h val = Ok (x, true, rbt', h')
    /\ Valid f rbt' h' t'
    /\ (forall b y, (b, y) ∈ inorder t' -> f val y <> 0).
Proof.
  intros HV Hin E.
  destruct (Delete_spec f Hf zero rbt h t val HV) as ([[[del ok] rbt'] h'] & Hrun & Hpost).
  unfold Delete_post in Hpost.
  rewrite (find_abs_at f Hf t val a x) in Hpost; [|by destruct HV|done..].
  destruct Hpost as (-> & Hlen & B & v' & A & t' & Hin' & E' & -> & HV' & Hsnd).
  assert (Heq : (a, x) = (a, v')).
  { apply (equal_unique f Hf t val); try done; [by destruct HV|].
    rewrite Hin'. apply elem_of_app. right. left. }
  injection Heq as <-. exists rbt', h', t'. split_and!; try done.
  apply snd_absent. rewrite Hsnd.
  apply (removed_absent f Hf B A a x val); [|done].
  rewrite <- Hin'. by destruct HV.
Qed.

End Gone.

(** X5.  After [Delete val] has removed a value from a valid tree, the
    value is gone: [Find val] answers nil and false, and a second
    [Delete val] returns the zero value and false and changes nothing. *)
Theorem X5_deleted_value_is_gone
    {T : Type} (f : T -> T -> Z) (zero : T) (rbt : RBTree T) (h : heap T)
    (t : tree) (val : T) (a : addr) (x : T) :
  Comparator f -> Valid f rbt h t -> (a, x) ∈ inorder t -> f val x = 0 ->
  exists rbt' h',
    Delete zero rbt h val = Ok (x, true, rbt', h')
    /\ Find rbt' h' val = Ok (None, false)
    /\ Delete zero rbt' h' val = Ok (zero, false, rbt', h').
Proof.
  intros Hf HV Hin E.
  destruct (Delete_gone f Hf zero rbt h t val a x HV Hin E)
    as (rbt' & h' & t' & Hrun & HV' & Habs).
  exists rbt', h'. split_and!; [done| |].
  - rewrite (Find_abs f rbt' h' t' val HV'). f_equal. by apply find_abs_none.
  - destruct (Delete_spec f Hf zero rbt' h' t' val HV') as ([[[del ok] r2] h2] & E2 & Hpost).
    unfold Delete_post in Hpost. rewrite (find_abs_none f Hf t' val Habs) in Hpost.
    destruct Hpost as (-> & -> & -> & ->). exact E2.
Qed.

Lemma X5_deleted_value_is_gone_witness :
  exists rbt' h',
    Delete 0 demo_rbt demo_heap 70 = Ok (70, true, rbt', h')
    /\ Find rbt' h' 70 = Ok (None, false)
    /\ Delete 0 rbt' h' 70 = Ok (0, false, rbt', h').
Proof.
  apply (X5_deleted_value_is_gone Compare 0 demo_rbt demo_heap demo_tree 70 0%nat 70).
  - exact Comparator_Compare.
  - exact demo_valid.
  - simpl. set_solver.
  - reflexivity.
Defined.

Section Fresh.

Context {T : Type} (f : T -> T -> Z) (Hf : Comparator f).

Lemma Insert_fresh (rbt : RBTree T) (h : heap T) (t : tree) val :
  Valid f rbt h t -> Z.of_nat (size t) + 1 < 2 ^ 63 ->
  (forall a x, (a, x) ∈ inorder t -> f val x <> 0) ->
  exists rbt' h' t' l1 l2,
    Insert rbt h val = Ok (Some (length h), true, rbt', h')
    /\ Valid f rbt' h' t'
    /\ inorder t = l1 ++ l2 /\ inorder t' = l1 ++ (length h, val) :: l2
    /\ length h' = S (length h).
Proof.
  intros HV Hfits Habs.
  destruct (Insert_spec f Hf rbt h t val HV Hfits) as ([[[p ok] rbt'] h'] & E & Hpost).
  unfold Insert_post in Hpost. rewrite (find_abs_none f Hf t val Habs) in Hpost.
  destruct Hpost as (-> & -> & Hlen & t' & l1 & l2 & HV' & E1 & E2).
  by exists rbt', h', t', l1, l2.
Qed.

End Fresh.

(** X6.  Inserting a value that a valid tree does not hold and deleting it
    again gives back [val], a valid tree with the nodes and values of the
    original in the same order, and the old [Count]. *)
Theorem X6_insert_then_delete
    {T : Type} (f : T -> T -> Z) (zero : T) (rbt : RBTree T) (h : heap T)
    (t : tree) (val : T) :
  Comparator f -> Valid f rbt h t -> Z.of_nat (size t) + 1 < 2 ^ 63 ->
  (forall a x, (a, x) ∈ inorder t -> f val x <> 0) ->
  exists p rbt1 h1 rbt2 h2 t2,
    Insert rbt h val = Ok (p, true, rbt1, h1)
    /\ Delete zero rbt1 h1 val = Ok (val, true, rbt2, h2)
    /\ Valid f rbt2 h2 t2
    /\ map snd (inorder t2) = map snd (inorder t)
    /\ Count rbt2 = Count rbt.
Proof.
  intros Hf HV Hfits Habs.
  destruct (Insert_fresh f Hf rbt h t val HV Hfits Habs)
    as (rbt1 & h1 & t1 & l1 & l2 & E1 & HV1 & Ein & Ein1 & Hc1).
  assert (Hin1 : (length h, val) ∈ inorder t1).
  { rewrite Ein1. apply elem_of_app. right. left. }
  destruct (Delete_spec f Hf zero rbt1 h1 t1 val HV1) as ([[[del ok] rbt2] h2] & E2 & Hpost).
  unfold Delete_post in Hpost.
  rewrite (find_abs_at f Hf t1 val (length h) val) in Hpost;
    [|by destruct HV1|done|by apply cmp_refl].
  destruct Hpost as (-> & _ & B & v' & A & t2 & Hin2 & _ & -> & HV2 & Hsnd).
  rewrite Ein1 in Hin2.
  destruct (split_unique _ _ _ _ _ _ _ Hin2) as (<- & <- & <-).
  { rewrite <- Ein1. apply NoDup_inorder. by destruct HV1 as [[_ ?] _ _ _ _ _ _ _ _]. }
  exists (Some (length h)), rbt1, h1, rbt2, h2, t2. split_and!; try done.
  - by rewrite Hsnd, Ein.
  - rewrite (v_count _ _ _ _ HV2), (v_count _ _ _ _ HV).
    rewrite <- (size_inorder t2), <- (size_inorder t).
    by rewrite <- (length_map snd (inorder t2)), Hsnd, length_map, Ein.
Qed.

Lemma X6_insert_then_delete_witness :
  exists p rbt1 h1 rbt2 h2 t2,
    Insert demo_rbt demo_heap 65 = Ok (p, true, rbt1, h1)
    /\ Delete 0 rbt1 h1 65 = Ok (65, true, rbt2, h2)
    /\ Valid Compare rbt2 h2 t2
    /\ map snd (inorder t2) = map snd (inorder demo_tree)
    /\ Count rbt2 = Count demo_rbt.
Proof.
  apply (X6_insert_then_delete Compare 0 demo_rbt demo_heap demo_tree 65).
  - exact Comparator_Compare.
  - exact demo_valid.
  - simpl. lia.
  - intros a x Hin. simpl in Hin.
    repeat (apply elem_of_cons in Hin as [[= -> ->]|Hin]; [by vm_compute|]).
    by apply elem_of_nil in Hin.
Defined.

(** * Walking the tree with [Next] and [Prev] *)

Section Walk.

Context {T : Type}.

(** The loop of the example program,
    [for rbNode, ok := rbTree.Min, rbTree.Min != nil; ok; rbNode, ok = rbNode.Next()],
    whose body prints [rbNode.Val] followed by a space; [show] is the
    formatting of a value and [out] the text printed so far. *)
Fixpoint walk_Next (fuel : nat) (show : T -> string) (h : heap T)
    (rbNode : ptr) (ok : bool) (out : string) : result string :=
  match fuel with
  | O => OutOfFuel
  | S fuel =>
      if ok then
        let* n := load h rbNode in
        let out := (out ++ show (Val n) ++ " ")%string in
        let* '(rbNode, ok) := Next h rbNode in
        walk_Next fuel show h rbNode ok out
      else Ok out
  end.

Definition print_min_to_max (show : T -> string) (rbt : RBTree T) (h : heap T)
  : result string :=
  walk_Next (fuel_of h) show h (Min rbt) (negb (is_nil (Min rbt))) EmptyString.

(** The loop of the ordered-map example, from [Max] down with [Prev]. *)
Fixpoint walk_Prev (fuel : nat) (show : T -> string) (h : heap T)
    (rbNode : ptr) (ok : bool) (out : string) : result string :=
  match fuel with
  | O => OutOfFuel
  | S fuel =>
      if ok then
        let* n := load h rbNode in
        let out := (out ++ show (Val n) ++ " ")%string in
        let* '(rbNode, ok) := Prev h rbNode in
        walk_Prev fuel show h rbNode ok out
      else Ok out
  end.

Definition print_max_to_min (show : T -> string) (rbt : RBTree T) (h : heap T)
  : result string :=
  walk_Prev (fuel_of h) show h (Max rbt) (negb (is_nil (Max rbt))) EmptyString.

(** The values of a list, each formatted and followed by a space. *)
Fixpoint spaced (show : T -> string) (vs : list T) : string :=
  match vs with
  | [] => EmptyString
  | v :: vs => (show v ++ " " ++ spaced show vs)%string
  end.

Lemma string_app_cons x (a b : string) : (String x a ++ b = String x (a ++ b))%string.
Proof. reflexivity. Qed.

Lemma string_app_assoc (a b c : string) : ((a ++ b) ++ c = a ++ b ++ c)%string.
Proof. induction a as [|x a IH]; [done|]. by rewrite !string_app_cons, IH. Qed.

Lemma string_app_nil_r (a : string) : (a ++ "" = a)%string.
Proof. induction a as [|x a IH]; [done|]. by rewrite string_app_cons, IH. Qed.

Lemma spaced_app show (xs ys : list T) :
  spaced show (xs ++ ys) = (spaced show xs ++ spaced show ys)%string.
Proof.
  induction xs as [|x xs IH]; simpl; [done|].
  by rewrite IH, !string_app_assoc.
Qed.

Lemma walk_Next_spec show (h : heap T) (t : tree) fuel : forall l1 a v l2 out,
  Rep h t -> inorder t = l1 ++ (a, v) :: l2 -> (S (length l2) < fuel)%nat ->
  walk_Next fuel show h (Some a) true out
  = Ok (out ++ spaced show (v :: map snd l2))%string.
Proof.
  induction fuel as [|fuel IH]; intros l1 a v l2 out HR E Hfuel; [lia|].
  cbn [walk_Next].
  destruct (Rep_inorder_lookup h t a v HR) as (n & Hn & Hv).
  { rewrite E. apply elem_of_app. right. left. }
  rewrite (load_Some _ _ _ Hn). scbn. rewrite Hv.
  rewrite (Next_inorder _ _ _ _ _ _ HR E). scbn.
  destruct l2 as [|[b bv] l2].
  - simpl in *. destruct fuel; [lia|]. reflexivity.
  - change (first_addr ((b, bv) :: l2)) with (Some b). cbn [is_nil negb].
    rewrite (IH (l1 ++ [(a, v)]) b bv l2);
      [|done|by rewrite <- app_assoc|simpl in Hfuel; lia].
    f_equal. simpl. by rewrite !string_app_assoc.
Qed.

Lemma walk_Prev_spec show (h : heap T) (t : tree) fuel : forall l1 a v l2 out,
  Rep h t -> inorder t = l1 ++ (a, v) :: l2 -> (S (length l1) < fuel)%nat ->
  walk_Prev fuel show h (Some a) true out
  = Ok (out ++ spaced show (v :: rev (map snd l1)))%string.
Proof.
  induction fuel as [|fuel IH]; intros l1 a v l2 out HR E Hfuel; [lia|].
  cbn [walk_Prev].
  destruct (Rep_inorder_lookup h t a v HR) as (n & Hn & Hv).
  { rewrite E. apply elem_of_app. right. left. }
  rewrite (load_Some _ _ _ Hn). scbn. rewrite Hv.
  rewrite (Prev_inorder _ _ _ _ _ _ HR E). scbn.
  destruct (decide (l1 = [])) as [->|Hne].
  - simpl in *. destruct fuel; [lia|]. reflexivity.
  - destruct (last l1) as [[b bv]|] eqn:El; [|by apply last_None in El].
    apply last_Some in El as [l1' ->].
    unfold last_addr. rewrite last_snoc. cbn [fmap option_fmap option_map fst is_nil negb].
    rewrite (IH l1' b bv ((a, v) :: l2));
      [|done|by rewrite E, <- app_assoc|rewrite length_app in Hfuel; simpl in Hfuel; lia].
    f_equal. rewrite map_app, rev_app_distr. simpl. by rewrite !string_app_assoc.
Qed.

End Walk.

(** X7.  On a valid tree, the loop from [Min] with [Next] prints every
    value once, in increasing order, and the loop from [Max] with [Prev]
    prints them in the reverse order; the number of values printed is
    [Count]. *)
Theorem X7_walks_print_in_order
    {T : Type} (f : T -> T -> Z) (show : T -> string) (rbt : RBTree T)
    (h : heap T) (t : tree) :
  Valid f rbt h t ->
  print_min_to_max show rbt h = Ok (spaced show (map snd (inorder t)))
  /\ print_max_to_min show rbt h = Ok (spaced show (rev (map snd (inorder t))))
  /\ StronglySorted (fun a b => f a b < 0) (map snd (inorder t))
  /\ Z.of_nat (length (map snd (inorder t))) = Count rbt.
Proof.
  intros [HR Hroot Hcmp Hrb Hso Hcount Hmin Hmax Hfits].
  pose proof (Rep_size h t HR) as Hsz. pose proof (size_inorder t) as Hlen.
  unfold print_min_to_max, print_max_to_min. rewrite Hmin, Hmax. split_and!.
  - destruct (inorder t) as [|[a v] l2] eqn:E.
    + unfold fuel_of. done.
    + change (first_addr ((a, v) :: l2)) with (Some a). cbn [is_nil negb].
      rewrite (walk_Next_spec show h t (fuel_of h) [] a v l2 EmptyString HR E); [done|].
      unfold fuel_of. simpl in Hlen. lia.
  - destruct (decide (inorder t = [])) as [E|Hne].
    + rewrite E. unfold fuel_of. done.
    + destruct (last (inorder t)) as [[a v]|] eqn:El; [|by apply last_None in El].
      apply last_Some in El as [l1 E]. rewrite E.
      unfold last_addr. rewrite last_snoc. cbn [fmap option_fmap option_map fst is_nil negb].
      rewrite (walk_Prev_spec show h t (fuel_of h) l1 a v [] EmptyString HR E).
      * f_equal. rewrite map_app, rev_app_distr. done.
      * unfold fuel_of. rewrite E, length_app in Hlen. simpl in Hlen. lia.
  - unfold Sorted_tree in Hso. clear -Hso.
    induction (inorder t) as [|[a v] l IH]; [constructor|].
    apply StronglySorted_cons in Hso as [Hall Hs]. simpl.
    apply StronglySorted_cons. split; [|by apply IH].
    apply Forall_forall. intros y Hy.
    apply list_elem_of_fmap in Hy as ([b y'] & -> & Hin).
    rewrite Forall_forall in Hall. exact (Hall _ Hin).
  - rewrite length_map, Hlen. done.
Qed.

Lemma X7_walks_print_in_order_witness :
  print_min_to_max show_int demo_rbt demo_heap
    = Ok (spaced show_int (map snd (inorder demo_tree)))
  /\ print_max_to_min show_int demo_rbt demo_heap
     = Ok (spaced show_int (rev (map snd (inorder demo_tree))))
  /\ StronglySorted (fun a b => Compare a b < 0) (map snd (inorder demo_tree))
  /\ Z.of_nat (length (map snd (inorder demo_tree))) = Count demo_rbt.
Proof.
  apply (X7_walks_print_in_order Compare show_int demo_rbt demo_heap demo_tree).
  exact demo_valid.
Defined.

(** X8.  In a valid tree [Next] and [Prev] undo each other: if [Next] at
    node [a] returns the node [s], then [Prev] at [s] returns [a], and if
    [Prev] at [a] returns [s], then [Next] at [s] returns [a]. *)
Theorem X8_next_prev_inverse
    {T : Type} (f : T -> T -> Z) (rbt : RBTree T) (h : heap T) (t : tree)
    (a : addr) (v : T) (s : addr) :
  Valid f rbt h t -> (a, v) ∈ inorder t ->
  (Next h (Some a) = Ok (Some s, true) -> Prev h (Some s) = Ok (Some a, true))
  /\ (Prev h (Some a) = Ok (Some s, true) -> Next h (Some s) = Ok (Some a, true)).
Proof.
  intros [HR _ _ _ _ _ _ _ _] Hin.
  apply list_elem_of_split in Hin as (l1 & l2 & E). split.
  - rewrite (Next_inorder _ _ _ _ _ _ HR E). intros [= Hs _].
    destruct l2 as [|[b bv] l2]; [done|]. injection Hs as ->.
    rewrite (Prev_inorder h t (l1 ++ [(a, v)]) s bv l2 HR) by (by rewrite <- app_assoc).
    unfold last_addr. by rewrite last_snoc.
  - rewrite (Prev_inorder _ _ _ _ _ _ HR E). intros [= Hs _]. unfold last_addr in Hs.
    destruct (last l1) as [[b bv]|] eqn:El; [|done]. injection Hs as ->.
    apply last_Some in El as [l1' ->].
    rewrite (Next_inorder h t l1' s bv ((a, v) :: l2) HR) by (by rewrite E, <- app_assoc).
    done.
Qed.

Lemma X8_next_prev_inverse_witness :
  Prev demo_heap (Some 0%nat) = Ok (Some 4%nat, true)
  /\ Next demo_heap (Some 1%nat) = Ok (Some 4%nat, true).
Proof.
  split.
  - refine (proj1 (X8_next_prev_inverse Compare demo_rbt demo_heap demo_tree 4%nat 60 0%nat
                     demo_valid _) _); [simpl; set_solver|reflexivity].
  - refine (proj2 (X8_next_prev_inverse Compare demo_rbt demo_heap demo_tree 4%nat 60 1%nat
                     demo_valid _) _); [simpl; set_solver|reflexivity].
Defined.

(** * The rotations *)

Section Rotate.

Context {T : Type}.

Local Abbreviation heap := (list (RBNode T)).
Local Abbreviation tree := (@tree T).

(** The cells of a tree are determined by the tree. *)
Lemma Repr_cells (h h' : heap) (t : tree) : forall p,
  Repr h p t -> Repr h' p t -> forall x, x ∈ addrs t -> h' !! x = h !! x.
Proof.
  induction t as [|a c l IHl v r IHr]; intros p H H' x Hx; [by apply elem_of_nil in Hx|].
  simpl in H, H', Hx. destruct H as (Ha & Hl & Hr). destruct H' as (Ha' & Hl' & Hr').
  apply elem_of_cons in Hx as [->|Hx]; [by rewrite Ha, Ha'|].
  apply elem_of_app in Hx as [Hx|Hx]; eauto.
Qed.

Lemma heap_eq (h h' : heap) (t : tree) :
  Rep h t -> Rep h' t -> length h' = length h ->
  (forall x, x ∉ addrs t -> h' !! x = h !! x) -> h' = h.
Proof.
  intros [Hr _] [Hr' _] Hlen Hfr. apply list_eq. intros i.
  destruct (decide (i ∈ addrs t)) as [Hi|Hi]; [by eapply Repr_cells|by apply Hfr].
Qed.

Lemma set_root_back (rbt : RBTree T) (p : ptr) :
  set_root (root rbt) (set_root p rbt) = rbt.
Proof. by destruct rbt. Qed.

Lemma rotate_same_addrs k a ca (l : tree) va b cb rl vb rr x :
  x ∈ addrs (plug k (Node b cb (Node a ca l va rl) vb rr))
  <-> x ∈ addrs (plug k (Node a ca l va (Node b cb rl vb rr))).
Proof. rewrite !addrs_plug. simpl. set_solver. Qed.

End Rotate.

(** X9.  [rotateLeft] at a node [a] with right child [b] makes [b] the
    root of the subtree, [a] its left child and the former left subtree of
    [b] the right subtree of [a]; every parent link and the root of the
    handle follow.  Values, colours and the in-order traversal stay as they
    were, as do [Min], [Max], [Count] and the cells outside the tree. *)
Theorem X9_rotateLeft_shape
    {T : Type} (rbt : RBTree T) (h : heap T) (k : ctx) (a : addr) (ca : bool)
    (l : tree) (va : T) (b : addr) (cb : bool) (rl : tree) (vb : T) (rr : tree) :
  let t := Node a ca l va (Node b cb rl vb rr) in
  let t' := Node b cb (Node a ca l va rl) vb rr in
  Rep h (plug k t) -> root rbt = rootptr (plug k t) ->
  exists h',
    rotateLeft rbt h (Some a) = Ok (set_root (rootptr (plug k t')) rbt, h')
    /\ Rep h' (plug k t')
    /\ inorder (plug k t') = inorder (plug k t)
    /\ length h' = length h
    /\ (forall x, x ∉ addrs (plug k t) -> h' !! x = h !! x).
Proof.
  intros t t' HR Hroot.
  destruct (rotateLeft_focus rbt h k a ca l va b cb rl vb rr HR Hroot)
    as (h' & E & HR' & Hlen & Hfr).
  exists h'. split_and!; try done.
  rewrite !inorder_plug. simpl.
  by repeat (rewrite <- app_assoc || rewrite <- app_comm_cons).
Qed.

Lemma X9_rotateLeft_shape_witness :
  exists h',
    rotateLeft demo_rbt demo_heap (Some 0%nat) = Ok (set_root (Some 2%nat) demo_rbt, h')
    /\ Rep h' (Node 2 true
                (Node 0 true
                   (Node 1 true (Node 3 false Leaf 20 Leaf) 50 (Node 4 false Leaf 60 Leaf))
                   70 (Node 5 false Leaf 75 Leaf))
                80 (Node 6 false Leaf 100 Leaf))
    /\ inorder (Node 2 true
                (Node 0 true
                   (Node 1 true (Node 3 false Leaf 20 Leaf) 50 (Node 4 false Leaf 60 Leaf))
                   70 (Node 5 false Leaf 75 Leaf))
                80 (Node 6 false Leaf 100 Leaf))
       = inorder demo_tree
    /\ length h' = length demo_heap
    /\ (forall x, x ∉ addrs demo_tree -> h' !! x = demo_heap !! x).
Proof.
  apply (X9_rotateLeft_shape demo_rbt demo_heap Top 0%nat true
           (Node 1 true (Node 3 false Leaf 20 Leaf) 50 (Node 4 false Leaf 60 Leaf)) 70
           2%nat true (Node 5 false Leaf 75 Leaf) 80 (Node 6 false Leaf 100 Leaf)).
  - exact (v_rep _ _ _ _ demo_valid).
  - reflexivity.
Defined.

(** X10.  [rotateRight] is the mirror image: at a node [a] with left child
    [b] it makes [b] the root of the subtree, [a] its right child and the
    former right subtree of [b] the left subtree of [a]. *)
Theorem X10_rotateRight_shape
    {T : Type} (rbt : RBTree T) (h : heap T) (k : ctx) (a : addr) (ca : bool)
    (ll : tree) (vb : T) (b : addr) (cb : bool) (lr : tree) (va : T) (r : tree) :
  let t := Node a ca (Node b cb ll vb lr) va r in
  let t' := Node b cb ll vb (Node a ca lr va r) in
  Rep h (plug k t) -> root rbt = rootptr (plug k t) ->
  exists h',
    rotateRight rbt h (Some a) = Ok (set_root (rootptr (plug k t')) rbt, h')
    /\ Rep h' (plug k t')
    /\ inorder (plug k t') = inorder (plug k t)
    /\ length h' = length h
    /\ (forall x, x ∉ addrs (plug k t) -> h' !! x = h !! x).
Proof.
  intros t t' HR Hroot.
  destruct (rotateRight_focus rbt h k a ca ll vb b cb lr va r HR Hroot)
    as (h' & E & HR' & Hlen & Hfr).
  exists h'. split_and!; try done.
  rewrite !inorder_plug. simpl.
  by repeat (rewrite <- app_assoc || rewrite <- app_comm_cons).
Qed.

Lemma X10_rotateRight_shape_witness :
  exists h',
    rotateRight demo_rbt demo_heap (Some 2%nat) = Ok (demo_rbt, h')
    /\ Rep h' (Node 0 true
                (Node 1 true (Node 3 false Leaf 20 Leaf) 50 (Node 4 false Leaf 60 Leaf))
                70
                (Node 5 false Leaf 75 (Node 2 true Leaf 80 (Node 6 false Leaf 100 Leaf))))
    /\ inorder (Node 0 true
                (Node 1 true (Node 3 false Leaf 20 Leaf) 50 (Node 4 false Leaf 60 Leaf))
                70
                (Node 5 false Leaf 75 (Node 2 true Leaf 80 (Node 6 false Leaf 100 Leaf))))
       = inorder demo_tree
    /\ length h' = length demo_heap
    /\ (forall x, x ∉ addrs demo_tree -> h' !! x = demo_heap !! x).
Proof.
  apply (X10_rotateRight_shape demo_rbt demo_heap
           (CR 0%nat true
               (Node 1 true (Node 3 false Leaf 20 Leaf) 50 (Node 4 false Leaf 60 Leaf))
               70 Top)
           2%nat true Leaf 75 5%nat false Leaf 80 (Node 6 false Leaf 100 Leaf)).
  - exact (v_rep _ _ _ _ demo_valid).
  - reflexivity.
Defined.

(** X11.  [rotateRight] undoes [rotateLeft]: rotating left at [a] and then
    right at the node that took its place gives back the handle and the
    heap, cell for cell. *)
Theorem X11_rotateLeft_then_rotateRight
    {T : Type} (rbt : RBTree T) (h : heap T) (k : ctx) (a : addr) (ca : bool)
    (l : tree) (va : T) (b : addr) (cb : bool) (rl : tree) (vb : T) (rr : tree) :
  Rep h (plug k (Node a ca l va (Node b cb rl vb rr))) ->
  root rbt = rootptr (plug k (Node a ca l va (Node b cb rl vb rr))) ->
  exists rbt1 h1,
    rotateLeft rbt h (Some a) = Ok (rbt1, h1)
    /\ rotateRight rbt1 h1 (Some b) = Ok (rbt, h).
Proof.
  intros HR Hroot.
  destruct (rotateLeft_focus rbt h k a ca l va b cb rl vb rr HR Hroot)
    as (h1 & E1 & HR1 & Hlen1 & Hfr1).
  eexists _, h1. split; [exact E1|].
  destruct (rotateRight_focus
              (set_root (rootptr (plug k (Node b cb (Node a ca l va rl) vb rr))) rbt)
              h1 k b cb l va a ca rl vb rr HR1 eq_refl)
    as (h2 & E2 & HR2 & Hlen2 & Hfr2).
  rewrite E2. f_equal. f_equal.
  - rewrite <- Hroot. apply set_root_back.
  - apply (heap_eq h h2 _ HR HR2); [congruence|].
    intros x Hx. rewrite Hfr2, Hfr1; [done|done|].
    intros Hx'. apply Hx. by apply rotate_same_addrs.
Qed.

Lemma X11_rotateLeft_then_rotateRight_witness :
  exists rbt1 h1,
    rotateLeft demo_rbt demo_heap (Some 0%nat) = Ok (rbt1, h1)
    /\ rotateRight rbt1 h1 (Some 2%nat) = Ok (demo_rbt, demo_heap).
Proof.
  apply (X11_rotateLeft_then_rotateRight demo_rbt demo_heap Top 0%nat true
           (Node 1 true (Node 3 false Leaf 20 Leaf) 50 (Node 4 false Leaf 60 Leaf)) 70
           2%nat true (Node 5 false Leaf 75 Leaf) 80 (Node 6 false Leaf 100 Leaf)).
  - exact (v_rep _ _ _ _ demo_valid).
  - reflexivity.
Defined.

(** X12.  A rotation needs the child it lifts: [rotateLeft] at a node
    without right child, and [rotateRight] at a node without left child,
    dereference nil and panic. *)
Theorem X12_rotation_without_child_panics
    {T : Type} (rbt : RBTree T) (h : heap T) (a : addr) (n : RBNode T) :
  h !! a = Some n ->
  (right n = None -> rotateLeft rbt h (Some a) = Panic)
  /\ (left n = None -> rotateRight rbt h (Some a) = Panic).
Proof.
  intros Ha. split; intros Hnil.
  - unfold rotateLeft.
    destruct (ptr_eqb (root rbt) (Some a)); rewrite ?(load_Some _ _ _ Ha); scbn;
      rewrite ?(load_Some _ _ _ Ha); scbn; by rewrite Hnil.
  - unfold rotateRight.
    destruct (ptr_eqb (root rbt) (Some a)); rewrite ?(load_Some _ _ _ Ha); scbn;
      rewrite ?(load_Some _ _ _ Ha); scbn; by rewrite Hnil.
Qed.

Lemma X12_rotation_without_child_panics_witness :
  rotateLeft demo_rbt demo_heap (Some 3%nat) = Panic
  /\ rotateRight demo_rbt demo_heap (Some 3%nat) = Panic.
Proof.
  split.
  - apply (proj1 (X12_rotation_without_child_panics demo_rbt demo_heap 3%nat
                    (mkNode 20 None None (Some 1%nat) false) eq_refl)).
    reflexivity.
  - apply (proj2 (X12_rotation_without_child_panics demo_rbt demo_heap 3%nat
                    (mkNode 20 None None (Some 1%nat) false) eq_refl)).
    reflexivity.
Defined.

(** * What the validator establishes *)

Lemma bind_Ok {A B : Type} (m : result A) (k : A -> result B) (b : B) :
  bind m k = Ok b -> exists a, m = Ok a /\ k a = Ok b.
Proof. destruct m as [a| |]; simpl; [eauto|done|done]. Qed.

Lemma load_Ok {T : Type} (h : heap T) (p : ptr) (n : RBNode T) :
  load h p = Ok n -> exists a, p = Some a /\ h !! a = Some n.
Proof.
  destruct p as [a|]; simpl; [|done]. destruct (h !! a) eqn:E; [|done].
  intros [= ->]. eauto.
Qed.

Section Sound.

Context {T : Type} (f : T -> T -> Z).

Local Abbreviation node := (RBNode T).
Local Abbreviation heap := (list (RBNode T)).
Local Abbreviation tree := (@tree T).

(** The order that [isValid] checks: every node against the roots of its
    two subtrees. *)
Definition root_above (v : T) (t : tree) : Prop :=
  match t with Leaf => True | Node _ _ _ x _ => f v x > 0 end.

Definition root_below (v : T) (t : tree) : Prop :=
  match t with Leaf => True | Node _ _ _ x _ => f v x < 0 end.

Fixpoint Local (t : tree) : Prop :=
  match t with
  | Leaf => True
  | Node _ _ l v r => root_above v l /\ root_below v r /\ Local l /\ Local r
  end.

(** Black heights counted from the root: below a path that holds [cur]
    black nodes, every path of [t] to a nil child ends with [H] of them,
    and a red node has black children. *)
Fixpoint RBabs (cur : Z) (t : tree) (H : Z) : Prop :=
  match t with
  | Leaf => cur = H
  | Node _ c l _ r =>
      let cur' := if c then cur + 1 else cur in
      RBabs cur' l H /\ RBabs cur' r H /\ (c = false -> isB l = true /\ isB r = true)
  end.

Lemma RBabs_ge (t : tree) : forall cur H, RBabs cur t H -> cur <= H.
Proof.
  induction t as [|a c l IHl v r IHr]; intros cur H; simpl; [lia|].
  intros (Hl & _ & _). apply IHl in Hl. destruct c; lia.
Qed.

Lemma RBabs_RB (t : tree) : forall cur H,
  RBabs cur t H -> RB (Z.to_nat (H - cur)) t.
Proof.
  induction t as [|a c l IHl v r IHr]; intros cur H; simpl.
  - intros ->. by rewrite Z.sub_diag.
  - intros (Hl & Hr & Hc). pose proof (RBabs_ge _ _ _ Hl) as Hge.
    destruct c.
    + replace (Z.to_nat (H - cur)) with (S (Z.to_nat (H - (cur + 1)))) by lia.
      split; [by apply IHl|by apply IHr].
    + destruct (Hc eq_refl) as [? ?]. split_and!; try done; [by apply IHl|by apply IHr].
Qed.

Lemma RB_RBabs (t : tree) : forall n cur,
  RB n t -> RBabs cur t (cur + Z.of_nat n).
Proof.
  induction t as [|a c l IHl v r IHr]; intros n cur; simpl.
  - intros ->. lia.
  - destruct c.
    + destruct n as [|m]; [done|]. intros [Hl Hr].
      replace (cur + Z.of_nat (S m)) with (cur + 1 + Z.of_nat m) by lia.
      split_and!; [by apply IHl|by apply IHr|done].
    + intros (Hl & Hr & Hbl & Hbr). split_and!; [by apply IHl|by apply IHr|done].
Qed.

Lemma Sorted_Local (t : tree) : Comparator f -> Sorted_tree f t -> Local t.
Proof.
  intros Hf. induction t as [|a c l IHl v r IHr]; [done|]. intros Hs.
  apply (Sorted_node f) in Hs as (Hsl & Hsr & Hlt & Hgt). simpl. split_and!; auto.
  - destruct l as [|b cb bl bv br]; [done|]. simpl.
    pose proof (Hlt b bv (root_in_inorder _ _ _ _ _)) as H.
    by apply (cmp_flip f Hf) in H.
  - destruct r as [|b cb bl bv br]; [done|]. simpl.
    exact (Hgt b bv (root_in_inorder _ _ _ _ _)).
Qed.

Variable h : heap.

(** What an accepted call of [isValid] at the node [a] tells. *)
Definition accepted_at (a : addr) (cell : node) (ibh cur ibh' bh : Z) : Prop :=
  exists t,
    rootptr t = Some a /\ Repr h (parent cell) t /\ Dist t /\ Local t
    /\ RBabs cur t bh /\ bh = ibh' /\ (ibh = 0 \/ ibh = ibh') /\ 1 <= bh
    /\ (isBlack cell = true
        \/ exists p pc, parent cell = Some p /\ h !! p = Some pc /\ isBlack pc = true).

Definition isValid_sound (fuel : nat) : Prop :=
  forall a cell ibh cur ibh' bh,
    h !! a = Some cell ->
    isValid fuel h (Some f) (Some a) ibh cur = Ok (ibh', (bh, true)) ->
    0 <= cur -> (1 <= cur \/ isBlack cell = true) ->
    cur + Z.of_nat fuel < 2 ^ 63 ->
    accepted_at a cell ibh cur ibh' bh.

(** What an accepted check of one side tells: [side] is [left] or [right],
    [ord] the order checked. *)
Definition side_accepted (a : addr) (cell : node) (side : ptr)
    (ord : T -> tree -> Prop) (ibh cur' ibh1 sbh : Z) : Prop :=
  exists s : tree,
    rootptr s = side /\ Repr h (Some a) s /\ Dist s /\ Local s
    /\ RBabs cur' s sbh /\ ord (Val cell) s
    /\ (s = Leaf -> ibh1 = ibh)
    /\ (s <> Leaf -> sbh = ibh1 /\ (ibh = 0 \/ ibh = ibh1))
    /\ (isBlack cell = false -> isB s = true).

Lemma child_accepted (a : addr) (cell : node) (c0 : addr) (cc : node)
    (ord : T -> tree -> Prop) ibh cur' ibh1 sbh :
  h !! a = Some cell -> h !! c0 = Some cc -> parent cc = Some a ->
  (forall (s : tree) b cb bl bv br, s = Node b cb bl bv br -> bv = Val cc -> ord (Val cell) s) ->
  accepted_at c0 cc ibh cur' ibh1 sbh ->
  side_accepted a cell (Some c0) ord ibh cur' ibh1 sbh.
Proof.
  intros Ha Hc Hp Hord (s & Hroot & Hr & Hd & Hl & Hrb & Hbh & Hibh & H1 & Hcol).
  rewrite Hp in Hr. exists s. split_and!; try done.
  - destruct s as [|b cb bl bv br]; [done|]. simpl in Hroot. injection Hroot as ->.
    destruct Hr as (Hb & _). rewrite Hc in Hb. injection Hb as ->.
    by eapply Hord.
  - intros ->. done.
  - intros Hred. destruct s as [|b cb bl bv br]; [done|]. simpl in Hroot. injection Hroot as ->.
    destruct Hr as (Hb & _). rewrite Hc in Hb. injection Hb as ->. simpl.
    destruct Hcol as [?|(p & pc & Hp' & Hpc & Hblack)]; [done|].
    simpl in Hp'. injection Hp' as <-. rewrite Ha in Hpc. injection Hpc as <-. congruence.
Qed.

Lemma left_sound fuel a cell ibh cur' ibh1 lbh :
  isValid_sound fuel -> h !! a = Some cell ->
  1 <= cur' -> cur' + Z.of_nat fuel < 2 ^ 63 ->
  leftSubtreeIsValid (isValid fuel h (Some f)) h (Some a) ibh cur' (Some f)
    = Ok (ibh1, (lbh, true)) ->
  side_accepted a cell (left cell) root_above ibh cur' ibh1 lbh.
Proof.
  intros IH Ha Hcur Hfuel E. unfold leftSubtreeIsValid in E.
  rewrite (load_Some _ _ _ Ha) in E. cbn [bind] in E.
  destruct (left cell) as [l0|] eqn:El; cbn [is_nil] in E.
  - apply bind_Ok in E as (lc & Hload & E).
    apply load_Ok in Hload as (? & [= <-] & Hlc).
    destruct (ptr_eqb (parent lc) (Some a)) eqn:Ep; cbn [negb] in E; [|done].
    apply ptr_eqb_eq in Ep. cbn [call bind] in E.
    destruct (f (Val cell) (Val lc) <=? 0) eqn:Ec; [done|].
    apply (child_accepted a cell l0 lc); try done.
    + intros s b cb bl bv br -> ->. simpl. lia.
    + apply IH; try done; [lia|by left].
  - injection E as <- <-. exists Leaf. split_and!; try done.
Qed.

Lemma right_sound fuel a cell ibh cur' ibh1 rbh :
  isValid_sound fuel -> h !! a = Some cell ->
  1 <= cur' -> cur' + Z.of_nat fuel < 2 ^ 63 ->
  rightSubtreeIsValid (isValid fuel h (Some f)) h (Some a) ibh cur' (Some f)
    = Ok (ibh1, (rbh, true)) ->
  side_accepted a cell (right cell) root_below ibh cur' ibh1 rbh.
Proof.
  intros IH Ha Hcur Hfuel E. unfold rightSubtreeIsValid in E.
  rewrite (load_Some _ _ _ Ha) in E. cbn [bind] in E.
  destruct (right cell) as [r0|] eqn:El; cbn [is_nil] in E.
  - apply bind_Ok in E as (rc & Hload & E).
    apply load_Ok in Hload as (? & [= <-] & Hrc).
    destruct (ptr_eqb (parent rc) (Some a)) eqn:Ep; cbn [negb] in E; [|done].
    apply ptr_eqb_eq in Ep. cbn [call bind] in E.
    destruct (f (Val cell) (Val rc) >=? 0) eqn:Ec; [done|].
    apply (child_accepted a cell r0 rc); try done.
    + intros s b cb bl bv br -> ->. simpl. lia.
    + apply IH; try done; [lia|by left].
  - injection E as <- <-. exists Leaf. split_and!; try done.
Qed.

Definition colour_ok (cell : node) : Prop :=
  isBlack cell = true
  \/ exists p pc, parent cell = Some p /\ h !! p = Some pc /\ isBlack pc = true.

Lemma rest_sound fuel a cell ibh cur cur' ibh' bh :
  isValid_sound fuel -> h !! a = Some cell ->
  cur' = (if isBlack cell then cur + 1 else cur) ->
  1 <= cur' -> cur' + Z.of_nat fuel < 2 ^ 63 -> colour_ok cell ->
  (left cell <> None \/ right cell <> None \/ ibh = cur') ->
  (let* '(initialBlackHeight, (leftBlackHeight, ok)) :=
     leftSubtreeIsValid (isValid fuel h (Some f)) h (Some a) ibh cur' (Some f) in
   if negb ok then Ok (initialBlackHeight, (0, false))
   else
     let* '(initialBlackHeight, (rightBlackHeight, ok)) :=
       rightSubtreeIsValid (isValid fuel h (Some f)) h (Some a) initialBlackHeight
         cur' (Some f) in
     if negb ok || negb (leftBlackHeight =? rightBlackHeight)
     then Ok (initialBlackHeight, (0, false))
     else Ok (initialBlackHeight, (Z.max leftBlackHeight cur', true)))
  = Ok (ibh', (bh, true)) ->
  accepted_at a cell ibh cur ibh' bh.
Proof.
  intros IH Ha Hcur' H1 Hfuel Hcol Hshape E.
  apply bind_Ok in E as ([i1 [lbh okl]] & El & E).
  destruct okl; cbn [negb] in E; [|done].
  apply bind_Ok in E as ([i2 [rbh okr]] & Er & E).
  destruct okr; cbn [negb orb] in E; [|done].
  destruct (lbh =? rbh) eqn:Eq; cbn [negb] in E; [|done].
  apply Z.eqb_eq in Eq. subst rbh. injection E as -> <-.
  destruct (left_sound fuel a cell ibh cur' i1 lbh IH Ha H1 Hfuel El)
    as (tl & Hrl & Hreprl & Hdl & Hll & Hrbl & Hordl & Hleafl & Hnodel & Hcl).
  destruct (right_sound fuel a cell i1 cur' ibh' lbh IH Ha H1 Hfuel Er)
    as (tr & Hrr & Hreprr & Hdr & Hlr & Hrbr & Hordr & Hleafr & Hnoder & Hcr).
  pose proof (RBabs_ge _ _ _ Hrbl) as Hge.
  rewrite Z.max_l by lia.
  exists (Node a (isBlack cell) tl (Val cell) tr). split_and!; try done.
  - simpl. split_and!; try done. by rewrite Hrl, Hrr, node_eta.
  - simpl. split_and!; try done.
    destruct tl as [|b cb bl bv br]; [by left|right].
    destruct tr as [|b' cb' bl' bv' br']; [done|]. simpl. intros [= <-].
    destruct Hreprl as (Hb & _). destruct Hreprr as (Hb' & _).
    rewrite Hb in Hb'. injection Hb' as Hv _ _ _.
    simpl in Hordl, Hordr. rewrite <- Hv in Hordr. lia.
  - simpl. rewrite <- Hcur'. split_and!; try done. intros Hred. auto.
  - destruct tr as [|b' cb' bl' bv' br'].
    + rewrite (Hleafr eq_refl).
      destruct tl as [|b cb bl bv br].
      * rewrite (Hleafl eq_refl). simpl in Hrbl.
        destruct Hshape as [Hs|[Hs|Hs]]; [by rewrite <- Hrl in Hs|by rewrite <- Hrr in Hs|lia].
      * by destruct (Hnodel ltac:(done)).
    + by destruct (Hnoder ltac:(done)).
  - destruct tl as [|b cb bl bv br].
    + rewrite (Hleafl eq_refl) in *.
      destruct tr as [|b' cb' bl' bv' br'].
      * right. by rewrite (Hleafr eq_refl).
      * by destruct (Hnoder ltac:(done)).
    + destruct (Hnodel ltac:(done)) as [Hi1 Hor].
      destruct tr as [|b' cb' bl' bv' br'].
      * by rewrite (Hleafr eq_refl).
      * destruct (Hnoder ltac:(done)) as [Hi2 [Hz|Hor2]]; [lia|]. by rewrite <- Hor2.
  - lia.
Qed.

Lemma isValid_sound_all fuel : isValid_sound fuel.
Proof.
  induction fuel as [|fuel IH]; intros a cell ibh cur ibh' bh Ha E Hc0 Hc1 Hfuel; [done|].
  cbn [isValid] in E. rewrite (load_Some _ _ _ Ha) in E. cbn [bind] in E.
  apply bind_Ok in E as (colour & Ecol & E).
  assert (Hcol : exists cur',
            colour = Some cur' /\ cur' = (if isBlack cell then cur + 1 else cur)
            /\ colour_ok cell).
  { destruct (isBlack cell) eqn:Eb.
    - injection Ecol as <-. rewrite wrap_small by lia.
      eexists. split_and!; [done|done|by left].
    - apply bind_Ok in Ecol as (pc & Hload & Ecol).
      apply load_Ok in Hload as (p & Hp & Hpc).
      destruct (isBlack pc) eqn:Epc; cbn [negb] in Ecol.
      + injection Ecol as <-. eexists. split_and!; [done|done|].
        right. by exists p, pc.
      + injection Ecol as <-. done. }
  destruct Hcol as (cur' & -> & Hcur' & Hcok).
  assert (H1 : 1 <= cur').
  { destruct Hc1 as [?|Hb]; [destruct (isBlack cell); lia|]. rewrite Hb in Hcur'. lia. }
  assert (Hfuel' : cur' + Z.of_nat fuel < 2 ^ 63) by (destruct (isBlack cell); lia).
  destruct (is_nil (left cell) && is_nil (right cell)) eqn:Eleaf.
  - apply andb_true_iff in Eleaf as [El Er].
    destruct (ibh =? 0) eqn:E0.
    + injection E as <- <-. apply Z.eqb_eq in E0. subst ibh.
      exists (Node a (isBlack cell) Leaf (Val cell) Leaf).
      split_and!; try done; try (by left).
      * simpl. split_and!; try done.
        destruct cell as [v [l|] [r|] p c]; try done.
      * simpl. split_and!; try done. by left.
    + destruct (ibh =? cur') eqn:E1; cbn [negb] in E; [|done].
      apply Z.eqb_eq in E1.
      eapply (rest_sound fuel a cell ibh cur cur'); eauto.
  - eapply (rest_sound fuel a cell ibh cur cur'); eauto.
    apply andb_false_iff in Eleaf as [El|Er].
    + left. by destruct (left cell).
    + right. left. by destruct (right cell).
Qed.

End Sound.

(** The conditions that [IsValid] checks on a handle and a heap: the tree
    [t] is laid out in the heap below the root of the handle, it has the
    colours of a red-black tree, every node is ordered against its two
    children, and [Count], [Min] and [Max] are right. *)
Record Accepted {T : Type} (f : T -> T -> Z) (rbt : RBTree T) (h : heap T)
    (t : tree) : Prop := mkAccepted {
  acc_cmp : cmp rbt = Some f;
  acc_rep : Rep h t;
  acc_root : root rbt = rootptr t;
  acc_rb : RBtree t;
  acc_local : Local f t;
  acc_count : Count rbt = Z.of_nat (size t);
  acc_min : Min rbt = first_addr (inorder t);
  acc_max : Max rbt = last_addr (inorder t)
}.

Section IsValidSound.

Context {T : Type}.

Lemma IsValid_sound (rbt : RBTree T) (h : heap T) :
  Z.of_nat (length h) + 2 < 2 ^ 63 -> IsValid rbt h = Ok true ->
  exists f t, Accepted f rbt h t.
Proof.
  intros Hlen E. unfold IsValid in E.
  destruct (cmp rbt) as [f|] eqn:Ecmp; [|done]. exists f.
  destruct (root rbt) as [r|] eqn:Er; cbn [is_nil] in E.
  - apply bind_Ok in E as (cell & Hload & E).
    apply load_Ok in Hload as (? & [= <-] & Hcell).
    destruct (parent cell) as [p|] eqn:Ep; [done|]. cbn [is_nil negb orb] in E.
    destruct (isBlack cell) eqn:Eb; [|done]. cbn [negb] in E.
    apply bind_Ok in E as ([ibh' [bh ok]] & Ev & E).
    destruct ok; cbn [negb bind] in E; [|done].
    destruct (isValid_sound_all f h (fuel_of h) r cell 0 0 ibh' bh Hcell Ev)
      as (t & Hrt & Hr & Hd & Hl & Hrb & _ & _ & H1 & _);
      [lia|by right|unfold fuel_of; lia|].
    rewrite Ep in Hr.
    assert (Hnd : NoDup (addrs t)).
    { apply (Repr_NoDup h t None 0%nat Hr); [|done]. intros a Ha.
      rewrite Hrt in Ha. injection Ha as <-. by eapply level_root. }
    assert (HR : Rep h t) by done.
    assert (Hne : t <> Leaf) by (by destruct t).
    pose proof (Rep_fuel h Top t HR) as Hfuel. pose proof (height_size t) as Hhs.
    pose proof (Rep_size h t HR) as Hsz.
    rewrite <- Hrt in E.
    rewrite (leftmost_spec h (fuel_of h) None t Hr Hne) in E by (simpl in Hfuel; lia).
    cbn [bind] in E.
    destruct (ptr_eqb (Min rbt) (first_addr (inorder t))) eqn:Emin; cbn [negb bind] in E;
      [|done].
    rewrite (rightmost_spec h (fuel_of h) None t Hr Hne) in E by (simpl in Hfuel; lia).
    cbn [bind] in E.
    destruct (ptr_eqb (Max rbt) (last_addr (inorder t))) eqn:Emax; cbn [negb bind] in E;
      [|done].
    apply ptr_eqb_eq in Emin, Emax.
    destruct (inorder t) as [|[a v] l2] eqn:Ein; [by apply inorder_nil in Ein|].
    pose proof (size_inorder t) as Hsi. rewrite Ein in Hsi. simpl in Hsi.
    rewrite Emin in E. change (first_addr ((a, v) :: l2)) with (Some a) in E.
    rewrite (IsValid_loop_spec h t (fuel_of h) [] a v l2 0 HR Ein) in E;
      [|simpl in Hfuel; lia|lia|lia].
    cbn [bind] in E. injection E as E. apply Z.eqb_eq in E.
    exists t. split; try done; try congruence.
    + split.
      * destruct t as [|a' c' l' v' r']; [done|]. simpl in Hrt. injection Hrt as ->.
        destruct Hr as (Ha' & _). rewrite Hcell in Ha'. injection Ha' as Hc.
        rewrite Hc in Eb. exact Eb.
      * eexists. by eapply RBabs_RB.
    + rewrite <- E. lia.
  - injection E as E. apply andb_true_iff in E as [E Ec]. apply andb_true_iff in E as [En Ex].
    apply Z.eqb_eq in Ec. exists Leaf. split; try done.
    + split; [done|apply NoDup_nil_2].
    + split; [done|]. by exists 0%nat.
    + by destruct (Min rbt).
    + by destruct (Max rbt).
Qed.

End IsValidSound.

Section Accepts.

Context {T : Type} (f : T -> T -> Z).

Local Abbreviation node := (RBNode T).
Local Abbreviation heap := (list (RBNode T)).
Local Abbreviation tree := (@tree T).

Lemma isValid_accepts (h : heap) fuel : forall par a c (l : tree) v r n cur ibh H,
  Repr h par (Node a c l v r) -> RB n (Node a c l v r) ->
  Local f (Node a c l v r) ->
  (c = false -> exists pn, load h par = Ok pn /\ isBlack pn = true) ->
  cur + Z.of_nat n = H -> 0 <= cur -> 0 < H < 2 ^ 63 -> (ibh = 0 \/ ibh = H) ->
  (height (Node a c l v r) <= fuel)%nat ->
  isValid fuel h (Some f) (Some a) ibh cur = Ok (H, (H, true)).
Proof.
  induction fuel as [|fuel IH]; intros par a c l v r n cur ibh H Hr Hrb Hso Hpar Hcur Hc0 HH Hibh Hfuel;
    [simpl in Hfuel; lia|].
  pose proof Hr as (Ha & Hl & Hrr). simpl in Hfuel.
  destruct Hso as (Hlt & Hgt & Hsl & Hsr).
  cbn [isValid]. rewrite (load_Some _ _ _ Ha). scbn.
  (* the colour and the running black height *)
  assert (exists cur' m,
    (if c then Ok (Some (wrap (cur + 1)))
     else let* p := load h par in
          if negb (isBlack p) then Ok None else Ok (Some cur)) = Ok (Some cur')
    /\ cur' + Z.of_nat m = H /\ 0 <= cur' /\ RB m l /\ RB m r
    /\ (forall b cb bl bv br, l = Node b cb bl bv br \/ r = Node b cb bl bv br ->
          cb = false -> c = true)) as (cur' & m & -> & Hcur' & Hc0' & Hml & Hmr & Hchild).
  { destruct c; simpl in Hrb.
    - destruct n as [|m]; [done|]. destruct Hrb as [Hml Hmr].
      exists (cur + 1), m. rewrite wrap_small by lia. split_and!; try done; lia.
    - destruct Hrb as (Hml & Hmr & Hbl & Hbr).
      destruct (Hpar eq_refl) as (pn & -> & Hpn). scbn. rewrite Hpn. scbn.
      exists cur, n. split_and!; try done.
      intros b cb bl bv br [->| ->] ->; simpl in *; congruence. }
  scbn.
  (* the two subtrees *)
  assert (Hleft : forall ibh0, ibh0 = 0 \/ ibh0 = H ->
    exists ibh1, (ibh1 = ibh0 \/ ibh1 = H) /\
    leftSubtreeIsValid (isValid fuel h (Some f)) h (Some a) ibh0 cur' (Some f)
    = Ok (ibh1, (H, true)) /\ (l <> Leaf -> ibh1 = H)).
  { intros ibh0 Hibh0. unfold leftSubtreeIsValid. rewrite (load_Some _ _ _ Ha). scbn.
    destruct l as [|b cb bl bv br]; scbn.
    - simpl in Hml. subst m. exists ibh0. split_and!; [by left| |done].
      do 3 f_equal. lia.
    - pose proof Hl as (Hb & _). rewrite (load_Some _ _ _ Hb). scbn.
      rewrite ptr_eqb_refl. scbn. cbn [call bind].
      pose proof Hlt as Hlt'. simpl in Hlt'.
      destruct (f v bv <=? 0) eqn:E; [lia|].
      exists H. split_and!; [by right| |done].
      eapply (IH (Some a) b cb bl bv br m cur' ibh0 H); try done.
      + intros ->. assert (c = true) as -> by (eapply Hchild; eauto).
        rewrite (load_Some _ _ _ Ha). eauto.
      + lia. }
  assert (Hright : forall ibh0, ibh0 = 0 \/ ibh0 = H ->
    exists ibh1, (ibh1 = ibh0 \/ ibh1 = H) /\
    rightSubtreeIsValid (isValid fuel h (Some f)) h (Some a) ibh0 cur' (Some f)
    = Ok (ibh1, (H, true)) /\ (r <> Leaf -> ibh1 = H)).
  { intros ibh0 Hibh0. unfold rightSubtreeIsValid. rewrite (load_Some _ _ _ Ha). scbn.
    destruct r as [|b cb bl bv br]; scbn.
    - simpl in Hmr. subst m. exists ibh0. split_and!; [by left| |done].
      do 3 f_equal. lia.
    - pose proof Hrr as (Hb & _). rewrite (load_Some _ _ _ Hb). scbn.
      rewrite ptr_eqb_refl. scbn. cbn [call bind].
      pose proof Hgt as Hgt'. simpl in Hgt'.
      destruct (f v bv >=? 0) eqn:E; [lia|].
      exists H. split_and!; [by right| |done].
      eapply (IH (Some a) b cb bl bv br m cur' ibh0 H); try done.
      + intros ->. assert (c = true) as -> by (eapply Hchild; eauto).
        rewrite (load_Some _ _ _ Ha). eauto.
      + lia. }
  assert (Hrest : forall ibh0, ibh0 = 0 \/ ibh0 = H ->
    (ibh0 = H \/ l <> Leaf \/ r <> Leaf) ->
    (let* '(ibh1, (lbh, ok)) :=
       leftSubtreeIsValid (isValid fuel h (Some f)) h (Some a) ibh0 cur' (Some f) in
     if negb ok then Ok (ibh1, (0, false))
     else
       let* '(ibh2, (rbh, ok)) :=
         rightSubtreeIsValid (isValid fuel h (Some f)) h (Some a) ibh1 cur' (Some f) in
       if negb ok || negb (lbh =? rbh) then Ok (ibh2, (0, false))
       else Ok (ibh2, (Z.max lbh cur', true))) = Ok (H, (H, true))).
  { intros ibh0 Hibh0 Hne.
    destruct (Hleft ibh0 Hibh0) as (ibh1 & Hi1 & -> & Hl1). scbn.
    destruct (Hright ibh1) as (ibh2 & Hi2 & -> & Hr2); [intuition congruence|]. scbn.
    rewrite Z.eqb_refl. scbn. do 2 f_equal; [|f_equal; lia].
    destruct Hne as [->|[Hne|Hne]].
    - intuition congruence.
    - specialize (Hl1 Hne). intuition congruence.
    - by apply Hr2. }
  destruct (is_nil (rootptr l) && is_nil (rootptr r)) eqn:Eleaf.
  - apply andb_true_iff in Eleaf as [El Er].
    destruct l; [|done]. destruct r; [|done]. simpl in Hml. subst m.
    assert (cur' = H) by lia. subst cur'.
    destruct Hibh as [->| ->].
    + done.
    + destruct (H =? 0) eqn:E0; [lia|]. rewrite Z.eqb_refl. scbn.
      apply Hrest; auto.
  - apply Hrest; [done|]. right.
    destruct l; [|by left]. destruct r; [done|by right].
Qed.

Lemma IsValid_accepts (rbt : RBTree T) (h : heap) (t : tree) :
  Accepted f rbt h t -> Z.of_nat (size t) < 2 ^ 63 -> IsValid rbt h = Ok true.
Proof.
  intros [Hcmp HR Hroot [Hblack [n Hrb]] Hso Hcount Hmin Hmax] Hfits.
  unfold IsValid. rewrite Hcmp, Hroot, Hmin, Hmax, Hcount.
  destruct t as [|a c l v r]; [done|]. simpl in Hblack. subst c.
  pose proof (Rep_focus h Top _ _ _ _ _ HR) as Ha. cbn [rootptr is_nil].
  rewrite (load_Some _ _ _ Ha). scbn.
  pose proof (Rep_fuel h Top _ HR) as Hfuel. simpl depth in Hfuel.
  pose proof (height_size (Node a true l v r)) as Hhs.
  pose proof (RB_height _ _ Hrb) as Hnh.
  rewrite (isValid_accepts h (fuel_of h) None a true l v r n 0 0 (Z.of_nat n));
    try done; try lia; [|by destruct HR|destruct n; [done|lia]].
  scbn. destruct HR as [Hr Hnd].
  pose proof (leftmost_spec h (fuel_of h) None _ Hr) as El. cbn [rootptr] in El.
  rewrite El; [|done|lia]. scbn. rewrite ptr_eqb_refl. scbn.
  pose proof (rightmost_spec h (fuel_of h) None _ Hr) as Er. cbn [rootptr] in Er.
  rewrite Er; [|done|lia]. scbn. rewrite ptr_eqb_refl. scbn.
  destruct (inorder (Node a true l v r)) as [|[b bv] rest] eqn:E;
    [by apply inorder_nil in E|].
  pose proof (size_inorder (Node a true l v r)) as Hlen. rewrite E in Hlen.
  simpl length in Hlen. unfold first_addr. simpl head. simpl fmap.
  rewrite (IsValid_loop_spec h (Node a true l v r) (fuel_of h) [] b bv rest 0);
    try done; try lia.
  scbn. f_equal. apply Z.eqb_eq. lia.
Qed.

End Accepts.

(** A heap that holds 10 at the root, 5 and 15 below it, and 20 as the
    right child of 5: every child is on the right side of its parent, but
    20 sits in the left subtree of 10. *)
Definition skew_heap : heap Z :=
  [ mkNode 10 (Some 1%nat) (Some 2%nat) None true;
    mkNode 5 None (Some 3%nat) (Some 0%nat) true;
    mkNode 15 None None (Some 0%nat) true;
    mkNode 20 None None (Some 1%nat) false ].

Definition skew_rbt : RBTree Z :=
  mkTree (Some 0%nat) (Some Compare) (Some 1%nat) (Some 2%nat) 4.

Definition skew_tree : @tree Z :=
  Node 0 true (Node 1 true Leaf 5 (Node 3 false Leaf 20 Leaf)) 10 (Node 2 true Leaf 15 Leaf).

Lemma skew_accepted : Accepted Compare skew_rbt skew_heap skew_tree.
Proof.
  split; try reflexivity.
  - split; [simpl; repeat split; reflexivity|].
    apply (bool_decide_unpack _); vm_compute; exact I.
  - split; [reflexivity|]. exists 2%nat. simpl. repeat split; reflexivity.
  - simpl. repeat split; reflexivity.
Qed.

(** X13.  [IsValid] answers true exactly when the handle has a comparator
    and the cells reachable from its root form a tree with consistent
    parent links, whose root is black, where no red node has a red child
    and all paths hold the same number of black nodes, where every node is
    greater than its left child and smaller than its right child, and
    where [Count], [Min] and [Max] are the number of nodes, the first and
    the last node.  The order is checked between a node and its children
    only. *)
Theorem X13_IsValid_characterised
    {T : Type} (rbt : RBTree T) (h : heap T) :
  Z.of_nat (length h) + 2 < 2 ^ 63 ->
  (IsValid rbt h = Ok true <-> exists f t, Accepted f rbt h t).
Proof.
  intros Hlen. split.
  - by apply IsValid_sound.
  - intros (f & t & Hacc). apply (IsValid_accepts f rbt h t Hacc).
    pose proof (Rep_size h t (acc_rep _ _ _ _ Hacc)). lia.
Qed.

Lemma X13_IsValid_characterised_witness :
  IsValid skew_rbt skew_heap = Ok true
  /\ map snd (inorder skew_tree) = [5; 20; 10; 15]
  /\ exists f t, Accepted f demo_rbt demo_heap t.
Proof.
  split_and!.
  - apply (proj2 (X13_IsValid_characterised skew_rbt skew_heap ltac:(simpl; lia))).
    exists Compare, skew_tree. exact skew_accepted.
  - reflexivity.
  - apply (proj1 (X13_IsValid_characterised demo_rbt demo_heap ltac:(simpl; lia))).
    vm_compute. reflexivity.
Defined.

Section Tamper.

Context {T : Type} (f : T -> T -> Z) (Hf : Comparator f).

Lemma IsValid_fields (rbt : RBTree T) (h : heap T) (t : tree) (mn mx : ptr) (z : Z) :
  Valid f rbt h t ->
  IsValid (mkTree (root rbt) (cmp rbt) mn mx z) h
  = Ok (ptr_eqb mn (Min rbt) && ptr_eqb mx (Max rbt) && (z =? Count rbt)).
Proof.
  intros [HR Hroot Hcmp [Hblack [n Hrb]] Hso Hcount Hmin Hmax Hfits].
  unfold IsValid. cbn [cmp root Min Max Count]. rewrite Hcmp, Hroot, Hmin, Hmax, Hcount.
  destruct t as [|a c l v r].
  { cbn [rootptr is_nil]. by destruct mn, mx. }
  simpl in Hblack. subst c.
  pose proof (Rep_focus h Top _ _ _ _ _ HR) as Ha. cbn [rootptr is_nil].
  rewrite (load_Some _ _ _ Ha). scbn.
  pose proof (Rep_fuel h Top _ HR) as Hfuel. simpl depth in Hfuel.
  pose proof (height_size (Node a true l v r)) as Hhs.
  pose proof (RB_height _ _ Hrb) as Hnh.
  rewrite (isValid_complete f Hf h (fuel_of h) None a true l v r n 0 0 (Z.of_nat n));
    try done; try lia; [|by destruct HR|destruct n; [done|lia]].
  scbn. destruct HR as [Hr Hnd].
  pose proof (leftmost_spec h (fuel_of h) None _ Hr) as El. cbn [rootptr] in El.
  rewrite El; [|done|lia]. scbn.
  destruct (ptr_eqb mn (first_addr (inorder (Node a true l v r)))) eqn:Emn; scbn; [|done].
  pose proof (rightmost_spec h (fuel_of h) None _ Hr) as Er. cbn [rootptr] in Er.
  rewrite Er; [|done|lia]. scbn.
  destruct (ptr_eqb mx (last_addr (inorder (Node a true l v r)))) eqn:Emx; scbn; [|done].
  apply ptr_eqb_eq in Emn. rewrite Emn.
  destruct (inorder (Node a true l v r)) as [|[b bv] rest] eqn:E;
    [by apply inorder_nil in E|].
  pose proof (size_inorder (Node a true l v r)) as Hlen. rewrite E in Hlen.
  simpl length in Hlen. change (first_addr ((b, bv) :: rest)) with (Some b).
  rewrite (IsValid_loop_spec h (Node a true l v r) (fuel_of h) [] b bv rest 0);
    try done; try lia.
  scbn. f_equal. rewrite Z.eqb_sym. f_equal. rewrite <- Hlen. lia.
Qed.

End Tamper.

(** X14.  On a valid tree, [IsValid] notices a wrong exported field: with
    [Min], [Max] and [Count] overwritten, it answers true exactly when the
    three written values are the old ones. *)
Theorem X14_IsValid_checks_exported_fields
    {T : Type} (f : T -> T -> Z) (rbt : RBTree T) (h : heap T) (t : tree)
    (mn mx : ptr) (z : Z) :
  Comparator f -> Valid f rbt h t ->
  exists b,
    IsValid (set_Count z (set_Max mx (set_Min mn rbt))) h = Ok b
    /\ (b = true <-> mn = Min rbt /\ mx = Max rbt /\ z = Count rbt).
Proof.
  intros Hf HV. eexists. split.
  - apply (IsValid_fields f Hf rbt h t mn mx z HV).
  - rewrite !andb_true_iff, !ptr_eqb_eq, Z.eqb_eq. tauto.
Qed.

Lemma X14_IsValid_checks_exported_fields_witness :
  exists b,
    IsValid (set_Count 8 (set_Max (Some 6%nat) (set_Min (Some 3%nat) demo_rbt))) demo_heap
      = Ok b
    /\ (b = true <-> Some 3%nat = Min demo_rbt /\ Some 6%nat = Max demo_rbt
                     /\ 8 = Count demo_rbt).
Proof.
  apply (X14_IsValid_checks_exported_fields Compare demo_rbt demo_heap demo_tree).
  - exact Comparator_Compare.
  - exact demo_valid.
Defined.

(** * The rendering of a tree *)

Section Render.

Context {T : Type} (show : T -> string).

Local Abbreviation heap := (list (RBNode T)).
Local Abbreviation tree := (@tree T).

(** The nodes of a tree from the last to the first in order, each with
    its depth below [d]. *)
Fixpoint lines_of (t : tree) (d : nat) : list (nat * T) :=
  match t with
  | Leaf => []
  | Node _ _ l v r => lines_of r (S d) ++ (d, v) :: lines_of l (S d)
  end.

(** One line per node: as many spaces as the depth, one more space, the
    value and a newline. *)
Fixpoint render_lines (ls : list (nat * T)) : string :=
  match ls with
  | [] => EmptyString
  | (d, v) :: ls =>
      (repeat_string " " d ++ " " ++ show v ++ newline ++ render_lines ls)%string
  end.

Lemma render_lines_app (xs ys : list (nat * T)) :
  render_lines (xs ++ ys) = (render_lines xs ++ render_lines ys)%string.
Proof.
  induction xs as [|[d v] xs IH]; simpl; [done|].
  by rewrite IH, !string_app_assoc.
Qed.

Lemma lines_of_values (t : tree) : forall d,
  map snd (lines_of t d) = rev (map snd (inorder t)).
Proof.
  induction t as [|a c l IHl v r IHr]; intros d; simpl; [done|].
  rewrite !map_app, rev_app_distr. simpl. rewrite IHl, IHr.
  by rewrite <- app_assoc.
Qed.

Lemma recString_spec (h : heap) fuel : forall (t : tree) par res counter,
  Repr h par t -> t <> Leaf -> (height t <= fuel)%nat ->
  0 <= counter -> counter + Z.of_nat (height t) < 2 ^ 63 ->
  recString fuel show h (rootptr t) res counter
  = Ok (res ++ render_lines (lines_of t (Z.to_nat counter)))%string.
Proof.
  induction fuel as [|fuel IH]; intros t par res counter Hr Hne Hfuel Hc Hsmall.
  - destruct t; [done|simpl in Hfuel; lia].
  - destruct t as [|a c l v r]; [done|]. simpl in Hr, Hfuel.
    destruct Hr as (Ha & Hl & Hrr).
    assert (Hmax : (height l <= Nat.max (height l) (height r)
                    /\ height r <= Nat.max (height l) (height r))%nat) by lia.
    simpl height in Hsmall.
    cbn [recString rootptr]. rewrite (load_Some _ _ _ Ha). scbn.
    assert (Hw : wrap (counter + 1) = counter + 1) by (apply wrap_small; lia).
    assert (Hd : Z.to_nat (counter + 1) = S (Z.to_nat counter)) by lia.
    assert (Er : (if negb (is_nil (rootptr r))
                  then recString fuel show h (rootptr r) res (wrap (counter + 1))
                  else Ok res)
                 = Ok (res ++ render_lines (lines_of r (S (Z.to_nat counter))))%string).
    { destruct r as [|b cb bl bv br]; [by rewrite string_app_nil_r|].
      cbn [rootptr is_nil negb]. rewrite Hw.
      pose proof (IH (Node b cb bl bv br) (Some a) res (counter + 1) Hrr) as E.
      cbn [rootptr] in E. rewrite E; try done; try lia.
      by rewrite Hd. }
    rewrite Er. scbn.
    destruct (counter <? 0) eqn:E0; [lia|]. scbn.
    cbn [lines_of]. rewrite render_lines_app. cbn [render_lines].
    destruct l as [|b cb bl bv br].
    + cbn [rootptr is_nil negb lines_of render_lines]. f_equal.
      by rewrite !string_app_assoc.
    + cbn [rootptr is_nil negb]. rewrite Hw.
      match goal with
      | |- recString _ _ _ _ ?res0 _ = _ =>
          pose proof (IH (Node b cb bl bv br) (Some a) res0 (counter + 1) Hl) as E
      end.
      cbn [rootptr] in E. rewrite E; try done; try lia.
      rewrite Hd. f_equal. by rewrite !string_app_assoc.
Qed.

End Render.

(** X15.  [String] on a valid tree writes one line per node, from the
    largest value to the smallest; the line of a node at depth [d] is
    [d + 1] spaces, the value and a newline.  The empty tree gives the
    empty text. *)
Theorem X15_String_lines
    {T : Type} (f : T -> T -> Z) (show : T -> string) (rbt : RBTree T)
    (h : heap T) (t : tree) :
  Valid f rbt h t ->
  String_ show rbt h = Ok (render_lines show (lines_of t 0))
  /\ map snd (lines_of t 0) = rev (map snd (inorder t)).
Proof.
  intros [HR Hroot Hcmp Hrb Hso Hcount Hmin Hmax Hfits].
  split; [|apply lines_of_values].
  unfold String_. rewrite Hroot. destruct t as [|a c l v r]; [done|].
  cbn [rootptr is_nil].
  pose proof (Rep_fuel h Top _ HR) as Hfuel.
  pose proof (height_size (Node a c l v r)) as Hhs.
  apply (recString_spec show h (fuel_of h) (Node a c l v r) None EmptyString 0);
    [by destruct HR|done|simpl in *; lia|lia|lia].
Qed.

Lemma X15_String_lines_witness :
  String_ show_int demo_rbt demo_heap = Ok (render_lines show_int (lines_of demo_tree 0))
  /\ map snd (lines_of demo_tree 0) = rev (map snd (inorder demo_tree)).
Proof.
  apply (X15_String_lines Compare show_int demo_rbt demo_heap demo_tree).
  exact demo_valid.
Defined.

(** * [EqualTo] as a relation *)

Section EqRel.

Context {T : Type} (f : T -> T -> Z) (Hf : Comparator f).

Local Abbreviation tree := (@tree T).

Lemma cmp_eq_trans a b c : f a b = 0 -> f b c = 0 -> f a c = 0.
Proof.
  intros E1 E2.
  pose proof (cmp_eq_sym f Hf _ _ E1) as E1'. pose proof (cmp_eq_sym f Hf _ _ E2) as E2'.
  pose proof (cmp_trans f Hf a b c ltac:(lia) ltac:(lia)) as H1.
  pose proof (cmp_trans f Hf c b a ltac:(lia) ltac:(lia)) as H2.
  pose proof (cmp_flip f Hf a c) as H3. lia.
Qed.

Lemma same_nodes_refl (t : tree) : same_nodes f t t = true.
Proof.
  induction t as [|a c l IHl v r IHr]; simpl; [done|].
  rewrite (cmp_refl f Hf), IHl, IHr. by destruct c.
Qed.

Lemma same_nodes_sym (t1 : tree) : forall t2,
  same_nodes f t1 t2 = true -> same_nodes f t2 t1 = true.
Proof.
  induction t1 as [|a c l IHl v r IHr]; intros [|a' c' l' v' r']; simpl; try done.
  rewrite !andb_true_iff, !Z.eqb_eq. intros [[[E Ec] El] Er].
  split_and!; auto.
  - by apply (cmp_eq_sym f Hf).
  - by destruct c, c'.
Qed.

Lemma same_nodes_trans (t1 : tree) : forall t2 t3,
  same_nodes f t1 t2 = true -> same_nodes f t2 t3 = true -> same_nodes f t1 t3 = true.
Proof.
  induction t1 as [|a c l IHl v r IHr];
    intros [|a' c' l' v' r'] [|a'' c'' l'' v'' r'']; simpl; try done.
  rewrite !andb_true_iff, !Z.eqb_eq.
  intros [[[E Ec] El] Er] [[[E' Ec'] El'] Er']. split_and!; eauto.
  - by eapply cmp_eq_trans.
  - by destruct c, c', c''.
Qed.

Lemma same_nodes_size (t1 : tree) : forall t2,
  same_nodes f t1 t2 = true -> size t1 = size t2.
Proof.
  induction t1 as [|a c l IHl v r IHr]; intros [|a' c' l' v' r']; simpl; try done.
  rewrite !andb_true_iff. intros [[_ El] Er]. by rewrite (IHl _ El), (IHr _ Er).
Qed.

Lemma spec_EqualTo_true (c1 c2 : Z) (t1 t2 : tree) :
  c1 = Z.of_nat (size t1) -> c2 = Z.of_nat (size t2) ->
  spec_EqualTo f c1 c2 t1 t2 = same_nodes f t1 t2.
Proof.
  intros -> ->. unfold spec_EqualTo.
  destruct (same_nodes f t1 t2) eqn:E.
  - rewrite (same_nodes_size _ _ E), Z.eqb_refl. by destruct t1, t2.
  - destruct t1, t2; try done. cbn [is_empty negb andb orb]. by rewrite andb_false_r.
Qed.

Lemma EqualTo_same_nodes (rbt1 rbt2 : RBTree T) (h : heap T) (t1 t2 : tree) :
  Valid f rbt1 h t1 -> Valid f rbt2 h t2 ->
  EqualTo rbt1 (Some rbt2) h = Ok (same_nodes f t1 t2).
Proof.
  intros HV1 HV2.
  rewrite (EqualTo_spec f rbt1 rbt2 h t1 t2);
    [|exact (v_cmp _ _ _ _ HV1)|exact (v_rep _ _ _ _ HV1)|exact (v_root _ _ _ _ HV1)
     |exact (v_rep _ _ _ _ HV2)|exact (v_root _ _ _ _ HV2)].
  f_equal. apply spec_EqualTo_true; [exact (v_count _ _ _ _ HV1)|exact (v_count _ _ _ _ HV2)].
Qed.

End EqRel.

(** X16.  [EqualTo] with a nil argument is false.  Among valid trees with
    the same comparator it is an equivalence: every tree is equal to
    itself, the answer does not depend on which tree is the receiver, and
    two trees equal to a third are equal. *)
Theorem X16_EqualTo_equivalence
    {T : Type} (f : T -> T -> Z) (rbt1 rbt2 rbt3 : RBTree T) (h : heap T)
    (t1 t2 t3 : tree) :
  EqualTo rbt1 None h = Ok false
  /\ (Comparator f -> Valid f rbt1 h t1 -> Valid f rbt2 h t2 -> Valid f rbt3 h t3 ->
      EqualTo rbt1 (Some rbt1) h = Ok true
      /\ EqualTo rbt1 (Some rbt2) h = EqualTo rbt2 (Some rbt1) h
      /\ (EqualTo rbt1 (Some rbt2) h = Ok true -> EqualTo rbt2 (Some rbt3) h = Ok true ->
          EqualTo rbt1 (Some rbt3) h = Ok true)).
Proof.
  split; [done|]. intros Hf HV1 HV2 HV3.
  rewrite !(EqualTo_same_nodes f rbt1 rbt1 h t1 t1), !(EqualTo_same_nodes f rbt1 rbt2 h t1 t2),
    !(EqualTo_same_nodes f rbt2 rbt1 h t2 t1), !(EqualTo_same_nodes f rbt2 rbt3 h t2 t3),
    !(EqualTo_same_nodes f rbt1 rbt3 h t1 t3) by done.
  split_and!.
  - f_equal. by apply same_nodes_refl.
  - f_equal. destruct (same_nodes f t1 t2) eqn:E12, (same_nodes f t2 t1) eqn:E21; try done.
    + by rewrite (same_nodes_sym f Hf _ _ E12) in E21.
    + by rewrite (same_nodes_sym f Hf _ _ E21) in E12.
  - intros [= E12] [= E23]. f_equal. by eapply same_nodes_trans.
Qed.

Lemma X16_EqualTo_equivalence_witness :
  EqualTo pair_rbt1 None pair_heap = Ok false
  /\ EqualTo pair_rbt1 (Some pair_rbt1) pair_heap = Ok true
  /\ EqualTo pair_rbt1 (Some pair_rbt2) pair_heap = EqualTo pair_rbt2 (Some pair_rbt1) pair_heap
  /\ (EqualTo pair_rbt1 (Some pair_rbt2) pair_heap = Ok true ->
      EqualTo pair_rbt2 (Some pair_rbt1) pair_heap = Ok true ->
      EqualTo pair_rbt1 (Some pair_rbt1) pair_heap = Ok true).
Proof.
  split.
  - apply (proj1 (X16_EqualTo_equivalence Compare pair_rbt1 pair_rbt2 pair_rbt1 pair_heap
                    pair_tree1 pair_tree2 pair_tree1)).
  - apply (proj2 (X16_EqualTo_equivalence Compare pair_rbt1 pair_rbt2 pair_rbt1 pair_heap
                    pair_tree1 pair_tree2 pair_tree1)).
    + exact Comparator_Compare.
    + exact pair_valid1.
    + exact pair_valid2.
    + exact pair_valid1.
Defined.

(** * The height of a valid tree *)

Section Height.

Context {T : Type}.

Local Abbreviation tree := (@tree T).

Lemma RB_size (t : tree) : forall n, RB n t -> (2 ^ n <= size t + 1)%nat.
Proof.
  induction t as [|a c l IHl v r IHr]; intros n; simpl.
  - intros ->. simpl. lia.
  - destruct c.
    + destruct n as [|m]; [done|]. intros [Hl Hr].
      apply IHl in Hl. apply IHr in Hr. rewrite Nat.pow_succ_r'. lia.
    + intros (Hl & Hr & _). apply IHl in Hl. lia.
Qed.

Lemma RB_height_le (t : tree) : forall n,
  RB n t -> (height t <= 2 * n + (if isB t then 0 else 1))%nat.
Proof.
  induction t as [|a c l IHl v r IHr]; intros n; simpl.
  - lia.
  - destruct c.
    + destruct n as [|m]; [done|]. intros [Hl Hr].
      apply IHl in Hl. apply IHr in Hr. destruct (isB l), (isB r); lia.
    + intros (Hl & Hr & Hbl & Hbr). apply IHl in Hl. apply IHr in Hr.
      rewrite Hbl in Hl. rewrite Hbr in Hr. lia.
Qed.

Lemma RBtree_height (t : tree) :
  RBtree t -> (height t <= 2 * Nat.log2 (size t + 1))%nat.
Proof.
  intros [Hb [n Hrb]]. pose proof (RB_height_le t n Hrb) as Hh. rewrite Hb in Hh.
  pose proof (RB_size t n Hrb) as Hs.
  assert (n <= Nat.log2 (size t + 1))%nat.
  { rewrite <- (Nat.log2_pow2 n) by lia. by apply Nat.log2_le_mono. }
  lia.
Qed.

End Height.

(** X17.  A valid tree with [n] nodes has height at most [2 * log2 (n + 1)],
    and a search does not go deeper: [find] from the root answers within
    that many nested calls. *)
Theorem X17_logarithmic_height
    {T : Type} (f : T -> T -> Z) (rbt : RBTree T) (h : heap T) (t : tree) (val : T) :
  Valid f rbt h t -> t <> Leaf ->
  (height t <= 2 * Nat.log2 (Z.to_nat (Count rbt) + 1))%nat
  /\ find (2 * Nat.log2 (Z.to_nat (Count rbt) + 1)) h (cmp rbt) (root rbt) val
     = Ok (find_abs f val t).
Proof.
  intros [HR Hroot Hcmp Hrb Hso Hcount Hmin Hmax Hfits] Hne.
  rewrite Hcount, Nat2Z.id, Hroot, Hcmp.
  pose proof (RBtree_height t Hrb) as Hh. split; [done|].
  apply (find_spec f h val _ None t); [by destruct HR|done|done].
Qed.

Lemma X17_logarithmic_height_witness :
  (height demo_tree <= 2 * Nat.log2 (Z.to_nat (Count demo_rbt) + 1))%nat
  /\ find (2 * Nat.log2 (Z.to_nat (Count demo_rbt) + 1)) demo_heap (cmp demo_rbt)
       (root demo_rbt) 60
     = Ok (find_abs Compare 60 demo_tree).
Proof.
  apply (X17_logarithmic_height Compare demo_rbt demo_heap demo_tree 60).
  - exact demo_valid.
  - done.
Defined.

(** * Two trees in one heap *)

Section Frame.

Context {T : Type} (f : T -> T -> Z) (Hf : Comparator f).

Local Abbreviation node := (RBNode T).
Local Abbreviation heap := (list (RBNode T)).
Local Abbreviation tree := (@tree T).
Local Abbreviation ctx := (@ctx T).

(** The cells of [h] that are not nodes of [t] are the same in [h']. *)
Definition outside_kept (h : heap) (t : tree) (h' : heap) : Prop :=
  forall y, (y < length h)%nat -> y ∉ addrs t -> h' !! y = h !! y.

Lemma Insert_spec_frame (rbt : RBTree T) (h : heap) (t : tree) val :
  Valid f rbt h t -> Z.of_nat (size t) + 1 < 2 ^ 63 ->
  Post (Insert rbt h val)
       (fun res => Insert_post f rbt h t val res /\ outside_kept h t res.2).
Proof.
  intros [HR Hroot Hcmp Hrb Hso Hcount Hmin Hmax Hfits] Hfits'.
  unfold Insert. rewrite Hroot.
  destruct t as [|a c l x r].
  - (* the first node *)
    cbn [rootptr is_nil alloc]. apply Post_Ok. unfold Insert_post. cbn [find_abs].
    split; [|by intros y Hy _; apply lookup_app_l].
    split_and!; try done; [by rewrite length_app; simpl; lia|].
    exists (Node (length h) true Leaf val Leaf), [], []. split_and!; try done.
    split; simpl; try done.
    + split; [|apply NoDup_singleton]. simpl. by rewrite list_lookup_middle.
    + split; [done|]. by exists 1%nat.
    + apply StronglySorted_cons. split; [apply Forall_nil_2|constructor].
    + rewrite Hcount. simpl. by rewrite wrap_small.
  - cbn [rootptr is_nil negb].
    pose proof (Rep_fuel h Top _ HR) as Hfuel.
    pose proof (height_size (Node a c l x r)) as Hhs.
    pose proof (insert_spec f Hf h val (fuel_of h) Top a c l x r HR) as Hins.
    rewrite <- Hcmp in Hins.
    apply Post_bind. eapply Post_mono; [apply Hins; simpl in *; lia|]. clear Hins.
    intros [[p ok] h1] Hpost. unfold insert_post in Hpost. unfold Insert_post.
    pose proof (ins_path_find f val (Node a c l x r) Top) as Hpath.
    destruct (find_abs f val (Node a c l x r)) as [[a'|] b].
    { rewrite Hpath in Hpost. destruct Hpost as (-> & -> & ->). scbn. by apply Post_Ok. }
    pose proof Hpath as [k0 Hk0].
    assert (Hctx : forall y, y ∉ addrs (Node a c l x r) -> y ∉ ctx_addrs k0).
    { apply (ins_path_inr f Hf) in Hk0 as (Hplug0 & _ & _). simpl in Hplug0.
      intros y Hy Hin. apply Hy. rewrite <- Hplug0, addrs_plug. simpl. exact Hin. }
    destruct Hpath as [k Hk]. rewrite Hk in Hpost.
    assert (k0 = k) as -> by congruence. clear Hk0.
    destruct Hpost as (-> & -> & HR1 & Hlen & Hfr). scbn.
    apply (ins_path_inr f Hf) in Hk as (Hplug & Hne & Hbet). simpl in Hplug.
    specialize (Hne ltac:(done)).
    assert (Hb0 : between f val Top)
      by (split; intros ? ? Hin; by apply elem_of_nil in Hin).
    destruct (Hbet Hso Hb0) as [HB HA].
    set (new := length h) in *. set (t1 := plug k (Node new false Leaf val Leaf)) in *.
    assert (Eold : inorder (Node a c l x r) = ctx_before k ++ ctx_after k).
    { by rewrite <- Hplug, inorder_plug. }
    assert (Enew : inorder t1 = ctx_before k ++ (new, val) :: ctx_after k).
    { subst t1. by rewrite inorder_plug. }
    rewrite Eold in Hmin, Hmax.
    destruct (minmax_insert f Hf rbt h1 (ctx_before k) (ctx_after k) new val)
      as (mn & Emn & Hmm); try done.
    { rewrite <- Eold. apply inorder_ne. }
    { intros b' y Hin. eapply (Rep_inorder_lookup h1 t1); [done|].
      rewrite Enew. set_solver. }
    rewrite Emn. scbn. rewrite Hcmp at 1. cbn [call bind].
    apply Post_bind. eapply Post_mono; [exact Hmm|]. clear Hmm.
    intros rbt1 (Hroot1 & Hcmp1 & Hcount1 & Hmin1 & Hmax1).
    assert (Hr1 : root rbt1 = rootptr t1).
    { rewrite Hroot1, Hroot, <- Hplug. subst t1. by apply rootptr_plug. }
    destruct (fix_insert rbt1 h1 k val new HR1 Hr1) as (g & pn & Hg & Epn & Hfix);
      [by rewrite Hplug|done|].
    rewrite (load_Some _ _ _ (Rep_focus _ _ _ _ _ _ _ HR1)). scbn.
    rewrite Hg, Epn. scbn.
    apply Post_bind. eapply Post_mono; [exact Hfix|]. clear Hfix.
    intros [rbt2 h2] (t2 & [Hrbt2 HR2 Hin2 Hlen2 Hfr2] & Hrb2). cbn [fst snd] in *.
    change (inorder t2 = inorder t1) in Hin2.
    apply Post_Ok. split; cycle 1.
    { intros y Hy Hyt. cbn [snd]. specialize (Hctx y Hyt).
      rewrite Hfr2, Hfr; [done| |done|].
      - intros E. apply Hctx. destruct k; [done| |]; simpl in E; injection E as ->; left.
      - subst t1. rewrite addrs_plug. simpl. intros Hin.
        apply elem_of_cons in Hin as [->|Hin]; [subst new; lia|done]. }
    split_and!; try done; [congruence|].
    exists t2, (ctx_before k), (ctx_after k).
    split; [|split; [exact Eold|by rewrite Hin2]].
    assert (Hsz : size t2 = S (size (Node a c l x r))).
    { rewrite <- !size_inorder, Hin2, Enew, Eold, !length_app. simpl. lia. }
    subst rbt2. split; simpl; try done.
    + congruence.
    + unfold Sorted_tree. rewrite Hin2, Enew. apply Sorted_insert; try done.
      by rewrite <- Eold.
    + rewrite Hcount1, Hcount, Hsz. rewrite wrap_small; simpl in *; lia.
    + by rewrite Hin2, Enew.
    + by rewrite Hin2, Enew.
    + rewrite Hsz. simpl in *. lia.
Qed.

Lemma delete_struct_frame (rbt : RBTree T) (h : heap) k d c l v r :
  let t := plug k (Node d c l v r) in
  Rep h t -> root rbt = rootptr t -> RBtree t ->
  (k <> Top \/ l <> Leaf \/ r <> Leaf) ->
  Post (if is_nil (rootptr l) && is_nil (rootptr r) then deleteNoChildren rbt h (Some d)
        else if is_nil (rootptr l) then
          let* rn := load h (rootptr r) in
          let* h1 := store h (Some d) (set_Val (Val rn)) in
          let* h2 := store h1 (Some d) (set_right None) in
          Ok (rbt, h2)
        else if is_nil (rootptr r) then
          let* ln := load h (rootptr l) in
          let* h1 := store h (Some d) (set_Val (Val ln)) in
          let* h2 := store h1 (Some d) (set_left None) in
          Ok (rbt, h2)
        else
          let* '(w, rbt, h) := findAndDeleteLeftmost (fuel_of h) rbt h (rootptr r) in
          let* h := store h (Some d) (set_Val w) in
          Ok (rbt, h))
       (fun res =>
          struct_post rbt h d v (ctx_before k ++ inorder l) (inorder r ++ ctx_after k) res
          /\ forall y, y ∉ addrs (plug k (Node d c l v r)) -> res.2 !! y = h !! y).
Proof.
  intros t HR Hroot Hrb Hsize. subst t.
  pose proof Hrb as Hrb0. apply RB_plug_inv in Hrb0 as (n & Hn & Hctx & Hc).
  destruct l as [|l0 cl ll lv lr]; destruct r as [|r0 cr rl rv rr]; scbn.
  - (* no children *)
    assert (Hk : k <> Top) by (destruct Hsize as [?|[?|?]]; done).
    eapply Post_mono; [by apply deleteNoChildren_ok|].
    intros [rbt' h'] (t' & HR' & Hrbt & Hrb' & Hlen & Hin0 & Hin' & Hcell & Hfr).
    split; [|exact Hfr].
    exists t'. split_and!; try done. left. simpl. by rewrite app_nil_r.
  - (* a right child only *)
    destruct (RB_single_child n d c v r0 cr rl rv rr) as (-> & -> & -> & -> & ->);
      [by left|].
    eapply Post_mono; [by apply (onechild_right_spec rbt h k d true v r0 false rv)|].
    intros [rbt' h'] (-> & HR' & Hlen & Hfr).
    split; [|intros y Hy; apply Hfr; intros ->; apply Hy; rewrite addrs_plug; left].
    exists (plug k (Node d true Leaf rv Leaf)). split_and!; try done.
    + symmetry. apply set_root_id. rewrite Hroot. by apply rootptr_plug_same.
    + eapply (plug_RB k 1); simpl; auto.
    + right. left. exists r0, rv, (ctx_after k). split_and!; try done.
      * rewrite inorder_plug. simpl. by rewrite app_nil_r.
      * destruct HR as [Hr Hnd]. apply Repr_inner in Hr as (_ & _ & Hr0 & _).
        assert (Hne : r0 <> d).
        { apply NoDup_plug in Hnd. simpl in Hnd. apply NoDup_cons in Hnd as [Hnd _].
          set_solver. }
        eexists. split; [rewrite (Hfr _ Hne); exact Hr0|reflexivity].
  - (* a left child only *)
    destruct (RB_single_child n d c v l0 cl ll lv lr) as (-> & -> & -> & -> & ->);
      [by right|].
    eapply Post_mono; [by apply (onechild_left_spec rbt h k d true v l0 false lv)|].
    intros [rbt' h'] (-> & HR' & Hlen & Hfr).
    split; [|intros y Hy; apply Hfr; intros ->; apply Hy; rewrite addrs_plug; left].
    exists (plug k (Node d true Leaf lv Leaf)). split_and!; try done.
    + symmetry. apply set_root_id. rewrite Hroot. by apply rootptr_plug_same.
    + eapply (plug_RB k 1); simpl; auto.
    + right. right. exists l0, lv, (ctx_before k). split_and!; try done.
      * rewrite inorder_plug. simpl. done.
      * destruct HR as [Hr Hnd]. apply Repr_inner in Hr as (_ & (Hl0 & _) & _).
        assert (Hne : l0 <> d).
        { apply NoDup_plug in Hnd. simpl in Hnd. apply NoDup_cons in Hnd as [Hnd _].
          set_solver. }
        eexists. split; [rewrite (Hfr _ Hne); exact Hl0|reflexivity].
  - (* two children *)
    apply Post_bind.
    pose proof (Rep_fuel h (CR d c (Node l0 cl ll lv lr) v k) _ HR) as Hfuel.
    pose proof (height_size (Node r0 cr rl rv rr)) as Hhs.
    eapply Post_mono;
      [apply (fdl_ok rbt h (fuel_of h) (CR d c (Node l0 cl ll lv lr) v k) r0 cr rl rv rr);
       try done; lia|].
    intros [[w rbt'] h'] (s & A0 & Hin & t1 & HR1 & Hrbt & Hrb1 & Hlen & Hin0 & Hin1 & Hcell & Hfr).
    cbn [ctx_before ctx_after plug] in Hin0, Hin1.
    rewrite <- !app_assoc in Hin1. simpl in Hin1.
    rewrite (app_assoc (ctx_before k)) in Hin1.
    destruct (focus_of_inorder t1 _ d v _ Hin1) as (k1 & c1 & l1 & r1 & -> & HB1 & HA1);
      [by destruct HR1|].
    destruct (store_focus h' k1 d c1 l1 v r1 (set_Val w)) as (h2 & E & HR2 & Hlen2 & Hfr2);
      [done|done|].
    rewrite E. scbn. apply Post_Ok. simpl in HR2.
    split; [|intros y Hy; cbn [snd]; rewrite Hfr2, Hfr;
             [done|exact Hy|intros ->; apply Hy; rewrite addrs_plug; left]].
    exists (plug k1 (Node d c1 l1 w r1)). split_and!; try done.
    + rewrite Hrbt. f_equal. by apply rootptr_plug_same.
    + by eapply RBtree_setval.
    + congruence.
    + right. left. exists s, w, (A0 ++ ctx_after k). rewrite Hin. split_and!.
      * reflexivity.
      * rewrite inorder_plug. simpl. rewrite HB1, HA1.
        by repeat (rewrite <- app_assoc || rewrite <- app_comm_cons).
      * destruct Hcell as (nx & Hnx & Hval). exists nx. split; [|done].
        rewrite Hfr2; [done|]. intros ->.
        destruct HR as [_ Hnd]. apply NoDup_inorder in Hnd.
        rewrite Hin0 in Hnd. rewrite <- !app_assoc in Hnd.
        rewrite !map_app in Hnd.
        apply NoDup_app in Hnd as (_ & _ & Hnd).
        apply NoDup_app in Hnd as (_ & _ & Hnd). simpl in Hnd.
        apply NoDup_cons in Hnd as [Hnd _]. apply Hnd. left.
Qed.

Context (zero : T).

Lemma Delete_spec_frame (rbt : RBTree T) (h : heap) (t : tree) val :
  Valid f rbt h t ->
  Post (Delete zero rbt h val)
       (fun res => Delete_post f zero rbt h t val res /\ outside_kept h t res.2).
Proof.
  intros [HR Hroot Hcmp Hrb Hso Hcount Hmin Hmax Hfits].
  unfold Delete, Delete_post. rewrite Hroot.
  assert (Hdec : t = Leaf \/ t <> Leaf) by (destruct t; [by left|by right]).
  destruct Hdec as [->|Hne].
  { cbn [rootptr is_nil find_abs]. by apply Post_Ok. }
  assert (Hnil : is_nil (rootptr t) = false) by (by destruct t).
  rewrite Hnil, Hcmp.
  pose proof (Rep_fuel h Top _ HR) as Hfuel. pose proof (height_size t) as Hhs.
  rewrite (find_spec f h val (fuel_of h) None t);
    [|by destruct HR|done|simpl in Hfuel; lia].
  destruct (find_abs f val t) as [p b] eqn:Hfind.
  destruct (find_abs_found f Hf val t p b Hfind) as [[-> ->]|(-> & d & v & -> & Hin & Hfv)].
  { scbn. by apply Post_Ok. }
  apply list_elem_of_split in Hin as (B & A & E).
  destruct (focus_of_inorder t B d v A E) as (k & cd & dl & dr & Ht & HB & HA);
    [by destruct HR|].
  pose proof HR as HR0. rewrite Ht in HR0.
  pose proof (Rep_focus _ _ _ _ _ _ _ HR0) as Hd.
  scbn. rewrite (load_Some _ _ _ Hd). scbn.
  assert (Hsize : size t = S (length (B ++ A))).
  { rewrite <- size_inorder, E, !length_app. simpl. lia. }
  rewrite Hcount, wrap_small by lia.
  destruct (decide (B ++ A = [])) as [Hemp|Hnemp].
  - (* the last node *)
    rewrite Hemp in Hsize. simpl in Hsize. rewrite Hsize. cbn [Z.of_nat Z.sub Z.eqb].
    apply Post_Ok. split; [|done]. split_and!; try done.
    exists B, v, A, Leaf. split_and!; try done; [|by rewrite Hemp].
    by apply Valid_empty.
  - assert (Hsz2 : (2 <= size t)%nat).
    { rewrite Hsize. destruct (B ++ A); [done|simpl; lia]. }
    destruct (Z.of_nat (size t) - 1 =? 0) eqn:E0; [lia|]. clear E0.
    set (rbt0 := set_Count (Z.of_nat (size t) - 1) rbt).
    destruct (min_pre f Hf rbt0 h t B d v A HR E Hso Hmin) as (mn & Emn & Hpmin).
    change (Min rbt0) with (Min rbt) in Emn. rewrite Emn. scbn.
    rewrite Hcmp. cbn [call bind]. apply Post_bind.
    eapply Post_mono; [exact Hpmin|]. clear Hpmin.
    intros rbt1 (Hr1 & Hc1 & Hn1 & HM1 & Hm1).
    destruct (max_pre f Hf rbt1 h t B d v A HR E Hso (eq_trans HM1 Hmax)) as (mx & Emx & Hpmax).
    rewrite Emx. scbn. rewrite Hc1. change (cmp rbt0) with (cmp rbt). rewrite Hcmp.
    cbn [call bind]. apply Post_bind.
    eapply Post_mono; [exact Hpmax|]. clear Hpmax.
    intros rbt2 (Hr2 & Hc2 & Hn2 & Hm2 & HM2).
    apply Post_bind. unfold deleteCheckChildren.
    rewrite (load_Some _ _ _ Hd). scbn. apply Post_bind.
    assert (Hroot2 : root rbt2 = rootptr (plug k (Node d cd dl v dr))).
    { rewrite Hr2, Hr1, <- Ht. exact Hroot. }
    assert (Hk : k <> Top \/ dl <> Leaf \/ dr <> Leaf).
    { destruct k; [|by left..]. destruct dl; [|by right; left].
      destruct dr; [|by right; right]. subst t. simpl in Hsz2. lia. }
    rewrite Ht in Hrb.
    eapply Post_mono; [exact (delete_struct_frame rbt2 h k d cd dl v dr HR0 Hroot2 Hrb Hk)|].
    rewrite <- HB, <- HA.
    intros [rbt3 h3] [(t' & HR3 & Hrbt3 & Hrb3 & Hlen3 & Hshape) Hfr3].
    unfold Sorted_tree in Hso. rewrite E in Hso.
    destruct (struct_renamed f Hf h3 t' B A d v HR3 Hso Hshape) as (dv & Hdv & Hren & Hcells).
    assert (Hcmp3 : cmp rbt3 = Some f).
    { rewrite Hrbt3. cbn. rewrite Hc2, Hc1. exact Hcmp. }
    assert (Hmin3 : Min rbt3 = first_addr (B ++ A)) by (rewrite Hrbt3; cbn; congruence).
    assert (Hmax3 : Max rbt3 = last_addr (B ++ A)) by (rewrite Hrbt3; cbn; congruence).
    pose proof (Sorted_remove f _ _ _ Hso) as Hso'.
    eapply Post_mono;
      [exact (repoint_spec f Hf rbt3 h3 (B ++ A) (inorder t') d dv Hcmp3 Hso' Hnemp
                Hmin3 Hmax3 Hcells Hdv Hren)|].
    intros [rbt4 h4] (-> & Hr4 & Hc4 & Hn4 & Hm4 & HM4).
    apply Post_Ok. split; [|intros y _ Hy; apply Hfr3; by rewrite <- Ht].
    split_and!; try done.
    pose proof (renamed_snd _ _ _ _ _ Hren) as Hsnd.
    exists B, v, A, t'. split_and!; try done.
    split; try done.
    + rewrite Hr4, Hrbt3. done.
    + congruence.
    + unfold Sorted_tree. eapply Sorted_snd; [|exact Hso']. done.
    + rewrite Hn4, Hrbt3. cbn. rewrite Hn2, Hn1. cbn.
      rewrite <- (size_inorder t'), <- (length_map snd), Hsnd, length_map. lia.
    + rewrite <- (size_inorder t'), <- (length_map snd), Hsnd, length_map. lia.
Qed.

End Frame.

Section Others.

Context {T : Type}.

Lemma Valid_outside (g : T -> T -> Z) (rbt0 : RBTree T) (h h' : heap T) (t t0 : tree) :
  Valid g rbt0 h t0 -> outside_kept h t h' ->
  (forall a, a ∈ addrs t0 -> a ∉ addrs t) -> Valid g rbt0 h' t0.
Proof.
  intros [[Hr Hnd] Hroot Hcmp Hrb Hso Hcount Hmin Hmax Hfits] Hout Hdisj.
  split; try done. split; [|done].
  eapply Repr_frame; [exact Hr|]. intros x Hx. apply Hout; [|by apply Hdisj].
  exact (Repr_lt _ _ _ _ Hr Hx).
Qed.

End Others.

(** X18.  [Insert] writes only to cells of its own tree and to the cell it
    allocates: every other cell of the heap is left as it was, so a second
    valid tree kept in other cells, whatever its comparator, is the same
    valid tree afterwards. *)
Theorem X18_insert_leaves_other_cells
    {T : Type} (f g : T -> T -> Z) (rbt rbt0 : RBTree T) (h : heap T)
    (t t0 : tree) (val : T) :
  Comparator f -> Valid f rbt h t -> Z.of_nat (size t) + 1 < 2 ^ 63 ->
  Valid g rbt0 h t0 -> (forall a, a ∈ addrs t0 -> a ∉ addrs t) ->
  exists p ok rbt' h',
    Insert rbt h val = Ok (p, ok, rbt', h')
    /\ (forall y, (y < length h)%nat -> y ∉ addrs t -> h' !! y = h !! y)
    /\ Valid g rbt0 h' t0.
Proof.
  intros Hf HV Hfits HV0 Hdisj.
  destruct (Insert_spec_frame f Hf rbt h t val HV Hfits)
    as ([[[p ok] rbt'] h'] & E & _ & Hout).
  exists p, ok, rbt', h'. split_and!; [done|exact Hout|].
  by apply (Valid_outside g rbt0 h h' t t0).
Qed.

Lemma X18_insert_leaves_other_cells_witness :
  exists p ok rbt' h',
    Insert pair_rbt1 pair_heap 7 = Ok (p, ok, rbt', h')
    /\ (forall y, (y < length pair_heap)%nat -> y ∉ addrs pair_tree1 ->
          h' !! y = pair_heap !! y)
    /\ Valid Compare pair_rbt2 h' pair_tree2.
Proof.
  apply (X18_insert_leaves_other_cells Compare Compare pair_rbt1 pair_rbt2 pair_heap
           pair_tree1 pair_tree2 7).
  - exact Comparator_Compare.
  - exact pair_valid1.
  - simpl. lia.
  - exact pair_valid2.
  - intros a Ha. simpl in *. set_solver.
Defined.

(** X19.  [Delete] writes only to cells of its own tree, so a second
    valid tree kept in other cells is the same valid tree afterwards. *)
Theorem X19_delete_leaves_other_cells
    {T : Type} (f g : T -> T -> Z) (zero : T) (rbt rbt0 : RBTree T) (h : heap T)
    (t t0 : tree) (val : T) :
  Comparator f -> Valid f rbt h t ->
  Valid g rbt0 h t0 -> (forall a, a ∈ addrs t0 -> a ∉ addrs t) ->
  exists del ok rbt' h',
    Delete zero rbt h val = Ok (del, ok, rbt', h')
    /\ (forall y, (y < length h)%nat -> y ∉ addrs t -> h' !! y = h !! y)
    /\ Valid g rbt0 h' t0.
Proof.
  intros Hf HV HV0 Hdisj.
  destruct (Delete_spec_frame f Hf zero rbt h t val HV)
    as ([[[del ok] rbt'] h'] & E & _ & Hout).
  exists del, ok, rbt', h'. split_and!; [done|exact Hout|].
  by apply (Valid_outside g rbt0 h h' t t0).
Qed.

Lemma X19_delete_leaves_other_cells_witness :
  exists del ok rbt' h',
    Delete 0 pair_rbt1 pair_heap 1 = Ok (del, ok, rbt', h')
    /\ (forall y, (y < length pair_heap)%nat -> y ∉ addrs pair_tree1 ->
          h' !! y = pair_heap !! y)
    /\ Valid Compare pair_rbt2 h' pair_tree2.
Proof.
  apply (X19_delete_leaves_other_cells Compare Compare 0 pair_rbt1 pair_rbt2 pair_heap
           pair_tree1 pair_tree2 1).
  - exact Comparator_Compare.
  - exact pair_valid1.
  - exact pair_valid2.
  - intros a Ha. simpl in *. set_solver.
Defined.

(** X20.  A clone is a deep copy: inserting into the clone or deleting from
    it leaves the original the valid tree it was, node for node. *)
Theorem X20_clone_is_independent
    {T : Type} (f : T -> T -> Z) (zero : T) (rbt : RBTree T) (h : heap T)
    (t : tree) (val : T) :
  Comparator f -> Valid f rbt h t -> Z.of_nat (size t) + 1 < 2 ^ 63 ->
  exists c h1,
    Clone rbt h = Ok (c, h1)
    /\ (exists p ok c' h2, Insert c h1 val = Ok (p, ok, c', h2) /\ Valid f rbt h2 t)
    /\ (exists del ok c' h2, Delete zero c h1 val = Ok (del, ok, c', h2) /\ Valid f rbt h2 t).
Proof.
  intros Hf HV Hfits.
  destruct (Clone_spec f rbt h t HV) as (c & h1 & E & HVc & Hfr).
  pose proof (Valid_frame f rbt h h1 t HV Hfr) as HV1.
  assert (Hdisj : forall a, a ∈ addrs t -> a ∉ addrs (clone_tree (length h) t)).
  { intros a Ha Ha'. rewrite clone_addrs in Ha'. apply elem_of_seq in Ha'.
    pose proof (Repr_lt _ _ _ _ (proj1 (v_rep _ _ _ _ HV)) Ha). lia. }
  exists c, h1. split_and!; [done| |].
  - destruct (Insert_spec_frame f Hf c h1 _ val HVc) as ([[[p ok] c'] h2] & E2 & _ & Hout).
    { by rewrite clone_size. }
    exists p, ok, c', h2. split; [done|].
    by apply (Valid_outside f rbt h1 h2 (clone_tree (length h) t) t).
  - destruct (Delete_spec_frame f Hf zero c h1 _ val HVc) as ([[[del ok] c'] h2] & E2 & _ & Hout).
    exists del, ok, c', h2. split; [done|].
    by apply (Valid_outside f rbt h1 h2 (clone_tree (length h) t) t).
Qed.

Lemma X20_clone_is_independent_witness :
  exists c h1,
    Clone demo_rbt demo_heap = Ok (c, h1)
    /\ (exists p ok c' h2, Insert c h1 60 = Ok (p, ok, c', h2)
                           /\ Valid Compare demo_rbt h2 demo_tree)
    /\ (exists del ok c' h2, Delete 0 c h1 60 = Ok (del, ok, c', h2)
                             /\ Valid Compare demo_rbt h2 demo_tree).
Proof.
  apply (X20_clone_is_independent Compare 0 demo_rbt demo_heap demo_tree 60).
  - exact Comparator_Compare.
  - exact demo_valid.
  - simpl. lia.
Defined.

(** * Which node a deletion unlinks *)

Section Swap.

Context {T : Type} (f : T -> T -> Z) (Hf : Comparator f) (zero : T).

Local Abbreviation node := (RBNode T).
Local Abbreviation heap := (list (RBNode T)).
Local Abbreviation tree := (@tree T).
Local Abbreviation ctx := (@ctx T).

(** The traversal [N] after the value of the node [d], with subtrees [l]
    and [r], between [B] and [A], has been deleted.  With a right subtree,
    [d] stays and takes the value of its successor [x], and [x] is gone;
    with a left subtree only, [d] takes the value of its predecessor [x],
    and [x] is gone; without children, [d] is gone. *)
Definition swap_shape (d : addr) (l r : tree) (B A N : list (addr * T)) : Prop :=
  match r, l with
  | Node _ _ _ _ _, _ => exists x w A', A = (x, w) :: A' /\ N = B ++ (d, w) :: A'
  | Leaf, Node _ _ _ _ _ => exists x w B', B = B' ++ [(x, w)] /\ N = B' ++ (d, w) :: A
  | Leaf, Leaf => N = B ++ A
  end.

Definition struct_sharp (rbt : RBTree T) (h : heap) (d : addr) (v : T) (l r : tree)
    (B A : list (addr * T)) (res : RBTree T * heap) : Prop :=
  let '(rbt', h') := res in
  exists t',
    Rep h' t' /\ rbt' = set_root (rootptr t') rbt /\ RBtree t'
    /\ length h' = length h
    /\ ((inorder t' = B ++ A /\ cellval h' d v)
        \/ (exists x w A', A = (x, w) :: A' /\ inorder t' = B ++ (d, w) :: A'
                          /\ cellval h' x w)
        \/ (exists x w B', B = B' ++ [(x, w)] /\ inorder t' = B' ++ (d, w) :: A
                          /\ cellval h' x w))
    /\ swap_shape d l r B A (inorder t').

Lemma delete_struct_sharp (rbt : RBTree T) (h : heap) k d c l v r :
  let t := plug k (Node d c l v r) in
  Rep h t -> root rbt = rootptr t -> RBtree t ->
  (k <> Top \/ l <> Leaf \/ r <> Leaf) ->
  Post (if is_nil (rootptr l) && is_nil (rootptr r) then deleteNoChildren rbt h (Some d)
        else if is_nil (rootptr l) then
          let* rn := load h (rootptr r) in
          let* h1 := store h (Some d) (set_Val (Val rn)) in
          let* h2 := store h1 (Some d) (set_right None) in
          Ok (rbt, h2)
        else if is_nil (rootptr r) then
          let* ln := load h (rootptr l) in
          let* h1 := store h (Some d) (set_Val (Val ln)) in
          let* h2 := store h1 (Some d) (set_left None) in
          Ok (rbt, h2)
        else
          let* '(w, rbt, h) := findAndDeleteLeftmost (fuel_of h) rbt h (rootptr r) in
          let* h := store h (Some d) (set_Val w) in
          Ok (rbt, h))
       (struct_sharp rbt h d v l r (ctx_before k ++ inorder l) (inorder r ++ ctx_after k)).
Proof.
  intros t HR Hroot Hrb Hsize. subst t.
  pose proof Hrb as Hrb0. apply RB_plug_inv in Hrb0 as (n & Hn & Hctx & Hc).
  destruct l as [|l0 cl ll lv lr]; destruct r as [|r0 cr rl rv rr]; scbn.
  - (* no children *)
    assert (Hk : k <> Top) by (destruct Hsize as [?|[?|?]]; done).
    eapply Post_mono; [by apply deleteNoChildren_ok|].
    intros [rbt' h'] (t' & HR' & Hrbt & Hrb' & Hlen & Hin0 & Hin' & Hcell & Hfr).
    exists t'. split_and!; try done.
    + left. simpl. by rewrite app_nil_r.
    + simpl. by rewrite app_nil_r.
  - (* a right child only *)
    destruct (RB_single_child n d c v r0 cr rl rv rr) as (-> & -> & -> & -> & ->);
      [by left|].
    eapply Post_mono; [by apply (onechild_right_spec rbt h k d true v r0 false rv)|].
    intros [rbt' h'] (-> & HR' & Hlen & Hfr).
    exists (plug k (Node d true Leaf rv Leaf)). split_and!; try done.
    + symmetry. apply set_root_id. rewrite Hroot. by apply rootptr_plug_same.
    + eapply (plug_RB k 1); simpl; auto.
    + right. left. exists r0, rv, (ctx_after k). split_and!; try done.
      * rewrite inorder_plug. simpl. by rewrite app_nil_r.
      * destruct HR as [Hr Hnd]. apply Repr_inner in Hr as (_ & _ & Hr0 & _).
        assert (Hne : r0 <> d).
        { apply NoDup_plug in Hnd. simpl in Hnd. apply NoDup_cons in Hnd as [Hnd _].
          set_solver. }
        eexists. split; [rewrite (Hfr _ Hne); exact Hr0|reflexivity].
    + exists r0, rv, (ctx_after k). split; [done|].
      rewrite inorder_plug. simpl. by rewrite app_nil_r.
  - (* a left child only *)
    destruct (RB_single_child n d c v l0 cl ll lv lr) as (-> & -> & -> & -> & ->);
      [by right|].
    eapply Post_mono; [by apply (onechild_left_spec rbt h k d true v l0 false lv)|].
    intros [rbt' h'] (-> & HR' & Hlen & Hfr).
    exists (plug k (Node d true Leaf lv Leaf)). split_and!; try done.
    + symmetry. apply set_root_id. rewrite Hroot. by apply rootptr_plug_same.
    + eapply (plug_RB k 1); simpl; auto.
    + right. right. exists l0, lv, (ctx_before k). split_and!; try done.
      * rewrite inorder_plug. simpl. done.
      * destruct HR as [Hr Hnd]. apply Repr_inner in Hr as (_ & (Hl0 & _) & _).
        assert (Hne : l0 <> d).
        { apply NoDup_plug in Hnd. simpl in Hnd. apply NoDup_cons in Hnd as [Hnd _].
          set_solver. }
        eexists. split; [rewrite (Hfr _ Hne); exact Hl0|reflexivity].
    + exists l0, lv, (ctx_before k). split; [done|].
      rewrite inorder_plug. simpl. done.
  - (* two children *)
    apply Post_bind.
    pose proof (Rep_fuel h (CR d c (Node l0 cl ll lv lr) v k) _ HR) as Hfuel.
    pose proof (height_size (Node r0 cr rl rv rr)) as Hhs.
    eapply Post_mono;
      [apply (fdl_ok rbt h (fuel_of h) (CR d c (Node l0 cl ll lv lr) v k) r0 cr rl rv rr);
       try done; lia|].
    intros [[w rbt'] h'] (s & A0 & Hin & t1 & HR1 & Hrbt & Hrb1 & Hlen & Hin0 & Hin1 & Hcell & Hfr).
    cbn [ctx_before ctx_after plug] in Hin0, Hin1.
    rewrite <- !app_assoc in Hin1. simpl in Hin1.
    rewrite (app_assoc (ctx_before k)) in Hin1.
    destruct (focus_of_inorder t1 _ d v _ Hin1) as (k1 & c1 & l1 & r1 & -> & HB1 & HA1);
      [by destruct HR1|].
    destruct (store_focus h' k1 d c1 l1 v r1 (set_Val w)) as (h2 & E & HR2 & Hlen2 & Hfr2);
      [done|done|].
    rewrite E. scbn. apply Post_Ok. simpl in HR2.
    exists (plug k1 (Node d c1 l1 w r1)). split_and!; try done.
    + rewrite Hrbt. f_equal. by apply rootptr_plug_same.
    + by eapply RBtree_setval.
    + congruence.
    + right. left. exists s, w, (A0 ++ ctx_after k). rewrite Hin. split_and!.
      * reflexivity.
      * rewrite inorder_plug. simpl. rewrite HB1, HA1.
        by repeat (rewrite <- app_assoc || rewrite <- app_comm_cons).
      * destruct Hcell as (nx & Hnx & Hval). exists nx. split; [|done].
        rewrite Hfr2; [done|]. intros ->.
        destruct HR as [_ Hnd]. apply NoDup_inorder in Hnd.
        rewrite Hin0 in Hnd. rewrite <- !app_assoc in Hnd.
        rewrite !map_app in Hnd.
        apply NoDup_app in Hnd as (_ & _ & Hnd).
        apply NoDup_app in Hnd as (_ & _ & Hnd). simpl in Hnd.
        apply NoDup_cons in Hnd as [Hnd _]. apply Hnd. left.
    + exists s, w, (A0 ++ ctx_after k). rewrite Hin. split; [reflexivity|].
      rewrite inorder_plug. simpl. rewrite HB1, HA1.
      by repeat (rewrite <- app_assoc || rewrite <- app_comm_cons).
Qed.

Definition Delete_node_post (d : addr) (l r : tree) (B A : list (addr * T)) (v : T)
    (res : T * bool * RBTree T * heap) : Prop :=
  let '(del, ok, rbt', h') := res in
  del = v /\ ok = true
  /\ exists t', Valid f rbt' h' t' /\ swap_shape d l r B A (inorder t').

Lemma Delete_spec_node (rbt : RBTree T) (h : heap) k d cd dl v dr val :
  Valid f rbt h (plug k (Node d cd dl v dr)) -> f val v = 0 ->
  Post (Delete zero rbt h val)
       (Delete_node_post d dl dr (ctx_before k ++ inorder dl) (inorder dr ++ ctx_after k) v).
Proof.
  intros HV Hfv. remember (plug k (Node d cd dl v dr)) as t eqn:Ht.
  destruct HV as [HR Hroot Hcmp Hrb Hso Hcount Hmin Hmax Hfits].
  remember (ctx_before k ++ inorder dl) as B eqn:HB.
  remember (inorder dr ++ ctx_after k) as A eqn:HA.
  assert (E : inorder t = B ++ (d, v) :: A).
  { rewrite Ht, inorder_plug, HB, HA. simpl.
    by repeat (rewrite <- app_assoc || rewrite <- app_comm_cons). }
  unfold Delete, Delete_node_post. rewrite Hroot.
  assert (Hne : t <> Leaf).
  { intros ->. apply (f_equal length) in E. rewrite length_app in E. simpl in E. lia. }
  assert (Hnil : is_nil (rootptr t) = false) by (by destruct t).
  rewrite Hnil, Hcmp.
  pose proof (Rep_fuel h Top _ HR) as Hfuel. pose proof (height_size t) as Hhs.
  rewrite (find_spec f h val (fuel_of h) None t);
    [|by destruct HR|done|simpl in Hfuel; lia].
  rewrite (find_abs_at f Hf t val d v Hso); [|rewrite E; set_solver|done].
  pose proof HR as HR0. rewrite Ht in HR0.
  pose proof (Rep_focus _ _ _ _ _ _ _ HR0) as Hd.
  scbn. rewrite (load_Some _ _ _ Hd). scbn.
  assert (Hsize : size t = S (length (B ++ A))).
  { rewrite <- size_inorder, E, !length_app. simpl. lia. }
  rewrite Hcount, wrap_small by lia.
  destruct (decide (B ++ A = [])) as [Hemp|Hnemp].
  - (* the last node *)
    rewrite Hemp in Hsize. simpl in Hsize. rewrite Hsize. cbn [Z.of_nat Z.sub Z.eqb].
    apply Post_Ok. split_and!; try done. exists Leaf.
    split; [by apply Valid_empty|].
    apply app_eq_nil in Hemp as [-> ->].
    symmetry in HB, HA.
    apply app_eq_nil in HB as [HB1 HB]. apply app_eq_nil in HA as [HA HA1].
    apply inorder_nil in HB, HA. subst dl dr. done.
  - assert (Hsz2 : (2 <= size t)%nat).
    { rewrite Hsize. destruct (B ++ A); [done|simpl; lia]. }
    destruct (Z.of_nat (size t) - 1 =? 0) eqn:E0; [lia|]. clear E0.
    set (rbt0 := set_Count (Z.of_nat (size t) - 1) rbt).
    destruct (min_pre f Hf rbt0 h t B d v A HR E Hso Hmin) as (mn & Emn & Hpmin).
    change (Min rbt0) with (Min rbt) in Emn. rewrite Emn. scbn.
    rewrite Hcmp. cbn [call bind]. apply Post_bind.
    eapply Post_mono; [exact Hpmin|]. clear Hpmin.
    intros rbt1 (Hr1 & Hc1 & Hn1 & HM1 & Hm1).
    destruct (max_pre f Hf rbt1 h t B d v A HR E Hso (eq_trans HM1 Hmax)) as (mx & Emx & Hpmax).
    rewrite Emx. scbn. rewrite Hc1. change (cmp rbt0) with (cmp rbt). rewrite Hcmp.
    cbn [call bind]. apply Post_bind.
    eapply Post_mono; [exact Hpmax|]. clear Hpmax.
    intros rbt2 (Hr2 & Hc2 & Hn2 & Hm2 & HM2).
    apply Post_bind. unfold deleteCheckChildren.
    rewrite (load_Some _ _ _ Hd). scbn. apply Post_bind.
    assert (Hroot2 : root rbt2 = rootptr (plug k (Node d cd dl v dr))).
    { rewrite Hr2, Hr1, <- Ht. exact Hroot. }
    assert (Hk : k <> Top \/ dl <> Leaf \/ dr <> Leaf).
    { destruct k; [|by left..]. destruct dl; [|by right; left].
      destruct dr; [|by right; right]. subst t. simpl in Hsz2. lia. }
    rewrite Ht in Hrb.
    eapply Post_mono; [exact (delete_struct_sharp rbt2 h k d cd dl v dr HR0 Hroot2 Hrb Hk)|].
    rewrite <- HB, <- HA.
    intros [rbt3 h3] (t' & HR3 & Hrbt3 & Hrb3 & Hlen3 & Hshape & Hsharp).
    unfold Sorted_tree in Hso. rewrite E in Hso.
    destruct (struct_renamed f Hf h3 t' B A d v HR3 Hso Hshape) as (dv & Hdv & Hren & Hcells).
    assert (Hcmp3 : cmp rbt3 = Some f).
    { rewrite Hrbt3. cbn. rewrite Hc2, Hc1. exact Hcmp. }
    assert (Hmin3 : Min rbt3 = first_addr (B ++ A)) by (rewrite Hrbt3; cbn; congruence).
    assert (Hmax3 : Max rbt3 = last_addr (B ++ A)) by (rewrite Hrbt3; cbn; congruence).
    pose proof (Sorted_remove f _ _ _ Hso) as Hso'.
    eapply Post_mono;
      [exact (repoint_spec f Hf rbt3 h3 (B ++ A) (inorder t') d dv Hcmp3 Hso' Hnemp
                Hmin3 Hmax3 Hcells Hdv Hren)|].
    intros [rbt4 h4] (-> & Hr4 & Hc4 & Hn4 & Hm4 & HM4).
    apply Post_Ok.
    pose proof (renamed_snd _ _ _ _ _ Hren) as Hsnd.
    split_and!; try done. exists t'. split; [|done].
    split; try done.
    + rewrite Hr4, Hrbt3. done.
    + congruence.
    + unfold Sorted_tree. eapply Sorted_snd; [|exact Hso']. done.
    + rewrite Hn4, Hrbt3. cbn. rewrite Hn2, Hn1. cbn.
      rewrite <- (size_inorder t'), <- (length_map snd), Hsnd, length_map. lia.
    + rewrite <- (size_inorder t'), <- (length_map snd), Hsnd, length_map. lia.
Qed.

End Swap.

(** X21.  Deleting the value held by a node with a right subtree does not
    unlink that node: the node stays in the tree and takes the value of its
    in-order successor, whose node is the one removed.  With a left subtree
    only it takes the value of its predecessor, whose node is removed, and
    only a node without children is itself removed.  All other nodes keep
    their values. *)
Theorem X21_delete_unlinks_a_neighbour_node
    {T : Type} (f : T -> T -> Z) (zero : T) (rbt : RBTree T) (h : heap T)
    (k : ctx) (d : addr) (c : bool) (l : tree) (v : T) (r : tree) (val : T) :
  Comparator f -> Valid f rbt h (plug k (Node d c l v r)) -> f val v = 0 ->
  exists rbt' h' t',
    Delete zero rbt h val = Ok (v, true, rbt', h')
    /\ Valid f rbt' h' t'
    /\ (r <> Leaf ->
        exists x w A', inorder r ++ ctx_after k = (x, w) :: A'
          /\ inorder t' = (ctx_before k ++ inorder l) ++ (d, w) :: A')
    /\ (r = Leaf -> l <> Leaf ->
        exists x w B', ctx_before k ++ inorder l = B' ++ [(x, w)]
          /\ inorder t' = B' ++ (d, w) :: ctx_after k)
    /\ (r = Leaf -> l = Leaf -> inorder t' = ctx_before k ++ ctx_after k).
Proof.
  intros Hf HV Hfv.
  destruct (Delete_spec_node f Hf zero rbt h k d c l v r val HV Hfv)
    as ([[[del ok] rbt'] h'] & E & -> & -> & t' & HV' & Hsh).
  exists rbt', h', t'. split_and!; try done.
  - intros Hr. destruct r; [done|]. exact Hsh.
  - intros -> Hl. destruct l; [done|]. simpl in Hsh. exact Hsh.
  - intros -> ->. simpl in Hsh. by rewrite app_nil_r in Hsh.
Qed.

Lemma X21_delete_unlinks_a_neighbour_node_witness :
  exists rbt' h' t',
    Delete 0 demo_rbt demo_heap 70 = Ok (70, true, rbt', h')
    /\ Valid Compare rbt' h' t'
    /\ inorder t' = [(3%nat, 20); (1%nat, 50); (4%nat, 60); (0%nat, 75); (2%nat, 80); (6%nat, 100)].
Proof.
  destruct (X21_delete_unlinks_a_neighbour_node Compare 0 demo_rbt demo_heap Top 0%nat true
              (Node 1 true (Node 3 false Leaf 20 Leaf) 50 (Node 4 false Leaf 60 Leaf))
              70
              (Node 2 true (Node 5 false Leaf 75 Leaf) 80 (Node 6 false Leaf 100 Leaf))
              70 Comparator_Compare demo_valid eq_refl)
    as (rbt' & h' & t' & E & HV & H1 & _).
  exists rbt', h', t'. split_and!; [exact E|exact HV|].
  destruct (H1 ltac:(discriminate)) as (x & w & A' & EA & Hin).
  simpl in EA. injection EA as <- <- <-. exact Hin.
Defined.

(** * A tree without comparator *)

Lemma load_last {T : Type} (h : heap T) (n : RBNode T) :
  load (h ++ [n]) (Some (length h)) = Ok n.
Proof. apply load_Some. by rewrite list_lookup_middle. Qed.

(** X22.  [New] accepts a nil comparator.  The first [Insert] into such a
    tree succeeds without calling it and makes the value the black root;
    [IsValid] then answers false, and every further [Insert], [Find] or
    [Delete] panics on the nil function. *)
Theorem X22_nil_comparator {T : Type} (zero v w : T) (h : heap T) :
  let rbt1 := mkTree (Some (length h)) None (Some (length h)) (Some (length h)) 1 in
  let h1 := h ++ [mkNode v None None None true] in
  Insert (New None) h v = Ok (Some (length h), true, rbt1, h1)
  /\ IsValid rbt1 h1 = Ok false
  /\ Insert rbt1 h1 w = Panic
  /\ Find rbt1 h1 w = Panic
  /\ Delete zero rbt1 h1 w = Panic.
Proof.
  intros rbt1 h1. split_and!; try reflexivity.
  - unfold Insert, rbt1, h1, fuel_of. cbn [root is_nil insert cmp].
    by rewrite load_last.
  - unfold Find, rbt1, h1, fuel_of. cbn [root is_nil find cmp].
    by rewrite load_last.
  - unfold Delete, rbt1, h1, fuel_of. cbn [root is_nil find cmp].
    by rewrite load_last.
Qed.

(** * The ordered map of the example *)

Module OrderedMap.

Record orderedMapItem (V : Type) : Type := mkItem { key : Z; val : V }.

Arguments mkItem {V} _ _.
Arguments key {V} _.
Arguments val {V} _.

Definition compareKeys {V : Type} (first second : orderedMapItem V) : Z :=
  Compare (key first) (key second).

Lemma Comparator_compareKeys {V : Type} : Comparator (@compareKeys V).
Proof.
  split.
  - intros a b. apply (cmp_flip Compare Comparator_Compare).
  - intros a b c. apply (cmp_trans Compare Comparator_Compare).
Qed.

Lemma compareKeys_eq {V : Type} (a b : orderedMapItem V) :
  compareKeys a b = 0 <-> key a = key b.
Proof.
  unfold compareKeys, Compare.
  destruct (Z.ltb_spec (key a) (key b)), (Z.gtb_spec (key a) (key b)); lia.
Qed.

End OrderedMap.

Lemma Rep_in_cell {T : Type} (h : heap T) (t : tree) a (x : T) :
  Rep h t -> (a, x) ∈ inorder t -> exists n, h !! a = Some n /\ Val n = x.
Proof.
  intros HR Hin. apply list_elem_of_split in Hin as (B & A & E).
  destruct (focus_of_inorder t B a x A E) as (k & c & l & r & -> & _); [by destruct HR|].
  eexists. split; [by apply (Rep_focus h k a c l x r)|done].
Qed.

(** X23.  A tree ordered by [compareKeys] is a map that keeps the first
    value of a key: with the item of key [k] stored at node [a], [Insert] of
    another item of key [k] changes nothing and returns [a] with false,
    [Find] with key [k] returns [a], whose cell holds the stored item, and
    [Delete] with key [k] returns the stored item, not the one passed. *)
Theorem X23_ordered_map_keeps_first_value
    {V : Type} (zero : OrderedMap.orderedMapItem V)
    (rbt : RBTree (OrderedMap.orderedMapItem V)) (h : heap (OrderedMap.orderedMapItem V))
    (t : tree) (a : addr) (k : Z) (v v' : V) :
  Valid OrderedMap.compareKeys rbt h t ->
  (a, OrderedMap.mkItem k v) ∈ inorder t ->
  Insert rbt h (OrderedMap.mkItem k v') = Ok (Some a, false, rbt, h)
  /\ Find rbt h (OrderedMap.mkItem k v') = Ok (Some a, true)
  /\ (exists n, h !! a = Some n /\ Val n = OrderedMap.mkItem k v)
  /\ exists rbt' h' t',
       Delete zero rbt h (OrderedMap.mkItem k v') = Ok (OrderedMap.mkItem k v, true, rbt', h')
       /\ Valid OrderedMap.compareKeys rbt' h' t'
       /\ forall b x, (b, x) ∈ inorder t' -> OrderedMap.key x <> k.
Proof.
  intros HV Hin.
  pose proof (@OrderedMap.Comparator_compareKeys V) as Hf.
  assert (E0 : OrderedMap.compareKeys (OrderedMap.mkItem k v') (OrderedMap.mkItem k v) = 0)
    by (by apply OrderedMap.compareKeys_eq).
  pose proof (find_abs_at _ Hf t _ a _ (v_sorted _ _ _ _ HV) Hin E0) as Hfind.
  split_and!.
  - by apply (Insert_found _ Hf rbt h t _ a true).
  - by rewrite (Find_abs _ rbt h t _ HV), Hfind.
  - apply (Rep_in_cell h t); [by destruct HV|done].
  - destruct (Delete_spec _ Hf zero rbt h t (OrderedMap.mkItem k v') HV)
      as ([[[del ok] rbt'] h'] & E & Hpost).
    unfold Delete_post in Hpost. rewrite Hfind in Hpost.
    destruct Hpost as (-> & Hlen & B & x & A & t' & Et & Ex & -> & HV' & Hsnd).
    assert (Hx : (a, x) ∈ inorder t) by (rewrite Et; set_solver).
    pose proof (equal_unique _ Hf t _ a x a _ (v_sorted _ _ _ _ HV) Hx Hin Ex E0) as Heq.
    injection Heq as ->.
    exists rbt', h', t'. split_and!; try done.
    intros b y Hy Hk.
    assert (Hy' : y ∈ map snd (inorder t')).
    { change y with (snd (b, y)). by apply list_elem_of_fmap_2. }
    rewrite Hsnd in Hy'.
    pose proof (v_sorted _ _ _ _ HV) as Hso. unfold Sorted_tree in Hso. rewrite Et in Hso.
    apply (removed_absent _ Hf B A a _ (OrderedMap.mkItem k v') Hso E0 y Hy').
    by apply OrderedMap.compareKeys_eq.
Qed.

(** A map with the items 1 -> 10, 3 -> 30 and 7 -> 70. *)
Definition map_heap : heap (OrderedMap.orderedMapItem Z) :=
  [ mkNode (OrderedMap.mkItem 3 30) (Some 1%nat) (Some 2%nat) None true;
    mkNode (OrderedMap.mkItem 1 10) None None (Some 0%nat) false;
    mkNode (OrderedMap.mkItem 7 70) None None (Some 0%nat) false ].

Definition map_rbt : RBTree (OrderedMap.orderedMapItem Z) :=
  mkTree (Some 0%nat) (Some OrderedMap.compareKeys) (Some 1%nat) (Some 2%nat) 3.

Definition map_tree : @tree (OrderedMap.orderedMapItem Z) :=
  Node 0 true
    (Node 1 false Leaf (OrderedMap.mkItem 1 10) Leaf)
    (OrderedMap.mkItem 3 30)
    (Node 2 false Leaf (OrderedMap.mkItem 7 70) Leaf).

Lemma map_valid : Valid OrderedMap.compareKeys map_rbt map_heap map_tree.
Proof. valid_by_computation 1%nat. Qed.

Lemma X23_ordered_map_keeps_first_value_witness :
  Insert map_rbt map_heap (OrderedMap.mkItem 1 99) = Ok (Some 1%nat, false, map_rbt, map_heap)
  /\ Find map_rbt map_heap (OrderedMap.mkItem 1 99) = Ok (Some 1%nat, true)
  /\ (exists n, map_heap !! 1%nat = Some n /\ Val n = OrderedMap.mkItem 1 10)
  /\ exists rbt' h' t',
       Delete (OrderedMap.mkItem 0 0) map_rbt map_heap (OrderedMap.mkItem 1 99)
       = Ok (OrderedMap.mkItem 1 10, true, rbt', h')
       /\ Valid OrderedMap.compareKeys rbt' h' t'
       /\ forall b x, (b, x) ∈ inorder t' -> OrderedMap.key x <> 1.
Proof.
  apply (X23_ordered_map_keeps_first_value (OrderedMap.mkItem 0 0) map_rbt map_heap map_tree
           1%nat 1 10 99).
  - exact map_valid.
  - simpl. set_solver.
Defined.

